(** * High-frequency trading engine: matching engine, risk gate, book aggregator

    A shallow embedding of [core/types.h], [core/memory.h], [core/queue.h],
    [matching/matching_engine.h], [risk/risk_manager.h] and
    [market_data/order_book.h], followed by the properties of the
    specification that concern them and by further laws of the same code.

    Conventions.
    - [uint64_t] and [uint32_t] values are integers of [Z]; every arithmetic
      operation of the source that can wrap is followed by [wrap64] or
      [wrap32].
    - [std::int64_t] values are integers of [Z] as well: a conversion and an
      atomic operation wrap around ([wrap_i64]), a plain operation out of
      range is undefined and gives [None], as does a division by zero.
    - A pointer into a [LockFreeMemoryPool] is the index of its node in the
      pool's array; a pointer that may be null is an [option].
    - [std::map<Price, ...>] is the list of its entries in key order,
      [std::unordered_map] is a [gmap].
    - The intrusive list of a price level ([first_order], [next], [prev],
      [last_order]) is the list of the entries it links, head first. *)

From Stdlib Require Import ZArith Lia Bool List.
From stdpp Require Import base option list sorting gmap.
From Equations Require Import Equations.

Local Open Scope Z_scope.

(** ** core/types.h *)

Definition wrap64 (z : Z) : Z := z mod 2 ^ 64.
Definition wrap32 (z : Z) : Z := z mod 2 ^ 32.
Definition wrap16 (z : Z) : Z := z mod 2 ^ 16.
Definition UINT64_MAX : Z := 2 ^ 64 - 1.

Definition is_u64 (z : Z) : Prop := 0 <= z < 2 ^ 64.
Definition is_u32 (z : Z) : Prop := 0 <= z < 2 ^ 32.

Inductive Side := Buy | Sell.
Inductive OrderType := Market | Limit | Stop | StopLimit.
Inductive TimeInForce := Day | Ioc | Fok | Gtc.
Inductive OrderStatus := Incoming | PartiallyFilled | Filled | Cancelled | Rejected.

Module Order.
Record t := mk {
  orderID : Z;
  symbolID : Z;
  side : Side;
  orderType : OrderType;
  TimeInForce : TimeInForce;
  price : Z;
  quantity : Z;
  filledQuantity : Z;
  status : OrderStatus;
  timestamp : Z
}.

(** [Order{}]: every member value-initialised. *)
Definition zero : t := mk 0 0 Buy Market Day 0 0 0 Incoming 0.

Definition set_quantity (q : Z) (o : t) : t :=
  mk (orderID o) (symbolID o) (side o) (orderType o) (TimeInForce o)
     (price o) q (filledQuantity o) (status o) (timestamp o).
Definition set_filledQuantity (f : Z) (o : t) : t :=
  mk (orderID o) (symbolID o) (side o) (orderType o) (TimeInForce o)
     (price o) (quantity o) f (status o) (timestamp o).
Definition set_status (s : OrderStatus) (o : t) : t :=
  mk (orderID o) (symbolID o) (side o) (orderType o) (TimeInForce o)
     (price o) (quantity o) (filledQuantity o) s (timestamp o).
Definition set_TimeInForce f (o : t) : t :=
  mk (orderID o) (symbolID o) (side o) (orderType o) f
     (price o) (quantity o) (filledQuantity o) (status o) (timestamp o).
Definition set_orderType (ty : OrderType) (o : t) : t :=
  mk (orderID o) (symbolID o) (side o) ty (TimeInForce o)
     (price o) (quantity o) (filledQuantity o) (status o) (timestamp o).

(** The fields hold values of their C++ types. *)
Definition wf (o : t) : Prop :=
  is_u64 (orderID o) /\ is_u32 (symbolID o) /\ is_u64 (price o) /\
  is_u64 (quantity o) /\ is_u64 (filledQuantity o) /\ is_u64 (timestamp o).
End Order.

Module Trade.
Record t := mk {
  trade_id : Z;
  buy_order_id : Z;
  sell_order_id : Z;
  symbol_id : Z;
  price : Z;
  quantity : Z;
  timestamp : Z;
  aggressor_side : Side
}.
End Trade.

(** ** core/memory.h: [LockFreeMemoryPool<T, PoolSize>]

    [pool] holds the [data] member of the nodes that have been written,
    [free_list] the nodes reachable from [free_list_head] through [next],
    head first. The engine uses each pool from one thread, so the
    compare-and-swap loops of [acquire] and [release] succeed at their first
    iteration. *)

Module LockFreeMemoryPool.
Section pool.
Context {T : Type}.

Record t := mk {
  pool : gmap nat T;
  free_list : list nat;
  allocated_count : Z
}.

Definition init (PoolSize : Z) : t := mk ∅ (seq 0 (Z.to_nat PoolSize)) 0.

Definition acquire (p : t) : option (nat * t) :=
  match free_list p with
  | [] => None (* Pool exhausted *)
  | head :: next =>
      Some (head, mk (pool p) next (wrap64 (allocated_count p + 1)))
  end.

Definition release (ptr : nat) (p : t) : t :=
  mk (pool p) (ptr :: free_list p) (wrap64 (allocated_count p - 1)).

(** [*ptr] and [*ptr = v]. *)
Definition read (dflt : T) (ptr : nat) (p : t) : T :=
  default dflt (pool p !! ptr).
Definition write (ptr : nat) (v : T) (p : t) : t :=
  mk (<[ptr := v]> (pool p)) (free_list p) (allocated_count p).

(** [size()], [empty()] and [full()] *)
Definition size (p : t) : Z := allocated_count p.
Definition empty (p : t) : bool := allocated_count p =? 0.
Definition full (PoolSize : Z) (p : t) : bool := allocated_count p =? PoolSize.
End pool.
Arguments t : clear implicits.
End LockFreeMemoryPool.



(** ** matching/matching_engine.h *)

Module MatchingEngine.

(** [OrderEntry *]: the index of the entry's node in [order_pool]. *)
Abbreviation OrderEntry := nat.

(** *** [PriceLevel]

    [orders] is the chain [first_order], [first_order->next], ... up to
    [last_order]. [add_order] and [remove_order] read [entry->order.quantity];
    the caller passes it. *)
Module PriceLevel.
Record t := mk {
  price : Z;
  total_quantity : Z;
  order_count : Z;
  orders : list OrderEntry
}.

Definition init (p : Z) : t := mk p 0 0 [].

Definition add_order (entry : OrderEntry) (entry_quantity : Z) (l : t) : t :=
  mk (price l)
     (wrap64 (total_quantity l + entry_quantity))
     (wrap32 (order_count l + 1))
     (orders l ++ [entry]).

(** Unlinking [entry] from the chain: the entries before and after it keep
    their order. *)
Fixpoint unlink (entry : OrderEntry) (chain : list OrderEntry) : list OrderEntry :=
  match chain with
  | [] => []
  | e :: next => if Nat.eqb e entry then next else e :: unlink entry next
  end.

Definition remove_order (entry : OrderEntry) (entry_quantity : Z) (l : t) : t :=
  mk (price l)
     (wrap64 (total_quantity l - entry_quantity))
     (wrap32 (order_count l - 1))
     (unlink entry (orders l)).

Definition empty (l : t) : bool := order_count l =? 0.

Definition set_total_quantity (q : Z) (l : t) : t :=
  mk (price l) q (order_count l) (orders l).
End PriceLevel.

(** *** [price_level_map]: [std::map<Price, std::unique_ptr<PriceLevel>>],
    as the list of its entries in increasing key order. *)
Abbreviation price_level_map := (list (Z * PriceLevel.t)).

Fixpoint map_find (p : Z) (m : price_level_map) : option PriceLevel.t :=
  match m with
  | [] => None
  | (k, l) :: m' => if k =? p then Some l else map_find p m'
  end.

(** [m[p] = l] *)
Fixpoint map_assign (p : Z) (l : PriceLevel.t) (m : price_level_map) : price_level_map :=
  match m with
  | [] => [(p, l)]
  | (k, l') :: m' =>
      if p <? k then (p, l) :: (k, l') :: m'
      else if k =? p then (p, l) :: m'
      else (k, l') :: map_assign p l m'
  end.

Fixpoint map_erase (p : Z) (m : price_level_map) : price_level_map :=
  match m with
  | [] => []
  | (k, l) :: m' => if k =? p then m' else (k, l) :: map_erase p m'
  end.

(** What the two callbacks have been handed, oldest first. *)
Inductive Callback :=
| trade_callback_call (trade : Trade.t)
| order_update_callback_call (order : Order.t).

(** *** The engine's state.

    [trade_callback] and [order_update_callback] tell whether the
    [std::function] is set; [calls] records the calls made to them.
    [trade_id_generator] is the function-local static of [create_trade],
    which the engines of a process share: [init] is an engine made before
    any trade of the process. *)
Record t := mk {
  bid_levels : price_level_map;
  ask_levels : price_level_map;
  order_lookup : gmap Z OrderEntry;
  order_pool : LockFreeMemoryPool.t Order.t;
  trade_pool : LockFreeMemoryPool.t Trade.t;
  total_orders_processed : Z;
  total_trades_generated : Z;
  total_volume_matched : Z;
  trade_callback : bool;
  order_update_callback : bool;
  trade_id_generator : Z;
  calls : list Callback
}.

Definition init : t :=
  mk [] [] ∅ (LockFreeMemoryPool.init 10000) (LockFreeMemoryPool.init 1000)
     0 0 0 false false 1 [].

Definition set_bid_levels (v : price_level_map) (s : t) : t :=
  mk v (ask_levels s) (order_lookup s) (order_pool s) (trade_pool s)
     (total_orders_processed s) (total_trades_generated s) (total_volume_matched s)
     (trade_callback s) (order_update_callback s) (trade_id_generator s) (calls s).
Definition set_ask_levels (v : price_level_map) (s : t) : t :=
  mk (bid_levels s) v (order_lookup s) (order_pool s) (trade_pool s)
     (total_orders_processed s) (total_trades_generated s) (total_volume_matched s)
     (trade_callback s) (order_update_callback s) (trade_id_generator s) (calls s).
Definition set_order_lookup (v : gmap Z OrderEntry) (s : t) : t :=
  mk (bid_levels s) (ask_levels s) v (order_pool s) (trade_pool s)
     (total_orders_processed s) (total_trades_generated s) (total_volume_matched s)
     (trade_callback s) (order_update_callback s) (trade_id_generator s) (calls s).
Definition set_order_pool (v : LockFreeMemoryPool.t Order.t) (s : t) : t :=
  mk (bid_levels s) (ask_levels s) (order_lookup s) v (trade_pool s)
     (total_orders_processed s) (total_trades_generated s) (total_volume_matched s)
     (trade_callback s) (order_update_callback s) (trade_id_generator s) (calls s).
Definition set_trade_pool (v : LockFreeMemoryPool.t Trade.t) (s : t) : t :=
  mk (bid_levels s) (ask_levels s) (order_lookup s) (order_pool s) v
     (total_orders_processed s) (total_trades_generated s) (total_volume_matched s)
     (trade_callback s) (order_update_callback s) (trade_id_generator s) (calls s).
Definition set_total_orders_processed (v : Z) (s : t) : t :=
  mk (bid_levels s) (ask_levels s) (order_lookup s) (order_pool s) (trade_pool s)
     v (total_trades_generated s) (total_volume_matched s)
     (trade_callback s) (order_update_callback s) (trade_id_generator s) (calls s).
Definition set_total_trades_generated (v : Z) (s : t) : t :=
  mk (bid_levels s) (ask_levels s) (order_lookup s) (order_pool s) (trade_pool s)
     (total_orders_processed s) v (total_volume_matched s)
     (trade_callback s) (order_update_callback s) (trade_id_generator s) (calls s).
Definition set_total_volume_matched (v : Z) (s : t) : t :=
  mk (bid_levels s) (ask_levels s) (order_lookup s) (order_pool s) (trade_pool s)
     (total_orders_processed s) (total_trades_generated s) v
     (trade_callback s) (order_update_callback s) (trade_id_generator s) (calls s).
Definition set_trade_callback (v : bool) (s : t) : t :=
  mk (bid_levels s) (ask_levels s) (order_lookup s) (order_pool s) (trade_pool s)
     (total_orders_processed s) (total_trades_generated s) (total_volume_matched s)
     v (order_update_callback s) (trade_id_generator s) (calls s).
Definition set_order_update_callback (v : bool) (s : t) : t :=
  mk (bid_levels s) (ask_levels s) (order_lookup s) (order_pool s) (trade_pool s)
     (total_orders_processed s) (total_trades_generated s) (total_volume_matched s)
     (trade_callback s) v (trade_id_generator s) (calls s).
Definition set_trade_id_generator (v : Z) (s : t) : t :=
  mk (bid_levels s) (ask_levels s) (order_lookup s) (order_pool s) (trade_pool s)
     (total_orders_processed s) (total_trades_generated s) (total_volume_matched s)
     (trade_callback s) (order_update_callback s) v (calls s).
Definition set_calls (v : list Callback) (s : t) : t :=
  mk (bid_levels s) (ask_levels s) (order_lookup s) (order_pool s) (trade_pool s)
     (total_orders_processed s) (total_trades_generated s) (total_volume_matched s)
     (trade_callback s) (order_update_callback s) (trade_id_generator s) v.

(** [entry->order] and [entry->order = o] *)
Definition order_at (entry : OrderEntry) (s : t) : Order.t :=
  LockFreeMemoryPool.read Order.zero entry (order_pool s).
Definition store_order (entry : OrderEntry) (o : Order.t) (s : t) : t :=
  set_order_pool (LockFreeMemoryPool.write entry o (order_pool s)) s.

Definition notify_trade (trade : Trade.t) (s : t) : t :=
  if trade_callback s then set_calls (calls s ++ [trade_callback_call trade]) s else s.
Definition notify_order_update (o : Order.t) (s : t) : t :=
  if order_update_callback s
  then set_calls (calls s ++ [order_update_callback_call o]) s else s.

Definition determine_aggressor_side (buy_order sell_order : Order.t) : Side :=
  if Order.timestamp sell_order <? Order.timestamp buy_order then Buy else Sell.

Section engine.
(** [TimestampManager::get_hardware_timestamp()], as the counter's value when
    the trade of a given id is stamped. *)
Variable get_hardware_timestamp : Z -> Z.

Definition create_trade (buy_order sell_order : Order.t)
    (trade_price trade_qty : Z) (s : t) : option (Trade.t * t) :=
  match LockFreeMemoryPool.acquire (trade_pool s) with
  | None => None
  | Some (ptr, tp) =>
      let id := trade_id_generator s in
      let trade :=
        Trade.mk id (Order.orderID buy_order) (Order.orderID sell_order)
          (Order.symbolID buy_order) trade_price trade_qty
          (get_hardware_timestamp id)
          (determine_aggressor_side buy_order sell_order) in
      Some (trade,
            set_total_trades_generated (wrap64 (total_trades_generated s + 1))
              (set_trade_id_generator (wrap64 (id + 1))
                 (set_trade_pool (LockFreeMemoryPool.write ptr trade tp) s)))
  end.

(** One turn of the loop over the resting orders of a level, in
    [match_buy_order] ([incoming_side = Buy], the resting order sells) or in
    [match_sell_order] ([incoming_side = Sell], the resting order buys): the
    two bodies differ in the order of [create_trade]'s arguments only. *)
Definition match_entry (incoming_side : Side) (working_order : Order.t)
    (level_price : Z) (resting : OrderEntry)
    (level : PriceLevel.t) (s : t) (remaining_qty : Z) (trades : list Trade.t)
    : PriceLevel.t * t * Z * list Trade.t :=
  let o := order_at resting s in
  let trade_qty := Z.min remaining_qty (Order.quantity o) in
  match
    match incoming_side with
    | Buy => create_trade working_order o level_price trade_qty s
    | Sell => create_trade o working_order level_price trade_qty s
    end
  with
  | None => (level, s, remaining_qty, trades)
  | Some (trade, s1) =>
      (* Update quantities *)
      let o1 :=
        Order.set_filledQuantity (wrap64 (Order.filledQuantity o + trade_qty))
          (Order.set_quantity (wrap64 (Order.quantity o - trade_qty)) o) in
      let level1 :=
        PriceLevel.set_total_quantity
          (wrap64 (PriceLevel.total_quantity level - trade_qty)) level in
      let s2 :=
        set_total_volume_matched (wrap64 (total_volume_matched s1 + trade_qty)) s1 in
      (* Update order status *)
      let '(o2, level2, s3) :=
        if Order.quantity o1 =? 0 then
          let o2 := Order.set_status Filled o1 in
          let s3 := store_order resting o2 s2 in
          (o2,
           PriceLevel.remove_order resting (Order.quantity o2) level1,
           set_order_pool (LockFreeMemoryPool.release resting (order_pool s3))
             (set_order_lookup (delete (Order.orderID o2) (order_lookup s3)) s3))
        else
          let o2 := Order.set_status PartiallyFilled o1 in
          (o2, level1, store_order resting o2 s2) in
      (* Notify callbacks *)
      (level2,
       notify_order_update o2 (notify_trade trade s3),
       wrap64 (remaining_qty - trade_qty),
       trades ++ [trade])
  end.

(** The loop over the orders of one level, from [first_order] along the
    [next] pointers read before each turn. *)
Fixpoint match_level (incoming_side : Side) (working_order : Order.t)
    (level_price : Z) (chain : list OrderEntry)
    (level : PriceLevel.t) (s : t) (remaining_qty : Z) (trades : list Trade.t)
    : PriceLevel.t * t * Z * list Trade.t :=
  match chain with
  | [] => (level, s, remaining_qty, trades)
  | resting :: next_order =>
      if 0 <? remaining_qty then
        let '(level', s', remaining_qty', trades') :=
          match_entry incoming_side working_order level_price resting
            level s remaining_qty trades in
        match_level incoming_side working_order level_price next_order
          level' s' remaining_qty' trades'
      else (level, s, remaining_qty, trades)
  end.

(** The loop of [match_buy_order] over [ask_levels], lowest price first;
    [levels] is the map from [ask_it] on. *)
Fixpoint match_ask_levels (buy_order : Order.t) (levels : price_level_map)
    (s : t) (remaining_qty : Z) (trades : list Trade.t)
    : price_level_map * t * Z * list Trade.t :=
  match levels with
  | [] => ([], s, remaining_qty, trades)
  | (level_price, level) :: rest =>
      if (level_price <=? Order.price buy_order) && (0 <? remaining_qty) then
        let '(level', s', remaining_qty', trades') :=
          match_level Buy buy_order level_price (PriceLevel.orders level)
            level s remaining_qty trades in
        let '(rest', s'', remaining_qty'', trades'') :=
          match_ask_levels buy_order rest s' remaining_qty' trades' in
        (* Remove empty price levels *)
        (if PriceLevel.empty level' then rest' else (level_price, level') :: rest',
         s'', remaining_qty'', trades'')
      else (levels, s, remaining_qty, trades)
  end.

Definition inspect {A} (a : A) : {b | a = b} := exist _ a eq_refl.

(** The loop of [match_sell_order] over [bid_levels], highest price first.
    [levels] is the whole map as the reverse iterators see it (decreasing
    keys), [bid_it] the distance of the iterator from [rbegin()]. After an
    erasure the source restarts from [rbegin()]. *)
Equations? match_bid_levels (sell_order : Order.t) (levels : price_level_map)
    (bid_it : nat) (s : t) (remaining_qty : Z) (trades : list Trade.t)
    : price_level_map * t * Z * list Trade.t
    by wf (length levels * S (length levels) + (length levels - bid_it))%nat lt :=
match_bid_levels sell_order levels bid_it s remaining_qty trades
    with inspect (levels !! bid_it) := {
  | exist _ None _ => (levels, s, remaining_qty, trades)
  | exist _ (Some (level_price, level)) Hit =>
      if (Order.price sell_order <=? level_price) && (0 <? remaining_qty) then
        let r :=
          match_level Sell sell_order level_price (PriceLevel.orders level)
            level s remaining_qty trades in
        if PriceLevel.empty r.1.1.1 then
          match_bid_levels sell_order (delete bid_it levels) 0%nat
            r.1.1.2 r.1.2 r.2
        else
          match_bid_levels sell_order (<[bid_it := (level_price, r.1.1.1)]> levels)
            (S bid_it) r.1.1.2 r.1.2 r.2
      else (levels, s, remaining_qty, trades) }.
Proof.
  - rewrite length_delete by eauto. apply lookup_lt_Some in Hit.
    destruct (length levels); simpl in *; lia.
  - apply lookup_lt_Some in Hit. rewrite length_insert. lia.
Qed.

Record MatchResult := mkMatchResult {
  trades : list Trade.t;
  fully_matched : bool;
  remaining_order : option OrderEntry
}.

(** The end of [match_buy_order] and of [match_sell_order]: the entry for
    the remaining quantity. *)
Definition finish_match (incoming_order : Order.t) (s : t)
    (remaining_qty : Z) (trades : list Trade.t) : MatchResult * t :=
  if remaining_qty =? 0 then (mkMatchResult trades true None, s)
  else
    match LockFreeMemoryPool.acquire (order_pool s) with
    | Some (entry, op) =>
        let working_order :=
          Order.set_status Incoming (Order.set_quantity remaining_qty incoming_order) in
        (mkMatchResult trades false (Some entry),
         store_order entry working_order (set_order_pool op s))
    | None => (mkMatchResult trades false None, s)
    end.

Definition match_buy_order (buy_order : Order.t) (s : t) : MatchResult * t :=
  let '(asks, s', remaining_qty, trades) :=
    match_ask_levels buy_order (ask_levels s) s (Order.quantity buy_order) [] in
  finish_match buy_order (set_ask_levels asks s') remaining_qty trades.

Definition match_sell_order (sell_order : Order.t) (s : t) : MatchResult * t :=
  let '(bids, s', remaining_qty, trades) :=
    match_bid_levels sell_order (reverse (bid_levels s)) 0%nat s
      (Order.quantity sell_order) [] in
  finish_match sell_order (set_bid_levels (reverse bids) s') remaining_qty trades.

(** [it->second->...] for the level found at key [p]. *)
Fixpoint map_modify (p : Z) (f : PriceLevel.t -> PriceLevel.t)
    (m : price_level_map) : price_level_map :=
  match m with
  | [] => []
  | (k, l) :: m' => if k =? p then (k, f l) :: m' else (k, l) :: map_modify p f m'
  end.

Definition add_order_to_side (entry : OrderEntry) (o : Order.t)
    (levels : price_level_map) : price_level_map :=
  let price := Order.price o in
  match map_find price levels with
  | None =>
      map_assign price
        (PriceLevel.add_order entry (Order.quantity o) (PriceLevel.init price)) levels
  | Some _ =>
      map_modify price (PriceLevel.add_order entry (Order.quantity o)) levels
  end.

Definition add_order_to_book (entry : OrderEntry) (s : t) : t :=
  let o := order_at entry s in
  let s' :=
    match Order.side o with
    | Buy => set_bid_levels (add_order_to_side entry o (bid_levels s)) s
    | Sell => set_ask_levels (add_order_to_side entry o (ask_levels s)) s
    end in
  set_order_lookup (<[Order.orderID o := entry]> (order_lookup s')) s'.

Definition process_order (incoming_order : Order.t) (s : t) : MatchResult * t :=
  let s0 := set_total_orders_processed (wrap64 (total_orders_processed s + 1)) s in
  let '(result, s1) :=
    match Order.side incoming_order with
    | Buy => match_buy_order incoming_order s0
    | Sell => match_sell_order incoming_order s0
    end in
  (* Add remaining quantity to book if not fully matched *)
  match fully_matched result, remaining_order result with
  | false, Some entry => (result, add_order_to_book entry s1)
  | _, _ => (result, s1)
  end.

Definition remove_order_from_side (entry : OrderEntry) (o : Order.t)
    (levels : price_level_map) : price_level_map :=
  let price := Order.price o in
  match map_find price levels with
  | Some level =>
      if PriceLevel.empty (PriceLevel.remove_order entry (Order.quantity o) level)
      then map_erase price levels
      else map_modify price (PriceLevel.remove_order entry (Order.quantity o)) levels
  | None => levels
  end.

Definition remove_order_from_book (entry : OrderEntry) (s : t) : t :=
  let o := order_at entry s in
  match Order.side o with
  | Buy => set_bid_levels (remove_order_from_side entry o (bid_levels s)) s
  | Sell => set_ask_levels (remove_order_from_side entry o (ask_levels s)) s
  end.

Definition cancel_order (order_id : Z) (s : t) : bool * t :=
  match order_lookup s !! order_id with
  | None => (false, s) (* Order not found *)
  | Some entry =>
      let s1 := remove_order_from_book entry s in
      (* Update order status *)
      let o := Order.set_status Cancelled (order_at entry s1) in
      let s2 := notify_order_update o (store_order entry o s1) in
      (true,
       set_order_lookup (delete order_id (order_lookup s2))
         (set_order_pool (LockFreeMemoryPool.release entry (order_pool s2)) s2))
  end.

Record BookState := mkBookState {
  best_bid : Z;
  best_ask : Z;
  best_bid_qty : Z;
  best_ask_qty : Z;
  bid_levels_count : Z;
  ask_levels_count : Z
}.

Definition get_book_state (s : t) : BookState :=
  let bid := last (bid_levels s) in
  let ask := head (ask_levels s) in
  mkBookState
    (from_option fst 0 bid) (from_option fst 0 ask)
    (from_option (fun e => PriceLevel.total_quantity e.2) 0 bid)
    (from_option (fun e => PriceLevel.total_quantity e.2) 0 ask)
    (wrap32 (Z.of_nat (length (bid_levels s))))
    (wrap32 (Z.of_nat (length (ask_levels s)))).

End engine.
End MatchingEngine.


(** ** core/memory.h: [CircularBuffer<T, Size>]

    [head] and [tail] count the elements popped and pushed; a cell is
    addressed by a counter masked with [Size - 1]. *)

Module CircularBuffer.
Section buffer.
Context {T : Type} `{!Inhabited T}.
Variable Size : Z.

Definition mask : Z := Size - 1.

Record t := mk {
  buffer : list T; (* std::array<T, Size> *)
  head : Z;
  tail : Z
}.

(** A new buffer; [cells] is what the array holds. *)
Definition init (cells : list T) : t := mk cells 0 0.

Definition push (item : T) (b : t) : t :=
  let current_tail := tail b in
  mk (<[Z.to_nat (Z.land current_tail mask) := item]> (buffer b))
     (head b) (wrap64 (current_tail + 1)).

(** [try_pop(item)]: the item read, when the call returns true. *)
Definition try_pop (b : t) : option T * t :=
  let current_head := head b in
  let current_tail := tail b in
  if current_head =? current_tail then (None, b) (* Empty *)
  else
    (Some (buffer b !!! Z.to_nat (Z.land current_head mask)),
     mk (buffer b) (wrap64 (current_head + 1)) (tail b)).

Definition size (b : t) : Z := wrap64 (tail b - head b).

Definition empty (b : t) : bool := head b =? tail b.

(** [operator[]] *)
Definition at_index (index : Z) (b : t) : T :=
  buffer b !!! Z.to_nat (Z.land (wrap64 (head b + index)) mask).
End buffer.
Arguments t : clear implicits.
End CircularBuffer.

(** ** core/queue.h: [SPSCQueue<T, Size>]

    One producer and one consumer; the calls are taken one after the
    other. *)

Module SPSCQueue.
Section queue.
Context {T : Type} `{!Inhabited T}.
Variable Size : Z.

Definition mask : Z := Size - 1.

Record t := mk {
  head : Z;
  tail : Z;
  buffer : list T (* std::array<T, Size> *)
}.

(** A new queue; [cells] is what the array holds. *)
Definition init (cells : list T) : t := mk 0 0 cells.

Definition try_push (item : T) (q : t) : bool * t :=
  let current_tail := tail q in
  let next_tail := Z.land (wrap64 (current_tail + 1)) mask in
  if next_tail =? head q then (false, q) (* Queue is full *)
  else
    (true,
     mk (head q) next_tail (<[Z.to_nat current_tail := item]> (buffer q))).

(** [try_pop(item)]: the item read, when the call returns true. *)
Definition try_pop (q : t) : option T * t :=
  let current_head := head q in
  if current_head =? tail q then (None, q) (* Queue is empty *)
  else
    (Some (buffer q !!! Z.to_nat current_head),
     mk (Z.land (wrap64 (current_head + 1)) mask) (tail q) (buffer q)).

Definition clear (q : t) : t := mk (tail q) (tail q) (buffer q).

Definition size (q : t) : Z := Z.land (wrap64 (tail q - head q)) mask.

Definition empty (q : t) : bool := head q =? tail q.

Definition full (q : t) : bool :=
  let next_tail := Z.land (wrap64 (tail q + 1)) mask in
  next_tail =? head q.

Definition capacity : Z := Size - 1. (* One slot reserved *)
End queue.
Arguments t : clear implicits.
End SPSCQueue.

(** ** risk/risk_manager.h: the token bucket *)

Module RiskManager.

Module RateLimiter.
Record t := mk {
  tokens : Z;
  last_refill_time : Z;
  refill_rate : Z; (* tokens per second *)
  bucket_size : Z
}.

(** [RateLimiter()], built when the hardware counter shows [now]. *)
Definition default (now : Z) : t := mk 1000 now 1000 1000.

(** [RateLimiter(rate, size)]: the constructor sets [refill_rate],
    [bucket_size] and [last_refill_time]; [tokens] keeps its default member
    initializer. *)
Definition make (rate size now : Z) : t := mk 1000 now rate size.

Definition set_tokens (v : Z) (l : t) : t :=
  mk v (last_refill_time l) (refill_rate l) (bucket_size l).
Definition set_last_refill_time (v : Z) (l : t) : t :=
  mk (tokens l) v (refill_rate l) (bucket_size l).

(** The members hold values of their C++ types. *)
Definition wf (l : t) : Prop :=
  is_u32 (tokens l) /\ is_u64 (last_refill_time l) /\
  is_u32 (refill_rate l) /\ is_u32 (bucket_size l).
End RateLimiter.

(** A division of unsigned values; by zero it is undefined, and the step
    gives [None]. *)
Definition div_u64 (a b : Z) : option Z :=
  if b =? 0 then None else Some (a / b).

(** [TimestampManager::tsc_to_nanoseconds(tsc).count()] for a counter of
    frequency [tsc_frequency], which is 0 until
    [TimestampManager::initialize()] has run. *)
Definition tsc_to_nanoseconds (tsc_frequency tsc : Z) : option Z :=
  div_u64 (wrap64 (tsc * 1000000000)) tsc_frequency.

(** [elapsed_ns * limiter.refill_rate / 1000000000ULL], cast to
    [std::uint32_t]. *)
Definition tokens_to_add (elapsed_ns refill_rate : Z) : Z :=
  wrap32 (wrap64 (elapsed_ns * refill_rate) / 1000000000).

(** Refill tokens based on elapsed time. [current_time] is what
    [get_hardware_timestamp()] returns in this call. *)
Definition refill (tsc_frequency current_time : Z) (limiter : RateLimiter.t)
    : option RateLimiter.t :=
  let last_time := RateLimiter.last_refill_time limiter in
  if last_time <? current_time then
    elapsed_ns ← tsc_to_nanoseconds tsc_frequency (current_time - last_time);
    let tokens_to_add := tokens_to_add elapsed_ns (RateLimiter.refill_rate limiter) in
    if 0 <? tokens_to_add then
      let current_tokens := RateLimiter.tokens limiter in
      let new_tokens :=
        Z.min (wrap32 (current_tokens + tokens_to_add))
              (RateLimiter.bucket_size limiter) in
      Some (RateLimiter.set_last_refill_time current_time
              (RateLimiter.set_tokens new_tokens limiter))
    else Some limiter
  else Some limiter.

(** The limiter is used from one thread here: the compare-and-swap of the
    consuming loop succeeds at its first try. *)
Definition check_rate_limit (tsc_frequency current_time : Z)
    (limiter : RateLimiter.t) : option (bool * RateLimiter.t) :=
  limiter' ← refill tsc_frequency current_time limiter;
  (* Try to consume a token *)
  let current_tokens := RateLimiter.tokens limiter' in
  if 0 <? current_tokens
  then Some (true, RateLimiter.set_tokens (current_tokens - 1) limiter')
  else Some (false, limiter').

(** The limiter [get_or_create_symbol_limiter] makes for a symbol that has
    none. *)
Definition new_symbol_limiter (now : Z) : RateLimiter.t :=
  RateLimiter.make 100 100 now.

(** ** risk/risk_manager.h: limits, positions and the order check *)

(** [core/types.h] *)
Definition PriceScale : Z := 100000000.

Definition calculate_notional (price quantity : Z) : Z :=
  wrap64 (price * quantity) / PriceScale.

(** [std::int64_t]. A conversion to the type and an operation of a
    [std::atomic<std::int64_t>] wrap around; an operation on plain values
    whose result the type cannot hold is undefined: such a step gives
    [None]. *)
Definition wrap_i64 (z : Z) : Z := (z + 2 ^ 63) mod 2 ^ 64 - 2 ^ 63.

Definition is_i64 (z : Z) : Prop := - 2 ^ 63 <= z < 2 ^ 63.

Definition checked_i64 (z : Z) : option Z :=
  if (- 2 ^ 63 <=? z) && (z <? 2 ^ 63) then Some z else None.

Inductive RiskResult :=
| approved
| rejected_position_limit
| rejected_notional_limit
| rejected_rate_limit
| rejected_loss_limit
| rejected_order_size
| rejected_price_limit.

Module RiskLimits.
Record t := mk {
  max_position : Z;
  max_notional : Z;
  max_orders_per_second : Z;
  max_loss_per_day : Z;
  max_order_size : Z;
  max_price_deviation : Z (* 10$ from reference *)
}.

(** The default member initialisers; [to_scaled_price(10.0)] is
    [1000000000]. *)
Definition default : t :=
  mk 1000000 (10000000 * PriceScale) 1000 (100000 * PriceScale) 100000 1000000000.

(** The members hold values of their C++ types. *)
Definition wf (l : t) : Prop :=
  is_u64 (max_position l) /\ is_u64 (max_notional l) /\
  is_u32 (max_orders_per_second l) /\ is_u64 (max_loss_per_day l) /\
  is_u64 (max_order_size l) /\ is_u64 (max_price_deviation l).
End RiskLimits.

Module PositionTracker.
Record t := mk {
  current_position : Z; (* Signed for long/short *)
  current_notional : Z;
  realized_pnl : Z; (* Signed PnL *)
  order_count_today : Z;
  vwap : Z; (* Volume weighted average price *)
  total_volume : Z
}.

Definition zero : t := mk 0 0 0 0 0 0.

Definition set_current_position (v : Z) (p : t) : t :=
  mk v (current_notional p) (realized_pnl p) (order_count_today p) (vwap p)
     (total_volume p).
Definition set_current_notional (v : Z) (p : t) : t :=
  mk (current_position p) v (realized_pnl p) (order_count_today p) (vwap p)
     (total_volume p).
Definition set_realized_pnl (v : Z) (p : t) : t :=
  mk (current_position p) (current_notional p) v (order_count_today p) (vwap p)
     (total_volume p).
Definition set_vwap (v : Z) (p : t) : t :=
  mk (current_position p) (current_notional p) (realized_pnl p)
     (order_count_today p) v (total_volume p).
Definition set_total_volume (v : Z) (p : t) : t :=
  mk (current_position p) (current_notional p) (realized_pnl p)
     (order_count_today p) (vwap p) v.
End PositionTracker.

Module PositionInfo.
Record t := mk {
  position : Z;
  notional : Z;
  pnl : Z;
  vwap : Z;
  order_count : Z
}.
End PositionInfo.

Record t := mk {
  global_limits : RiskLimits.t;
  positions : gmap Z PositionTracker.t;
  symbol_limits : gmap Z RiskLimits.t;
  global_rate_limiter : RateLimiter.t;
  symbol_rate_limiters : gmap Z RateLimiter.t;
  reference_prices : gmap Z Z
}.

Definition set_global_limits_field (v : RiskLimits.t) (s : t) : t :=
  mk v (positions s) (symbol_limits s) (global_rate_limiter s)
     (symbol_rate_limiters s) (reference_prices s).
Definition set_positions (v : gmap Z PositionTracker.t) (s : t) : t :=
  mk (global_limits s) v (symbol_limits s) (global_rate_limiter s)
     (symbol_rate_limiters s) (reference_prices s).
Definition set_symbol_limits_field (v : gmap Z RiskLimits.t) (s : t) : t :=
  mk (global_limits s) (positions s) v (global_rate_limiter s)
     (symbol_rate_limiters s) (reference_prices s).
Definition set_global_rate_limiter (v : RateLimiter.t) (s : t) : t :=
  mk (global_limits s) (positions s) (symbol_limits s) v
     (symbol_rate_limiters s) (reference_prices s).
Definition set_symbol_rate_limiters (v : gmap Z RateLimiter.t) (s : t) : t :=
  mk (global_limits s) (positions s) (symbol_limits s) (global_rate_limiter s)
     v (reference_prices s).
Definition set_reference_prices (v : gmap Z Z) (s : t) : t :=
  mk (global_limits s) (positions s) (symbol_limits s) (global_rate_limiter s)
     (symbol_rate_limiters s) v.

(** [RiskManager()], built when the hardware counter shows [now]. *)
Definition init (now : Z) : t :=
  mk RiskLimits.default ∅ ∅ (RateLimiter.default now) ∅ ∅.

(** [initialize()] stores five of the six global limits. *)
Definition initialize (s : t) : t :=
  set_global_limits_field
    (RiskLimits.mk 1000000 (10000000 * PriceScale) 1000 (100000 * PriceScale)
       100000 (RiskLimits.max_price_deviation (global_limits s))) s.

(** [now] is what the hardware counter shows if a limiter is made. *)
Definition get_or_create_symbol_limiter (now : Z) (symbol_id : Z) (s : t)
    : RateLimiter.t * t :=
  match symbol_rate_limiters s !! symbol_id with
  | None =>
      let limiter := new_symbol_limiter now in (* Per-symbol limits *)
      (limiter,
       set_symbol_rate_limiters (<[symbol_id := limiter]> (symbol_rate_limiters s)) s)
  | Some limiter => (limiter, s)
  end.

Definition check_price_deviation (order : Order.t) (s : t) : bool :=
  match reference_prices s !! Order.symbolID order with
  | None => true (* No reference price set, allow order *)
  | Some ref_price =>
      if ref_price =? 0 then true (* No valid reference price *)
      else
        let max_deviation := RiskLimits.max_price_deviation (global_limits s) in
        let price_diff :=
          if ref_price <? Order.price order
          then wrap64 (Order.price order - ref_price)
          else wrap64 (ref_price - Order.price order) in
        price_diff <=? max_deviation
  end.

(** [positions[symbol_id]]: a tracker is made for a symbol that has none. *)
Definition position_entry (symbol_id : Z) (s : t) : PositionTracker.t * t :=
  let position := default PositionTracker.zero (positions s !! symbol_id) in
  (position, set_positions (<[symbol_id := position]> (positions s)) s).

(** The signed quantity of an order or a trade of [side]. *)
Definition signed_quantity (side : Side) (quantity : Z) : option Z :=
  match side with
  | Buy => Some (wrap_i64 quantity)
  | Sell => checked_i64 (- wrap_i64 quantity)
  end.

(** [check_order(order)]. The hardware counter shows [now_global] at the
    check of the global limiter, [now_create] if a limiter is made for the
    symbol, [now_symbol] at the check of the symbol's limiter. *)
Definition check_order (tsc_frequency now_global now_create now_symbol : Z)
    (order : Order.t) (s : t) : option (RiskResult * t) :=
  (* Global rate limiting check *)
  '(passed, limiter) ←
    check_rate_limit tsc_frequency now_global (global_rate_limiter s);
  let s := set_global_rate_limiter limiter s in
  if negb passed then Some (rejected_rate_limit, s) else
  (* Symbol-specific rate limiting *)
  let '(symbol_limiter, s) :=
    get_or_create_symbol_limiter now_create (Order.symbolID order) s in
  '(passed, symbol_limiter) ←
    check_rate_limit tsc_frequency now_symbol symbol_limiter;
  let s :=
    set_symbol_rate_limiters
      (<[Order.symbolID order := symbol_limiter]> (symbol_rate_limiters s)) s in
  if negb passed then Some (rejected_rate_limit, s) else
  (* Order size check *)
  if RiskLimits.max_order_size (global_limits s) <? Order.quantity order
  then Some (rejected_order_size, s) else
  (* Price deviation check *)
  if negb (check_price_deviation order s) then Some (rejected_price_limit, s) else
  (* Position and notional checks *)
  let '(position, s) := position_entry (Order.symbolID order) s in
  (* Calculate new position *)
  position_change ← signed_quantity (Order.side order) (Order.quantity order);
  new_position ←
    checked_i64 (PositionTracker.current_position position + position_change);
  (* Position limit check *)
  abs_position ← checked_i64 (Z.abs new_position);
  if RiskLimits.max_position (global_limits s) <? wrap64 abs_position
  then Some (rejected_position_limit, s) else
  (* Notional limit check *)
  let order_notional :=
    calculate_notional (Order.price order) (Order.quantity order) in
  let current_notional := PositionTracker.current_notional position in
  (* For position increases, check if we exceed notional limits *)
  if ((0 <? new_position) && (0 <? position_change)
      || (new_position <? 0) && (position_change <? 0))
     && (RiskLimits.max_notional (global_limits s)
           <? wrap64 (current_notional + order_notional))
  then Some (rejected_notional_limit, s) else
  (* Loss limit check *)
  let current_pnl := PositionTracker.realized_pnl position in
  loss_limit ←
    checked_i64 (- wrap_i64 (RiskLimits.max_loss_per_day (global_limits s)));
  if current_pnl <? loss_limit then Some (rejected_loss_limit, s)
  else Some (approved, s).

Definition update_vwap (position : PositionTracker.t) (price quantity : Z)
    : option PositionTracker.t :=
  let old_volume := PositionTracker.total_volume position in
  let position :=
    PositionTracker.set_total_volume (wrap64 (old_volume + quantity)) position in
  let old_vwap := PositionTracker.vwap position in
  (* Calculate new VWAP: (old_vwap * old_volume + price * quantity) / (old_volume + quantity) *)
  let old_total_value := wrap64 (old_vwap * old_volume) / PriceScale in
  let new_value := wrap64 (price * quantity) / PriceScale in
  new_vwap ←
    div_u64 (wrap64 (wrap64 (old_total_value + new_value) * PriceScale))
      (wrap64 (old_volume + quantity));
  Some (PositionTracker.set_vwap new_vwap position).

Definition calculate_pnl_change (position : PositionTracker.t)
    (exit_price quantity : Z) : Z :=
  let entry_vwap := PositionTracker.vwap position in
  if entry_vwap =? 0 then 0
  else
    let current_pos := PositionTracker.current_position position in
    if 0 <? current_pos then
      (* Long position being reduced *)
      wrap_i64 (wrap64 (wrap64 (exit_price - entry_vwap) * quantity) / PriceScale)
    else
      (* Short position being reduced *)
      wrap_i64 (wrap64 (wrap64 (entry_vwap - exit_price) * quantity) / PriceScale).

Definition update_position (trade : Trade.t) (s : t) : option t :=
  let '(position, s) := position_entry (Trade.symbol_id trade) s in
  (* Determine position change based on which side we were on *)
  position_change ←
    signed_quantity (Trade.aggressor_side trade) (Trade.quantity trade);
  let notional_change :=
    calculate_notional (Trade.price trade) (Trade.quantity trade) in
  (* Update position *)
  let old_position := PositionTracker.current_position position in
  let position :=
    PositionTracker.set_current_position
      (wrap_i64 (old_position + position_change)) position in
  (* Update VWAP *)
  position ← update_vwap position (Trade.price trade) (Trade.quantity trade);
  (* Calculate and update PnL if position is being reduced *)
  position ←
    (if (0 <? old_position) && (position_change <? 0)
        || (old_position <? 0) && (0 <? position_change)
     then
       abs_change ← checked_i64 (Z.abs position_change);
       let pnl_change :=
         calculate_pnl_change position (Trade.price trade) (wrap64 abs_change) in
       Some (PositionTracker.set_realized_pnl
               (wrap_i64 (PositionTracker.realized_pnl position + pnl_change))
               position)
     else Some position);
  (* Update notional (only for position increases) *)
  position ←
    (if (0 <=? old_position) && (0 <? position_change)
        || (old_position <=? 0) && (position_change <? 0)
     then
       Some (PositionTracker.set_current_notional
               (wrap64 (PositionTracker.current_notional position + notional_change))
               position)
     else
       (* Position reduction - reduce notional proportionally *)
       let current_notional := PositionTracker.current_notional position in
       if 0 <? current_notional then
         abs_position ← checked_i64 (Z.abs old_position);
         notional_reduction ←
           div_u64 (wrap64 (notional_change * current_notional))
             (wrap64 (wrap64 abs_position * Trade.price trade) / PriceScale);
         Some (PositionTracker.set_current_notional
                 (wrap64 (current_notional
                          - Z.min notional_reduction current_notional))
                 position)
       else Some position);
  Some (set_positions (<[Trade.symbol_id trade := position]> (positions s)) s).

(** [reference_prices[symbol_id].store(price)] *)
Definition update_reference_price (symbol_id price : Z) (s : t) : t :=
  set_reference_prices (<[symbol_id := price]> (reference_prices s)) s.

(** [copy_from] stores the six limits one by one. *)
Definition set_global_limits (limits : RiskLimits.t) (s : t) : t :=
  set_global_limits_field limits s.

Definition set_symbol_limits (symbol_id : Z) (limits : RiskLimits.t) (s : t) : t :=
  set_symbol_limits_field (<[symbol_id := limits]> (symbol_limits s)) s.

Definition get_position_info (symbol_id : Z) (s : t) : PositionInfo.t :=
  match positions s !! symbol_id with
  | None => PositionInfo.mk 0 0 0 0 0
  | Some pos =>
      PositionInfo.mk (PositionTracker.current_position pos)
        (PositionTracker.current_notional pos) (PositionTracker.realized_pnl pos)
        (PositionTracker.vwap pos) (PositionTracker.order_count_today pos)
  end.

End RiskManager.

(** ** market_data/order_book.h: [OrderBook<MaxLevels>] *)

Module OrderBook.

Module Level.
Record t := mk {
  price : Z;
  quantity : Z;
  order_count : Z
}.
Definition set_quantity (q : Z) (l : t) : t := mk (price l) q (order_count l).
End Level.

Module BookSide.
Record t := mk {
  levels : list Level.t; (* std::array<Level, MaxLevels> *)
  level_count : Z;
  price_to_index : gmap Z Z (* Price -> uint16_t *)
}.
Definition set_levels (v : list Level.t) (b : t) : t :=
  mk v (level_count b) (price_to_index b).
Definition set_level_count (v : Z) (b : t) : t :=
  mk (levels b) v (price_to_index b).
Definition set_price_to_index (v : gmap Z Z) (b : t) : t :=
  mk (levels b) (level_count b) v.

(** [levels[i]] *)
Definition at_index (i : Z) (b : t) : Level.t :=
  default (Level.mk 0 0 0) (levels b !! Z.to_nat i).
(** [levels[i] = l] *)
Definition store (i : Z) (l : Level.t) (b : t) : t :=
  set_levels (<[Z.to_nat i := l]> (levels b)) b.
(** [price_to_index[p] = i], [i] converted to [uint16_t] *)
Definition index (p : Z) (i : Z) (b : t) : t :=
  set_price_to_index (<[p := wrap16 i]> (price_to_index b)) b.
End BookSide.

Record t := mk {
  bids : BookSide.t; (* Sorted descending (highest first) *)
  asks : BookSide.t; (* Sorted ascending (lowest first) *)
  version : Z;
  best_bid : Z;
  best_ask : Z;
  best_bid_qty : Z;
  best_ask_qty : Z
}.

(** A new book; [bid_cells] and [ask_cells] are what the two arrays hold,
    which no constructor sets. *)
Definition init (bid_cells ask_cells : list Level.t) : t :=
  mk (BookSide.mk bid_cells 0 ∅) (BookSide.mk ask_cells 0 ∅) 0 0 UINT64_MAX 0 0.

Definition get_best_bid (b : t) : Z := best_bid b.

Definition get_best_ask (b : t) : Z :=
  let ask := best_ask b in
  if ask =? UINT64_MAX then 0 else ask.

Definition get_bid_quantity (price : Z) (b : t) : Z :=
  match BookSide.price_to_index (bids b) !! price with
  | Some i => Level.quantity (BookSide.at_index i (bids b))
  | None => 0
  end.

Definition get_ask_quantity (price : Z) (b : t) : Z :=
  match BookSide.price_to_index (asks b) !! price with
  | Some i => Level.quantity (BookSide.at_index i (asks b))
  | None => 0
  end.

(** [get_bid_levels(depth)] and [get_ask_levels(depth)]: the top levels of
    a side; [depth] is converted to [uint32_t]. *)
Definition get_bid_levels (depth : Z) (b : t) : list Level.t :=
  let count := Z.min (wrap32 depth) (BookSide.level_count (bids b)) in
  take (Z.to_nat count) (BookSide.levels (bids b)).

Definition get_ask_levels (depth : Z) (b : t) : list Level.t :=
  let count := Z.min (wrap32 depth) (BookSide.level_count (asks b)) in
  take (Z.to_nat count) (BookSide.levels (asks b)).

Definition is_crossed (b : t) : bool :=
  let bid := best_bid b in
  let ask := best_ask b in
  (0 <? bid) && negb (ask =? UINT64_MAX) && (ask <=? bid).

Definition get_mid_price (b : t) : Z :=
  let bid := best_bid b in
  let ask := best_ask b in
  if (0 <? bid) && negb (ask =? UINT64_MAX) then wrap64 (bid + ask) / 2 else 0.

Record BookSnapshot := mkBookSnapshot {
  snapshot_best_bid_price : Z;
  snapshot_best_ask_price : Z;
  snapshot_best_bid_qty : Z;
  snapshot_best_ask_qty : Z;
  snapshot_version : Z;
  snapshot_timestamp : Z
}.

(** [get_snapshot()], when the hardware counter shows [now]. *)
Definition get_snapshot (now : Z) (b : t) : BookSnapshot :=
  mkBookSnapshot (best_bid b) (best_ask b) (best_bid_qty b) (best_ask_qty b)
    (version b) now.

(** The first loop of [add_level]: [cells] are [levels[i]], [levels[i+1]],
    ... up to [levels[current_count - 1]]. *)
Fixpoint find_insert_index (is_bid_side : bool) (price : Z)
    (cells : list Level.t) (i : Z) : Z :=
  match cells with
  | [] => i
  | l :: cells' =>
      if (if is_bid_side then Level.price l <? price else price <? Level.price l)
      then i
      else find_insert_index is_bid_side price cells' (i + 1)
  end.

(** The second loop of [add_level], [n] turns from [i] downwards: shift
    elements to make room. *)
Fixpoint shift_up (n : nat) (i : Z) (book_side : BookSide.t) : BookSide.t :=
  match n with
  | O => book_side
  | S n' =>
      let shifted := BookSide.at_index (i - 1) book_side in
      shift_up n' (i - 1)
        (BookSide.index (Level.price shifted) i (BookSide.store i shifted book_side))
  end.

(** The loop of [remove_level], [n] turns from [i] upwards: shift elements
    to fill the gap. *)
Fixpoint shift_down (n : nat) (i : Z) (book_side : BookSide.t) : BookSide.t :=
  match n with
  | O => book_side
  | S n' =>
      let shifted := BookSide.at_index (i + 1) book_side in
      shift_down n' (i + 1)
        (BookSide.index (Level.price shifted) i (BookSide.store i shifted book_side))
  end.

Section book.
Variable MaxLevels : Z.

Definition add_level (is_bid_side : bool) (book_side : BookSide.t)
    (price quantity : Z) : BookSide.t :=
  let current_count := BookSide.level_count book_side in
  if MaxLevels <=? current_count then book_side (* Book is full *)
  else
    let insert_index :=
      find_insert_index is_bid_side price
        (take (Z.to_nat current_count) (BookSide.levels book_side)) 0 in
    let shifted :=
      shift_up (Z.to_nat (current_count - insert_index)) current_count book_side in
    BookSide.set_level_count (wrap32 (current_count + 1))
      (BookSide.index price insert_index
         (BookSide.store insert_index (Level.mk price quantity 1) shifted)).

Definition remove_level (book_side : BookSide.t) (index price : Z) : BookSide.t :=
  let current_count := BookSide.level_count book_side in
  if current_count <=? index then book_side
  else
    let shifted :=
      shift_down (Z.to_nat (wrap32 (current_count - 1) - index)) index book_side in
    BookSide.set_level_count (wrap32 (current_count - 1))
      (BookSide.set_price_to_index (delete price (BookSide.price_to_index shifted))
         shifted).

Definition update_best_prices (b : t) : t :=
  let bid_count := BookSide.level_count (bids b) in
  let ask_count := BookSide.level_count (asks b) in
  let bid0 := BookSide.at_index 0 (bids b) in
  let ask0 := BookSide.at_index 0 (asks b) in
  mk (bids b) (asks b) (version b)
     (if 0 <? bid_count then Level.price bid0 else 0)
     (if 0 <? ask_count then Level.price ask0 else UINT64_MAX)
     (if 0 <? bid_count then Level.quantity bid0 else 0)
     (if 0 <? ask_count then Level.quantity ask0 else 0).

(** The locked block of [update_level], on the side it picks. *)
Definition update_side (is_bid_side : bool) (book_side : BookSide.t)
    (price quantity : Z) : BookSide.t :=
  match BookSide.price_to_index book_side !! price with
  | Some index =>
      (* Update existing level *)
      if quantity =? 0 then remove_level book_side index price
      else
        BookSide.store index
          (Level.set_quantity quantity (BookSide.at_index index book_side))
          book_side
  | None =>
      if 0 <? quantity
      then add_level is_bid_side book_side price quantity (* Add new level *)
      else book_side
  end.

Definition update_level (side : Side) (price quantity : Z) (b : t) : t :=
  let b' :=
    match side with
    | Buy =>
        mk (update_side true (bids b) price quantity) (asks b) (version b)
           (best_bid b) (best_ask b) (best_bid_qty b) (best_ask_qty b)
    | Sell =>
        mk (bids b) (update_side false (asks b) price quantity) (version b)
           (best_bid b) (best_ask b) (best_bid_qty b) (best_ask_qty b)
    end in
  let b'' := update_best_prices b' in
  mk (bids b'') (asks b'') (wrap64 (version b'' + 1))
     (best_bid b'') (best_ask b'') (best_bid_qty b'') (best_ask_qty b'').

(** The books [update_level] can make from a new one. *)
Inductive reachable : t -> Prop :=
| reachable_init bid_cells ask_cells :
    length bid_cells = Z.to_nat MaxLevels ->
    length ask_cells = Z.to_nat MaxLevels ->
    reachable (init bid_cells ask_cells)
| reachable_update_level side price quantity b :
    reachable b -> is_u64 price -> is_u64 quantity ->
    reachable (update_level side price quantity b).

End book.
End OrderBook.

(** ** market_data/order_book.h: [OrderBookManager] *)

Module MarketTick.
Record t := mk {
  symbol_id : Z;
  price : Z;
  quantity : Z;
  side : Side;
  timestamp : Z;
  sequence : Z
}.
End MarketTick.

Module OrderBookManager.

(** [order_books]: the books are [OrderBook<>], of 1000 levels a side. *)
Definition t := gmap Z OrderBook.t.

Definition MaxLevels : Z := 1000.

(** [std::make_unique<OrderBook<>>()]: the object is zero-initialised before
    its default member initialisers are applied. *)
Definition new_book : OrderBook.t :=
  OrderBook.init (replicate (Z.to_nat MaxLevels) (OrderBook.Level.mk 0 0 0))
                 (replicate (Z.to_nat MaxLevels) (OrderBook.Level.mk 0 0 0)).

Definition init : t := ∅.

(** The book returned is the one the map holds: a null pointer is [None]. *)
Definition get_order_book (symbol_id : Z) (m : t) : option OrderBook.t :=
  m !! symbol_id.

Definition get_or_create_order_book (symbol_id : Z) (m : t) : OrderBook.t * t :=
  match m !! symbol_id with
  | Some book => (book, m)
  | None => (new_book, <[symbol_id := new_book]> m)
  end.

(** [book->update_level(...)] changes the book the map owns. *)
Definition process_market_data (tick : MarketTick.t) (m : t) : t :=
  let '(book, m') := get_or_create_order_book (MarketTick.symbol_id tick) m in
  <[MarketTick.symbol_id tick :=
      OrderBook.update_level MaxLevels (MarketTick.side tick)
        (MarketTick.price tick) (MarketTick.quantity tick) book]> m'.

Definition get_book_count (m : t) : Z := Z.of_nat (size m).

End OrderBookManager.

(** * Wrap-around *)

Lemma wrap64_u64 z : is_u64 (wrap64 z).
Proof. unfold is_u64, wrap64. apply Z.mod_pos_bound. lia. Qed.

Lemma wrap64_small z : is_u64 z -> wrap64 z = z.
Proof. unfold is_u64, wrap64. intros. by apply Z.mod_small. Qed.

Lemma wrap32_u32 z : is_u32 (wrap32 z).
Proof. unfold is_u32, wrap32. apply Z.mod_pos_bound. lia. Qed.

Lemma wrap32_small z : is_u32 z -> wrap32 z = z.
Proof. unfold is_u32, wrap32. intros. by apply Z.mod_small. Qed.

Lemma wrap64_add_l a b : wrap64 (wrap64 a + b) = wrap64 (a + b).
Proof. unfold wrap64. by rewrite Z.add_mod_idemp_l. Qed.

Lemma mod_eq_inv S a b : 0 < S -> a mod S = b mod S -> exists k, a = b + k * S.
Proof.
  intros HS Heq. exists (a / S - b / S).
  pose proof (Z.div_mod a S ltac:(lia)). pose proof (Z.div_mod b S ltac:(lia)).
  rewrite Z.mul_sub_distr_r. lia.
Qed.

(** Two values at distances below [S] from a counter are the same modulo
    [S] only if the distances are the same. *)
Lemma mod_add_inj S h i j :
  0 < S -> 0 <= i < S -> 0 <= j < S ->
  (h + i) mod S = (h + j) mod S -> i = j.
Proof.
  intros HS Hi Hj Heq. destruct (mod_eq_inv S _ _ HS Heq) as [k Hk].
  assert (k = 0) as -> by (destruct (Z.lt_trichotomy k 0) as [?|[?|?]]; nia).
  lia.
Qed.

(** * Properties of the matching engine *)

Module MatchingEngineProps.
Import MatchingEngine.

Section props.
Variable clk : Z -> Z.

Local Abbreviation match_entry := (MatchingEngine.match_entry clk).
Local Abbreviation match_level := (MatchingEngine.match_level clk).
Local Abbreviation match_ask_levels := (MatchingEngine.match_ask_levels clk).
Local Abbreviation match_bid_levels := (MatchingEngine.match_bid_levels clk).
Local Abbreviation process_order := (MatchingEngine.process_order clk).

(** What a trade made in a level at [level_price] against one of the
    entries of [chain] looks like; [ids] gives the order id of an entry. *)
Definition trade_at_level (incoming_side : Side) (working_order : Order.t)
    (level_price : Z) (ids : OrderEntry -> Z) (chain : list OrderEntry)
    (trade : Trade.t) : Prop :=
  Trade.price trade = level_price /\
  exists resting, resting ∈ chain /\
    match incoming_side with
    | Buy => Trade.buy_order_id trade = Order.orderID working_order /\
             Trade.sell_order_id trade = ids resting
    | Sell => Trade.sell_order_id trade = Order.orderID working_order /\
              Trade.buy_order_id trade = ids resting
    end.

Definition order_ids (s : t) (entry : OrderEntry) : Z :=
  Order.orderID (order_at entry s).

Lemma order_at_store_order_eq entry o s :
  order_at entry (store_order entry o s) = o.
Proof.
  unfold order_at, store_order, LockFreeMemoryPool.read. simpl.
  by rewrite lookup_insert_eq.
Qed.

Lemma order_at_store_order_ne entry entry' o s :
  entry <> entry' ->
  order_at entry' (store_order entry o s) = order_at entry' s.
Proof.
  intros. unfold order_at, store_order, LockFreeMemoryPool.read. simpl.
  by rewrite lookup_insert_ne.
Qed.

Lemma order_at_notify_trade e trade s :
  order_at e (notify_trade trade s) = order_at e s.
Proof. unfold notify_trade. by destruct (trade_callback s). Qed.

Lemma order_at_notify_order_update e o s :
  order_at e (notify_order_update o s) = order_at e s.
Proof. unfold notify_order_update. by destruct (order_update_callback s). Qed.

Lemma create_trade_Some b a p q s trade s' :
  create_trade clk b a p q s = Some (trade, s') ->
  Trade.price trade = p /\ Trade.quantity trade = q /\
  Trade.buy_order_id trade = Order.orderID b /\
  Trade.sell_order_id trade = Order.orderID a /\
  Trade.trade_id trade = trade_id_generator s /\
  order_pool s' = order_pool s /\ order_lookup s' = order_lookup s /\
  bid_levels s' = bid_levels s /\ ask_levels s' = ask_levels s /\
  calls s' = calls s /\
  trade_callback s' = trade_callback s /\
  order_update_callback s' = order_update_callback s.
Proof.
  unfold create_trade. destruct (LockFreeMemoryPool.acquire _) as [[ptr tp]|]; [|done].
  intros [= <- <-]. simpl. repeat split; reflexivity.
Qed.

(** The trade of one turn, when there is one. *)
Definition entry_trade (incoming_side : Side) (working_order : Order.t)
    (level_price : Z) (resting : OrderEntry) (s : t) (remaining_qty : Z)
    : option (Trade.t * t) :=
  let o := order_at resting s in
  let trade_qty := Z.min remaining_qty (Order.quantity o) in
  match incoming_side with
  | Buy => create_trade clk working_order o level_price trade_qty s
  | Sell => create_trade clk o working_order level_price trade_qty s
  end.

Lemma match_entry_no_trade sd w p e level s rem trades :
  entry_trade sd w p e s rem = None ->
  match_entry sd w p e level s rem trades = (level, s, rem, trades).
Proof. unfold entry_trade, match_entry. by intros ->. Qed.

Lemma match_entry_order_ids sd w p e level s rem trades e' :
  order_ids (match_entry sd w p e level s rem trades).1.1.2 e' = order_ids s e'.
Proof.
  unfold match_entry.
  destruct (match sd with Buy => _ | Sell => _ end) as [[trade s1]|] eqn:Hc; [|done].
  assert (order_pool s1 = order_pool s) as Hp.
  { destruct sd; apply create_trade_Some in Hc; tauto. }
  unfold order_ids.
  destruct (_ =? 0); simpl;
    rewrite order_at_notify_order_update, order_at_notify_trade;
    unfold order_at in *; simpl; unfold LockFreeMemoryPool.read; simpl;
    rewrite Hp; (destruct (decide (e = e')) as [->|];
      [rewrite lookup_insert_eq | rewrite lookup_insert_ne by done]); done.
Qed.

Lemma match_entry_trades sd w p e level s rem trades :
  let r := match_entry sd w p e level s rem trades in
  r.2 = trades \/
  exists trade, r.2 = trades ++ [trade] /\
    trade_at_level sd w p (order_ids s) [e] trade.
Proof.
  unfold match_entry.
  destruct (match sd with Buy => _ | Sell => _ end) as [[trade s1]|] eqn:Hc;
    [|by left].
  right. exists trade. split.
  { by destruct (_ =? 0). }
  split.
  { destruct sd; apply create_trade_Some in Hc; tauto. }
  exists e. split; [set_solver|].
  destruct sd; apply create_trade_Some in Hc; unfold order_ids; tauto.
Qed.

(** *** Invariants of the three loops *)

Lemma match_level_inv (I : PriceLevel.t -> t -> Z -> list Trade.t -> Prop)
    sd w p chain :
  (forall e level s rem trades, e ∈ chain -> 0 < rem -> I level s rem trades ->
     let r := match_entry sd w p e level s rem trades in
     I r.1.1.1 r.1.1.2 r.1.2 r.2) ->
  forall level s rem trades, I level s rem trades ->
    let r := match_level sd w p chain level s rem trades in
    I r.1.1.1 r.1.1.2 r.1.2 r.2.
Proof.
  induction chain as [|e chain IH]; intros Hstep level s rem trades HI; [done|].
  simpl. destruct (0 <? rem) eqn:Hrem; [|done].
  apply Z.ltb_lt in Hrem.
  pose proof (Hstep e level s rem trades ltac:(set_solver) Hrem HI) as H1.
  destruct (match_entry sd w p e level s rem trades) as [[[level' s'] rem'] trades'].
  apply IH; [|done].
  intros. apply Hstep; [set_solver|done..].
Qed.

Lemma match_ask_levels_inv (I : t -> Z -> list Trade.t -> Prop) w levels :
  (forall p level s rem trades,
     (p, level) ∈ levels -> p <= Order.price w -> 0 < rem -> I s rem trades ->
     let r := match_level Buy w p (PriceLevel.orders level) level s rem trades in
     I r.1.1.2 r.1.2 r.2) ->
  forall s rem trades, I s rem trades ->
    let r := match_ask_levels w levels s rem trades in
    I r.1.1.2 r.1.2 r.2.
Proof.
  induction levels as [|[p level] levels IH]; intros Hstep s rem trades HI; [done|].
  simpl. destruct (_ && _) eqn:Hc; [|done].
  apply andb_true_iff in Hc as [Hp Hrem].
  apply Z.leb_le in Hp. apply Z.ltb_lt in Hrem.
  pose proof (Hstep p level s rem trades ltac:(set_solver) Hp Hrem HI) as H1.
  destruct (match_level Buy w p _ level s rem trades) as [[[level' s'] rem'] trades'].
  simpl in H1.
  assert (forall p level s rem trades,
     (p, level) ∈ levels -> p <= Order.price w -> 0 < rem -> I s rem trades ->
     let r := match_level Buy w p (PriceLevel.orders level) level s rem trades in
     I r.1.1.2 r.1.2 r.2) as Hstep'.
  { intros. apply Hstep; [set_solver|done..]. }
  pose proof (IH Hstep' s' rem' trades' H1) as H2.
  destruct (match_ask_levels w levels s' rem' trades') as [[[rest' s''] rem''] trades''].
  done.
Qed.

(** In the loop over the bids a level can be met again after a restart, as
    the previous visit left it: [R] is what is known of the levels of the
    map. *)
Lemma match_bid_levels_inv (I : t -> Z -> list Trade.t -> Prop)
    (R : Z -> PriceLevel.t -> Prop) w :
  (forall p level s rem trades,
     R p level -> Order.price w <= p -> 0 < rem -> I s rem trades ->
     let r := match_level Sell w p (PriceLevel.orders level) level s rem trades in
     I r.1.1.2 r.1.2 r.2 /\ R p r.1.1.1) ->
  forall levels bid_it s rem trades,
    Forall (fun e => R e.1 e.2) levels -> I s rem trades ->
    let r := match_bid_levels w levels bid_it s rem trades in
    I r.1.1.2 r.1.2 r.2 /\ Forall (fun e => R e.1 e.2) r.1.1.1.
Proof.
  intros Hstep levels bid_it s rem trades.
  funelim (MatchingEngine.match_bid_levels clk w levels bid_it s rem trades);
    intros HR HI.
  - simpl. destruct (_ && _) eqn:Hc; [|done].
    apply andb_true_iff in Hc as [Hp Hrem].
    apply Z.leb_le in Hp. apply Z.ltb_lt in Hrem.
    assert (R level_price level) as HRl.
    { eapply (Forall_lookup_1 _ _ _ _ HR Hit). }
    destruct (Hstep _ _ _ _ _ HRl Hp Hrem HI) as [HI' HR'].
    destruct (PriceLevel.empty _) eqn:He.
    + apply H; [done| |done]. by apply Forall_delete.
    + apply H0; [done| |done]. by apply Forall_insert.
  - done.
Qed.

(** *** Trades are made at the price of the level they come from *)

Lemma unlink_subseteq e chain : PriceLevel.unlink e chain ⊆ chain.
Proof.
  induction chain as [|x chain IH]; simpl; [done|].
  destruct (Nat.eqb x e); set_solver.
Qed.

Lemma match_entry_orders sd w p e level s rem trades :
  PriceLevel.orders (match_entry sd w p e level s rem trades).1.1.1
    ⊆ PriceLevel.orders level.
Proof.
  unfold match_entry.
  destruct (match sd with Buy => _ | Sell => _ end) as [[trade s1]|]; [|done].
  destruct (_ =? 0); simpl; [apply unlink_subseteq|done].
Qed.

Lemma match_level_orders sd w p chain level s rem trades :
  PriceLevel.orders (match_level sd w p chain level s rem trades).1.1.1
    ⊆ PriceLevel.orders level.
Proof.
  apply (match_level_inv
    (fun level' _ _ _ => PriceLevel.orders level' ⊆ PriceLevel.orders level));
    [|done].
  intros e' level' s' rem' trades' _ _ Hsub. simpl.
  etrans; [apply match_entry_orders|done].
Qed.

Lemma match_level_trades (Q : Trade.t -> Prop) sd w p chain level s rem trades :
  (forall trade, trade_at_level sd w p (order_ids s) chain trade -> Q trade) ->
  Forall Q trades ->
  let r := match_level sd w p chain level s rem trades in
  Forall Q r.2 /\ forall e, order_ids r.1.1.2 e = order_ids s e.
Proof.
  intros HQ Htr.
  apply (match_level_inv
    (fun _ s' _ trades' =>
       Forall Q trades' /\ forall e, order_ids s' e = order_ids s e)); [|done].
  intros e level' s' rem' trades' He _ [Htr' Hids]. simpl. split.
  - destruct (match_entry_trades sd w p e level' s' rem' trades')
      as [->|(trade & -> & Hp & resting & Hin & Hside)]; [done|].
    apply Forall_app. split; [done|]. apply Forall_singleton, HQ.
    split; [done|]. exists e.
    assert (resting = e) as -> by set_solver.
    split; [done|]. by rewrite <- Hids.
  - intros e'. by rewrite match_entry_order_ids.
Qed.

(** The trades of [match_buy_order]. *)
Lemma match_ask_levels_trades (Q : Trade.t -> Prop) w levels s rem trades :
  (forall p level trade, (p, level) ∈ levels -> p <= Order.price w ->
     trade_at_level Buy w p (order_ids s) (PriceLevel.orders level) trade ->
     Q trade) ->
  Forall Q trades ->
  Forall Q (match_ask_levels w levels s rem trades).2.
Proof.
  intros HQ Htr.
  refine (proj1 (match_ask_levels_inv
    (fun s' _ trades' =>
       Forall Q trades' /\ forall e, order_ids s' e = order_ids s e)
    w levels _ s rem trades _)); [|done].
  intros p level s' rem' trades' Hin Hp _ [Htr' Hids]. simpl.
  destruct (match_level_trades Q Buy w p (PriceLevel.orders level)
              level s' rem' trades') as [H1 H2]; [|done|].
  - intros trade (Hprice & resting & Hr & Hside).
    apply (HQ p level); [done..|].
    split; [done|]. exists resting. by rewrite <- Hids.
  - split; [done|]. intros e. by rewrite H2.
Qed.

(** The trades of [match_sell_order]. *)
Lemma match_bid_levels_trades (Q : Trade.t -> Prop) w levels bid_it s rem trades :
  (forall p level trade, (p, level) ∈ levels -> Order.price w <= p ->
     trade_at_level Sell w p (order_ids s) (PriceLevel.orders level) trade ->
     Q trade) ->
  Forall Q trades ->
  Forall Q (match_bid_levels w levels bid_it s rem trades).2.
Proof.
  intros HQ Htr.
  refine (proj1 (proj1 (match_bid_levels_inv
    (fun s' _ trades' =>
       Forall Q trades' /\ forall e, order_ids s' e = order_ids s e)
    (fun p level' =>
       exists level, (p, level) ∈ levels /\
         PriceLevel.orders level' ⊆ PriceLevel.orders level)
    w _ levels bid_it s rem trades _ _))); [| |done].
  - intros p level' s' rem' trades' (level & Hin & Hsub) Hp _ [Htr' Hids].
    simpl. split.
    + destruct (match_level_trades Q Sell w p (PriceLevel.orders level')
                  level' s' rem' trades') as [H1 H2]; [|done|].
      * intros trade (Hprice & resting & Hr & Hside).
        apply (HQ p level); [done..|].
        split; [done|]. exists resting. split; [set_solver|].
        by rewrite <- Hids.
      * split; [done|]. intros e. by rewrite H2.
    + exists level. split; [done|].
      etrans; [apply match_level_orders|done].
  - apply Forall_forall. intros [p level] Hin. simpl. by exists level.
Qed.

Lemma finish_match_trades w s rem trades :
  MatchingEngine.trades (finish_match w s rem trades).1 = trades.
Proof.
  unfold finish_match. destruct (rem =? 0); [done|].
  by destruct (LockFreeMemoryPool.acquire _) as [[? ?]|].
Qed.

Lemma process_order_trades o s :
  MatchingEngine.trades (process_order o s).1 =
  let s0 := set_total_orders_processed (wrap64 (total_orders_processed s + 1)) s in
  match Order.side o with
  | Buy => (match_ask_levels o (ask_levels s) s0 (Order.quantity o) []).2
  | Sell =>
      (match_bid_levels o (reverse (bid_levels s)) 0%nat s0 (Order.quantity o) []).2
  end.
Proof.
  unfold MatchingEngine.process_order, match_buy_order, match_sell_order. simpl.
  destruct (Order.side o).
  - destruct (match_ask_levels _ _ _ _ _) as [[[asks s'] rem] trades].
    pose proof (finish_match_trades o (set_ask_levels asks s') rem trades) as Ht.
    destruct (finish_match _ _ _ _) as [r s1]. simpl in *.
    by destruct (fully_matched r), (remaining_order r).
  - destruct (match_bid_levels _ _ _ _ _ _) as [[[bids s'] rem] trades].
    pose proof (finish_match_trades o (set_bid_levels (reverse bids) s') rem trades)
      as Ht.
    destruct (finish_match _ _ _ _) as [r s1]. simpl in *.
    by destruct (fully_matched r), (remaining_order r).
Qed.

(** The side an incoming order is matched against. *)
Definition opposite_levels (o : Order.t) (s : t) : price_level_map :=
  match Order.side o with
  | Buy => ask_levels s
  | Sell => bid_levels s
  end.

(** Every trade of [process_order] is made at the price of a level of the
    opposite side, against an order resting in that level, and within the
    limit of the incoming order. *)
Lemma process_order_trades_at_level (o : Order.t) (s : t) (trade : Trade.t) :
  trade ∈ trades (process_order o s).1 ->
  exists level_price level resting,
    (level_price, level) ∈ opposite_levels o s /\
    resting ∈ PriceLevel.orders level /\
    Trade.price trade = level_price /\
    match Order.side o with
    | Buy =>
        Trade.buy_order_id trade = Order.orderID o /\
        Trade.sell_order_id trade = Order.orderID (order_at resting s) /\
        Trade.price trade <= Order.price o
    | Sell =>
        Trade.sell_order_id trade = Order.orderID o /\
        Trade.buy_order_id trade = Order.orderID (order_at resting s) /\
        Order.price o <= Trade.price trade
    end.
Proof.
  rewrite process_order_trades. unfold opposite_levels. simpl.
  destruct (Order.side o) eqn:Hside; intros Hin.
  - revert trade Hin. apply Forall_forall.
    apply match_ask_levels_trades; [|done].
    intros p level trade Hl Hp (Hprice & resting & Hr & Hb & Hs).
    exists p, level, resting. repeat split; try done. lia.
  - revert trade Hin. apply Forall_forall.
    apply match_bid_levels_trades; [|done].
    intros p level trade Hl Hp (Hprice & resting & Hr & Hb & Hs).
    exists p, level, resting. repeat split; try done.
    + by apply elem_of_reverse.
    + lia.
Qed.

(** *** The shape of [process_order] *)

(** The engine, the remaining quantity and the trades when the loop of
    [match_buy_order] or [match_sell_order] is left. *)
Definition after_matching (o : Order.t) (s : t) : t * Z * list Trade.t :=
  let s0 := set_total_orders_processed (wrap64 (total_orders_processed s + 1)) s in
  match Order.side o with
  | Buy =>
      let r := match_ask_levels o (ask_levels s0) s0 (Order.quantity o) [] in
      (set_ask_levels r.1.1.1 r.1.1.2, r.1.2, r.2)
  | Sell =>
      let r :=
        match_bid_levels o (reverse (bid_levels s0)) 0%nat s0 (Order.quantity o) [] in
      (set_bid_levels (reverse r.1.1.1) r.1.1.2, r.1.2, r.2)
  end.

Lemma process_order_unfold o s :
  process_order o s =
  let '(s2, rem, trades) := after_matching o s in
  if rem =? 0 then (mkMatchResult trades true None, s2)
  else
    match LockFreeMemoryPool.acquire (order_pool s2) with
    | Some (entry, op) =>
        (mkMatchResult trades false (Some entry),
         add_order_to_book entry
           (store_order entry
              (Order.set_status Incoming (Order.set_quantity rem o))
              (set_order_pool op s2)))
    | None => (mkMatchResult trades false None, s2)
    end.
Proof.
  unfold MatchingEngine.process_order, after_matching, match_buy_order,
    match_sell_order, finish_match.
  destruct (Order.side o); simpl.
  - destruct (match_ask_levels _ _ _ _ _) as [[[asks s'] rem] trades]. simpl.
    destruct (rem =? 0); [done|].
    by destruct (LockFreeMemoryPool.acquire _) as [[entry op]|].
  - destruct (match_bid_levels _ _ _ _ _ _) as [[[bids s'] rem] trades]. simpl.
    destruct (rem =? 0); [done|].
    by destruct (LockFreeMemoryPool.acquire _) as [[entry op]|].
Qed.

(** An invariant of the turns of the inner loop that does not read the two
    ladders holds when the loops are left. *)
Lemma after_matching_inv (I : t -> Z -> list Trade.t -> Prop) o s :
  (forall sd p e level s rem trades, 0 < rem -> I s rem trades ->
     let r := match_entry sd o p e level s rem trades in I r.1.1.2 r.1.2 r.2) ->
  (forall s rem trades v, I s rem trades -> I (set_ask_levels v s) rem trades) ->
  (forall s rem trades v, I s rem trades -> I (set_bid_levels v s) rem trades) ->
  (forall s rem trades v, I s rem trades ->
     I (set_total_orders_processed v s) rem trades) ->
  I s (Order.quantity o) [] ->
  let r := after_matching o s in I r.1.1 r.1.2 r.2.
Proof.
  intros Hstep Hask Hbid Htot HI.
  assert (forall sd p chain level s rem trades, I s rem trades ->
     let r := match_level sd o p chain level s rem trades in I r.1.1.2 r.1.2 r.2)
    as Hlevel.
  { intros sd p chain level s' rem trades HI'.
    apply (match_level_inv (fun _ s r t => I s r t)); [|done].
    intros. by apply Hstep. }
  unfold after_matching. destruct (Order.side o); simpl.
  - apply Hask. apply (match_ask_levels_inv I); [|by apply Htot].
    intros. by apply Hlevel.
  - apply Hbid.
    refine (proj1 (match_bid_levels_inv I (fun _ _ => True) o _ _ _ _ _ _ _ _)).
    + intros. split; [by apply Hlevel|done].
    + by apply Forall_forall.
    + by apply Htot.
Qed.

(** Sum of the quantities of a list of trades. *)
Definition volume (trades : list Trade.t) : Z :=
  foldr (fun trade acc => Trade.quantity trade + acc) 0 trades.

Lemma volume_app ts1 ts2 : volume (ts1 ++ ts2) = volume ts1 + volume ts2.
Proof. induction ts1 as [|t ts1 IH]; simpl; [done|]. rewrite IH. lia. Qed.

(** The quantity of every entry of the pool is a [uint64_t]. *)
Definition quantities_u64 (s : t) : Prop :=
  forall e, is_u64 (Order.quantity (order_at e s)).

(** The resting order after a trade of [trade_qty]. *)
Definition fill (trade_qty : Z) (o : Order.t) : Order.t :=
  let o1 :=
    Order.set_filledQuantity (wrap64 (Order.filledQuantity o + trade_qty))
      (Order.set_quantity (wrap64 (Order.quantity o - trade_qty)) o) in
  Order.set_status (if Order.quantity o1 =? 0 then Filled else PartiallyFilled) o1.

Lemma entry_trade_Some sd w p e s rem trade s1 :
  entry_trade sd w p e s rem = Some (trade, s1) ->
  Trade.price trade = p /\
  Trade.quantity trade = Z.min rem (Order.quantity (order_at e s)) /\
  order_pool s1 = order_pool s /\ order_lookup s1 = order_lookup s /\
  bid_levels s1 = bid_levels s /\ ask_levels s1 = ask_levels s /\
  calls s1 = calls s /\
  trade_callback s1 = trade_callback s /\
  order_update_callback s1 = order_update_callback s.
Proof.
  unfold entry_trade. intros Hc.
  destruct sd; apply create_trade_Some in Hc; tauto.
Qed.

(** One turn that trades. *)
Lemma match_entry_trade sd w p e level s rem trades trade s1 :
  entry_trade sd w p e s rem = Some (trade, s1) ->
  let trade_qty := Z.min rem (Order.quantity (order_at e s)) in
  let o' := fill trade_qty (order_at e s) in
  let filled := Order.quantity o' =? 0 in
  let r := match_entry sd w p e level s rem trades in
  r.1.2 = wrap64 (rem - trade_qty) /\
  r.2 = trades ++ [trade] /\
  order_at e r.1.1.2 = o' /\
  (forall x, x <> e -> order_at x r.1.1.2 = order_at x s) /\
  LockFreeMemoryPool.free_list (order_pool r.1.1.2) =
    (if filled then [e] else []) ++ LockFreeMemoryPool.free_list (order_pool s) /\
  order_lookup r.1.1.2 =
    (if filled then delete (Order.orderID o') (order_lookup s) else order_lookup s) /\
  bid_levels r.1.1.2 = bid_levels s /\ ask_levels r.1.1.2 = ask_levels s /\
  r.1.1.1 =
    let level1 :=
      PriceLevel.set_total_quantity
        (wrap64 (PriceLevel.total_quantity level - trade_qty)) level in
    if filled then PriceLevel.remove_order e (Order.quantity o') level1 else level1.
Proof.
  intros Hc. pose proof (entry_trade_Some _ _ _ _ _ _ _ _ Hc)
    as (_ & _ & Hp & Hl & Hb & Ha & _).
  assert (forall x, order_at x s1 = order_at x s) as Hat.
  { intros x. unfold order_at. by rewrite Hp. }
  unfold entry_trade in Hc. unfold match_entry, fill. rewrite Hc. simpl.
  destruct (wrap64 (Order.quantity (order_at e s) -
                     Z.min rem (Order.quantity (order_at e s))) =? 0) eqn:Hz;
    simpl;
    unfold notify_order_update, notify_trade;
    destruct (trade_callback _), (order_update_callback _); simpl;
    rewrite ?Hat, ?Hp, ?Hl, ?Hb, ?Ha;
    (repeat split; try done;
     [ unfold order_at, LockFreeMemoryPool.read; simpl;
       by rewrite ?Hp, lookup_insert_eq
     | intros x Hx; unfold order_at, LockFreeMemoryPool.read; simpl;
       by rewrite ?Hp, lookup_insert_ne ]).
Qed.

Lemma match_entry_quantities sd w p e level s rem trades :
  quantities_u64 s ->
  quantities_u64 (match_entry sd w p e level s rem trades).1.1.2.
Proof.
  intros Hq.
  destruct (entry_trade sd w p e s rem) as [[trade s1]|] eqn:Hc.
  - pose proof (match_entry_trade sd w p e level s rem trades trade s1 Hc)
      as (_ & _ & He & Hx & _).
    intros x. destruct (decide (x = e)) as [->|Hne].
    + rewrite He. unfold fill. simpl. apply wrap64_u64.
    + by rewrite Hx.
  - by rewrite match_entry_no_trade.
Qed.

(** The remaining quantity decreases by the quantity of the trade. *)
Lemma match_entry_remaining sd w p e level s rem trades :
  quantities_u64 s -> is_u64 rem ->
  let r := match_entry sd w p e level s rem trades in
  is_u64 r.1.2 /\ r.1.2 + volume r.2 = rem + volume trades.
Proof.
  intros Hq Hrem. cbv zeta.
  destruct (entry_trade sd w p e s rem) as [[trade s1]|] eqn:Hc.
  - pose proof (match_entry_trade sd w p e level s rem trades trade s1 Hc)
      as (-> & -> & _).
    pose proof (entry_trade_Some _ _ _ _ _ _ _ _ Hc) as (_ & Hv & _).
    split; [apply wrap64_u64|].
    rewrite volume_app. simpl. rewrite Hv.
    specialize (Hq e). unfold is_u64 in *.
    rewrite wrap64_small; unfold is_u64; lia.
  - by rewrite match_entry_no_trade.
Qed.

Lemma set_levels_order_at e v s :
  order_at e (set_ask_levels v s) = order_at e s /\
  order_at e (set_bid_levels v s) = order_at e s /\
  forall n, order_at e (set_total_orders_processed n s) = order_at e s.
Proof. done. Qed.

(** What is left to match is the order's quantity less the volume traded. *)
Lemma after_matching_remaining o s :
  quantities_u64 s -> is_u64 (Order.quantity o) ->
  let r := after_matching o s in
  quantities_u64 r.1.1 /\ is_u64 r.1.2 /\ r.1.2 + volume r.2 = Order.quantity o.
Proof.
  intros Hq Ho.
  apply (after_matching_inv
    (fun s' rem trades =>
       quantities_u64 s' /\ is_u64 rem /\ rem + volume trades = Order.quantity o));
    try done.
  - intros sd p e level s' rem trades _ (Hq' & Hrem & Hsum). simpl.
    destruct (match_entry_remaining sd o p e level s' rem trades Hq' Hrem)
      as [H1 H2].
    split; [by apply match_entry_quantities|]. split; [done|lia].
  - simpl. split; [done|]. split; [done|lia].
Qed.

(** When part of the order traded and part is left, an entry was released
    to [order_pool] on the way. *)
Lemma after_matching_free_list o s :
  let r := after_matching o s in
  (LockFreeMemoryPool.free_list (order_pool s) <> [] \/ r.2 <> []) ->
  r.1.2 <> 0 ->
  LockFreeMemoryPool.free_list (order_pool r.1.1) <> [].
Proof.
  cbv zeta.
  assert (let r := after_matching o s in
    (LockFreeMemoryPool.free_list (order_pool s) <> [] ->
     LockFreeMemoryPool.free_list (order_pool r.1.1) <> []) /\
    (r.2 <> [] -> r.1.2 = 0 \/
       LockFreeMemoryPool.free_list (order_pool r.1.1) <> [])) as [H1 H2].
  { apply (after_matching_inv
      (fun s' rem trades =>
         (LockFreeMemoryPool.free_list (order_pool s) <> [] ->
          LockFreeMemoryPool.free_list (order_pool s') <> []) /\
         (trades <> [] -> rem = 0 \/
            LockFreeMemoryPool.free_list (order_pool s') <> []))); try done.
    intros sd p e level s' rem trades Hrem [Hfree Htr]. cbv zeta.
    destruct (entry_trade sd o p e s' rem) as [[trade s1]|] eqn:Hc.
    - pose proof (match_entry_trade sd o p e level s' rem trades trade s1 Hc)
        as (-> & -> & _ & _ & -> & _).
      unfold fill. simpl.
      destruct (wrap64 _ =? 0) eqn:Hz; simpl.
      + split; [done|]. intros _. by right.
      + split; [done|]. intros _. left.
        apply Z.eqb_neq in Hz.
        destruct (Z.min_spec rem (Order.quantity (order_at e s'))) as [[_ ->]|[_ Hm]].
        * by rewrite Z.sub_diag.
        * rewrite Hm, Z.sub_diag in Hz. done.
    - rewrite match_entry_no_trade by done. simpl. split; [done|].
      intros Hne. destruct (Htr Hne) as [->|]; [lia|by right]. }
  intros [Hfree|Htr] Hrem; [by apply H1|].
  destruct (H2 Htr); done.
Qed.

(** *** The ladders as maps *)

Lemma map_find_assign p l m : map_find p (map_assign p l m) = Some l.
Proof.
  induction m as [|[k l'] m IH]; simpl.
  - by rewrite Z.eqb_refl.
  - destruct (p <? k) eqn:Hlt; simpl; [by rewrite Z.eqb_refl|].
    destruct (k =? p) eqn:Heq; simpl; [by rewrite Z.eqb_refl|].
    by rewrite Heq.
Qed.

Lemma map_find_modify p f m :
  map_find p (map_modify p f m) = f <$> map_find p m.
Proof.
  induction m as [|[k l'] m IH]; simpl; [done|].
  destruct (k =? p) eqn:Heq; simpl; by rewrite Heq.
Qed.

Lemma add_order_to_side_find entry o levels :
  exists level,
    map_find (Order.price o) (add_order_to_side entry o levels) = Some level /\
    last (PriceLevel.orders level) = Some entry.
Proof.
  unfold add_order_to_side.
  destruct (map_find (Order.price o) levels) as [level|] eqn:Hf.
  - exists (PriceLevel.add_order entry (Order.quantity o) level).
    rewrite map_find_modify, Hf. split; [done|]. simpl. apply last_snoc.
  - eexists. rewrite map_find_assign. split; [done|]. done.
Qed.

(** The side an order rests on. *)
Definition own_levels (o : Order.t) (s : t) : price_level_map :=
  match Order.side o with
  | Buy => bid_levels s
  | Sell => ask_levels s
  end.

(** Whatever the time in force and the type of the order, what is left of
    it after matching is put at the tail of the level of its price on its own
    side and is registered in [order_lookup], as soon as [order_pool] has an
    entry for it; it has one when the order traded. The entry holds the order
    with the remaining quantity and the status [Incoming]. *)
Lemma process_order_rests o s :
  let r := process_order o s in
  fully_matched r.1 = false ->
  LockFreeMemoryPool.free_list (order_pool s) <> [] \/ trades r.1 <> [] ->
  exists entry level remaining_qty,
    remaining_order r.1 = Some entry /\
    order_lookup r.2 !! Order.orderID o = Some entry /\
    map_find (Order.price o) (own_levels o r.2) = Some level /\
    last (PriceLevel.orders level) = Some entry /\
    remaining_qty <> 0 /\
    order_at entry r.2 =
      Order.set_status Incoming (Order.set_quantity remaining_qty o) /\
    (quantities_u64 s -> is_u64 (Order.quantity o) ->
     remaining_qty = Order.quantity o - volume (trades r.1)).
Proof.
  cbv zeta. rewrite process_order_unfold.
  pose proof (after_matching_free_list o s) as Hfree.
  pose proof (after_matching_remaining o s) as Hrem.
  destruct (after_matching o s) as [[s2 rem] ts]. simpl in Hfree, Hrem.
  destruct (rem =? 0) eqn:Hz; [done|]. apply Z.eqb_neq in Hz.
  destruct (LockFreeMemoryPool.acquire (order_pool s2)) as [[entry op]|] eqn:Hacq.
  - simpl. intros _ _.
    set (w := Order.set_status Incoming (Order.set_quantity rem o)).
    set (s3 := store_order entry w (set_order_pool op s2)).
    assert (order_at entry s3 = w) as Hw by apply order_at_store_order_eq.
    destruct (add_order_to_side_find entry w (own_levels o s3))
      as (level & Hfind & Hlast).
    exists entry, level, rem. split; [done|].
    unfold add_order_to_book, own_levels in *. rewrite Hw. simpl.
    destruct (Order.side o); simpl; rewrite lookup_insert_eq;
      (repeat split; try done);
      intros Hq Ho; destruct (Hrem Hq Ho) as (_ & _ & ?); lia.
  - simpl. intros _ Hor. exfalso.
    unfold LockFreeMemoryPool.acquire in Hacq.
    destruct (LockFreeMemoryPool.free_list (order_pool s2)) eqn:Hfl; [|done].
    by apply Hfree.
Qed.

(** *** The time in force of the incoming order is not read *)

Lemma match_bid_levels_unfold w levels bid_it s rem ts :
  match_bid_levels w levels bid_it s rem ts =
  match levels !! bid_it with
  | None => (levels, s, rem, ts)
  | Some (level_price, level) =>
      if (Order.price w <=? level_price) && (0 <? rem) then
        let r :=
          match_level Sell w level_price (PriceLevel.orders level) level s rem ts in
        if PriceLevel.empty r.1.1.1 then
          match_bid_levels w (delete bid_it levels) 0%nat r.1.1.2 r.1.2 r.2
        else
          match_bid_levels w (<[bid_it := (level_price, r.1.1.1)]> levels)
            (S bid_it) r.1.1.2 r.1.2 r.2
      else (levels, s, rem, ts)
  end.
Proof.
  funelim (MatchingEngine.match_bid_levels clk w levels bid_it s rem ts).
  - by rewrite Hit.
  - by rewrite e.
Qed.

(** The loops read the incoming order's id, symbol, timestamp and price. *)
Definition same_for_matching (w w' : Order.t) : Prop :=
  Order.orderID w = Order.orderID w' /\ Order.symbolID w = Order.symbolID w' /\
  Order.timestamp w = Order.timestamp w' /\ Order.price w = Order.price w'.

Lemma match_entry_ext sd w w' p e level s rem ts :
  same_for_matching w w' ->
  match_entry sd w p e level s rem ts = match_entry sd w' p e level s rem ts.
Proof.
  intros (Hid & Hsym & Hts & _).
  unfold MatchingEngine.match_entry, create_trade, determine_aggressor_side.
  by rewrite Hid, Hsym, Hts.
Qed.

Lemma match_level_ext sd w w' p chain level s rem ts :
  same_for_matching w w' ->
  match_level sd w p chain level s rem ts = match_level sd w' p chain level s rem ts.
Proof.
  intros Hw. revert level s rem ts.
  induction chain as [|e chain IH]; intros; simpl; [done|].
  rewrite (match_entry_ext sd w w') by done.
  destruct (0 <? rem); [|done].
  by destruct (match_entry sd w' p e level s rem ts) as [[[? ?] ?] ?].
Qed.

Lemma match_ask_levels_ext w w' levels s rem ts :
  same_for_matching w w' ->
  match_ask_levels w levels s rem ts = match_ask_levels w' levels s rem ts.
Proof.
  intros Hw. revert s rem ts.
  induction levels as [|[p level] levels IH]; intros; simpl; [done|].
  rewrite (match_level_ext Buy w w') by done.
  destruct Hw as (_ & _ & _ & <-).
  destruct (_ && _); [|done].
  destruct (match_level Buy w' p _ level s rem ts) as [[[? ?] ?] ?].
  by rewrite IH.
Qed.

Lemma match_bid_levels_ext w w' levels bid_it s rem ts :
  same_for_matching w w' ->
  match_bid_levels w levels bid_it s rem ts =
  match_bid_levels w' levels bid_it s rem ts.
Proof.
  intros Hw.
  funelim (MatchingEngine.match_bid_levels clk w levels bid_it s rem ts);
    rewrite (match_bid_levels_unfold w').
  - rewrite Hit. rewrite <- !(match_level_ext Sell sell_order w') by done.
    pose proof Hw as (_ & _ & _ & <-).
    destruct (_ && _); [|done]. simpl.
    destruct (PriceLevel.empty _); [by apply H|by apply H0].
  - by rewrite e.
Qed.

Lemma after_matching_ext w w' s :
  same_for_matching w w' -> Order.side w = Order.side w' ->
  Order.quantity w = Order.quantity w' ->
  after_matching w s = after_matching w' s.
Proof.
  intros Hw Hside Hq. unfold after_matching. rewrite Hside, Hq.
  destruct (Order.side w').
  - by rewrite (match_ask_levels_ext w w').
  - by rewrite (match_bid_levels_ext w w').
Qed.

(** The result of [process_order] with the time in force of the entry that
    was put in the book, if any, set to [f]. *)
Definition with_time_in_force (f : TimeInForce) (rs : MatchResult * t)
    : MatchResult * t :=
  (rs.1,
   match remaining_order rs.1 with
   | Some entry =>
       store_order entry (Order.set_TimeInForce f (order_at entry rs.2)) rs.2
   | None => rs.2
   end).

Lemma store_order_twice entry o o' s :
  store_order entry o' (store_order entry o s) = store_order entry o' s.
Proof.
  unfold store_order, LockFreeMemoryPool.write. simpl.
  by rewrite insert_insert_eq.
Qed.

Lemma add_order_to_book_store entry o o' s :
  Order.price o' = Order.price o -> Order.side o' = Order.side o ->
  Order.quantity o' = Order.quantity o -> Order.orderID o' = Order.orderID o ->
  add_order_to_book entry (store_order entry o' s) =
  store_order entry o' (add_order_to_book entry (store_order entry o s)).
Proof.
  intros Hp Hs Hq Hid. unfold add_order_to_book. cbv zeta.
  rewrite !order_at_store_order_eq. rewrite Hs, Hid.
  unfold add_order_to_side. rewrite Hp, Hq.
  destruct (Order.side o); unfold store_order, LockFreeMemoryPool.write; simpl;
    by rewrite insert_insert_eq.
Qed.

(** [process_order] does not read the time in force: the trades, the two
    ladders, [order_lookup], the counters and the entry for what is left are
    the same whatever it is; the entry alone records it. *)
Lemma process_order_same_but_time_in_force (f : TimeInForce) (o : Order.t) (s : t) :
  process_order (Order.set_TimeInForce f o) s =
  with_time_in_force f (process_order o s).
Proof.
  rewrite !process_order_unfold.
  rewrite (after_matching_ext (Order.set_TimeInForce f o) o) by done.
  destruct (after_matching o s) as [[s2 rem] ts].
  unfold with_time_in_force.
  destruct (rem =? 0); [done|].
  destruct (LockFreeMemoryPool.acquire (order_pool s2)) as [[entry op]|]; [|done].
  simpl. f_equal.
  set (w := Order.set_status Incoming (Order.set_quantity rem o)).
  assert (order_at entry (add_order_to_book entry
            (store_order entry w (set_order_pool op s2))) = w) as ->.
  { unfold add_order_to_book. cbv zeta.
    destruct (Order.side _); apply order_at_store_order_eq. }
  by rewrite <- (add_order_to_book_store entry w).
Qed.

(** *** [cancel_order] *)

Lemma cancel_order_not_found order_id s :
  order_lookup s !! order_id = None -> cancel_order order_id s = (false, s).
Proof. unfold cancel_order. by intros ->. Qed.

Lemma cancel_order_found order_id s :
  (cancel_order order_id s).1 = true ->
  order_lookup (cancel_order order_id s).2 !! order_id = None.
Proof.
  unfold cancel_order.
  destruct (order_lookup s !! order_id) as [entry|]; [|done].
  intros _. simpl. apply lookup_delete_eq.
Qed.

(** C7. After a call of [cancel_order] that returned true, a second call
    with the same id returns false and leaves the engine as it is; and a
    call with an id that [order_lookup] does not hold returns false and
    leaves the engine (ladders, [order_lookup], counters, pools, callbacks
    made) as it is. *)
Theorem cancel_order_idempotent (order_id : Z) (s : t) :
  ((cancel_order order_id s).1 = true ->
   cancel_order order_id (cancel_order order_id s).2 =
     (false, (cancel_order order_id s).2)) /\
  (order_lookup s !! order_id = None -> cancel_order order_id s = (false, s)).
Proof.
  split.
  - intros H. by apply cancel_order_not_found, cancel_order_found.
  - apply cancel_order_not_found.
Qed.

(** *** First in, first out within a level *)

(** The entry has been filled completely. *)
Definition filled_out (a : OrderEntry) (s : t) : Prop :=
  Order.quantity (order_at a s) = 0 /\ Order.status (order_at a s) = Filled.

(** [a] is linked before [b] in the chain. *)
Definition linked_before (a b : OrderEntry) (chain : list OrderEntry) : Prop :=
  exists c1 c2, chain = c1 ++ a :: c2 /\ b ∈ c2.

(** The entries linked in the levels of a side. *)
Definition side_entries (levels : price_level_map) : list OrderEntry :=
  levels ≫= (fun e => PriceLevel.orders e.2).

Lemma match_entry_untouched sd w p e level s rem ts x :
  x <> e ->
  order_at x (match_entry sd w p e level s rem ts).1.1.2 = order_at x s.
Proof.
  intros Hne.
  destruct (entry_trade sd w p e s rem) as [[trade s1]|] eqn:Hc.
  - pose proof (match_entry_trade sd w p e level s rem ts trade s1 Hc)
      as (_ & _ & _ & Hx & _).
    by apply Hx.
  - by rewrite match_entry_no_trade.
Qed.

Lemma match_level_untouched sd w p chain level s rem ts x :
  x ∉ chain ->
  order_at x (match_level sd w p chain level s rem ts).1.1.2 = order_at x s.
Proof.
  intros Hx.
  apply (match_level_inv (fun _ s' _ _ => order_at x s' = order_at x s)); [|done].
  intros e level' s' rem' ts' He _ Heq. simpl.
  rewrite match_entry_untouched; [done|]. intros ->. done.
Qed.

Lemma fill_filled_out q o :
  Order.quantity (fill q o) = 0 -> Order.status (fill q o) = Filled.
Proof. unfold fill. simpl. by intros ->. Qed.

Lemma match_entry_filled_out sd w p e level s rem ts a :
  0 < rem -> filled_out a s ->
  filled_out a (match_entry sd w p e level s rem ts).1.1.2.
Proof.
  intros Hrem [Hq Hst].
  destruct (decide (a = e)) as [->|Hne].
  - destruct (entry_trade sd w p e s rem) as [[trade s1]|] eqn:Hc.
    + pose proof (match_entry_trade sd w p e level s rem ts trade s1 Hc)
        as (_ & _ & He & _).
      unfold filled_out. rewrite He, Hq.
      assert (Order.quantity (fill (Z.min rem 0) (order_at e s)) = 0) as H0.
      { unfold fill. simpl. rewrite Hq. by rewrite Z.min_r by lia. }
      split; [done|]. by apply fill_filled_out.
    + by rewrite match_entry_no_trade.
  - unfold filled_out. by rewrite match_entry_untouched.
Qed.

Lemma match_level_filled_out sd w p chain level s rem ts a :
  filled_out a s ->
  filled_out a (match_level sd w p chain level s rem ts).1.1.2.
Proof.
  intros Ha.
  apply (match_level_inv (fun _ s' _ _ => filled_out a s')); [|done].
  intros e level' s' rem' ts' _ Hrem Hf. by apply match_entry_filled_out.
Qed.

(** Once [trade_pool] is exhausted the loop over a level changes nothing. *)
Lemma entry_trade_None sd w p e s rem :
  entry_trade sd w p e s rem = None <->
  LockFreeMemoryPool.free_list (trade_pool s) = [].
Proof.
  unfold entry_trade, create_trade, LockFreeMemoryPool.acquire.
  destruct sd; destruct (LockFreeMemoryPool.free_list (trade_pool s)); done.
Qed.

Lemma match_level_exhausted sd w p chain level s rem ts :
  LockFreeMemoryPool.free_list (trade_pool s) = [] ->
  match_level sd w p chain level s rem ts = (level, s, rem, ts).
Proof.
  intros Hex. induction chain as [|e chain IH]; simpl; [done|].
  destruct (0 <? rem); [|done].
  rewrite match_entry_no_trade by by apply entry_trade_None.
  done.
Qed.

Lemma match_level_nothing_left sd w p chain level s ts :
  match_level sd w p chain level s 0 ts = (level, s, 0, ts).
Proof. by destruct chain. Qed.

(** The walk of a chain in which [a] comes before [b]: [b] is traded
    against only once [a] has been filled completely. *)
Lemma match_level_fifo sd w p c1 a c2 b level s rem ts :
  b ∈ c2 -> NoDup (c1 ++ a :: c2) ->
  let s' := (match_level sd w p (c1 ++ a :: c2) level s rem ts).1.1.2 in
  order_at b s' = order_at b s \/ filled_out a s'.
Proof.
  intros Hb. revert level s rem ts.
  induction c1 as [|e c1 IH]; intros level s rem ts Hnd; simpl.
  - apply NoDup_cons in Hnd as [Ha Hnd].
    destruct (0 <? rem) eqn:Hrem; [|by left]. apply Z.ltb_lt in Hrem.
    destruct (entry_trade sd w p a s rem) as [[trade s1]|] eqn:Hc.
    + pose proof (match_entry_trade sd w p a level s rem ts trade s1 Hc)
        as (Hr & _ & Hcell & Hx & _).
      destruct (match_entry sd w p a level s rem ts) as [[[level' s'] rem'] ts'].
      simpl in *.
      destruct (decide (Order.quantity (order_at a s') = 0)) as [Hz|Hnz].
      * right. apply match_level_filled_out. split; [done|].
        rewrite Hcell in *. by apply fill_filled_out.
      * left.
        assert (rem' = 0) as ->.
        { rewrite Hr. rewrite Hcell in Hnz. unfold fill in Hnz. simpl in Hnz.
          destruct (Z.min_spec rem (Order.quantity (order_at a s)))
            as [[_ ->]|[_ Hm]].
          - by rewrite Z.sub_diag.
          - by rewrite Hm, Z.sub_diag in Hnz. }
        rewrite match_level_nothing_left. simpl. apply Hx. set_solver.
    + rewrite match_entry_no_trade by done. left.
      rewrite match_level_exhausted; [done|]. by eapply entry_trade_None.
  - apply NoDup_cons in Hnd as [He Hnd].
    destruct (0 <? rem) eqn:Hrem; [|by left].
    pose proof (match_entry_untouched sd w p e level s rem ts b) as Hun.
    destruct (match_entry sd w p e level s rem ts) as [[[level' s'] rem'] ts'].
    simpl in Hun. rewrite <- Hun by set_solver.
    by apply IH.
Qed.

(** An entry the walk unlinked has been filled completely. *)
Lemma unlink_elem_of x e chain : x ∈ chain -> x <> e -> x ∈ PriceLevel.unlink e chain.
Proof.
  induction chain as [|y chain IH]; simpl; [done|].
  intros Hx Hne. destruct (Nat.eqb y e) eqn:Heq; [|set_solver].
  apply Nat.eqb_eq in Heq. set_solver.
Qed.

Lemma unlink_sublist e chain : PriceLevel.unlink e chain `sublist_of` chain.
Proof.
  induction chain as [|y chain IH]; simpl; [done|].
  destruct (Nat.eqb y e); [by apply sublist_cons|by apply sublist_skip].
Qed.

Lemma match_entry_sublist sd w p e level s rem ts :
  PriceLevel.orders (match_entry sd w p e level s rem ts).1.1.1
    `sublist_of` PriceLevel.orders level.
Proof.
  destruct (entry_trade sd w p e s rem) as [[trade s1]|] eqn:Hc.
  - pose proof (match_entry_trade sd w p e level s rem ts trade s1 Hc)
      as (_ & _ & _ & _ & _ & _ & _ & _ & ->).
    simpl. destruct (_ =? 0); simpl; [apply unlink_sublist|done].
  - by rewrite match_entry_no_trade.
Qed.

Lemma match_level_sublist sd w p chain level s rem ts :
  PriceLevel.orders (match_level sd w p chain level s rem ts).1.1.1
    `sublist_of` PriceLevel.orders level.
Proof.
  apply (match_level_inv
    (fun level' _ _ _ =>
       PriceLevel.orders level' `sublist_of` PriceLevel.orders level)); [|done].
  intros e level' s' rem' ts' _ _ Hsub. simpl.
  etrans; [apply match_entry_sublist|done].
Qed.

Lemma match_level_unlinked sd w p chain level s rem ts x :
  x ∈ PriceLevel.orders level ->
  let r := match_level sd w p chain level s rem ts in
  x ∈ PriceLevel.orders r.1.1.1 \/ filled_out x r.1.1.2.
Proof.
  intros Hx.
  apply (match_level_inv
    (fun level' s' _ _ => x ∈ PriceLevel.orders level' \/ filled_out x s'));
    [|by left].
  intros e level' s' rem' ts' _ Hrem [Hin|Hf]; simpl;
    [|right; by apply match_entry_filled_out].
  destruct (entry_trade sd w p e s' rem') as [[trade s1]|] eqn:Hc.
  - pose proof (match_entry_trade sd w p e level' s' rem' ts' trade s1 Hc)
      as (_ & _ & Hcell & _ & _ & _ & _ & _ & ->).
    simpl. destruct (_ =? 0) eqn:Hz; simpl; [|by left].
    destruct (decide (x = e)) as [->|Hne]; [|left; by apply unlink_elem_of].
    right. apply Z.eqb_eq in Hz. split; rewrite Hcell; [done|].
    by apply fill_filled_out.
  - rewrite match_entry_no_trade by done. by left.
Qed.

(** Unlinking entries keeps the others in their order. *)
Lemma sublist_linked_before c l1 a l2 b :
  c `sublist_of` l1 ++ a :: l2 -> NoDup (l1 ++ a :: l2) ->
  a ∈ c -> b ∈ c -> b ∈ l2 -> linked_before a b c.
Proof.
  intros Hsub Hnd Ha Hb Hb2.
  apply NoDup_app in Hnd as (_ & Hdisj & Hnd).
  apply NoDup_cons in Hnd as [Ha2 _].
  apply sublist_app_r in Hsub as (k1 & k2 & -> & Hk1 & Hk2).
  assert (forall x, x ∈ k1 -> x ∈ l1) as Hin1.
  { intros x Hx. by eapply elem_of_sublist. }
  assert (a ∉ k1) as Hak1. { intros Hk. apply (Hdisj a); set_solver. }
  assert (b ∉ k1) as Hbk1. { intros Hk. apply (Hdisj b); set_solver. }
  apply sublist_cons_r in Hk2 as [Hk2|(k2' & -> & Hk2)].
  - exfalso. apply Ha2. eapply elem_of_sublist; [|done]. set_solver.
  - exists k1, k2'. split; [done|].
    assert (b <> a) by (intros ->; done). set_solver.
Qed.

Lemma side_entries_elem_of levels x :
  x ∈ side_entries levels <->
  exists p level, (p, level) ∈ levels /\ x ∈ PriceLevel.orders level.
Proof.
  unfold side_entries. rewrite list_elem_of_bind. split.
  - intros ([p level] & Hx & Hin). by exists p, level.
  - intros (p & level & Hin & Hx). by exists (p, level).
Qed.

(** An entry is linked in one level of a side at most. *)
Lemma side_entries_unique levels p level q level' x :
  NoDup (side_entries levels) ->
  (p, level) ∈ levels -> (q, level') ∈ levels ->
  x ∈ PriceLevel.orders level -> x ∈ PriceLevel.orders level' ->
  (p, level) = (q, level').
Proof.
  unfold side_entries.
  induction levels as [|[k l] levels IH]; intros Hnd H1 H2 Hx1 Hx2;
    [by apply elem_of_nil in H1|].
  rewrite bind_cons in Hnd. simpl in Hnd.
  apply NoDup_app in Hnd as (_ & Hdisj & Hnd).
  apply elem_of_cons in H1 as [H1|H1], H2 as [H2|H2].
  - congruence.
  - exfalso. injection H1 as -> ->. apply (Hdisj x Hx1).
    apply list_elem_of_bind. by exists (q, level').
  - exfalso. injection H2 as -> ->. apply (Hdisj x Hx2).
    apply list_elem_of_bind. by exists (p, level).
  - by apply IH.
Qed.

Lemma side_entries_chain_NoDup levels p level :
  NoDup (side_entries levels) -> (p, level) ∈ levels ->
  NoDup (PriceLevel.orders level).
Proof.
  unfold side_entries. intros Hnd Hin.
  apply list_elem_of_split in Hin as (k1 & k2 & ->).
  rewrite bind_app, bind_cons in Hnd. simpl in Hnd.
  apply NoDup_app in Hnd as (_ & _ & Hnd).
  by apply NoDup_app in Hnd as (Hnd & _).
Qed.

Section fifo.
(** [a] and [b] are linked in a chain [l1 ++ a :: l2], [b] in [l2]; [s] is
    the engine before the order is matched. *)
Variables (s : t) (l1 : list OrderEntry) (a : OrderEntry)
  (l2 : list OrderEntry) (b : OrderEntry).
Hypothesis chain_NoDup : NoDup (l1 ++ a :: l2).
Hypothesis b_behind : b ∈ l2.

(** [b] has not been traded against, or [a] has been filled completely. *)
Definition fifo_state (m : t) : Prop :=
  order_at b m = order_at b s \/ filled_out a m.

(** A level that links [b] is what is left of the chain, and links [a]
    unless [a] has been filled completely. *)
Definition fifo_level (level : PriceLevel.t) (m : t) : Prop :=
  b ∈ PriceLevel.orders level ->
  PriceLevel.orders level `sublist_of` l1 ++ a :: l2 /\
  (a ∈ PriceLevel.orders level \/ filled_out a m).

Lemma fifo_level_visit sd w p level m rem ts :
  fifo_state m -> fifo_level level m ->
  let r := match_level sd w p (PriceLevel.orders level) level m rem ts in
  fifo_state r.1.1.2 /\ fifo_level r.1.1.1 r.1.1.2.
Proof.
  intros Hst Hlv. cbv zeta.
  pose proof (match_level_sublist sd w p (PriceLevel.orders level) level m rem ts)
    as Hsub.
  pose proof (fun x => match_level_filled_out sd w p (PriceLevel.orders level)
                         level m rem ts x) as Hstable.
  split.
  - destruct (decide (b ∈ PriceLevel.orders level)) as [Hb|Hb].
    + destruct (Hlv Hb) as [Hs [Ha|Hf]]; [|right; by apply Hstable].
      destruct (sublist_linked_before _ _ _ _ _ Hs chain_NoDup Ha Hb b_behind)
        as (c1 & c2 & Hc & Hb2).
      assert (NoDup (c1 ++ a :: c2)) as Hnd.
      { rewrite <- Hc. by eapply sublist_NoDup. }
      rewrite Hc.
      destruct (match_level_fifo sd w p c1 a c2 b level m rem ts Hb2 Hnd)
        as [Heq|Hf]; [|by right].
      destruct Hst as [Hst|Hst]; [left; congruence|right].
      rewrite <- Hc. by apply Hstable.
    + destruct Hst as [Hst|Hst]; [left|right; by apply Hstable].
      by rewrite match_level_untouched.
  - intros Hb'.
    assert (b ∈ PriceLevel.orders level) as Hb by by eapply elem_of_sublist.
    destruct (Hlv Hb) as [Hs Ha]. split; [by etrans|].
    destruct Ha as [Ha|Hf]; [|right; by apply Hstable].
    by apply match_level_unlinked.
Qed.

Lemma fifo_level_stable sd w p chain level' level m rem ts :
  fifo_level level m ->
  fifo_level level (match_level sd w p chain level' m rem ts).1.1.2.
Proof.
  intros Hlv Hb. destruct (Hlv Hb) as [Hs Ha]. split; [done|].
  destruct Ha as [Ha|Hf]; [by left|right]. by apply match_level_filled_out.
Qed.

Lemma match_ask_levels_fifo w levels m rem ts :
  (forall p level, (p, level) ∈ levels -> fifo_level level m) ->
  fifo_state m ->
  fifo_state (match_ask_levels w levels m rem ts).1.1.2.
Proof.
  intros Hlv Hst.
  refine (proj1 (match_ask_levels_inv
    (fun m' _ _ =>
       fifo_state m' /\ forall p level, (p, level) ∈ levels -> fifo_level level m')
    w levels _ m rem ts _)); [|done].
  intros p level m' rem' ts' Hin _ _ [Hst' Hlv']. simpl. split.
  - by apply fifo_level_visit, (Hlv' p).
  - intros q level' Hin'. by apply fifo_level_stable, (Hlv' q).
Qed.

Lemma match_bid_levels_inv_levels
    (I : price_level_map -> t -> Z -> list Trade.t -> Prop) w :
  (forall levels bid_it p level m rem ts,
     levels !! bid_it = Some (p, level) -> Order.price w <= p -> 0 < rem ->
     I levels m rem ts ->
     let r := match_level Sell w p (PriceLevel.orders level) level m rem ts in
     if PriceLevel.empty r.1.1.1 then I (delete bid_it levels) r.1.1.2 r.1.2 r.2
     else I (<[bid_it := (p, r.1.1.1)]> levels) r.1.1.2 r.1.2 r.2) ->
  forall levels bid_it m rem ts, I levels m rem ts ->
    let r := match_bid_levels w levels bid_it m rem ts in
    I r.1.1.1 r.1.1.2 r.1.2 r.2.
Proof.
  intros Hstep levels bid_it m rem ts.
  funelim (MatchingEngine.match_bid_levels clk w levels bid_it m rem ts);
    intros HI; [|done].
  simpl. destruct (_ && _) eqn:Hc; [|done].
  apply andb_true_iff in Hc as [Hp Hrem].
  apply Z.leb_le in Hp. apply Z.ltb_lt in Hrem.
  pose proof (Hstep _ _ _ _ _ _ _ Hit Hp Hrem HI) as HI'. simpl in HI'.
  destruct (PriceLevel.empty _); [by apply H|by apply H0].
Qed.

Lemma match_bid_levels_fifo w levels bid_it m rem ts :
  (forall p level, (p, level) ∈ levels -> fifo_level level m) ->
  fifo_state m ->
  fifo_state (match_bid_levels w levels bid_it m rem ts).1.1.2.
Proof.
  intros Hlv Hst.
  refine (proj1 (match_bid_levels_inv_levels
    (fun levels' m' _ _ =>
       fifo_state m' /\
       forall p level, (p, level) ∈ levels' -> fifo_level level m')
    w _ levels bid_it m rem ts _)); [|done].
  clear Hlv Hst levels bid_it m rem ts.
  intros levels bid_it p level m rem ts Hit _ _ [Hst Hlv]. simpl.
  assert ((p, level) ∈ levels) as Hin by by eapply list_elem_of_lookup_2.
  destruct (fifo_level_visit Sell w p level m rem ts Hst (Hlv p level Hin))
    as [Hst' Hlv'].
  destruct (PriceLevel.empty _); (split; [done|]); intros q level' Hin'.
  - apply list_elem_of_delete_inv in Hin'. by apply fifo_level_stable, (Hlv q).
  - apply list_elem_of_lookup in Hin' as [j Hj].
    destruct (decide (bid_it = j)) as [->|Hne].
    + rewrite list_lookup_insert_eq in Hj by by eapply lookup_lt_Some.
      by injection Hj as <- <-.
    + rewrite list_lookup_insert_ne in Hj by done.
      apply fifo_level_stable, (Hlv q). by eapply list_elem_of_lookup_2.
Qed.

End fifo.

(** Two entries [a] and [b] of one level of the side an incoming order is
    matched against, [a] linked before [b], the entries linked on that side
    being distinct nodes of the pool. When the loop of [match_buy_order] or
    [match_sell_order] is left, [b] has been traded against only if [a] has
    been filled completely. *)
Lemma fifo_distinct_nodes (o : Order.t) (s : t) (level_price : Z)
    (level : PriceLevel.t) (l1 : list OrderEntry) (a : OrderEntry)
    (l2 : list OrderEntry) (b : OrderEntry) :
  NoDup (side_entries (opposite_levels o s)) ->
  (level_price, level) ∈ opposite_levels o s ->
  PriceLevel.orders level = l1 ++ a :: l2 -> b ∈ l2 ->
  let m := (after_matching o s).1.1 in
  order_at b m <> order_at b s -> filled_out a m.
Proof.
  intros Hnd Hin Hchain Hb. cbv zeta.
  assert (NoDup (l1 ++ a :: l2)) as Hcnd.
  { rewrite <- Hchain. by eapply side_entries_chain_NoDup. }
  assert (forall p lvl m, (p, lvl) ∈ opposite_levels o s ->
            fifo_level l1 a l2 b lvl m) as Hlv.
  { intros p lvl m Hin' Hb'.
    assert ((p, lvl) = (level_price, level)) as [= -> ->].
    { eapply (side_entries_unique _ _ _ _ _ b Hnd); [done..|].
      rewrite Hchain. set_solver. }
    rewrite Hchain. split; [done|]. left. set_solver. }
  assert (fifo_state s a b (after_matching o s).1.1) as [Heq|Hf];
    [|intros Hne; by destruct Hne|done].
  unfold after_matching, opposite_levels in *.
  destruct (Order.side o); simpl.
  - apply (match_ask_levels_fifo s l1 a l2 b Hcnd Hb); [|by left].
    intros p lvl Hin'. exact (Hlv p lvl _ Hin').
  - apply (match_bid_levels_fifo s l1 a l2 b Hcnd Hb); [|by left].
    intros p lvl Hin'. rewrite elem_of_reverse in Hin'. exact (Hlv p lvl _ Hin').
Qed.

(** *** What is left of an incoming order *)

Lemma process_order_quantities_u64 o s :
  quantities_u64 s -> is_u64 (Order.quantity o) ->
  quantities_u64 (process_order o s).2.
Proof.
  intros Hq Ho. rewrite process_order_unfold.
  destruct (after_matching_remaining o s Hq Ho) as (Hq' & Hrem & _).
  destruct (after_matching o s) as [[s2 rem] ts]. simpl in *.
  destruct (rem =? 0); [done|].
  destruct (LockFreeMemoryPool.acquire (order_pool s2)) as [[entry op]|] eqn:Ha;
    [|done].
  simpl. intros x.
  assert (order_at x (add_order_to_book entry
            (store_order entry
               (Order.set_status Incoming (Order.set_quantity rem o))
               (set_order_pool op s2))) =
          order_at x (store_order entry
               (Order.set_status Incoming (Order.set_quantity rem o))
               (set_order_pool op s2))) as ->.
  { unfold add_order_to_book. cbv zeta. by destruct (Order.side _). }
  destruct (decide (entry = x)) as [->|Hne].
  - by rewrite order_at_store_order_eq.
  - rewrite order_at_store_order_ne by done.
    unfold LockFreeMemoryPool.acquire in Ha.
    destruct (LockFreeMemoryPool.free_list (order_pool s2)); [done|].
    injection Ha as _ <-. apply (Hq' x).
Qed.

Lemma init_quantities_u64 : quantities_u64 init.
Proof. intros e. unfold is_u64. by vm_compute. Qed.


(** C2, on the code. When part of an incoming order traded and the rest is
    put in the book, the entry holds the quantity that is left, the
    order's quantity less the volume of its trades, and the filled quantity
    the order came with: the trades are not added to it. *)
Theorem incoming_fill_not_recorded (o : Order.t) (s : t) :
  let r := process_order o s in
  fully_matched r.1 = false -> trades r.1 <> [] ->
  quantities_u64 s -> is_u64 (Order.quantity o) ->
  exists entry,
    order_lookup r.2 !! Order.orderID o = Some entry /\
    Order.quantity (order_at entry r.2) = Order.quantity o - volume (trades r.1) /\
    Order.filledQuantity (order_at entry r.2) = Order.filledQuantity o.
Proof.
  intros r Hnot Htr Hq Ho.
  destruct (process_order_rests o s Hnot (or_intror Htr))
    as (entry & level & rem & H1 & H2 & H3 & H4 & H5 & H6 & H7).
  exists entry. split; [done|]. fold r in H6. rewrite H6. simpl.
  split; [by apply H7|done].
Qed.

(** C5, on the code. What is left of an order that traded in part is linked
    at the tail of the level of its price on its own side and registered in
    [order_lookup] under its id; the status of the entry is [Incoming]. *)
Theorem rested_remainder_status (o : Order.t) (s : t) :
  let r := process_order o s in
  fully_matched r.1 = false -> trades r.1 <> [] ->
  exists entry level,
    order_lookup r.2 !! Order.orderID o = Some entry /\
    map_find (Order.price o) (own_levels o r.2) = Some level /\
    last (PriceLevel.orders level) = Some entry /\
    Order.price (order_at entry r.2) = Order.price o /\
    Order.status (order_at entry r.2) = Incoming.
Proof.
  intros r Hnot Htr.
  destruct (process_order_rests o s Hnot (or_intror Htr))
    as (entry & level & rem & H1 & H2 & H3 & H4 & H5 & H6 & _).
  exists entry, level. fold r in H6. rewrite H6. done.
Qed.

(** *** Well-formed engines

    The nodes of [order_pool] are linked in one level of one ladder or are
    in the free list; every level counts its entries and holds orders of its
    side and price; [order_lookup] leads to entries of the book; the keys of
    a ladder increase. *)

Definition other_side (sd : Side) : Side :=
  match sd with
  | Buy => Sell
  | Sell => Buy
  end.

Definition levels_wf (sd : Side) (levels : price_level_map) (s : t) : Prop :=
  forall p level, (p, level) ∈ levels ->
    PriceLevel.order_count level = Z.of_nat (length (PriceLevel.orders level)) /\
    forall e, e ∈ PriceLevel.orders level ->
      Order.side (order_at e s) = sd /\ Order.price (order_at e s) = p.

(** The nodes of the pool, when the ladders are [opp] and [own]. *)
Definition nodes (opp own : price_level_map) (s : t) : list OrderEntry :=
  side_entries opp ++ side_entries own ++
  LockFreeMemoryPool.free_list (order_pool s).

(** [opp] is the ladder of side [sd], with keys in the order [R], and [own]
    the other ladder; the loops of [match_buy_order] and [match_sell_order]
    work on [opp] while the engine still holds the ladder they started
    from. *)
Record ladder_inv (R : relation Z) (sd : Side) (opp own : price_level_map)
    (s : t) : Prop := mk_ladder_inv {
  li_NoDup : NoDup (nodes opp own s);
  li_bound : forall e, e ∈ nodes opp own s -> (e < Z.to_nat 10000)%nat;
  li_opp : levels_wf sd opp s;
  li_own : levels_wf (other_side sd) own s;
  li_lookup : forall id e, order_lookup s !! id = Some e ->
    e ∈ side_entries opp ++ side_entries own /\
    Order.orderID (order_at e s) = id;
  li_sorted : StronglySorted R opp.*1
}.

Definition wf (s : t) : Prop :=
  ladder_inv Z.lt Sell (ask_levels s) (bid_levels s) s /\
  StronglySorted Z.lt (bid_levels s).*1.

Lemma side_entries_app k1 k2 :
  side_entries (k1 ++ k2) = side_entries k1 ++ side_entries k2.
Proof. apply bind_app. Qed.

Lemma side_entries_cons p level k :
  side_entries ((p, level) :: k) = PriceLevel.orders level ++ side_entries k.
Proof. done. Qed.

Lemma nodes_length opp own s :
  NoDup (nodes opp own s) ->
  (forall e, e ∈ nodes opp own s -> (e < Z.to_nat 10000)%nat) ->
  (length (nodes opp own s) <= Z.to_nat 10000)%nat.
Proof.
  intros Hnd Hb.
  rewrite <- (length_seq (Z.to_nat 10000) 0%nat).
  apply submseteq_length, NoDup_submseteq; [done|].
  intros x Hx. apply elem_of_seq. specialize (Hb x Hx). lia.
Qed.

Lemma ladder_inv_chain_length R sd k1 p level k2 own s :
  ladder_inv R sd (k1 ++ (p, level) :: k2) own s ->
  (length (PriceLevel.orders level) <= Z.to_nat 10000)%nat.
Proof.
  intros [Hnd Hb _ _ _ _].
  pose proof (nodes_length _ _ _ Hnd Hb) as Hlen.
  unfold nodes in Hlen.
  rewrite side_entries_app, side_entries_cons, !length_app in Hlen. lia.
Qed.

(** The level at [p] trades: [released] leave its chain for the free
    list, and the orders keep their side, price and id. *)
Lemma ladder_inv_update R sd k1 p level level' k2 own s s' released :
  ladder_inv R sd (k1 ++ (p, level) :: k2) own s ->
  PriceLevel.orders level ≡ₚ released ++ PriceLevel.orders level' ->
  LockFreeMemoryPool.free_list (order_pool s') =
    released ++ LockFreeMemoryPool.free_list (order_pool s) ->
  PriceLevel.order_count level' = Z.of_nat (length (PriceLevel.orders level')) ->
  (forall x, Order.side (order_at x s') = Order.side (order_at x s) /\
             Order.price (order_at x s') = Order.price (order_at x s) /\
             Order.orderID (order_at x s') = Order.orderID (order_at x s)) ->
  (forall id x, order_lookup s' !! id = Some x ->
     order_lookup s !! id = Some x /\ x ∉ released) ->
  ladder_inv R sd (k1 ++ (p, level') :: k2) own s'.
Proof.
  intros [Hnd Hb Hopp Hown Hlk Hso] Hperm Hfree Hcount Hcells Hlookup.
  assert (nodes (k1 ++ (p, level') :: k2) own s' ≡ₚ
          nodes (k1 ++ (p, level) :: k2) own s) as Hnodes.
  { unfold nodes. rewrite Hfree, !side_entries_app, !side_entries_cons, Hperm.
    solve_Permutation. }
  assert (forall sd' levels, levels_wf sd' levels s -> levels_wf sd' levels s')
    as Hframe.
  { intros sd' levels Hl q l Hin. destruct (Hl q l Hin) as [Hc Hx].
    split; [done|]. intros e He. destruct (Hcells e) as (-> & -> & _).
    by apply Hx. }
  split.
  - by rewrite Hnodes.
  - intros e He. apply Hb. by rewrite <- Hnodes.
  - intros q l Hin.
    apply elem_of_app in Hin as [Hin|Hin];
      [apply (Hframe sd _ Hopp); set_solver|].
    apply elem_of_cons in Hin as [[= -> ->]|Hin];
      [|apply (Hframe sd _ Hopp); set_solver].
    split; [done|]. intros e He.
    destruct (Hcells e) as (-> & -> & _).
    apply (Hopp p level); [set_solver|].
    rewrite Hperm. set_solver.
  - by apply Hframe.
  - intros id x Hx. destruct (Hlookup id x Hx) as [Hx' Hrel].
    destruct (Hlk id x Hx') as [Hin Hid]. split.
    + rewrite !side_entries_app, !side_entries_cons in *.
      rewrite Hperm in Hin. set_solver.
    + destruct (Hcells x) as (_ & _ & ->). done.
  - by rewrite fmap_app, fmap_cons in *.
Qed.

Lemma unlink_Permutation e chain :
  e ∈ chain -> chain ≡ₚ e :: PriceLevel.unlink e chain.
Proof.
  induction chain as [|x chain IH]; intros He; [by apply elem_of_nil in He|].
  simpl. destruct (Nat.eqb x e) eqn:Heq.
  - apply Nat.eqb_eq in Heq. by subst.
  - apply Nat.eqb_neq in Heq.
    rewrite (Permutation_swap x e). apply Permutation_skip, IH. set_solver.
Qed.

Lemma fill_fields q o :
  Order.side (fill q o) = Order.side o /\
  Order.price (fill q o) = Order.price o /\
  Order.orderID (fill q o) = Order.orderID o.
Proof. done. Qed.

(** One turn of the loop over a level keeps the engine well formed. *)
Lemma ladder_inv_match_entry R sd sd_in w k1 p level k2 own s e rem ts :
  ladder_inv R sd (k1 ++ (p, level) :: k2) own s ->
  e ∈ PriceLevel.orders level ->
  let r := match_entry sd_in w p e level s rem ts in
  ladder_inv R sd (k1 ++ (p, r.1.1.1) :: k2) own r.1.1.2.
Proof.
  intros Hinv He. cbv zeta.
  destruct (entry_trade sd_in w p e s rem) as [[trade s1]|] eqn:Hc;
    [|by rewrite match_entry_no_trade].
  pose proof (match_entry_trade sd_in w p e level s rem ts trade s1 Hc)
    as (_ & _ & Hcell & Hx & Hfree & Hlk & _ & _ & Hlevel).
  pose proof (ladder_inv_chain_length _ _ _ _ _ _ _ _ Hinv) as Hlen.
  destruct (li_opp _ _ _ _ _ Hinv p level ltac:(set_solver)) as [Hcount _].
  set (o' := fill (Z.min rem (Order.quantity (order_at e s))) (order_at e s)) in *.
  assert (forall x,
    Order.side (order_at x (match_entry sd_in w p e level s rem ts).1.1.2) =
      Order.side (order_at x s) /\
    Order.price (order_at x (match_entry sd_in w p e level s rem ts).1.1.2) =
      Order.price (order_at x s) /\
    Order.orderID (order_at x (match_entry sd_in w p e level s rem ts).1.1.2) =
      Order.orderID (order_at x s)) as Hcells.
  { intros x. destruct (decide (x = e)) as [->|Hne]; [|by rewrite Hx].
    rewrite Hcell. apply fill_fields. }
  destruct (Order.quantity o' =? 0) eqn:Hz.
  - (* filled: the entry leaves the chain for the free list *)
    apply (ladder_inv_update R sd k1 p level _ k2 own s _ [e]); try done.
    + rewrite Hlevel. simpl. by apply unlink_Permutation.
    + rewrite Hlevel. simpl.
      pose proof (unlink_Permutation e _ He) as Hp.
      apply Permutation_length in Hp. simpl in Hp.
      rewrite wrap32_small; unfold is_u32; lia.
    + intros id x Hl. rewrite Hlk in Hl.
      apply lookup_delete_Some in Hl as [Hne Hl]. split; [done|].
      intros ->%list_elem_of_singleton.
      destruct (li_lookup _ _ _ _ _ Hinv id e Hl) as [_ Hid].
      apply Hne. rewrite <- Hid. done.
  - apply (ladder_inv_update R sd k1 p level _ k2 own s _ []); try done.
    + by rewrite Hlevel.
    + by rewrite Hlevel.
    + intros id x Hl. rewrite Hlk in Hl. split; [done|]. apply not_elem_of_nil.
Qed.

Lemma match_entry_keeps sd w p e level s rem ts x :
  x ∈ PriceLevel.orders level -> x <> e ->
  x ∈ PriceLevel.orders (match_entry sd w p e level s rem ts).1.1.1.
Proof.
  intros Hx Hne.
  destruct (entry_trade sd w p e s rem) as [[trade s1]|] eqn:Hc.
  - pose proof (match_entry_trade sd w p e level s rem ts trade s1 Hc)
      as (_ & _ & _ & _ & _ & _ & _ & _ & ->).
    simpl. destruct (_ =? 0); simpl; [by apply unlink_elem_of|done].
  - by rewrite match_entry_no_trade.
Qed.

(** So does the loop over a level. *)
Lemma ladder_inv_match_level R sd sd_in w k1 p k2 own chain level s rem ts :
  ladder_inv R sd (k1 ++ (p, level) :: k2) own s ->
  NoDup chain -> chain ⊆ PriceLevel.orders level ->
  let r := match_level sd_in w p chain level s rem ts in
  ladder_inv R sd (k1 ++ (p, r.1.1.1) :: k2) own r.1.1.2.
Proof.
  revert level s rem ts.
  induction chain as [|e chain IH]; intros level s rem ts Hinv Hnd Hsub; [done|].
  simpl. destruct (0 <? rem); [|done].
  apply NoDup_cons in Hnd as [He Hnd].
  pose proof (ladder_inv_match_entry R sd sd_in w k1 p level k2 own s e rem ts
                Hinv ltac:(set_solver)) as Hinv'.
  pose proof (fun x => match_entry_keeps sd_in w p e level s rem ts x) as Hkeep.
  destruct (match_entry sd_in w p e level s rem ts) as [[[level' s'] rem'] ts'].
  simpl in *. apply IH; [done..|].
  intros x Hx. apply Hkeep; [set_solver|]. intros ->. done.
Qed.

(** A level whose count is 0 links no entry, and can go. *)
Lemma ladder_inv_erase R sd k1 p level k2 own s :
  ladder_inv R sd (k1 ++ (p, level) :: k2) own s ->
  PriceLevel.empty level = true ->
  ladder_inv R sd (k1 ++ k2) own s.
Proof.
  intros [Hnd Hb Hopp Hown Hlk Hso] Hempty.
  destruct (Hopp p level ltac:(set_solver)) as [Hcount _].
  unfold PriceLevel.empty in Hempty. apply Z.eqb_eq in Hempty.
  assert (PriceLevel.orders level = []) as Hnil.
  { destruct (PriceLevel.orders level); [done|]. simpl in Hcount. lia. }
  assert (side_entries (k1 ++ (p, level) :: k2) = side_entries (k1 ++ k2)) as Heq.
  { by rewrite !side_entries_app, side_entries_cons, Hnil. }
  unfold nodes in *. rewrite Heq in *.
  split; try done.
  - intros q l Hin. apply Hopp. set_solver.
  - rewrite fmap_app, fmap_cons in Hso. rewrite fmap_app.
    apply StronglySorted_app in Hso as (H1 & H2 & H3).
    apply StronglySorted_cons in H3 as [_ H3].
    apply StronglySorted_app. split; [|done].
    intros x1 x2 Hx1 Hx2. apply H1; set_solver.
Qed.

Lemma match_ask_levels_inv_levels
    (I : price_level_map -> t -> Z -> list Trade.t -> Prop) w :
  (forall kept p level rest m rem ts,
     p <= Order.price w -> 0 < rem ->
     I (kept ++ (p, level) :: rest) m rem ts ->
     let r := match_level Buy w p (PriceLevel.orders level) level m rem ts in
     if PriceLevel.empty r.1.1.1 then I (kept ++ rest) r.1.1.2 r.1.2 r.2
     else I (kept ++ (p, r.1.1.1) :: rest) r.1.1.2 r.1.2 r.2) ->
  forall levels kept m rem ts, I (kept ++ levels) m rem ts ->
    let r := match_ask_levels w levels m rem ts in
    I (kept ++ r.1.1.1) r.1.1.2 r.1.2 r.2.
Proof.
  intros Hstep levels.
  induction levels as [|[p level] levels IH]; intros kept m rem ts HI; [done|].
  simpl. destruct (_ && _) eqn:Hc; [|done].
  apply andb_true_iff in Hc as [Hp Hrem].
  apply Z.leb_le in Hp. apply Z.ltb_lt in Hrem.
  pose proof (Hstep kept p level levels m rem ts Hp Hrem HI) as H1.
  destruct (match_level Buy w p _ level m rem ts) as [[[level' m'] rem'] ts'].
  simpl in H1. destruct (PriceLevel.empty level').
  - pose proof (IH kept m' rem' ts' H1) as H2.
    by destruct (match_ask_levels w levels m' rem' ts') as [[[? ?] ?] ?].
  - rewrite (cons_middle _ kept levels), (assoc_L (++)) in H1.
    pose proof (IH (kept ++ [(p, level')]) m' rem' ts' H1) as H2.
    destruct (match_ask_levels w levels m' rem' ts') as [[[? ?] ?] ?].
    simpl in *. by rewrite <- (assoc_L (++)) in H2.
Qed.

Lemma ladder_inv_visit R sd sd_in w k1 p level k2 own s rem ts :
  ladder_inv R sd (k1 ++ (p, level) :: k2) own s ->
  let r := match_level sd_in w p (PriceLevel.orders level) level s rem ts in
  if PriceLevel.empty r.1.1.1 then ladder_inv R sd (k1 ++ k2) own r.1.1.2
  else ladder_inv R sd (k1 ++ (p, r.1.1.1) :: k2) own r.1.1.2.
Proof.
  intros Hinv. cbv zeta.
  assert (NoDup (PriceLevel.orders level)) as Hnd.
  { pose proof (li_NoDup _ _ _ _ _ Hinv) as H. unfold nodes in H.
    rewrite side_entries_app, side_entries_cons in H.
    apply NoDup_app in H as (H & _ & _).
    apply NoDup_app in H as (_ & _ & H).
    by apply NoDup_app in H as (H & _ & _). }
  pose proof (ladder_inv_match_level R sd sd_in w k1 p k2 own
                (PriceLevel.orders level) level s rem ts Hinv Hnd ltac:(done))
    as Hinv'.
  simpl in Hinv'.
  destruct (PriceLevel.empty _) eqn:He; [|done].
  by eapply ladder_inv_erase.
Qed.

Lemma match_ask_levels_ladder_inv w own levels s rem ts :
  ladder_inv Z.lt Sell levels own s ->
  let r := match_ask_levels w levels s rem ts in
  ladder_inv Z.lt Sell r.1.1.1 own r.1.1.2.
Proof.
  intros Hinv.
  apply (match_ask_levels_inv_levels
    (fun ladder m _ _ => ladder_inv Z.lt Sell ladder own m) w
    ltac:(intros; by apply ladder_inv_visit) levels [] s rem ts Hinv).
Qed.

Lemma match_bid_levels_ladder_inv w own levels bid_it s rem ts :
  ladder_inv (flip Z.lt) Buy levels own s ->
  let r := match_bid_levels w levels bid_it s rem ts in
  ladder_inv (flip Z.lt) Buy r.1.1.1 own r.1.1.2.
Proof.
  intros Hinv.
  apply (match_bid_levels_inv_levels
    (fun ladder m _ _ => ladder_inv (flip Z.lt) Buy ladder own m) w); [|done].
  clear. intros levels bid_it p level m rem ts Hit _ _ Hinv. cbv beta zeta.
  rewrite delete_take_drop, insert_take_drop by by eapply lookup_lt_Some.
  apply ladder_inv_visit. by rewrite take_drop_middle.
Qed.

(** The loops leave the ladders of the engine, the callbacks and the
    counter of orders as they are: the new ladder is stored when they are
    left. *)
Definition same_ladders (s s' : t) : Prop :=
  bid_levels s' = bid_levels s /\ ask_levels s' = ask_levels s.

Lemma match_entry_same_ladders sd w p e level s rem ts :
  same_ladders s (match_entry sd w p e level s rem ts).1.1.2.
Proof.
  destruct (entry_trade sd w p e s rem) as [[trade s1]|] eqn:Hc.
  - pose proof (match_entry_trade sd w p e level s rem ts trade s1 Hc)
      as (_ & _ & _ & _ & _ & _ & Hb & Ha & _).
    done.
  - by rewrite match_entry_no_trade.
Qed.

Lemma match_level_same_ladders sd w p chain level s rem ts :
  same_ladders s (match_level sd w p chain level s rem ts).1.1.2.
Proof.
  apply (match_level_inv (fun _ s' _ _ => same_ladders s s')); [|done].
  intros e level' s' rem' ts' _ _ [Hb Ha]. simpl.
  destruct (match_entry_same_ladders sd w p e level' s' rem' ts') as [Hb' Ha'].
  split; congruence.
Qed.

Lemma match_ask_levels_same_ladders w levels s rem ts :
  same_ladders s (match_ask_levels w levels s rem ts).1.1.2.
Proof.
  apply (match_ask_levels_inv (fun s' _ _ => same_ladders s s')); [|done].
  intros p level s' rem' ts' _ _ _ [Hb Ha]. simpl.
  destruct (match_level_same_ladders Buy w p (PriceLevel.orders level) level
              s' rem' ts') as [Hb' Ha'].
  split; congruence.
Qed.

Lemma match_bid_levels_same_ladders w levels bid_it s rem ts :
  same_ladders s (match_bid_levels w levels bid_it s rem ts).1.1.2.
Proof.
  refine (proj1 (match_bid_levels_inv (fun s' _ _ => same_ladders s s')
    (fun _ _ => True) w _ levels bid_it s rem ts _ _)); [| |done].
  - intros p level s' rem' ts' _ _ _ [Hb Ha]. simpl. split; [|done].
    destruct (match_level_same_ladders Sell w p (PriceLevel.orders level) level
                s' rem' ts') as [Hb' Ha'].
    split; congruence.
  - by apply Forall_forall.
Qed.

(** The invariant reads the pool and [order_lookup] only. *)
Lemma ladder_inv_ext R sd opp own s s' :
  order_pool s' = order_pool s -> order_lookup s' = order_lookup s ->
  ladder_inv R sd opp own s -> ladder_inv R sd opp own s'.
Proof.
  intros Hp Hl [Hnd Hb Hopp Hown Hlk Hso].
  assert (forall x, order_at x s' = order_at x s) as Hat.
  { intros x. unfold order_at. by rewrite Hp. }
  split.
  - unfold nodes in *. by rewrite Hp.
  - unfold nodes in *. by rewrite Hp.
  - intros p level Hin. destruct (Hopp p level Hin) as [Hc Hx].
    split; [done|]. intros e He. rewrite Hat. by apply Hx.
  - intros p level Hin. destruct (Hown p level Hin) as [Hc Hx].
    split; [done|]. intros e He. rewrite Hat. by apply Hx.
  - intros id e. rewrite Hl, Hat. apply Hlk.
  - done.
Qed.

Lemma other_side_involutive sd : other_side (other_side sd) = sd.
Proof. by destruct sd. Qed.

Lemma ladder_inv_swap R R' sd opp own s :
  ladder_inv R sd opp own s -> StronglySorted R' own.*1 ->
  ladder_inv R' (other_side sd) own opp s.
Proof.
  intros [Hnd Hb Hopp Hown Hlk Hso] Hso'.
  assert (nodes own opp s ≡ₚ nodes opp own s) as Hn.
  { unfold nodes. solve_Permutation. }
  split; try done.
  - by rewrite Hn.
  - intros e He. apply Hb. by rewrite <- Hn.
  - by rewrite other_side_involutive.
  - intros id e Hl. destruct (Hlk id e Hl) as [Hin Hid]. split; [|done].
    set_solver.
Qed.

Lemma StronglySorted_reverse (R : relation Z) l :
  StronglySorted R l -> StronglySorted (flip R) (reverse l).
Proof.
  induction 1 as [|x l Hl IH Hx]; [constructor|].
  rewrite reverse_cons. apply StronglySorted_app. split; [|split].
  - intros x1 x2 Hx1 ->%list_elem_of_singleton. unfold flip.
    rewrite Forall_forall in Hx. apply Hx. by apply elem_of_reverse.
  - done.
  - repeat constructor.
Qed.

Lemma ladder_inv_reverse R sd opp own s :
  ladder_inv R sd opp own s -> ladder_inv (flip R) sd (reverse opp) own s.
Proof.
  intros [Hnd Hb Hopp Hown Hlk Hso].
  assert (side_entries (reverse opp) ≡ₚ side_entries opp) as Hs.
  { unfold side_entries. by rewrite reverse_Permutation. }
  assert (nodes (reverse opp) own s ≡ₚ nodes opp own s) as Hn.
  { unfold nodes. by rewrite Hs. }
  split; try done.
  - by rewrite Hn.
  - intros e He. apply Hb. by rewrite <- Hn.
  - intros p level Hin. apply Hopp. by apply elem_of_reverse.
  - intros id e Hl. destruct (Hlk id e Hl) as [Hin Hid]. split; [|done].
    by rewrite Hs.
  - rewrite fmap_reverse. by apply StronglySorted_reverse.
Qed.

(** The engine is well formed when the loops are left. *)
Lemma after_matching_wf o s : wf s -> wf (after_matching o s).1.1.
Proof.
  intros [Hinv Hbids]. unfold after_matching.
  set (s0 := set_total_orders_processed _ s).
  assert (ladder_inv Z.lt Sell (ask_levels s0) (bid_levels s0) s0) as Hinv0
    by by apply (ladder_inv_ext _ _ _ _ s).
  destruct (Order.side o); cbv zeta.
  - pose proof (match_ask_levels_ladder_inv o (bid_levels s0) (ask_levels s0) s0
                  (Order.quantity o) [] Hinv0) as H.
    destruct (match_ask_levels_same_ladders o (ask_levels s0) s0
                (Order.quantity o) []) as [Hb _].
    destruct (match_ask_levels o (ask_levels s0) s0 (Order.quantity o) [])
      as [[[asks m] rem] ts].
    simpl in *. split; simpl; [|by rewrite Hb].
    rewrite Hb. by apply (ladder_inv_ext _ _ _ _ m).
  - assert (ladder_inv (flip Z.lt) Buy (reverse (bid_levels s0)) (ask_levels s0) s0)
      as Hinv1.
    { apply ladder_inv_reverse. by apply (ladder_inv_swap Z.lt Z.lt Sell). }
    pose proof (match_bid_levels_ladder_inv o (ask_levels s0)
                  (reverse (bid_levels s0)) 0%nat s0 (Order.quantity o) [] Hinv1)
      as H.
    destruct (match_bid_levels_same_ladders o (reverse (bid_levels s0)) 0%nat s0
                (Order.quantity o) []) as [_ Ha].
    destruct (match_bid_levels o (reverse (bid_levels s0)) 0%nat s0
                (Order.quantity o) []) as [[[bids m] rem] ts].
    simpl in *.
    apply ladder_inv_reverse in H.
    pose proof (li_sorted _ _ _ _ _ H) as Hsorted.
    split; simpl; [|done].
    rewrite Ha.
    apply (ladder_inv_swap (flip (flip Z.lt)) Z.lt Buy (reverse bids));
      [|apply (li_sorted _ _ _ _ _ Hinv)].
    by apply (ladder_inv_ext _ _ _ _ m).
Qed.

(** *** The ladders as sorted maps *)

Lemma map_find_Some p m l :
  map_find p m = Some l ->
  exists k1 k2, m = k1 ++ (p, l) :: k2 /\ p ∉ k1.*1.
Proof.
  induction m as [|[k l'] m IH]; simpl; [done|].
  destruct (k =? p) eqn:Heq.
  - apply Z.eqb_eq in Heq as ->. intros [= ->].
    exists [], m. split; [done|]. apply not_elem_of_nil.
  - apply Z.eqb_neq in Heq. intros Hf.
    destruct (IH Hf) as (k1 & k2 & -> & Hk1).
    exists ((k, l') :: k1), k2. split; [done|]. set_solver.
Qed.

Lemma map_find_None p m : map_find p m = None -> p ∉ m.*1.
Proof.
  induction m as [|[k l'] m IH]; simpl; [intros; apply not_elem_of_nil|].
  destruct (k =? p) eqn:Heq; [done|].
  apply Z.eqb_neq in Heq. set_solver.
Qed.

Lemma map_find_middle p l k1 k2 :
  p ∉ k1.*1 -> map_find p (k1 ++ (p, l) :: k2) = Some l.
Proof.
  induction k1 as [|[k l'] k1 IH]; simpl; intros Hp.
  - by rewrite Z.eqb_refl.
  - destruct (k =? p) eqn:Heq; [apply Z.eqb_eq in Heq; set_solver|].
    apply IH. set_solver.
Qed.

Lemma map_modify_middle p f l k1 k2 :
  p ∉ k1.*1 -> map_modify p f (k1 ++ (p, l) :: k2) = k1 ++ (p, f l) :: k2.
Proof.
  induction k1 as [|[k l'] k1 IH]; simpl; intros Hp.
  - by rewrite Z.eqb_refl.
  - destruct (k =? p) eqn:Heq; [apply Z.eqb_eq in Heq; set_solver|].
    rewrite IH; [done|]. set_solver.
Qed.

Lemma map_erase_middle p l k1 k2 :
  p ∉ k1.*1 -> map_erase p (k1 ++ (p, l) :: k2) = k1 ++ k2.
Proof.
  induction k1 as [|[k l'] k1 IH]; simpl; intros Hp.
  - by rewrite Z.eqb_refl.
  - destruct (k =? p) eqn:Heq; [apply Z.eqb_eq in Heq; set_solver|].
    rewrite IH; [done|]. set_solver.
Qed.

(** [m[p] = l] for a key the map does not hold puts the entry where the
    keys stay sorted. *)
Lemma map_assign_sorted p l m :
  StronglySorted Z.lt m.*1 -> p ∉ m.*1 ->
  exists k1 k2, m = k1 ++ k2 /\ map_assign p l m = k1 ++ (p, l) :: k2 /\
    StronglySorted Z.lt (k1 ++ (p, l) :: k2).*1.
Proof.
  induction m as [|[k l'] m IH]; simpl; intros Hs Hp.
  - exists [], []. repeat split; try done. repeat constructor.
  - apply StronglySorted_cons in Hs as [Hk Hs].
    destruct (p <? k) eqn:Hlt.
    + apply Z.ltb_lt in Hlt. exists [], ((k, l') :: m).
      repeat split; try done. simpl.
      apply StronglySorted_cons. split.
      * constructor; [done|]. eapply Forall_impl; [done|]. simpl. lia.
      * by apply StronglySorted_cons.
    + apply Z.ltb_ge in Hlt.
      destruct (k =? p) eqn:Heq; [apply Z.eqb_eq in Heq; set_solver|].
      apply Z.eqb_neq in Heq.
      destruct (IH Hs ltac:(set_solver)) as (k1 & k2 & -> & -> & Hs').
      exists ((k, l') :: k1), k2. repeat split; try done. simpl.
      apply StronglySorted_cons. split; [|done].
      rewrite fmap_app, fmap_cons in *. simpl.
      apply Forall_app in Hk as [Hk1 Hk2]. apply Forall_app. split; [done|].
      constructor; [lia|done].
Qed.

Lemma sorted_elem_of_split p (l : PriceLevel.t) (m : price_level_map) :
  StronglySorted Z.lt m.*1 -> (p, l) ∈ m ->
  exists k1 k2, m = k1 ++ (p, l) :: k2 /\ p ∉ k1.*1.
Proof.
  intros Hs Hin. apply list_elem_of_split in Hin as (k1 & k2 & ->).
  exists k1, k2. split; [done|].
  rewrite fmap_app, fmap_cons in Hs. intros Hp.
  pose proof (StronglySorted_app_1_elem_of _ _ _ p p Hs Hp ltac:(set_solver)).
  lia.
Qed.

(** An empty level can be put in a ladder where the keys stay sorted. *)
Lemma ladder_inv_insert_empty R sd k1 p level k2 own s :
  ladder_inv R sd (k1 ++ k2) own s ->
  PriceLevel.orders level = [] -> PriceLevel.order_count level = 0 ->
  StronglySorted R (k1 ++ (p, level) :: k2).*1 ->
  ladder_inv R sd (k1 ++ (p, level) :: k2) own s.
Proof.
  intros [Hnd Hb Hopp Hown Hlk Hso] Hnil Hcount Hso'.
  assert (side_entries (k1 ++ (p, level) :: k2) = side_entries (k1 ++ k2)) as Heq.
  { by rewrite !side_entries_app, side_entries_cons, Hnil. }
  split.
  - unfold nodes in *. by rewrite Heq.
  - unfold nodes in *. by rewrite Heq.
  - intros q l Hin.
    apply elem_of_app in Hin as [Hin|Hin]; [apply Hopp; set_solver|].
    apply elem_of_cons in Hin as [[= -> ->]|Hin]; [|apply Hopp; set_solver].
    rewrite Hnil, Hcount. split; [done|]. intros e He. by apply elem_of_nil in He.
  - done.
  - by rewrite Heq.
  - done.
Qed.

(** The head of the free list is linked at the tail of the level at [p]. *)
Lemma ladder_inv_link R sd k1 p level level' k2 own s s' h :
  ladder_inv R sd (k1 ++ (p, level) :: k2) own s ->
  LockFreeMemoryPool.free_list (order_pool s) =
    h :: LockFreeMemoryPool.free_list (order_pool s') ->
  PriceLevel.orders level' = PriceLevel.orders level ++ [h] ->
  PriceLevel.order_count level' = Z.of_nat (length (PriceLevel.orders level')) ->
  (forall x, x <> h -> order_at x s' = order_at x s) ->
  Order.side (order_at h s') = sd -> Order.price (order_at h s') = p ->
  (forall id x, order_lookup s' !! id = Some x ->
     (x = h /\ Order.orderID (order_at h s') = id) \/
     order_lookup s !! id = Some x) ->
  ladder_inv R sd (k1 ++ (p, level') :: k2) own s'.
Proof.
  intros [Hnd Hb Hopp Hown Hlk Hso] Hfree Hchain Hcount Hcells Hside Hprice Hlookup.
  assert (nodes (k1 ++ (p, level') :: k2) own s' ≡ₚ
          nodes (k1 ++ (p, level) :: k2) own s) as Hnodes.
  { unfold nodes. rewrite Hfree, !side_entries_app, !side_entries_cons, Hchain.
    solve_Permutation. }
  assert (forall x, x ∈ side_entries (k1 ++ (p, level) :: k2) ++ side_entries own ->
            x <> h) as Hfresh.
  { intros x Hx ->. unfold nodes in Hnd. rewrite Hfree in Hnd.
    rewrite (assoc_L (++)) in Hnd.
    apply NoDup_app in Hnd as (_ & Hd & _). apply (Hd h Hx). set_solver. }
  assert (forall sd' levels,
            (forall q l, (q, l) ∈ levels -> (q, l) ∈ k1 ++ (p, level) :: k2 \/
                                             (q, l) ∈ own) ->
            levels_wf sd' levels s -> levels_wf sd' levels s') as Hframe.
  { intros sd' levels Hsub Hl q l Hin. destruct (Hl q l Hin) as [Hc Hx].
    split; [done|]. intros e He. rewrite Hcells; [by apply Hx|].
    apply Hfresh. apply elem_of_app.
    destruct (Hsub q l Hin) as [H|H]; [left|right];
      apply side_entries_elem_of; by exists q, l. }
  split.
  - by rewrite Hnodes.
  - intros e He. apply Hb. by rewrite <- Hnodes.
  - intros q l Hin.
    assert (levels_wf sd (k1 ++ k2) s') as Hrest.
    { apply Hframe; [set_solver|]. intros q' l' Hin'. apply Hopp. set_solver. }
    apply elem_of_app in Hin as [Hin|Hin]; [apply Hrest; set_solver|].
    apply elem_of_cons in Hin as [[= -> ->]|Hin]; [|apply Hrest; set_solver].
    split; [done|]. intros e He. rewrite Hchain in He.
    apply elem_of_app in He as [He|He];
      [|by apply list_elem_of_singleton in He as ->].
    rewrite Hcells; [apply (Hopp p level); [set_solver|done]|].
    apply Hfresh. apply elem_of_app. left.
    apply side_entries_elem_of. exists p, level. set_solver.
  - apply Hframe; [set_solver|done].
  - intros id x Hx.
    rewrite !side_entries_app, !side_entries_cons, Hchain.
    destruct (Hlookup id x Hx) as [[-> Hid]|Hx']; [split; [set_solver|done]|].
    destruct (Hlk id x Hx') as [Hin Hid].
    rewrite Hcells by by apply Hfresh.
    split; [|done].
    rewrite !side_entries_app, !side_entries_cons in Hin. set_solver.
  - by rewrite fmap_app, fmap_cons in *.
Qed.

Lemma ladder_inv_room R sd k1 p level k2 own s :
  ladder_inv R sd (k1 ++ (p, level) :: k2) own s ->
  (length (PriceLevel.orders level) +
   length (LockFreeMemoryPool.free_list (order_pool s)) <= Z.to_nat 10000)%nat.
Proof.
  intros [Hnd Hb _ _ _ _].
  pose proof (nodes_length _ _ _ Hnd Hb) as Hlen.
  unfold nodes in Hlen.
  rewrite side_entries_app, side_entries_cons, !length_app in Hlen. lia.
Qed.

(** [add_order_to_book], on the ladder of the order's side. *)
Lemma ladder_inv_add_order sd opp own s s' h w :
  ladder_inv Z.lt sd opp own s ->
  LockFreeMemoryPool.free_list (order_pool s) =
    h :: LockFreeMemoryPool.free_list (order_pool s') ->
  order_at h s' = w -> (forall x, x <> h -> order_at x s' = order_at x s) ->
  order_lookup s' = <[Order.orderID w := h]> (order_lookup s) ->
  Order.side w = sd ->
  ladder_inv Z.lt sd (add_order_to_side h w opp) own s'.
Proof.
  intros Hinv Hfree Hw Hcells Hlk Hside.
  assert (forall id x, order_lookup s' !! id = Some x ->
     (x = h /\ Order.orderID (order_at h s') = id) \/
     order_lookup s !! id = Some x) as Hlookup.
  { intros id x. rewrite Hlk, Hw. intros [[<- <-]|[_ H]]%lookup_insert_Some.
    - by left.
    - by right. }
  assert (forall k1 level k2,
    ladder_inv Z.lt sd (k1 ++ (Order.price w, level) :: k2) own s ->
    ladder_inv Z.lt sd
      (k1 ++ (Order.price w,
              PriceLevel.add_order h (Order.quantity w) level) :: k2) own s')
    as Hlink.
  { intros k1 level k2 Hinv'.
    apply (ladder_inv_link Z.lt sd k1 _ level _ k2 own s s' h); try done;
      [|by rewrite Hw..].
    pose proof (ladder_inv_room _ _ _ _ _ _ _ _ Hinv') as Hroom.
    rewrite Hfree in Hroom. simpl in Hroom.
    destruct (li_opp _ _ _ _ _ Hinv' (Order.price w) level ltac:(set_solver))
      as [Hcount _].
    simpl. rewrite length_app. simpl. rewrite Hcount.
    rewrite wrap32_small; unfold is_u32; lia. }
  unfold add_order_to_side.
  destruct (map_find (Order.price w) opp) as [level|] eqn:Hfind.
  - apply map_find_Some in Hfind as (k1 & k2 & -> & Hk1).
    rewrite map_modify_middle by done. by apply Hlink.
  - apply map_find_None in Hfind.
    destruct (map_assign_sorted (Order.price w)
                (PriceLevel.add_order h (Order.quantity w)
                   (PriceLevel.init (Order.price w))) opp
                (li_sorted _ _ _ _ _ Hinv) Hfind) as (k1 & k2 & -> & -> & Hs).
    apply Hlink. apply ladder_inv_insert_empty; try done.
    by rewrite fmap_app, fmap_cons in *.
Qed.

Lemma wf_swap s :
  wf s <->
  ladder_inv Z.lt Buy (bid_levels s) (ask_levels s) s /\
  StronglySorted Z.lt (ask_levels s).*1.
Proof.
  split.
  - intros [Hinv Hs]. split; [|apply (li_sorted _ _ _ _ _ Hinv)].
    by apply (ladder_inv_swap Z.lt Z.lt Sell).
  - intros [Hinv Hs]. split; [|apply (li_sorted _ _ _ _ _ Hinv)].
    by apply (ladder_inv_swap Z.lt Z.lt Buy).
Qed.

(** [process_order] keeps the engine well formed. *)
Lemma process_order_wf o s : wf s -> wf (process_order o s).2.
Proof.
  intros Hwf. rewrite process_order_unfold.
  pose proof (after_matching_wf o s Hwf) as Hm.
  destruct (after_matching o s) as [[m rem] ts]. simpl in Hm.
  destruct (rem =? 0); [done|].
  destruct (LockFreeMemoryPool.acquire (order_pool m)) as [[h op]|] eqn:Hacq;
    [|done].
  simpl.
  unfold LockFreeMemoryPool.acquire in Hacq.
  destruct (LockFreeMemoryPool.free_list (order_pool m)) as [|h' tail] eqn:Hfree;
    [done|].
  injection Hacq as -> <-.
  set (w := Order.set_status Incoming (Order.set_quantity rem o)).
  set (s3 := store_order h w _).
  assert (order_at h s3 = w) as Hw by apply order_at_store_order_eq.
  assert (forall x, x <> h -> order_at x s3 = order_at x m) as Hcells.
  { intros x Hx. unfold s3. rewrite order_at_store_order_ne by done. done. }
  unfold add_order_to_book. cbv zeta. rewrite Hw.
  destruct (Order.side w) eqn:Hside.
  - apply wf_swap. apply wf_swap in Hm as [Hinv Hs]. split; [|done].
    simpl.
    apply (ladder_inv_add_order Buy (bid_levels m) (ask_levels m) m _ h w);
      done.
  - destruct Hm as [Hinv Hs]. split; [|done].
    simpl.
    apply (ladder_inv_add_order Sell (ask_levels m) (bid_levels m) m _ h w);
      done.
Qed.

(** [cancel_order], on the ladder that links the entry. *)
Lemma ladder_inv_cancel sd opp own s s' id e :
  ladder_inv Z.lt sd opp own s ->
  order_lookup s !! id = Some e -> e ∈ side_entries opp ->
  LockFreeMemoryPool.free_list (order_pool s') =
    e :: LockFreeMemoryPool.free_list (order_pool s) ->
  (forall x, Order.side (order_at x s') = Order.side (order_at x s) /\
             Order.price (order_at x s') = Order.price (order_at x s) /\
             Order.orderID (order_at x s') = Order.orderID (order_at x s)) ->
  order_lookup s' = delete id (order_lookup s) ->
  ladder_inv Z.lt sd (remove_order_from_side e (order_at e s) opp) own s'.
Proof.
  intros Hinv Hid He Hfree Hcells Hlk.
  apply side_entries_elem_of in He as (p & level & Hin & He).
  destruct (li_opp _ _ _ _ _ Hinv p level Hin) as [Hcount Hx].
  destruct (Hx e He) as [_ Hprice].
  destruct (sorted_elem_of_split p level opp (li_sorted _ _ _ _ _ Hinv) Hin)
    as (k1 & k2 & -> & Hk1).
  pose proof (ladder_inv_chain_length _ _ _ _ _ _ _ _ Hinv) as Hlen.
  unfold remove_order_from_side. rewrite Hprice, map_find_middle by done.
  set (level1 := PriceLevel.remove_order e _ level).
  assert (ladder_inv Z.lt sd (k1 ++ (p, level1) :: k2) own s') as Hinv1.
  { apply (ladder_inv_update Z.lt sd k1 p level _ k2 own s _ [e]); try done.
    - simpl. by apply unlink_Permutation.
    - simpl. pose proof (unlink_Permutation e _ He) as Hp.
      apply Permutation_length in Hp. simpl in Hp.
      rewrite wrap32_small; unfold is_u32; lia.
    - intros id' x Hl. rewrite Hlk in Hl.
      apply lookup_delete_Some in Hl as [Hne Hl]. split; [done|].
      intros ->%list_elem_of_singleton.
      destruct (li_lookup _ _ _ _ _ Hinv id e Hid) as [_ H1].
      destruct (li_lookup _ _ _ _ _ Hinv id' e Hl) as [_ H2].
      congruence. }
  destruct (PriceLevel.empty level1) eqn:Hempty.
  - rewrite map_erase_middle by done. by eapply ladder_inv_erase.
  - by rewrite map_modify_middle.
Qed.

Lemma cancel_order_wf order_id s : wf s -> wf (cancel_order order_id s).2.
Proof.
  intros Hwf. unfold cancel_order.
  destruct (order_lookup s !! order_id) as [e|] eqn:Hid; [|done].
  simpl.
  set (s1 := remove_order_from_book e s).
  assert (order_pool s1 = order_pool s /\ order_lookup s1 = order_lookup s)
    as [Hp1 Hl1].
  { unfold s1, remove_order_from_book. by destruct (Order.side _). }
  assert (forall x, order_at x s1 = order_at x s) as Hat1.
  { intros x. unfold order_at. by rewrite Hp1. }
  set (o := Order.set_status Cancelled (order_at e s1)).
  set (s2 := notify_order_update o (store_order e o s1)).
  assert (forall x, Order.side (order_at x s2) = Order.side (order_at x s) /\
             Order.price (order_at x s2) = Order.price (order_at x s) /\
             Order.orderID (order_at x s2) = Order.orderID (order_at x s))
    as Hcells.
  { intros x. unfold s2. rewrite order_at_notify_order_update.
    destruct (decide (e = x)) as [->|Hne].
    - rewrite order_at_store_order_eq. unfold o. by rewrite Hat1.
    - rewrite order_at_store_order_ne by done. by rewrite Hat1. }
  assert (order_lookup s2 = order_lookup s /\
          LockFreeMemoryPool.free_list (order_pool s2) =
            LockFreeMemoryPool.free_list (order_pool s) /\
          bid_levels s2 = bid_levels s1 /\ ask_levels s2 = ask_levels s1)
    as (Hl2 & Hf2 & Hb2 & Ha2).
  { unfold s2, notify_order_update.
    destruct (order_update_callback _); simpl; by rewrite ?Hl1, ?Hp1. }
  set (s3 := set_order_lookup _ _).
  assert (forall x, order_at x s3 = order_at x s2) as Hat3 by done.
  assert (forall R sd opp own,
    ladder_inv R sd opp own s3 <->
    ladder_inv R sd opp own
      (set_order_lookup (delete order_id (order_lookup s))
         (set_order_pool
            (LockFreeMemoryPool.release e (order_pool s2)) s))) as Hs3.
  { intros. split; apply ladder_inv_ext; unfold s3; simpl; by rewrite ?Hl2. }
  destruct (li_lookup _ _ _ _ _ (proj1 Hwf) order_id e Hid) as [Hin Horder].
  assert (bid_levels s3 = bid_levels s1 /\ ask_levels s3 = ask_levels s1)
    as [Hb3 Ha3] by done.
  unfold wf. rewrite Hb3, Ha3.
  apply elem_of_app in Hin as [Hin|Hin].
  - (* a resting sell *)
    destruct Hwf as [Hinv Hs].
    apply side_entries_elem_of in Hin as Hin'.
    destruct Hin' as (p & level & Hlv & He).
    destruct (li_opp _ _ _ _ _ Hinv p level Hlv) as [_ Hx].
    destruct (Hx e He) as [Hside _].
    unfold s1, remove_order_from_book. rewrite Hside. simpl.
    split; [|done]. apply Hs3.
    apply (ladder_inv_cancel Sell _ _ s _ order_id e); try done.
    simpl. by rewrite Hf2.
  - (* a resting buy *)
    apply wf_swap in Hwf as [Hinv Hs].
    apply side_entries_elem_of in Hin as Hin'.
    destruct Hin' as (p & level & Hlv & He).
    destruct (li_opp _ _ _ _ _ Hinv p level Hlv) as [_ Hx].
    destruct (Hx e He) as [Hside _].
    unfold s1, remove_order_from_book. rewrite Hside. simpl.
    assert (ladder_inv Z.lt Buy
              (remove_order_from_side e (order_at e s) (bid_levels s))
              (ask_levels s) s3) as Hinv'.
    { apply Hs3.
      apply (ladder_inv_cancel Buy _ _ s _ order_id e); try done.
      simpl. by rewrite Hf2. }
    split; [|apply (li_sorted _ _ _ _ _ Hinv')].
    by apply (ladder_inv_swap Z.lt Z.lt Buy).
Qed.

Lemma init_wf : wf init.
Proof.
  assert (nodes [] [] init = seq 0 (Z.to_nat 10000)) as Hnodes by reflexivity.
  assert (ask_levels init = []) as Ha by reflexivity.
  assert (bid_levels init = []) as Hb by reflexivity.
  assert (order_lookup init = ∅) as Hl by reflexivity.
  unfold wf. rewrite Ha, Hb. clear Ha Hb.
  generalize dependent init. intros s Hnodes Hl.
  split; [|constructor]. split.
  - rewrite Hnodes. apply NoDup_seq.
  - rewrite Hnodes. intros e He. apply elem_of_seq in He. lia.
  - intros p level Hin. by apply elem_of_nil in Hin.
  - intros p level Hin. by apply elem_of_nil in Hin.
  - intros id e He. rewrite Hl in He. by rewrite lookup_empty in He.
  - constructor.
Qed.

(** The engines that can be: a new one, and what [set_trade_callback],
    [set_order_update_callback], [process_order] and [cancel_order] make of
    one. [trade_id_generator] is a static of [create_trade], which all the
    engines of the process share: a trade that another engine makes, before
    this one is made or later, moves it on by one. *)
Inductive reachable : t -> Prop :=
| reachable_init : reachable init
| reachable_set_trade_callback s b :
    reachable s -> reachable (set_trade_callback b s)
| reachable_set_order_update_callback s b :
    reachable s -> reachable (set_order_update_callback b s)
| reachable_process_order s o :
    reachable s -> reachable (process_order o s).2
| reachable_cancel_order s order_id :
    reachable s -> reachable (cancel_order order_id s).2
| reachable_other_engine_trade s :
    reachable s ->
    reachable (set_trade_id_generator (wrap64 (trade_id_generator s + 1)) s).

Lemma reachable_wf s : reachable s -> wf s.
Proof.
  induction 1 as [|s b _ IH|s b _ IH|s o _ IH|s order_id _ IH|s _ IH].
  - apply init_wf.
  - destruct IH as [Hinv Hs]. split; [|done].
    by apply (ladder_inv_ext _ _ _ _ s).
  - destruct IH as [Hinv Hs]. split; [|done].
    by apply (ladder_inv_ext _ _ _ _ s).
  - by apply process_order_wf.
  - by apply cancel_order_wf.
  - destruct IH as [Hinv Hs]. split; [|done].
    by apply (ladder_inv_ext _ _ _ _ s).
Qed.

(** *** The two properties of the book in the engines that can be *)

Lemma wf_opposite_levels o s :
  wf s ->
  NoDup (side_entries (opposite_levels o s)) /\
  forall p level e, (p, level) ∈ opposite_levels o s ->
    e ∈ PriceLevel.orders level -> Order.price (order_at e s) = p.
Proof.
  intros [Hinv _]. pose proof (li_NoDup _ _ _ _ _ Hinv) as Hnd.
  unfold nodes in Hnd.
  apply NoDup_app in Hnd as (Hasks & _ & Hnd).
  apply NoDup_app in Hnd as (Hbids & _ & _).
  unfold opposite_levels. destruct (Order.side o).
  - split; [done|]. intros p level e Hin He.
    by apply (li_opp _ _ _ _ _ Hinv p level Hin).
  - split; [done|]. intros p level e Hin He.
    by apply (li_own _ _ _ _ _ Hinv p level Hin).
Qed.

(** C1. Every trade of [process_order] is made at the price of a level of
    the opposite side, against an order resting in that level, and within the
    limit of the incoming order: at most its price for a buy, at least its
    price for a sell. In the engines that can be, the price of the level is
    the price of the resting order. *)
Theorem process_order_trade_price (o : Order.t) (s : t) (trade : Trade.t) :
  trade ∈ trades (process_order o s).1 ->
  exists level_price level resting,
    (level_price, level) ∈ opposite_levels o s /\
    resting ∈ PriceLevel.orders level /\
    Trade.price trade = level_price /\
    (reachable s -> Trade.price trade = Order.price (order_at resting s)) /\
    match Order.side o with
    | Buy =>
        Trade.buy_order_id trade = Order.orderID o /\
        Trade.sell_order_id trade = Order.orderID (order_at resting s) /\
        Trade.price trade <= Order.price o
    | Sell =>
        Trade.sell_order_id trade = Order.orderID o /\
        Trade.buy_order_id trade = Order.orderID (order_at resting s) /\
        Order.price o <= Trade.price trade
    end.
Proof.
  intros Hin.
  destruct (process_order_trades_at_level o s trade Hin)
    as (p & level & resting & Hl & Hr & Hp & Hside).
  exists p, level, resting. repeat split; try done.
  intros Hreach. apply reachable_wf in Hreach.
  destruct (wf_opposite_levels o s Hreach) as [_ Hprice].
  rewrite Hp. symmetry. by apply (Hprice p level).
Qed.

(** Cancelling an order takes its entry out of the chain and leaves the
    others in their order; a level left without entries goes. *)
Lemma unlink_middle a l1 l2 :
  a ∉ l1 -> PriceLevel.unlink a (l1 ++ a :: l2) = l1 ++ l2.
Proof.
  induction l1 as [|x l1 IH]; simpl; intros Ha.
  - by rewrite Nat.eqb_refl.
  - destruct (Nat.eqb x a) eqn:Heq; [apply Nat.eqb_eq in Heq; set_solver|].
    rewrite IH; [done|]. set_solver.
Qed.

Lemma map_find_not_elem_of p (m : price_level_map) :
  p ∉ m.*1 -> map_find p m = None.
Proof.
  induction m as [|[k l] m IH]; simpl; [done|]. intros Hp.
  destruct (k =? p) eqn:Heq; [apply Z.eqb_eq in Heq; set_solver|].
  apply IH. set_solver.
Qed.

(** The chain of the level at [p], empty when the ladder has no such
    level. *)
Definition chain_at (p : Z) (levels : price_level_map) : list OrderEntry :=
  from_option PriceLevel.orders [] (map_find p levels).

Lemma remove_order_from_side_chain sd opp own s p level l1 a l2 :
  ladder_inv Z.lt sd opp own s -> (p, level) ∈ opp ->
  PriceLevel.orders level = l1 ++ a :: l2 ->
  chain_at p (remove_order_from_side a (order_at a s) opp) = l1 ++ l2.
Proof.
  intros Hinv Hin Hchain.
  destruct (li_opp _ _ _ _ _ Hinv p level Hin) as [Hcount Hx].
  destruct (Hx a ltac:(rewrite Hchain; set_solver)) as [_ Hprice].
  pose proof (li_sorted _ _ _ _ _ Hinv) as Hsorted.
  destruct (sorted_elem_of_split p level opp Hsorted Hin)
    as (k1 & k2 & -> & Hk1).
  pose proof (ladder_inv_chain_length _ _ _ _ _ _ _ _ Hinv) as Hlen.
  assert (NoDup (l1 ++ a :: l2)) as Hnd.
  { rewrite <- Hchain. eapply side_entries_chain_NoDup; [|done].
    pose proof (li_NoDup _ _ _ _ _ Hinv) as H. unfold nodes in H.
    by apply NoDup_app in H as (H & _ & _). }
  assert (a ∉ l1) as Ha.
  { apply NoDup_app in Hnd as (_ & Hd & _). intros H. apply (Hd a H). set_solver. }
  unfold chain_at, remove_order_from_side.
  rewrite Hprice, map_find_middle by done.
  unfold PriceLevel.empty. simpl.
  rewrite Hcount, Hchain, length_app in *. simpl in *.
  rewrite wrap32_small by (unfold is_u32; lia).
  destruct (_ =? 0) eqn:Hz.
  - apply Z.eqb_eq in Hz.
    rewrite map_erase_middle by done.
    rewrite map_find_not_elem_of.
    + simpl. destruct l1, l2; simpl in *; (done || lia).
    + rewrite fmap_app, fmap_cons in Hsorted. rewrite fmap_app.
      apply StronglySorted_app in Hsorted as (_ & _ & H2).
      apply StronglySorted_cons in H2 as [H2 _]. rewrite Forall_forall in H2.
      intros [H|H]%elem_of_app; [done|]. specialize (H2 p H). simpl in H2. lia.
  - rewrite map_modify_middle by done.
    rewrite map_find_middle by done. simpl.
    rewrite Hchain. by apply unlink_middle.
Qed.

Lemma cancel_order_ladders order_id s e :
  order_lookup s !! order_id = Some e ->
  let s' := (cancel_order order_id s).2 in
  match Order.side (order_at e s) with
  | Buy =>
      bid_levels s' = remove_order_from_side e (order_at e s) (bid_levels s) /\
      ask_levels s' = ask_levels s
  | Sell =>
      ask_levels s' = remove_order_from_side e (order_at e s) (ask_levels s) /\
      bid_levels s' = bid_levels s
  end.
Proof.
  intros Hid. unfold cancel_order. rewrite Hid. simpl.
  unfold notify_order_update, remove_order_from_book.
  destruct (Order.side (order_at e s));
    destruct (order_update_callback _); done.
Qed.

(** Two orders [a] and [b] rest in one level of the side an incoming order
    is matched against, [a] linked before [b], in an engine that can be.
    When the loop of [match_buy_order] or [match_sell_order] is left, [b] has
    been traded against only if [a] has been filled completely (quantity 0,
    status [Filled]). Cancelling [a] instead takes [a] alone out of the
    chain, so that [b] keeps its place behind the entries that were before
    [a]. And [PriceLevel::add_order] links a new entry behind the entries of
    the level. *)
Lemma fifo_along_chain (o : Order.t) (s : t) (level_price : Z)
    (level : PriceLevel.t) (l1 : list OrderEntry) (a : OrderEntry)
    (l2 : list OrderEntry) (b : OrderEntry) :
  reachable s ->
  (level_price, level) ∈ opposite_levels o s ->
  PriceLevel.orders level = l1 ++ a :: l2 -> b ∈ l2 ->
  let m := (after_matching o s).1.1 in
  (order_at b m <> order_at b s -> filled_out a m) /\
  (forall order_id, order_lookup s !! order_id = Some a ->
     chain_at level_price (opposite_levels o (cancel_order order_id s).2) =
     l1 ++ l2) /\
  (forall entry entry_quantity (l : PriceLevel.t),
     PriceLevel.orders (PriceLevel.add_order entry entry_quantity l) =
     PriceLevel.orders l ++ [entry]).
Proof.
  intros Hreach Hin Hchain Hb. cbv zeta.
  apply reachable_wf in Hreach.
  destruct (wf_opposite_levels o s Hreach) as [Hnd _].
  split; [|split; [|done]].
  - by apply (fifo_distinct_nodes o s level_price level l1 a l2 b).
  - intros order_id Hid.
    pose proof (cancel_order_ladders order_id s a Hid) as Hl. cbv zeta in Hl.
    assert (a ∈ PriceLevel.orders level) as Ha by (rewrite Hchain; set_solver).
    unfold opposite_levels in *. destruct (Order.side o).
    + destruct Hreach as [Hinv _].
      destruct (li_opp _ _ _ _ _ Hinv level_price level Hin) as [_ Hx].
      destruct (Hx a Ha) as [Hside _]. rewrite Hside in Hl.
      destruct Hl as [-> _].
      by eapply remove_order_from_side_chain.
    + apply wf_swap in Hreach as [Hinv _].
      destruct (li_opp _ _ _ _ _ Hinv level_price level Hin) as [_ Hx].
      destruct (Hx a Ha) as [Hside _]. rewrite Hside in Hl.
      destruct Hl as [-> _].
      by eapply remove_order_from_side_chain.
Qed.

End props.

(** *** The scenarios of the specification

    Prices are scaled by 1e8 in the specification; the scenarios give them
    as they stand. The hardware counter shows 0 throughout. *)

Definition tsc0 (_ : Z) : Z := 0.

(** The resting sell of S2 and S5: [{id=1, sym=1, Sell, Limit, price=10100,
    qty=100}]. *)
Definition resting_sell : Order.t :=
  Order.mk 1 1 Sell Limit Gtc 10100 100 0 Incoming 1.

(** The book once [resting_sell] has been processed by a new engine. *)
Definition one_sell : t := (process_order tsc0 resting_sell init).2.

(** S2: [{id=2, Buy, qty=150, price=10100, tif=GTC}]. *)
Definition buy_150_gtc : Order.t :=
  Order.mk 2 1 Buy Limit Gtc 10100 150 0 Incoming 2.


(** The same order, fill or kill. *)
Definition buy_200_fok : Order.t :=
  Order.mk 2 1 Buy Limit Fok 10100 200 0 Incoming 2.

(** S3: a second resting sell of 50 behind a first one, and a buy of 75. *)
Definition two_sells : t :=
  (process_order tsc0 (Order.mk 2 1 Sell Limit Gtc 10100 50 0 Incoming 2)
     (process_order tsc0 (Order.mk 1 1 Sell Limit Gtc 10100 50 0 Incoming 1)
        init).2).2.

Definition buy_75 : Order.t :=
  Order.mk 3 1 Buy Limit Gtc 10100 75 0 Incoming 3.

Lemma one_sell_quantities_u64 : quantities_u64 one_sell.
Proof.
  apply process_order_quantities_u64; [apply init_quantities_u64|].
  unfold is_u64. by vm_compute.
Qed.

Lemma one_sell_reachable : reachable tsc0 one_sell.
Proof. apply reachable_process_order, reachable_init. Qed.

Lemma two_sells_reachable : reachable tsc0 two_sells.
Proof. do 2 apply reachable_process_order. apply reachable_init. Qed.

Lemma process_order_trade_price_witness :
  exists level_price level resting,
    (level_price, level) ∈ ask_levels one_sell /\
    resting ∈ PriceLevel.orders level /\
    10100 = level_price /\
    (reachable tsc0 one_sell -> 10100 = Order.price (order_at resting one_sell)) /\
    2 = 2 /\ 1 = Order.orderID (order_at resting one_sell) /\ 10100 <= 10100.
Proof.
  apply (process_order_trade_price tsc0 buy_150_gtc one_sell
           (Trade.mk 1 2 1 1 10100 100 0 Buy)).
  vm_compute. apply list_elem_of_singleton. reflexivity.
Defined.

(** S2 on the code: one trade of 100; order 2 rests as a bid of 50 at
    10100, registered under its id, with status [Incoming] and nothing
    filled. *)
Lemma partial_fill_rests_S2 :
  let r := process_order tsc0 buy_150_gtc one_sell in
  trades r.1 = [Trade.mk 1 2 1 1 10100 100 0 Buy] /\
  order_lookup r.2 !! 2 = Some 0%nat /\
  bid_levels r.2 = [(10100, PriceLevel.mk 10100 50 1 [0%nat])] /\
  ask_levels r.2 = [] /\
  order_at 0%nat r.2 = Order.mk 2 1 Buy Limit Gtc 10100 50 0 Incoming 2.
Proof. vm_compute. repeat split; reflexivity. Qed.

Lemma incoming_fill_not_recorded_witness :
  let r := process_order tsc0 buy_150_gtc one_sell in
  exists entry,
    order_lookup r.2 !! 2 = Some entry /\
    Order.quantity (order_at entry r.2) = 150 - volume (trades r.1) /\
    Order.filledQuantity (order_at entry r.2) = 0.
Proof.
  apply (incoming_fill_not_recorded tsc0 buy_150_gtc one_sell).
  - reflexivity.
  - vm_compute. discriminate.
  - apply one_sell_quantities_u64.
  - unfold is_u64. simpl. lia.
Defined.

Lemma rested_remainder_status_witness :
  let r := process_order tsc0 buy_150_gtc one_sell in
  exists entry level,
    order_lookup r.2 !! 2 = Some entry /\
    map_find 10100 (bid_levels r.2) = Some level /\
    last (PriceLevel.orders level) = Some entry /\
    Order.price (order_at entry r.2) = 10100 /\
    Order.status (order_at entry r.2) = Incoming.
Proof.
  apply (rested_remainder_status tsc0 buy_150_gtc one_sell).
  - reflexivity.
  - vm_compute. discriminate.
Defined.



(** C4, as stated, fails: the resting sell of 100 does not cover the fill
    or kill buy of 200, yet a trade of 100 is made, the ask level is
    consumed, order 1 leaves [order_lookup] and the 100 that are left rest
    as a bid. *)
Lemma fok_partial_match_trades :
  let r := process_order tsc0 buy_200_fok one_sell in
  ask_levels one_sell = [(10100, PriceLevel.mk 10100 100 1 [0%nat])] /\
  order_lookup one_sell !! 1 = Some 0%nat /\
  trades r.1 = [Trade.mk 1 2 1 1 10100 100 0 Buy] /\
  ask_levels r.2 = [] /\
  order_lookup r.2 !! 1 = None /\
  bid_levels r.2 = [(10100, PriceLevel.mk 10100 100 1 [0%nat])].
Proof. vm_compute. repeat split; reflexivity. Qed.

(** S3 on the code: the first sell is filled completely before the second
    is traded against. *)
Lemma price_time_priority_S3 :
  let r := process_order tsc0 buy_75 two_sells in
  trades r.1 =
    [Trade.mk 1 3 1 1 10100 50 0 Buy; Trade.mk 2 3 2 1 10100 25 0 Buy] /\
  fully_matched r.1 = true /\
  order_at 0%nat r.2 = Order.mk 1 1 Sell Limit Gtc 10100 0 50 Filled 1 /\
  order_at 1%nat r.2 = Order.mk 2 1 Sell Limit Gtc 10100 25 25 PartiallyFilled 2 /\
  ask_levels r.2 = [(10100, PriceLevel.mk 10100 25 1 [1%nat])].
Proof. vm_compute. repeat split; reflexivity. Qed.

Lemma cancel_order_idempotent_witness :
  cancel_order 1 (cancel_order 1 one_sell).2 = (false, (cancel_order 1 one_sell).2) /\
  cancel_order 7 one_sell = (false, one_sell).
Proof.
  split.
  - apply (cancel_order_idempotent 1 one_sell). reflexivity.
  - apply (cancel_order_idempotent 7 one_sell). reflexivity.
Defined.

End MatchingEngineProps.


(** * Properties of the token bucket *)

Module RiskManagerProps.
Import RiskManager.

Lemma refill_not_later tsc_frequency current_time limiter :
  current_time <= RateLimiter.last_refill_time limiter ->
  refill tsc_frequency current_time limiter = Some limiter.
Proof.
  intros H. unfold refill.
  destruct (_ <? current_time) eqn:Hlt; [|done].
  apply Z.ltb_lt in Hlt. lia.
Qed.

(** A check of a limiter whose tokens are within the bucket, on a counter
    whose frequency is known, when an interval of [elapsed_ns] nanoseconds
    that is worth at least one token has passed and nothing overflows: the
    bucket gains [elapsed_ns * refill_rate / 10^9] tokens, clamped to its
    size, and one token is taken if there is one. *)
Lemma check_rate_limit_refills tsc_frequency current_time limiter :
  let elapsed_ns :=
    wrap64 ((current_time - RateLimiter.last_refill_time limiter) * 1000000000)
    / tsc_frequency in
  let gain := elapsed_ns * RateLimiter.refill_rate limiter / 1000000000 in
  let filled :=
    Z.min (RateLimiter.tokens limiter + gain) (RateLimiter.bucket_size limiter) in
  RateLimiter.wf limiter -> tsc_frequency <> 0 ->
  RateLimiter.last_refill_time limiter < current_time ->
  elapsed_ns * RateLimiter.refill_rate limiter < 2 ^ 64 ->
  0 < gain -> RateLimiter.tokens limiter + gain < 2 ^ 32 ->
  check_rate_limit tsc_frequency current_time limiter =
    Some (0 <? filled,
          RateLimiter.mk (if 0 <? filled then filled - 1 else filled) current_time
            (RateLimiter.refill_rate limiter) (RateLimiter.bucket_size limiter)).
Proof.
  intros elapsed_ns gain filled (Ht & Hl & Hr & Hb) Hfreq Hlt Hmul Hgain Hsum.
  assert (0 < elapsed_ns * RateLimiter.refill_rate limiter) as Hpos.
  { subst gain.
    pose proof (Z.div_mod (elapsed_ns * RateLimiter.refill_rate limiter)
                  1000000000 ltac:(lia)).
    pose proof (Z.mod_pos_bound (elapsed_ns * RateLimiter.refill_rate limiter)
                  1000000000 ltac:(lia)).
    lia. }
  unfold check_rate_limit, refill, tsc_to_nanoseconds, div_u64.
  assert (tokens_to_add elapsed_ns (RateLimiter.refill_rate limiter) = gain) as Hadd.
  { unfold tokens_to_add. unfold is_u32 in *.
    rewrite wrap64_small by (unfold is_u64; lia).
    apply wrap32_small. unfold is_u32. fold gain. lia. }
  apply Z.ltb_lt in Hlt. rewrite Hlt.
  apply Z.eqb_neq in Hfreq. rewrite Hfreq. simpl. fold elapsed_ns. rewrite Hadd.
  pose proof Hgain as Hg. apply Z.ltb_lt in Hg. rewrite Hg. simpl.
  rewrite wrap32_small by (unfold is_u32 in *; lia). fold filled.
  by destruct (0 <? filled).
Qed.

(** The tokens of a limiter within its bucket stay within it. *)
Lemma check_rate_limit_within_bucket tsc_frequency current_time limiter
    passed limiter' :
  RateLimiter.wf limiter ->
  RateLimiter.tokens limiter <= RateLimiter.bucket_size limiter ->
  check_rate_limit tsc_frequency current_time limiter = Some (passed, limiter') ->
  0 <= RateLimiter.tokens limiter' <= RateLimiter.bucket_size limiter' /\
  RateLimiter.bucket_size limiter' = RateLimiter.bucket_size limiter.
Proof.
  intros (Ht & Hl & Hr & Hb) Hle. unfold check_rate_limit, refill.
  unfold is_u32 in *.
  destruct (_ <? current_time).
  2:{ simpl. destruct (0 <? _) eqn:H0; intros [= <- <-]; simpl;
        [apply Z.ltb_lt in H0|]; lia. }
  destruct (tsc_to_nanoseconds _ _) as [elapsed_ns|]; [|done]. simpl.
  destruct (0 <? tokens_to_add _ _).
  - simpl.
    pose proof (Z.mod_pos_bound
      (RateLimiter.tokens limiter +
       tokens_to_add elapsed_ns (RateLimiter.refill_rate limiter))
      (2 ^ 32) ltac:(lia)) as Hm.
    fold (wrap32 (RateLimiter.tokens limiter +
       tokens_to_add elapsed_ns (RateLimiter.refill_rate limiter))) in Hm.
    destruct (0 <? Z.min _ _) eqn:H0; intros [= <- <-]; simpl;
      [apply Z.ltb_lt in H0|]; lia.
  - simpl. destruct (0 <? _) eqn:H0; intros [= <- <-]; simpl;
      [apply Z.ltb_lt in H0|]; lia.
Qed.

(** C8, on the code. The limiter made for a symbol has a bucket of 100 and
    holds 1000 tokens: a check at the time it was made, or one microsecond
    later on a 3 GHz counter, adds nothing, takes one token and leaves 999
    in a bucket of 100. *)
Theorem new_symbol_limiter_over_bucket (tsc_frequency now : Z) :
  let limiter := new_symbol_limiter now in
  RateLimiter.bucket_size limiter = 100 /\
  check_rate_limit tsc_frequency now limiter =
    Some (true, RateLimiter.mk 999 now 100 100) /\
  check_rate_limit 3000000000 3000 (new_symbol_limiter 0) =
    Some (true, RateLimiter.mk 999 0 100 100).
Proof.
  split; [done|]. split; [|by vm_compute].
  unfold check_rate_limit. rewrite refill_not_later by (simpl; lia). done.
Qed.
End RiskManagerProps.


(** * Properties of the aggregated order book *)

Module OrderBookProps.
Import OrderBook.

(** The side [update_level] works on. *)
Definition book_side (side : Side) (b : t) : BookSide.t :=
  match side with
  | Buy => bids b
  | Sell => asks b
  end.

Definition get_quantity (side : Side) (price : Z) (b : t) : Z :=
  match side with
  | Buy => get_bid_quantity price b
  | Sell => get_ask_quantity price b
  end.


Section book_props.
Variable MaxLevels : Z.

Local Abbreviation update_level := (OrderBook.update_level MaxLevels).
Local Abbreviation update_side := (OrderBook.update_side MaxLevels).
Local Abbreviation add_level := (OrderBook.add_level MaxLevels).
Local Abbreviation reachable := (OrderBook.reachable MaxLevels).

Lemma update_level_book_side side price quantity b side' :
  book_side side' (update_level side price quantity b) =
  match side, side' with
  | Buy, Buy => update_side true (bids b) price quantity
  | Sell, Sell => update_side false (asks b) price quantity
  | _, _ => book_side side' b
  end.
Proof. by destruct side, side'. Qed.


Lemma add_level_full is_bid_side book_side price quantity :
  MaxLevels <= BookSide.level_count book_side ->
  add_level is_bid_side book_side price quantity = book_side.
Proof.
  intros H. unfold OrderBook.add_level.
  destruct (MaxLevels <=? _) eqn:Hle; [done|]. apply Z.leb_gt in Hle. lia.
Qed.

(** The best prices [update_level] publishes are those of the two arrays. *)
Definition published (b : t) : Prop := update_best_prices b = b.

Lemma reachable_published b : reachable b -> published b.
Proof.
  destruct 1 as [bid_cells ask_cells _ _|side price quantity b _ _ _]; [done|].
  by destruct side.
Qed.


(** C10. In every book [update_level] can make from a new one: when the ask
    side is empty [best_ask] holds [UINT64_MAX] and [get_best_ask] returns
    0; when the bid side is empty [get_best_bid] returns 0; and
    [get_best_ask] never returns [UINT64_MAX]. *)
Theorem get_best_ask_hides_sentinel (b : t) :
  reachable b ->
  (BookSide.level_count (asks b) = 0 ->
   best_ask b = UINT64_MAX /\ get_best_ask b = 0) /\
  (BookSide.level_count (bids b) = 0 -> get_best_bid b = 0) /\
  get_best_ask b <> UINT64_MAX.
Proof.
  intros Hr. apply reachable_published in Hr. unfold published in Hr.
  split; [|split].
  - intros H0. rewrite <- Hr. unfold get_best_ask. simpl. by rewrite H0.
  - intros H0. rewrite <- Hr. unfold get_best_bid. simpl. by rewrite H0.
  - unfold get_best_ask.
    destruct (best_ask b =? UINT64_MAX) eqn:He; [done|].
    by apply Z.eqb_neq in He.
Qed.

End book_props.

(** *** A book of two levels a side *)

Definition no_cells : list Level.t := replicate 2 (Level.mk 0 0 0).

(** Bids of 5 at 100 and of 7 at 90 in an [OrderBook<2>]: the bid side is
    full. *)
Definition two_bids : t :=
  update_level 2 Buy 90 7 (update_level 2 Buy 100 5 (init no_cells no_cells)).

Lemma two_bids_reachable : reachable 2 two_bids.
Proof.
  unfold two_bids.
  apply reachable_update_level; [|unfold is_u64; lia..].
  apply reachable_update_level; [|unfold is_u64; lia..].
  by apply reachable_init.
Qed.



Lemma get_best_ask_hides_sentinel_witness :
  (BookSide.level_count (asks two_bids) = 0 ->
   best_ask two_bids = UINT64_MAX /\ get_best_ask two_bids = 0) /\
  (BookSide.level_count (bids two_bids) = 0 -> get_best_bid two_bids = 0) /\
  get_best_ask two_bids <> UINT64_MAX.
Proof.
  apply (get_best_ask_hides_sentinel 2 two_bids). apply two_bids_reachable.
Defined.

End OrderBookProps.

(** * The matching engine: counters, notifications and the state of the book *)

Module MatchingEngineBook.
Import MatchingEngine MatchingEngineProps.

Section book.
Variable clk : Z -> Z.

Local Abbreviation match_entry := (MatchingEngine.match_entry clk).
Local Abbreviation match_level := (MatchingEngine.match_level clk).
Local Abbreviation match_ask_levels := (MatchingEngine.match_ask_levels clk).
Local Abbreviation match_bid_levels := (MatchingEngine.match_bid_levels clk).
Local Abbreviation process_order := (MatchingEngine.process_order clk).
Local Abbreviation entry_trade := (MatchingEngineProps.entry_trade clk).
Local Abbreviation after_matching := (MatchingEngineProps.after_matching clk).
Local Abbreviation reachable := (MatchingEngineProps.reachable clk).

(** *** The counters *)

(** What a turn of the inner loop that trades does to the counters and to
    [trade_pool]. *)
Lemma match_entry_counters sd w p e level s rem ts trade s1 :
  entry_trade sd w p e s rem = Some (trade, s1) ->
  let m := (match_entry sd w p e level s rem ts).1.1.2 in
  Trade.trade_id trade = trade_id_generator s /\
  trade_id_generator m = wrap64 (trade_id_generator s + 1) /\
  total_trades_generated m = wrap64 (total_trades_generated s + 1) /\
  total_volume_matched m =
    wrap64 (total_volume_matched s + Trade.quantity trade) /\
  total_orders_processed m = total_orders_processed s /\
  (exists ptr, LockFreeMemoryPool.free_list (trade_pool s) =
     ptr :: LockFreeMemoryPool.free_list (trade_pool m)) /\
  trade_callback m = trade_callback s /\
  order_update_callback m = order_update_callback s.
Proof.
  intros Hc. unfold MatchingEngineProps.entry_trade in Hc.
  unfold MatchingEngine.match_entry. rewrite Hc. cbv zeta.
  assert (exists b a q, create_trade clk b a p q s = Some (trade, s1) /\
            q = Z.min rem (Order.quantity (order_at e s)))
    as (b & a & q & Hct & Hq).
  { destruct sd; eauto. }
  clear Hc. unfold create_trade, LockFreeMemoryPool.acquire in Hct.
  destruct (LockFreeMemoryPool.free_list (trade_pool s)) as [|ptr next] eqn:Hfree;
    [done|].
  injection Hct as <- <-. rewrite <- Hq.
  destruct (_ =? 0); simpl;
    unfold notify_order_update, notify_trade; simpl;
    destruct (trade_callback s) eqn:Htc; simpl;
    destruct (order_update_callback s) eqn:Huc; simpl;
    do 5 (split; [done|]); (split; [by exists ptr|by rewrite ?Htc, ?Huc]).
Qed.

(** An invariant of the turns of the inner loop that the two ladders do
    not enter, and that holds once the order is counted, holds when the
    loops are left. *)
Lemma after_matching_turns (I : t -> Z -> list Trade.t -> Prop) o s :
  (forall p e level s rem trades, 0 < rem -> I s rem trades ->
     let r := match_entry (Order.side o) o p e level s rem trades in
     I r.1.1.2 r.1.2 r.2) ->
  (forall s rem trades v, I s rem trades -> I (set_ask_levels v s) rem trades) ->
  (forall s rem trades v, I s rem trades -> I (set_bid_levels v s) rem trades) ->
  I (set_total_orders_processed (wrap64 (total_orders_processed s + 1)) s)
    (Order.quantity o) [] ->
  let r := after_matching o s in I r.1.1 r.1.2 r.2.
Proof.
  intros Hstep Hask Hbid HI.
  assert (forall p chain level s rem trades, I s rem trades ->
     let r := match_level (Order.side o) o p chain level s rem trades in
     I r.1.1.2 r.1.2 r.2)
    as Hlevel.
  { intros p chain level s' rem trades HI'.
    apply (match_level_inv clk (fun _ s r t => I s r t)); [|done].
    intros. by apply Hstep. }
  unfold MatchingEngineProps.after_matching.
  destruct (Order.side o); simpl.
  - apply Hask. apply (match_ask_levels_inv clk I); [|done].
    intros. by apply Hlevel.
  - apply Hbid.
    refine (proj1 (match_bid_levels_inv clk I (fun _ _ => True) o _ _ _ _ _ _ _ _)).
    + intros. split; [by apply Hlevel|done].
    + by apply Forall_forall.
    + done.
Qed.

(** The counters and [trade_pool] in an engine that can be: the trades made
    so far have each taken a node of [trade_pool], and no node has come
    back. *)
Definition counted (s : t) : Prop :=
  0 <= total_trades_generated s /\
  total_trades_generated s +
    Z.of_nat (length (LockFreeMemoryPool.free_list (trade_pool s))) = 1000 /\
  is_u64 (trade_id_generator s) /\
  is_u64 (total_volume_matched s) /\ is_u64 (total_orders_processed s).

(** The counters at [m], [new] being the trades made since [s]. *)
Definition counting (s m : t) (new : list Trade.t) : Prop :=
  counted m /\
  total_orders_processed m = wrap64 (total_orders_processed s + 1) /\
  total_trades_generated m = total_trades_generated s + Z.of_nat (length new) /\
  total_volume_matched m = wrap64 (total_volume_matched s + volume new) /\
  trade_id_generator m = wrap64 (trade_id_generator s + Z.of_nat (length new)) /\
  Trade.trade_id <$> new =
    (fun k => wrap64 (trade_id_generator s + Z.of_nat k)) <$> seq 0 (length new).

Lemma match_entry_counting sd w p e level s m rem ts :
  counting s m ts ->
  let r := match_entry sd w p e level m rem ts in
  counting s r.1.1.2 r.2.
Proof.
  intros Hc. cbv zeta.
  destruct (entry_trade sd w p e m rem) as [[trade s1]|] eqn:He;
    [|by rewrite match_entry_no_trade].
  pose proof (match_entry_counters sd w p e level m rem ts trade s1 He)
    as (Hid & Hgen & Htot & Hvol & Hord & (ptr & Hfree) & _).
  pose proof (match_entry_trade clk sd w p e level m rem ts trade s1 He)
    as (_ & -> & _).
  destruct Hc as ((H0 & Hpool & Hg & Hv & Ho) & Hord' & Htot' & Hvol' & Hgen' & Hids).
  assert (total_trades_generated m <= 999) as Hlt.
  { rewrite Hfree in Hpool. simpl in Hpool. lia. }
  assert (wrap64 (total_trades_generated m + 1) = total_trades_generated m + 1)
    as Hw1 by (apply wrap64_small; unfold is_u64; lia).
  rewrite Hw1 in Htot.
  unfold counting, counted. split_and!.
  - lia.
  - rewrite Hfree in Hpool. simpl in Hpool. lia.
  - rewrite Hgen. apply wrap64_u64.
  - rewrite Hvol. apply wrap64_u64.
  - by rewrite Hord.
  - by rewrite Hord.
  - rewrite length_app. simpl. lia.
  - rewrite Hvol, Hvol', wrap64_add_l, volume_app. simpl. f_equal. lia.
  - rewrite Hgen, Hgen', wrap64_add_l, length_app. simpl. f_equal. lia.
  - rewrite fmap_app, length_app. simpl. rewrite Nat.add_1_r, seq_S, fmap_app.
    simpl. rewrite Hids, Hid, Hgen'. done.
Qed.

Lemma after_matching_counting o s :
  counted s -> counting s (after_matching o s).1.1 (after_matching o s).2.
Proof.
  intros (H0 & Hpool & Hg & Hv & Ho).
  apply (after_matching_turns (fun m _ ts => counting s m ts)); try done.
  - intros. by apply match_entry_counting.
  - unfold counting, counted. simpl. split_and!; try done; try lia.
    + apply wrap64_u64.
    + rewrite Z.add_0_r. symmetry. by apply wrap64_small.
    + rewrite Z.add_0_r. symmetry. by apply wrap64_small.
Qed.

Lemma process_order_counting o s :
  counted s -> counting s (process_order o s).2 (trades (process_order o s).1).
Proof.
  intros Hs. pose proof (after_matching_counting o s Hs) as Hc.
  rewrite (process_order_unfold clk).
  destruct (after_matching o s) as [[s2 rem] ts]. simpl in Hc.
  destruct (rem =? 0); [done|].
  destruct (LockFreeMemoryPool.acquire (order_pool s2)) as [[entry op]|]; [|done].
  simpl. unfold add_order_to_book. cbv zeta.
  by destruct (Order.side _).
Qed.

Lemma cancel_order_counted order_id s :
  counted s -> counted (cancel_order order_id s).2.
Proof.
  unfold cancel_order. destruct (order_lookup s !! order_id) as [entry|]; [|done].
  simpl. unfold notify_order_update, remove_order_from_book. simpl.
  by destruct (Order.side _), (order_update_callback _).
Qed.

Lemma reachable_counted s : reachable s -> counted s.
Proof.
  induction 1 as [|s b _ IH|s b _ IH|s o _ IH|s id _ IH|s _ IH]; try done.
  - by destruct (process_order_counting o s IH).
  - by apply cancel_order_counted.
  - destruct IH as (H0 & Hpool & Hg & Hv & Ho).
    split_and!; try done. apply wrap64_u64.
Qed.

(** A call of [process_order] in an engine that can be counts the order,
    the trades it made and their volume: [total_orders_processed] moves on
    by one, [total_trades_generated] by the number of trades of the result
    and [total_volume_matched] by the sum of their quantities. The trades
    of the engine's life are at most 1000, the nodes of [trade_pool], which
    are never released. *)
Theorem process_order_counters (o : Order.t) (s : t) :
  reachable s ->
  let r := process_order o s in
  total_orders_processed r.2 = wrap64 (total_orders_processed s + 1) /\
  total_trades_generated r.2 =
    total_trades_generated s + Z.of_nat (length (trades r.1)) /\
  total_trades_generated r.2 <= 1000 /\
  total_volume_matched r.2 =
    wrap64 (total_volume_matched s + volume (trades r.1)).
Proof.
  intros Hr. apply reachable_counted in Hr.
  destruct (process_order_counting o s Hr)
    as ((H0 & Hpool & _) & Hord & Htot & Hvol & _).
  cbv zeta. repeat split; try done. lia.
Qed.

(** The trades of one call of [process_order] carry the ids
    [trade_id_generator], [trade_id_generator + 1], ... (modulo [2^64]) in
    the order they were made, whatever the generator shows when the call is
    made, and the generator is left behind the last of them. A call makes no
    more trades than [trade_pool] has free nodes, at most 1000: no two of
    its trades have the same id. *)
Theorem process_order_trade_ids (o : Order.t) (s : t) :
  reachable s ->
  let r := process_order o s in
  let n := length (trades r.1) in
  Trade.trade_id <$> trades r.1 =
    (fun k => wrap64 (trade_id_generator s + Z.of_nat k)) <$> seq 0 n /\
  trade_id_generator r.2 = wrap64 (trade_id_generator s + Z.of_nat n) /\
  (n <= length (LockFreeMemoryPool.free_list (trade_pool s)) <= 1000)%nat /\
  NoDup (Trade.trade_id <$> trades r.1).
Proof.
  intros Hr. apply reachable_counted in Hr.
  destruct (process_order_counting o s Hr)
    as ((Hm0 & Hmpool & _) & _ & Htot & _ & Hgen & Hids).
  destruct Hr as (H0 & Hpool & Hg & _). cbv zeta.
  assert (length (trades (process_order o s).1) <=
          length (LockFreeMemoryPool.free_list (trade_pool s)) <= 1000)%nat
    as Hn by lia.
  split_and!; try done; try lia.
  rewrite Hids. apply NoDup_fmap_2_strong; [|apply NoDup_seq].
  intros j k Hj Hk Heq. apply elem_of_seq in Hj, Hk.
  apply Nat2Z.inj. unfold wrap64 in Heq.
  apply (mod_add_inj (2 ^ 64) (trade_id_generator s)) in Heq; lia.
Qed.

(** *** The volume of a call *)

Lemma after_matching_volume o s :
  quantities_u64 s -> is_u64 (Order.quantity o) ->
  0 <= volume (after_matching o s).2.
Proof.
  intros Hq Ho.
  refine (proj2 (proj2 (after_matching_inv clk
    (fun s' rem ts => quantities_u64 s' /\ is_u64 rem /\ 0 <= volume ts)
    o s _ _ _ _ _))); try done.
  intros sd p e level s' rem ts _ (Hq' & Hrem & Hvol). cbv zeta.
  split; [by apply match_entry_quantities|].
  split; [by apply match_entry_remaining|].
  destruct (entry_trade sd o p e s' rem) as [[trade s1]|] eqn:He;
    [|by rewrite match_entry_no_trade].
  pose proof (match_entry_trade clk sd o p e level s' rem ts trade s1 He)
    as (_ & -> & _).
  apply entry_trade_Some in He as (_ & Hv & _).
  rewrite volume_app. simpl. rewrite Hv.
  specialize (Hq' e). unfold is_u64 in *. lia.
Qed.

(** The trades of a call of [process_order] fill no more than the quantity
    of the order, and [fully_matched] tells whether they fill it all; the
    result of an order that is matched in full names no remaining entry. *)
Theorem process_order_fills (o : Order.t) (s : t) :
  quantities_u64 s -> is_u64 (Order.quantity o) ->
  let r := process_order o s in
  0 <= volume (trades r.1) <= Order.quantity o /\
  (fully_matched r.1 = true <-> volume (trades r.1) = Order.quantity o) /\
  (fully_matched r.1 = true -> remaining_order r.1 = None).
Proof.
  intros Hq Ho. cbv zeta.
  pose proof (after_matching_remaining clk o s Hq Ho) as (_ & Hrem & Hsum).
  pose proof (after_matching_volume o s Hq Ho) as Hvol.
  rewrite (process_order_unfold clk).
  destruct (after_matching o s) as [[s2 rem] ts]. simpl in *.
  unfold is_u64 in Hrem.
  destruct (rem =? 0) eqn:Hz.
  - apply Z.eqb_eq in Hz. simpl. split; [lia|]. split; [|done]. split; [lia|done].
  - apply Z.eqb_neq in Hz.
    destruct (LockFreeMemoryPool.acquire (order_pool s2)) as [[entry op]|];
      simpl; (split; [lia|]); (split; [|done]); (split; [done|lia]).
Qed.

(** *** The callbacks *)

(** What the two callbacks are handed for a trade, [o] being the resting
    order after the trade. *)
Definition notified (s : t) (trade : Trade.t) (o : Order.t) : list Callback :=
  (if trade_callback s then [trade_callback_call trade] else []) ++
  (if order_update_callback s then [order_update_callback_call o] else []).

(** The resting order of a trade, as it is handed to
    [order_update_callback]: it has the id the trade gives for the side that
    rested, and the status [Filled] when nothing is left of it,
    [PartiallyFilled] otherwise. *)
Definition resting_update (incoming_side : Side) (trade : Trade.t)
    (o : Order.t) : Prop :=
  Order.orderID o =
    match incoming_side with
    | Buy => Trade.sell_order_id trade
    | Sell => Trade.buy_order_id trade
    end /\
  Order.status o = (if Order.quantity o =? 0 then Filled else PartiallyFilled).

Lemma match_entry_calls sd w p e level s rem ts trade s1 :
  entry_trade sd w p e s rem = Some (trade, s1) ->
  let m := (match_entry sd w p e level s rem ts).1.1.2 in
  let o := fill (Trade.quantity trade) (order_at e s) in
  calls m = calls s ++ notified s trade o /\ resting_update sd trade o.
Proof.
  intros Hc. unfold MatchingEngineProps.entry_trade in Hc.
  unfold MatchingEngine.match_entry. rewrite Hc. cbv zeta.
  assert (exists b a q, create_trade clk b a p q s = Some (trade, s1) /\
            q = Z.min rem (Order.quantity (order_at e s)) /\
            Order.orderID (order_at e s) =
              match sd with
              | Buy => Order.orderID a
              | Sell => Order.orderID b
              end)
    as (b & a & q & Hct & Hq & Hid).
  { destruct sd; eauto 10. }
  clear Hc. unfold create_trade, LockFreeMemoryPool.acquire in Hct.
  destruct (LockFreeMemoryPool.free_list (trade_pool s)) as [|ptr next] eqn:Hfree;
    [done|].
  injection Hct as <- <-. rewrite <- Hq. unfold resting_update, notified, fill.
  simpl. rewrite Hid.
  destruct (_ =? 0) eqn:Hz; simpl;
    unfold notify_order_update, notify_trade; simpl;
    destruct (trade_callback s) eqn:Htc; simpl;
    destruct (order_update_callback s) eqn:Huc; simpl;
    rewrite ?Hz, <- ?app_assoc, ?app_nil_r; done.
Qed.

(** The calls made since [s], [ts] being the trades made since. *)
Definition notifying (sd : Side) (s m : t) (ts : list Trade.t) : Prop :=
  trade_callback m = trade_callback s /\
  order_update_callback m = order_update_callback s /\
  exists updates,
    calls m = calls s ++ concat (zip_with (notified s) ts updates) /\
    Forall2 (resting_update sd) ts updates.

Lemma match_entry_notifying sd w p e level s m rem ts :
  notifying sd s m ts ->
  let r := match_entry sd w p e level m rem ts in
  notifying sd s r.1.1.2 r.2.
Proof.
  intros (Htc & Huc & updates & Hcalls & Hall). cbv zeta.
  destruct (entry_trade sd w p e m rem) as [[trade s1]|] eqn:He.
  - pose proof (match_entry_calls sd w p e level m rem ts trade s1 He)
      as [Hc Hu].
    pose proof (match_entry_counters sd w p e level m rem ts trade s1 He)
      as (_ & _ & _ & _ & _ & _ & Htc' & Huc').
    pose proof (match_entry_trade clk sd w p e level m rem ts trade s1 He)
      as (_ & -> & _).
    split; [congruence|]. split; [congruence|].
    exists (updates ++ [fill (Trade.quantity trade) (order_at e m)]).
    split.
    + rewrite Hc, Hcalls. pose proof (Forall2_length _ _ _ Hall) as Hlen.
      rewrite zip_with_app by done. rewrite concat_app. simpl.
      rewrite app_nil_r, <- app_assoc. f_equal. f_equal.
      unfold notified. by rewrite Htc, Huc.
    + apply Forall2_app; [done|]. by apply Forall2_cons.
  - rewrite match_entry_no_trade by done. simpl.
    split; [done|]. split; [done|]. by exists updates.
Qed.

(** A call of [process_order] hands every trade it makes to
    [trade_callback], if it is set, and then the resting order of the trade
    to [order_update_callback], if it is set, in the order the trades are
    made; it makes no other call: the order that comes in is not reported,
    whether it is filled or put in the book. *)
Theorem process_order_notifies (o : Order.t) (s : t) :
  let r := process_order o s in
  exists updates,
    calls r.2 = calls s ++ concat (zip_with (notified s) (trades r.1) updates) /\
    Forall2 (resting_update (Order.side o)) (trades r.1) updates.
Proof.
  cbv zeta.
  assert (notifying (Order.side o) s (after_matching o s).1.1 (after_matching o s).2)
    as (_ & _ & updates & Hcalls & Hall).
  { apply (after_matching_turns
      (fun m _ ts => notifying (Order.side o) s m ts)); try done.
    - intros. by apply match_entry_notifying.
    - split; [done|]. split; [done|]. exists []. simpl.
      by rewrite app_nil_r. }
  exists updates.
  rewrite (process_order_unfold clk).
  destruct (after_matching o s) as [[s2 rem] ts]. simpl in *.
  destruct (rem =? 0); [done|].
  destruct (LockFreeMemoryPool.acquire (order_pool s2)) as [[entry op]|]; [|done].
  simpl. unfold add_order_to_book. cbv zeta.
  by destruct (Order.side (order_at _ _)).
Qed.

(** *** The best prices *)

Lemma sorted_last_greatest (m : price_level_map) p level :
  StronglySorted Z.lt m.*1 -> last m = Some (p, level) ->
  (forall q level', (q, level') ∈ m -> q <= p) /\ map_find p m = Some level.
Proof.
  intros Hs Hlast. apply last_Some in Hlast as [k ->].
  rewrite fmap_app in Hs. simpl in Hs.
  apply StronglySorted_app in Hs as (Hlt & _ & _). split.
  - intros q level' [Hin|Hin]%elem_of_app.
    + assert (q ∈ k.*1) as Hq by (apply list_elem_of_fmap; by exists (q, level')).
      specialize (Hlt q p Hq ltac:(set_solver)). lia.
    + apply list_elem_of_singleton in Hin. injection Hin as -> _. lia.
  - apply (map_find_middle clk). intros Hin.
    specialize (Hlt p p Hin ltac:(set_solver)). lia.
Qed.

Lemma sorted_head_least (m : price_level_map) p level :
  StronglySorted Z.lt m.*1 -> head m = Some (p, level) ->
  (forall q level', (q, level') ∈ m -> p <= q) /\ map_find p m = Some level.
Proof.
  intros Hs Hhead. destruct m as [|[p' level'] m]; [done|].
  injection Hhead as -> ->. simpl in Hs.
  apply StronglySorted_cons in Hs as [Hlt _]. rewrite Forall_forall in Hlt.
  split.
  - intros q lv [Heq|Hin]%elem_of_cons.
    + injection Heq as -> _. lia.
    + assert (q ∈ m.*1) as Hq by (apply list_elem_of_fmap; by exists (q, lv)).
      specialize (Hlt q Hq). lia.
  - simpl. by rewrite Z.eqb_refl.
Qed.

(** In an engine that can be, [get_book_state] gives for each side the
    best price held, the highest bid and the lowest ask, with the
    [total_quantity] of its level, and 0 for both on a side without
    levels. *)
Theorem get_book_state_best (s : t) :
  reachable s ->
  let b := get_book_state s in
  (forall p level, (p, level) ∈ bid_levels s -> p <= best_bid b) /\
  (forall p level, (p, level) ∈ ask_levels s -> best_ask b <= p) /\
  (bid_levels s = [] -> best_bid b = 0 /\ best_bid_qty b = 0) /\
  (ask_levels s = [] -> best_ask b = 0 /\ best_ask_qty b = 0) /\
  (bid_levels s <> [] -> exists level,
     map_find (best_bid b) (bid_levels s) = Some level /\
     best_bid_qty b = PriceLevel.total_quantity level) /\
  (ask_levels s <> [] -> exists level,
     map_find (best_ask b) (ask_levels s) = Some level /\
     best_ask_qty b = PriceLevel.total_quantity level).
Proof.
  intros Hr. apply (reachable_wf clk) in Hr. destruct Hr as [Hinv Hbids].
  pose proof (li_sorted _ _ _ _ _ Hinv) as Hasks.
  unfold get_book_state. cbv zeta. simpl.
  split_and!.
  - intros p level Hin.
    destruct (last (bid_levels s)) as [[q lv]|] eqn:Hlast.
    + simpl. by eapply (proj1 (sorted_last_greatest _ q lv Hbids Hlast)).
    + apply last_None in Hlast. rewrite Hlast in Hin. set_solver.
  - intros p level Hin.
    destruct (head (ask_levels s)) as [[q lv]|] eqn:Hhead.
    + simpl. by eapply (proj1 (sorted_head_least _ q lv Hasks Hhead)).
    + apply head_None in Hhead. rewrite Hhead in Hin. set_solver.
  - by intros ->.
  - by intros ->.
  - intros Hne.
    destruct (last (bid_levels s)) as [[q lv]|] eqn:Hlast.
    + simpl. exists lv. split; [|done].
      apply (proj2 (sorted_last_greatest _ q lv Hbids Hlast)).
    + by apply last_None in Hlast.
  - intros Hne.
    destruct (head (ask_levels s)) as [[q lv]|] eqn:Hhead.
    + simpl. exists lv. split; [|done].
      apply (proj2 (sorted_head_least _ q lv Hasks Hhead)).
    + by apply head_None in Hhead.
Qed.

(** *** The book does not cross *)

(** Every bid is below every ask. *)
Definition uncrossed (s : t) : Prop :=
  forall b a, b ∈ (bid_levels s).*1 -> a ∈ (ask_levels s).*1 -> b < a.

Lemma unlink_NoDup e chain : NoDup chain -> e ∉ PriceLevel.unlink e chain.
Proof.
  induction chain as [|x chain IH]; simpl; intros Hnd; [set_solver|].
  apply NoDup_cons in Hnd as [Hx Hnd].
  destruct (Nat.eqb x e) eqn:Heq.
  - by apply Nat.eqb_eq in Heq as ->.
  - apply Nat.eqb_neq in Heq. set_solver.
Qed.

Lemma match_level_u64 sd w p chain level s rem ts :
  quantities_u64 s -> is_u64 rem ->
  let r := match_level sd w p chain level s rem ts in
  quantities_u64 r.1.1.2 /\ is_u64 r.1.2.
Proof.
  intros Hq Hrem.
  apply (match_level_inv clk (fun _ s r _ => quantities_u64 s /\ is_u64 r));
    [|done].
  intros e l' s' r' t' _ _ [Hq' Hr']. simpl.
  split; [by apply match_entry_quantities|by apply match_entry_remaining].
Qed.

(** [trade_pool] gets no node back. *)
Lemma match_level_pool sd w p chain level s rem ts :
  LockFreeMemoryPool.free_list
    (trade_pool (match_level sd w p chain level s rem ts).1.1.2) <> [] ->
  LockFreeMemoryPool.free_list (trade_pool s) <> [].
Proof. intros H Hempty. by rewrite (match_level_exhausted clk) in H. Qed.

Lemma match_ask_levels_pool w levels s rem ts :
  LockFreeMemoryPool.free_list
    (trade_pool (match_ask_levels w levels s rem ts).1.1.2) <> [] ->
  LockFreeMemoryPool.free_list (trade_pool s) <> [].
Proof.
  intros H Hempty. apply H.
  apply (match_ask_levels_inv clk
    (fun m _ _ => LockFreeMemoryPool.free_list (trade_pool m) = [])); [|done].
  intros p level m r t _ _ _ Hm. simpl. by rewrite (match_level_exhausted clk).
Qed.

Lemma match_bid_levels_pool w levels bid_it s rem ts :
  LockFreeMemoryPool.free_list
    (trade_pool (match_bid_levels w levels bid_it s rem ts).1.1.2) <> [] ->
  LockFreeMemoryPool.free_list (trade_pool s) <> [].
Proof.
  intros H Hempty. apply H.
  refine (proj1 (match_bid_levels_inv clk
    (fun m _ _ => LockFreeMemoryPool.free_list (trade_pool m) = [])
    (fun _ _ => True) w _ levels bid_it s rem ts _ _)); [| |done].
  - intros p level m r t _ _ _ Hm. simpl.
    by rewrite (match_level_exhausted clk).
  - by apply Forall_forall.
Qed.

(** While [trade_pool] has nodes, the loop over a level goes on until
    nothing is left to match or every order it met is filled and
    unlinked. *)
Lemma match_level_consumes sd w p chain level s rem ts :
  quantities_u64 s -> is_u64 rem -> NoDup (PriceLevel.orders level) ->
  let r := match_level sd w p chain level s rem ts in
  LockFreeMemoryPool.free_list (trade_pool r.1.1.2) <> [] ->
  r.1.2 = 0 \/
  forall x, x ∈ PriceLevel.orders r.1.1.1 ->
    x ∈ PriceLevel.orders level /\ x ∉ chain.
Proof.
  revert level s rem ts.
  induction chain as [|e chain IH]; intros level s rem ts Hq Hrem Hnd; cbv zeta.
  { intros _. right. intros x Hx. split; [done|set_solver]. }
  simpl. destruct (0 <? rem) eqn:Hpos.
  2:{ intros _. left. apply Z.ltb_ge in Hpos. unfold is_u64 in Hrem. simpl. lia. }
  apply Z.ltb_lt in Hpos.
  destruct (entry_trade sd w p e s rem) as [[trade s1]|] eqn:He.
  2:{ rewrite match_entry_no_trade by done.
      apply (entry_trade_None clk) in He.
      rewrite (match_level_exhausted clk) by done. simpl. by intros []. }
  pose proof (match_entry_trade clk sd w p e level s rem ts trade s1 He)
    as (Hrem1 & _ & He1 & _ & _ & _ & _ & _ & Hlevel1).
  pose proof (match_entry_quantities clk sd w p e level s rem ts Hq) as Hq1.
  pose proof (match_entry_remaining clk sd w p e level s rem ts Hq Hrem)
    as [Hrem1' _].
  pose proof (match_entry_sublist clk sd w p e level s rem ts) as Hsub.
  destruct (match_entry sd w p e level s rem ts) as [[[level1 m1] rem1] ts1].
  simpl in *.
  pose proof (Hq e) as Hqe. unfold is_u64 in Hqe, Hrem.
  set (q := Order.quantity (order_at e s)) in *.
  assert (wrap64 (q - Z.min rem q) = q - Z.min rem q) as Hw.
  { apply wrap64_small. unfold is_u64. lia. }
  rewrite Hw in Hlevel1.
  destruct (q - Z.min rem q =? 0) eqn:Hfilled.
  - (* the order is filled and unlinked *)
    intros Hpool.
    destruct (IH level1 m1 rem1 ts1 Hq1 Hrem1' (sublist_NoDup _ _ Hnd Hsub) Hpool)
      as [?|Hrest]; [by left|].
    right. intros x Hx. destruct (Hrest x Hx) as [Hx1 Hx2].
    rewrite Hlevel1 in Hx1. simpl in Hx1.
    split; [by eapply unlink_subseteq|].
    intros [->|?]%elem_of_cons; [|done].
    by apply (unlink_NoDup e (PriceLevel.orders level)).
  - (* the incoming order is used up *)
    intros _. left. apply Z.eqb_neq in Hfilled.
    assert (rem1 = 0) as ->.
    { rewrite Hrem1. replace (rem - Z.min rem q) with 0 by lia. done. }
    by rewrite (match_level_nothing_left clk).
Qed.

Lemma match_ask_levels_nothing_left w levels s ts :
  match_ask_levels w levels s 0 ts = (levels, s, 0, ts).
Proof.
  destruct levels as [|[p l] rest]; simpl; [done|]. by rewrite andb_false_r.
Qed.

Lemma ladder_inv_level R sd k1 p level k2 own s :
  ladder_inv R sd (k1 ++ (p, level) :: k2) own s ->
  NoDup (PriceLevel.orders level) /\
  PriceLevel.order_count level = Z.of_nat (length (PriceLevel.orders level)).
Proof.
  intros Hinv. split.
  - pose proof (li_NoDup _ _ _ _ _ Hinv) as H. unfold nodes in H.
    rewrite side_entries_app, side_entries_cons in H.
    apply NoDup_app in H as (H & _ & _).
    apply NoDup_app in H as (_ & _ & H).
    by apply NoDup_app in H as (H & _ & _).
  - apply (li_opp _ _ _ _ _ Hinv p level). set_solver.
Qed.

(** A level all of whose orders have been met and unlinked is erased. *)
Lemma consumed_level_empty R sd k1 p level level1 k2 own s :
  (if PriceLevel.empty level1 then ladder_inv R sd (k1 ++ k2) own s
   else ladder_inv R sd (k1 ++ (p, level1) :: k2) own s) ->
  (forall x, x ∈ PriceLevel.orders level1 ->
     x ∈ PriceLevel.orders level /\ x ∉ PriceLevel.orders level) ->
  PriceLevel.empty level1 = true.
Proof.
  intros Hvisit Hgone. destruct (PriceLevel.empty level1) eqn:Hemp; [done|].
  apply ladder_inv_level in Hvisit as [_ Hcount].
  unfold PriceLevel.empty in Hemp. apply Z.eqb_neq in Hemp.
  destruct (PriceLevel.orders level1) as [|x l] eqn:Ho; [done|].
  destruct (Hgone x ltac:(set_solver)). done.
Qed.

(** While [trade_pool] has nodes, an incoming buy that is not used up
    leaves no ask at or below its price. *)
Lemma match_ask_levels_above w levels kept own s rem ts :
  ladder_inv Z.lt Sell (kept ++ levels) own s ->
  quantities_u64 s -> is_u64 rem ->
  let r := match_ask_levels w levels s rem ts in
  LockFreeMemoryPool.free_list (trade_pool r.1.1.2) <> [] -> r.1.2 <> 0 ->
  forall a, a ∈ r.1.1.1.*1 -> Order.price w < a.
Proof.
  revert s rem ts.
  induction levels as [|[p level] rest IH]; intros s rem ts Hinv Hq Hrem;
    cbv zeta; simpl; [set_solver|].
  destruct (_ && _) eqn:Hguard.
  - pose proof (ladder_inv_visit clk Z.lt Sell Buy w kept p level rest own s rem ts Hinv)
      as Hvisit.
    pose proof (match_level_u64 Buy w p (PriceLevel.orders level) level s rem ts
                  Hq Hrem) as [Hq1 Hrem1].
    pose proof (match_level_consumes Buy w p (PriceLevel.orders level) level s
                  rem ts Hq Hrem (proj1 (ladder_inv_level _ _ _ _ _ _ _ _ Hinv)))
      as Hcons.
    destruct (match_level Buy w p _ level s rem ts) as [[[level1 s1] rem1] ts1].
    simpl in *.
    pose proof (match_ask_levels_pool w rest s1 rem1 ts1) as Hpool1.
    pose proof (IH s1 rem1 ts1) as IH'.
    destruct (match_ask_levels w rest s1 rem1 ts1) as [[[rest' s2] rem2] ts2]
      eqn:Hrest.
    simpl in *. intros Hpool Hrem2.
    destruct (Hcons (Hpool1 Hpool)) as [->|Hgone].
    { rewrite match_ask_levels_nothing_left in Hrest. by injection Hrest as _ _ <- _. }
    pose proof (consumed_level_empty _ _ _ _ _ _ _ _ _ Hvisit Hgone) as Hemp.
    rewrite Hemp in *. by apply IH'.
  - simpl. intros _ Hrem0 a Ha.
    assert (0 < rem) as Hpos by (unfold is_u64 in Hrem; lia).
    apply Z.ltb_lt in Hpos. rewrite Hpos, andb_true_r in Hguard.
    apply Z.leb_gt in Hguard.
    pose proof (li_sorted _ _ _ _ _ Hinv) as Hs.
    rewrite fmap_app in Hs. apply StronglySorted_app in Hs as (_ & _ & Hs).
    simpl in Hs. apply StronglySorted_cons in Hs as [Hs _].
    rewrite Forall_forall in Hs.
    apply elem_of_cons in Ha as [->|Ha]; [lia|]. specialize (Hs a Ha). lia.
Qed.

(** While [trade_pool] has nodes, an incoming sell that is not used up
    leaves no bid at or above its price. *)
Lemma match_bid_levels_below w levels bid_it own s rem ts :
  ladder_inv (flip Z.lt) Buy levels own s ->
  quantities_u64 s -> is_u64 rem -> bid_it = 0%nat \/ rem = 0 ->
  let r := match_bid_levels w levels bid_it s rem ts in
  LockFreeMemoryPool.free_list (trade_pool r.1.1.2) <> [] -> r.1.2 <> 0 ->
  forall b, b ∈ r.1.1.1.*1 -> b < Order.price w.
Proof.
  funelim (MatchingEngine.match_bid_levels clk w levels bid_it s rem ts);
    rename remaining_qty into rem, trades0 into ts;
    intros Hinv Hq Hrem Hit0; cbv zeta.
  - simpl. destruct (_ && _) eqn:Hguard.
    + assert (levels =
              take bid_it levels ++ (level_price, level) :: drop (S bid_it) levels)
        as Hsplit by (by rewrite take_drop_middle).
      rewrite Hsplit in Hinv.
      pose proof (ladder_inv_visit clk (flip Z.lt) Buy Sell sell_order _ _ _ _ own
                    s rem ts Hinv) as Hvisit.
      pose proof (match_level_u64 Sell sell_order level_price
                    (PriceLevel.orders level) level s rem ts Hq Hrem)
        as [Hq1 Hrem1].
      pose proof (match_level_consumes Sell sell_order level_price
                    (PriceLevel.orders level) level s rem ts Hq Hrem
                    (proj1 (ladder_inv_level _ _ _ _ _ _ _ _ Hinv))) as Hcons.
      cbv zeta in Hvisit, Hcons.
      pose proof (consumed_level_empty _ _ _ _ level _ _ _ _ Hvisit) as Hgone_empty.
      rewrite <- delete_take_drop in Hvisit.
      rewrite <- insert_take_drop in Hvisit by by eapply lookup_lt_Some.
      destruct (PriceLevel.empty _) eqn:Hemp.
      * apply (H own); try done. by left.
      * intros Hpool Hrem2. apply (H0 own); try done. right.
        destruct (Hcons (match_bid_levels_pool _ _ _ _ _ _ Hpool)) as [?|Hgone];
          [done|].
        by specialize (Hgone_empty Hgone).
    + simpl. intros _ Hrem0 b Hb.
      destruct Hit0 as [->|?]; [|done].
      assert (0 < rem) as Hpos by (unfold is_u64 in Hrem; lia).
      apply Z.ltb_lt in Hpos. rewrite Hpos, andb_true_r in Hguard.
      apply Z.leb_gt in Hguard.
      destruct levels as [|[p0 l0] rest]; [done|]. injection Hit as -> ->.
      pose proof (li_sorted _ _ _ _ _ Hinv) as Hs. simpl in Hs.
      apply StronglySorted_cons in Hs as [Hs _]. rewrite Forall_forall in Hs.
      simpl in Hb.
      apply elem_of_cons in Hb as [->|Hb]; [lia|].
      specialize (Hs b Hb). unfold flip in Hs. lia.
  - simpl. intros _ Hrem0 b Hb. destruct Hit0 as [->|?]; [|done].
    destruct levels; [set_solver|done].
Qed.

(** The prices of a ladder after the loops, after an order is put in the
    book and after an order is taken out of it. *)
Lemma match_ask_levels_keys w levels s rem ts :
  (match_ask_levels w levels s rem ts).1.1.1.*1 ⊆ levels.*1.
Proof.
  revert s rem ts. induction levels as [|[p level] rest IH]; intros s rem ts;
    simpl; [done|].
  destruct (_ && _); [|done].
  destruct (match_level Buy w p _ level s rem ts) as [[[level1 s1] rem1] ts1].
  specialize (IH s1 rem1 ts1).
  destruct (match_ask_levels w rest s1 rem1 ts1) as [[[rest' s2] rem2] ts2].
  simpl in *. destruct (PriceLevel.empty level1); simpl; set_solver.
Qed.

Lemma match_bid_levels_keys w levels bid_it s rem ts :
  (match_bid_levels w levels bid_it s rem ts).1.1.1.*1 ⊆ levels.*1.
Proof.
  apply (match_bid_levels_inv_levels clk
    (fun ladder _ _ _ => ladder.*1 ⊆ levels.*1) w); [|done].
  intros ladder i p level m rem' ts' Hi _ _ Hsub. cbv zeta.
  destruct (PriceLevel.empty _).
  - etrans; [|done]. apply sublist_subseteq, fmap_sublist, sublist_delete.
  - rewrite list_fmap_insert. simpl.
    rewrite list_insert_id; [done|]. by rewrite list_lookup_fmap, Hi.
Qed.

Lemma map_modify_keys p f (m : price_level_map) : (map_modify p f m).*1 = m.*1.
Proof.
  induction m as [|[k l] m IH]; simpl; [done|].
  destruct (k =? p); simpl; [done|]. f_equal. apply IH.
Qed.

Lemma map_assign_keys p l (m : price_level_map) k :
  k ∈ (map_assign p l m).*1 -> k = p \/ k ∈ m.*1.
Proof.
  induction m as [|[k' l'] m IH]; simpl.
  - set_solver.
  - destruct (p <? k'); simpl; [set_solver|].
    destruct (k' =? p) eqn:Heq; simpl; [apply Z.eqb_eq in Heq|]; set_solver.
Qed.

Lemma map_erase_keys p (m : price_level_map) : (map_erase p m).*1 ⊆ m.*1.
Proof.
  induction m as [|[k l] m IH]; simpl; [done|].
  destruct (k =? p); simpl; set_solver.
Qed.

Lemma add_order_to_side_keys e w levels k :
  k ∈ (add_order_to_side e w levels).*1 -> k = Order.price w \/ k ∈ levels.*1.
Proof.
  unfold add_order_to_side. destruct (map_find _ _).
  - rewrite map_modify_keys. by right.
  - apply map_assign_keys.
Qed.

Lemma remove_order_from_side_keys e w levels :
  (remove_order_from_side e w levels).*1 ⊆ levels.*1.
Proof.
  unfold remove_order_from_side. destruct (map_find _ _); [|done].
  destruct (PriceLevel.empty _); [apply map_erase_keys|by rewrite map_modify_keys].
Qed.

Lemma quantities_u64_counted s v :
  quantities_u64 s -> quantities_u64 (set_total_orders_processed v s).
Proof. done. Qed.

(** When the loops are left the book is not crossed, and an order that is
    not used up has no price of the other side within its limit, as long as
    [trade_pool] has nodes. *)
Lemma after_matching_uncrossed o s :
  wf s -> quantities_u64 s -> is_u64 (Order.quantity o) -> uncrossed s ->
  let r := after_matching o s in
  uncrossed r.1.1 /\
  (LockFreeMemoryPool.free_list (trade_pool r.1.1) <> [] -> r.1.2 <> 0 ->
   match Order.side o with
   | Buy => bid_levels r.1.1 = bid_levels s /\
            forall a, a ∈ (ask_levels r.1.1).*1 -> Order.price o < a
   | Sell => ask_levels r.1.1 = ask_levels s /\
             forall b, b ∈ (bid_levels r.1.1).*1 -> b < Order.price o
   end).
Proof.
  intros Hwf Hq Ho Hun. cbv zeta. unfold MatchingEngineProps.after_matching.
  set (s0 := set_total_orders_processed (wrap64 (total_orders_processed s + 1)) s).
  destruct (Order.side o); simpl.
  - pose proof (match_ask_levels_keys o (ask_levels s) s0 (Order.quantity o) [])
      as Hkeys.
    destruct (match_ask_levels_same_ladders clk o (ask_levels s) s0
                (Order.quantity o) []) as [Hb _].
    simpl in Hb. split.
    + intros b a Hbin Hain. simpl in Hbin, Hain. rewrite Hb in Hbin.
      apply Hun; [done|]. by apply Hkeys.
    + intros Hpool Hrem. split; [done|].
      apply (match_ask_levels_above o (ask_levels s) [] (bid_levels s) s0
               (Order.quantity o) []); try done.
      destruct Hwf as [Hinv _]. by eapply ladder_inv_ext; [| |apply Hinv].
  - pose proof (match_bid_levels_keys o (reverse (bid_levels s)) 0%nat s0
                  (Order.quantity o) []) as Hkeys.
    destruct (match_bid_levels_same_ladders clk o (reverse (bid_levels s)) 0%nat s0
                (Order.quantity o) []) as [_ Ha].
    simpl in Ha. split.
    + intros b a Hbin Hain. simpl in Hbin, Hain. rewrite Ha in Hain.
      rewrite fmap_reverse in Hbin. rewrite elem_of_reverse in Hbin.
      apply Hun; [|done].
      apply Hkeys in Hbin. rewrite fmap_reverse in Hbin.
      by rewrite elem_of_reverse in Hbin.
    + intros Hpool Hrem. split; [done|]. intros b Hbin.
      rewrite fmap_reverse in Hbin. rewrite elem_of_reverse in Hbin.
      apply (match_bid_levels_below o (reverse (bid_levels s)) 0%nat
               (ask_levels s) s0 (Order.quantity o) []); try done; [|by left].
      apply wf_swap in Hwf as [Hinv _].
      apply ladder_inv_reverse. by eapply ladder_inv_ext; [| |apply Hinv].
Qed.

(** The book of an engine that can be, once not crossed, stays so: after
    [cancel_order], and after [process_order] as long as [trade_pool] has
    nodes. (Without a node no trade is made, and the order is put in the
    book whatever the other side holds.) *)
Theorem book_stays_uncrossed (o : Order.t) (order_id : Z) (s : t) :
  reachable s -> quantities_u64 s -> is_u64 (Order.quantity o) ->
  uncrossed s ->
  uncrossed (cancel_order order_id s).2 /\
  (LockFreeMemoryPool.free_list (trade_pool (process_order o s).2) <> [] ->
   uncrossed (process_order o s).2).
Proof.
  intros Hr Hq Ho Hun. apply (reachable_wf clk) in Hr. split.
  - destruct (order_lookup s !! order_id) as [e|] eqn:Hid.
    + pose proof (cancel_order_ladders order_id s e Hid) as Hl.
      cbv zeta in Hl. intros b a Hb Ha.
      destruct (Order.side (order_at e s)); destruct Hl as [Hl1 Hl2];
        rewrite Hl1, ?Hl2 in *; apply Hun; try done;
        by eapply remove_order_from_side_keys.
    + by rewrite (cancel_order_not_found order_id s Hid).
  - pose proof (after_matching_uncrossed o s Hr Hq Ho Hun) as (Hun2 & Hlimit).
    rewrite (process_order_unfold clk).
    destruct (after_matching o s) as [[s2 rem] ts]. simpl in *.
    destruct (rem =? 0) eqn:Hz; [done|]. apply Z.eqb_neq in Hz.
    destruct (LockFreeMemoryPool.acquire (order_pool s2)) as [[entry op]|];
      [|done].
    simpl. unfold add_order_to_book. cbv zeta.
    rewrite order_at_store_order_eq. simpl.
    destruct (Order.side o); simpl; intros Hpool;
      destruct (Hlimit Hpool Hz) as [Hsame Hlim]; intros b a Hb Ha; simpl in *.
    + apply add_order_to_side_keys in Hb as [->|Hb]; [by apply Hlim|by apply Hun2].
    + apply add_order_to_side_keys in Ha as [->|Ha]; [by apply Hlim|by apply Hun2].
Qed.

(** *** Fill or kill *)

(** The prices the order may trade at. *)
Definition crosses (o : Order.t) (level_price : Z) : Prop :=
  match Order.side o with
  | Buy => level_price <= Order.price o
  | Sell => Order.price o <= level_price
  end.

(** When the loops are left with part of the order unmatched and
    [trade_pool] has a node, no level the order may trade at is left on the
    other side; the order's own side is as it was. *)
Lemma after_matching_exhausts o s :
  wf s -> quantities_u64 s -> is_u64 (Order.quantity o) ->
  let r := after_matching o s in
  LockFreeMemoryPool.free_list (trade_pool r.1.1) <> [] -> r.1.2 <> 0 ->
  (forall p, p ∈ (opposite_levels o r.1.1).*1 -> ~ crosses o p) /\
  own_levels o r.1.1 = own_levels o s.
Proof.
  intros Hwf Hq Ho. cbv zeta.
  unfold MatchingEngineProps.after_matching, opposite_levels, own_levels, crosses.
  set (s0 := set_total_orders_processed (wrap64 (total_orders_processed s + 1)) s).
  destruct (Order.side o); simpl; intros Hpool Hrem.
  - destruct (match_ask_levels_same_ladders clk o (ask_levels s) s0
                (Order.quantity o) []) as [Hb _].
    split; [|done]. intros p Hp.
    assert (Order.price o < p); [|lia].
    apply (match_ask_levels_above o (ask_levels s) [] (bid_levels s) s0
             (Order.quantity o) []); try done.
    destruct Hwf as [Hinv _]. by eapply ladder_inv_ext; [| |apply Hinv].
  - destruct (match_bid_levels_same_ladders clk o (reverse (bid_levels s)) 0%nat s0
                (Order.quantity o) []) as [_ Ha].
    split; [|done]. intros p Hp.
    rewrite fmap_reverse in Hp. rewrite elem_of_reverse in Hp.
    assert (p < Order.price o); [|lia].
    apply (match_bid_levels_below o (reverse (bid_levels s)) 0%nat
             (ask_levels s) s0 (Order.quantity o) []); try done; [|by left].
    apply wf_swap in Hwf as [Hinv _].
    apply ladder_inv_reverse. by eapply ladder_inv_ext; [| |apply Hinv].
Qed.

(** Without a node in [trade_pool] no trade is made. *)
Lemma after_matching_no_node o s :
  LockFreeMemoryPool.free_list (trade_pool s) = [] ->
  (after_matching o s).2 = [].
Proof.
  intros Hpool.
  assert (let r := after_matching o s in
          LockFreeMemoryPool.free_list (trade_pool r.1.1) = [] /\ r.2 = [])
    as [_ H]; [|done].
  apply (after_matching_inv clk
    (fun m _ ts => LockFreeMemoryPool.free_list (trade_pool m) = [] /\ ts = []));
    try done.
  intros sd p e level m rem ts _ [Hm ->]. cbv zeta.
  by rewrite match_entry_no_trade by by apply entry_trade_None.
Qed.

(** C4, as the code has it. An order that is fill or kill is not matched
    all or nothing. [process_order] does not read the time in force: the
    order is matched as the same order of any other time in force is, with
    the same trades, ladders, [order_lookup] and counters; the entry for what
    is left alone records the time in force. When the order is not matched
    in full in an engine that can be, with quantities of 64 bits, and
    [trade_pool] has a node left after the call, every order it could trade
    with has been traded away: no level at a price within the order's limit
    is left on the other side. What is left of the order, its quantity less
    the volume of its trades, is put in the book at the tail of the level of
    its price on its own side, as soon as [order_pool] has an entry (it has
    one when the order traded). When [trade_pool] has no node at the call,
    no trade is made. *)
Theorem fill_or_kill_matches_partially (f : TimeInForce) (o : Order.t) (s : t) :
  let r := process_order o s in
  process_order (Order.set_TimeInForce f o) s = with_time_in_force f r /\
  (reachable s -> quantities_u64 s -> is_u64 (Order.quantity o) ->
   fully_matched r.1 = false ->
   (LockFreeMemoryPool.free_list (trade_pool r.2) <> [] ->
    forall level_price,
      level_price ∈ (opposite_levels o r.2).*1 -> ~ crosses o level_price) /\
   (LockFreeMemoryPool.free_list (order_pool s) <> [] \/ trades r.1 <> [] ->
    exists entry level,
      remaining_order r.1 = Some entry /\
      order_lookup r.2 !! Order.orderID o = Some entry /\
      map_find (Order.price o) (own_levels o r.2) = Some level /\
      last (PriceLevel.orders level) = Some entry /\
      0 < Order.quantity o - volume (trades r.1) /\
      order_at entry r.2 =
        Order.set_status Incoming
          (Order.set_quantity (Order.quantity o - volume (trades r.1)) o))) /\
  (LockFreeMemoryPool.free_list (trade_pool s) = [] -> trades r.1 = []).
Proof.
  cbv zeta. split; [apply process_order_same_but_time_in_force|]. split.
  - intros Hr Hq Ho Hnot. apply (reachable_wf clk) in Hr. split.
    + pose proof (after_matching_exhausts o s Hr Hq Ho) as Hex.
      revert Hnot. rewrite (process_order_unfold clk).
      destruct (after_matching o s) as [[s2 rem] ts]. simpl in Hex.
      destruct (rem =? 0) eqn:Hz; [done|]. apply Z.eqb_neq in Hz.
      destruct (LockFreeMemoryPool.acquire (order_pool s2)) as [[entry op]|].
      * simpl. intros _ Hpool level_price.
        assert (trade_pool
                  (add_order_to_book entry
                     (store_order entry
                        (Order.set_status Incoming (Order.set_quantity rem o))
                        (set_order_pool op s2))) = trade_pool s2) as Htp.
        { unfold add_order_to_book. cbv zeta.
          rewrite order_at_store_order_eq. simpl. by destruct (Order.side o). }
        unfold add_order_to_book in Htp. simpl in Htp. rewrite Htp in Hpool.
        destruct (Hex Hpool Hz) as [Hnone _].
        assert (opposite_levels o
                  (add_order_to_book entry
                     (store_order entry
                        (Order.set_status Incoming (Order.set_quantity rem o))
                        (set_order_pool op s2))) = opposite_levels o s2) as ->;
          [|apply Hnone].
        unfold opposite_levels, add_order_to_book. cbv zeta.
        rewrite order_at_store_order_eq. simpl. by destruct (Order.side o).
      * simpl. intros _ Hpool level_price. by apply Hex.
    + intros Hpool.
      destruct (process_order_rests clk o s Hnot Hpool)
        as (entry & level & rem & H1 & H2 & H3 & H4 & H5 & H6 & H7).
      specialize (H7 Hq Ho). subst rem.
      exists entry, level. split_and!; try done.
      pose proof (after_matching_remaining clk o s Hq Ho) as (_ & Hrem & Hsum).
      revert Hrem Hsum H5. rewrite (process_order_trades clk).
      unfold MatchingEngineProps.after_matching, is_u64. cbv zeta.
      destruct (Order.side o); simpl; lia.
  - intros Hpool. rewrite (process_order_trades clk).
    pose proof (after_matching_no_node o s Hpool) as Hno. revert Hno.
    unfold MatchingEngineProps.after_matching. cbv zeta.
    by destruct (Order.side o).
Qed.

End book.

(** *** A book with a bid and an ask

    The resting sell of 100 at 10100 and a buy of 30 at 10000, which does not
    reach it. *)
Definition bid_and_ask : t :=
  (process_order tsc0 (Order.mk 2 1 Buy Limit Gtc 10000 30 0 Incoming 2)
     one_sell).2.

(** A sell of 10 at 10000, which takes part of the bid. *)
Definition sell_10 : Order.t :=
  Order.mk 3 1 Sell Limit Gtc 10000 10 0 Incoming 3.

Lemma bid_and_ask_reachable : reachable tsc0 bid_and_ask.
Proof. apply reachable_process_order, one_sell_reachable. Qed.

Lemma bid_and_ask_quantities_u64 : quantities_u64 bid_and_ask.
Proof.
  apply process_order_quantities_u64; [apply one_sell_quantities_u64|].
  unfold is_u64. by vm_compute.
Qed.

Lemma bid_and_ask_uncrossed : uncrossed bid_and_ask.
Proof.
  intros b a Hb Ha. vm_compute in Hb, Ha.
  apply list_elem_of_singleton in Hb, Ha. subst. lia.
Qed.

Lemma process_order_counters_witness :
  let r := process_order tsc0 buy_150_gtc one_sell in
  total_orders_processed r.2 = wrap64 (total_orders_processed one_sell + 1) /\
  total_trades_generated r.2 =
    total_trades_generated one_sell + Z.of_nat (length (trades r.1)) /\
  total_trades_generated r.2 <= 1000 /\
  total_volume_matched r.2 =
    wrap64 (total_volume_matched one_sell + volume (trades r.1)).
Proof.
  apply (process_order_counters tsc0 buy_150_gtc one_sell).
  apply one_sell_reachable.
Defined.

Lemma process_order_trade_ids_witness :
  let r := process_order tsc0 sell_10 bid_and_ask in
  let n := length (trades r.1) in
  Trade.trade_id <$> trades r.1 =
    (fun k => wrap64 (trade_id_generator bid_and_ask + Z.of_nat k)) <$> seq 0 n /\
  trade_id_generator r.2 = wrap64 (trade_id_generator bid_and_ask + Z.of_nat n) /\
  (n <= length (LockFreeMemoryPool.free_list (trade_pool bid_and_ask)) <= 1000)%nat /\
  NoDup (Trade.trade_id <$> trades r.1).
Proof.
  apply (process_order_trade_ids tsc0 sell_10 bid_and_ask).
  apply bid_and_ask_reachable.
Defined.

Lemma fill_or_kill_matches_partially_witness :
  let r := process_order tsc0 buy_200_fok one_sell in
  process_order tsc0 (Order.set_TimeInForce Gtc buy_200_fok) one_sell =
    with_time_in_force Gtc r /\
  (forall level_price,
     level_price ∈ (opposite_levels buy_200_fok r.2).*1 ->
     ~ crosses buy_200_fok level_price) /\
  (exists entry level,
     remaining_order r.1 = Some entry /\
     order_lookup r.2 !! 2 = Some entry /\
     map_find 10100 (own_levels buy_200_fok r.2) = Some level /\
     last (PriceLevel.orders level) = Some entry /\
     0 < 200 - volume (trades r.1) /\
     order_at entry r.2 =
       Order.set_status Incoming
         (Order.set_quantity (200 - volume (trades r.1)) buy_200_fok)) /\
  (LockFreeMemoryPool.free_list (trade_pool one_sell) = [] -> trades r.1 = []).
Proof.
  destruct (fill_or_kill_matches_partially tsc0 Gtc buy_200_fok one_sell)
    as (Htif & Hshort & Hnone).
  destruct Hshort as [Hgone Hrest].
  - apply one_sell_reachable.
  - apply one_sell_quantities_u64.
  - unfold is_u64. simpl. lia.
  - reflexivity.
  - split; [exact Htif|]. split; [|split; [|exact Hnone]].
    + apply Hgone. vm_compute. discriminate.
    + apply Hrest. right. vm_compute. discriminate.
Defined.

Lemma process_order_fills_witness :
  let r := process_order tsc0 buy_150_gtc one_sell in
  0 <= volume (trades r.1) <= 150 /\
  (fully_matched r.1 = true <-> volume (trades r.1) = 150) /\
  (fully_matched r.1 = true -> remaining_order r.1 = None).
Proof.
  apply (process_order_fills tsc0 buy_150_gtc one_sell).
  - apply one_sell_quantities_u64.
  - unfold is_u64. simpl. lia.
Defined.

Lemma get_book_state_best_witness :
  let b := get_book_state bid_and_ask in
  (forall p level, (p, level) ∈ bid_levels bid_and_ask -> p <= best_bid b) /\
  (forall p level, (p, level) ∈ ask_levels bid_and_ask -> best_ask b <= p) /\
  (bid_levels bid_and_ask = [] -> best_bid b = 0 /\ best_bid_qty b = 0) /\
  (ask_levels bid_and_ask = [] -> best_ask b = 0 /\ best_ask_qty b = 0) /\
  (bid_levels bid_and_ask <> [] -> exists level,
     map_find (best_bid b) (bid_levels bid_and_ask) = Some level /\
     best_bid_qty b = PriceLevel.total_quantity level) /\
  (ask_levels bid_and_ask <> [] -> exists level,
     map_find (best_ask b) (ask_levels bid_and_ask) = Some level /\
     best_ask_qty b = PriceLevel.total_quantity level).
Proof.
  apply (get_book_state_best tsc0 bid_and_ask). apply bid_and_ask_reachable.
Defined.

Lemma book_stays_uncrossed_witness :
  uncrossed (cancel_order 2 bid_and_ask).2 /\
  (LockFreeMemoryPool.free_list
     (trade_pool (process_order tsc0 sell_10 bid_and_ask).2) <> [] ->
   uncrossed (process_order tsc0 sell_10 bid_and_ask).2).
Proof.
  apply (book_stays_uncrossed tsc0 sell_10 2 bid_and_ask).
  - apply bid_and_ask_reachable.
  - apply bid_and_ask_quantities_u64.
  - unfold is_u64. simpl. lia.
  - apply bid_and_ask_uncrossed.
Defined.

End MatchingEngineBook.

(** * The matching engine: the order of arrival within a level *)

Module MatchingEngineFifo.
Import MatchingEngine MatchingEngineProps MatchingEngineBook.

(** The entry that [process_order] has put in the book for what is left of
    the order, if it has. *)
Definition rested (r : MatchResult) : list OrderEntry :=
  match remaining_order r with
  | Some entry => [entry]
  | None => []
  end.

(** In [log], the last place of [a] is before a place of [b]: the order
    that [a] holds was put in the book before the order that [b] holds. *)
Definition added_before (a b : OrderEntry) (log : list OrderEntry) : Prop :=
  exists k1 k2, log = k1 ++ a :: k2 /\ (a ∉ k2) /\ (b ∈ k2).

(** The entries of a level are linked in the order in which they were put
    in the book. *)
Definition level_in_order (log : list OrderEntry) (level : PriceLevel.t) : Prop :=
  forall a b, a ∈ PriceLevel.orders level -> b ∈ PriceLevel.orders level ->
    added_before a b log -> linked_before a b (PriceLevel.orders level).

Definition side_in_order (log : list OrderEntry) (levels : price_level_map) : Prop :=
  forall p level, (p, level) ∈ levels -> level_in_order log level.

Definition book_in_order (log : list OrderEntry) (s : t) : Prop :=
  side_in_order log (ask_levels s) /\ side_in_order log (bid_levels s).

(** Every level of [levels'] holds entries of a level of [levels], in the
    order they have there. *)
Definition thinned (levels levels' : price_level_map) : Prop :=
  forall p' level', (p', level') ∈ levels' ->
    exists p level, (p, level) ∈ levels /\
      PriceLevel.orders level' `sublist_of` PriceLevel.orders level.

Section fifo.
Variable clk : Z -> Z.

Local Abbreviation match_level := (MatchingEngine.match_level clk).
Local Abbreviation match_ask_levels := (MatchingEngine.match_ask_levels clk).
Local Abbreviation match_bid_levels := (MatchingEngine.match_bid_levels clk).
Local Abbreviation process_order := (MatchingEngine.process_order clk).
Local Abbreviation after_matching := (MatchingEngineProps.after_matching clk).
Local Abbreviation reachable := (MatchingEngineProps.reachable clk).

(** [arrived log s]: the engine [s] can be, and [log] lists the entries that
    [add_order_to_book] has linked since the engine was made, the oldest
    first. A node of the pool that was released is used again, so an entry
    can be listed more than once; its last place is that of the order it
    holds. *)
Inductive arrived : list OrderEntry -> t -> Prop :=
| arrived_init : arrived [] init
| arrived_set_trade_callback log s b :
    arrived log s -> arrived log (set_trade_callback b s)
| arrived_set_order_update_callback log s b :
    arrived log s -> arrived log (set_order_update_callback b s)
| arrived_process_order log s o :
    arrived log s ->
    arrived (log ++ rested (process_order o s).1) (process_order o s).2
| arrived_cancel_order log s order_id :
    arrived log s -> arrived log (cancel_order order_id s).2
| arrived_other_engine_trade log s :
    arrived log s ->
    arrived log (set_trade_id_generator (wrap64 (trade_id_generator s + 1)) s).

Lemma arrived_reachable log s : arrived log s -> reachable s.
Proof. induction 1; by constructor. Qed.

Lemma reachable_arrived s : reachable s -> exists log, arrived log s.
Proof.
  induction 1 as [|s b _ [log IH]|s b _ [log IH]|s o _ [log IH]
                 |s order_id _ [log IH]|s _ [log IH]];
    eexists; by econstructor.
Qed.

(** *** Levels that lose entries *)

Lemma thinned_refl levels : thinned levels levels.
Proof. intros p level Hin. by exists p, level. Qed.

Lemma thinned_trans k1 k2 k3 : thinned k1 k2 -> thinned k2 k3 -> thinned k1 k3.
Proof.
  intros H12 H23 p3 l3 H3.
  destruct (H23 p3 l3 H3) as (p2 & l2 & H2 & Hs2).
  destruct (H12 p2 l2 H2) as (p1 & l1 & H1 & Hs1).
  exists p1, l1. split; [done|]. by etrans.
Qed.

Lemma side_in_order_thinned log levels levels' :
  NoDup (side_entries levels) -> thinned levels levels' ->
  side_in_order log levels -> side_in_order log levels'.
Proof.
  intros Hnd Hth Hord p' level' Hin' a b Ha Hb Hab.
  destruct (Hth p' level' Hin') as (p & level & Hin & Hsub).
  assert (a ∈ PriceLevel.orders level) as Ha0 by (eapply elem_of_sublist; done).
  assert (b ∈ PriceLevel.orders level) as Hb0 by (eapply elem_of_sublist; done).
  destruct (Hord p level Hin a b Ha0 Hb0 Hab) as (c1 & c2 & Hc & Hb2).
  apply (sublist_linked_before _ c1 a c2 b); try done.
  - by rewrite <- Hc.
  - rewrite <- Hc. by eapply side_entries_chain_NoDup.
Qed.

Lemma match_ask_levels_thinned w levels m rem ts :
  thinned levels (match_ask_levels w levels m rem ts).1.1.1.
Proof.
  apply (match_ask_levels_inv_levels clk
    (fun ladder _ _ _ => thinned levels ladder) w) with (kept := []);
    [|apply thinned_refl].
  clear. intros kept p level rest m rem ts _ _ Hth. cbv zeta.
  pose proof (match_level_sublist clk Buy w p (PriceLevel.orders level) level
                m rem ts) as Hsub.
  destruct (match_level Buy w p _ level m rem ts) as [[[level' m'] rem'] ts'].
  simpl in *.
  destruct (PriceLevel.empty level').
  - intros q l Hin. apply (Hth q l). set_solver.
  - intros q l [Hin|[Hin|Hin]%elem_of_cons]%elem_of_app.
    + apply (Hth q l). set_solver.
    + injection Hin as -> ->.
      destruct (Hth p level ltac:(set_solver)) as (p0 & l0 & H0 & Hs0).
      exists p0, l0. split; [done|]. by etrans.
    + apply (Hth q l). set_solver.
Qed.

Lemma match_bid_levels_thinned w levels bid_it m rem ts :
  thinned levels (match_bid_levels w levels bid_it m rem ts).1.1.1.
Proof.
  apply (match_bid_levels_inv_levels clk
    (fun ladder _ _ _ => thinned levels ladder) w); [|apply thinned_refl].
  clear. intros ladder bid_it p level m rem ts Hit _ _ Hth. cbv zeta.
  pose proof (match_level_sublist clk Sell w p (PriceLevel.orders level) level
                m rem ts) as Hsub.
  destruct (match_level Sell w p _ level m rem ts) as [[[level' m'] rem'] ts'].
  simpl in *.
  destruct (PriceLevel.empty level').
  - intros q l Hin. apply (Hth q l).
    eapply elem_of_sublist; [done|apply sublist_delete].
  - rewrite insert_take_drop by (eapply lookup_lt_Some; done).
    intros q l [Hin|[Hin|Hin]%elem_of_cons]%elem_of_app.
    + apply (Hth q l). eapply elem_of_sublist; [done|apply sublist_take].
    + injection Hin as -> ->.
      destruct (Hth p level ltac:(by eapply list_elem_of_lookup_2))
        as (p0 & l0 & H0 & Hs0).
      exists p0, l0. split; [done|]. by etrans.
    + apply (Hth q l). eapply elem_of_sublist; [done|apply sublist_drop].
Qed.

(** The loops take entries out of the levels of the side they work on and
    leave the other side as it is. *)
Lemma after_matching_thinned o s :
  let m := (after_matching o s).1.1 in
  thinned (ask_levels s) (ask_levels m) /\ thinned (bid_levels s) (bid_levels m).
Proof.
  cbv zeta. unfold MatchingEngineProps.after_matching.
  set (s0 := set_total_orders_processed (wrap64 (total_orders_processed s + 1)) s).
  destruct (Order.side o); simpl.
  - destruct (match_ask_levels_same_ladders clk o (ask_levels s) s0
                (Order.quantity o) []) as [Hb _].
    split; [apply match_ask_levels_thinned|].
    rewrite Hb. apply thinned_refl.
  - destruct (match_bid_levels_same_ladders clk o (reverse (bid_levels s)) 0%nat s0
                (Order.quantity o) []) as [_ Ha].
    split; [rewrite Ha; apply thinned_refl|].
    intros p level Hin. rewrite elem_of_reverse in Hin.
    destruct (match_bid_levels_thinned o (reverse (bid_levels s)) 0%nat s0
                (Order.quantity o) [] p level Hin) as (p0 & l0 & H0 & Hs0).
    exists p0, l0. by rewrite elem_of_reverse in H0.
Qed.

Lemma map_erase_elem_of p (m : price_level_map) x :
  x ∈ map_erase p m -> x ∈ m.
Proof.
  induction m as [|[k l] m IH]; simpl; [done|].
  destruct (k =? p); set_solver.
Qed.

Lemma map_modify_elem_of p f (m : price_level_map) x :
  x ∈ map_modify p f m -> x ∈ m \/ exists l, (x.1, l) ∈ m /\ x.2 = f l.
Proof.
  induction m as [|[k l] m IH]; simpl; [by left|].
  destruct (k =? p).
  - intros [->|Hin]%elem_of_cons; [|left; set_solver].
    right. exists l. split; [set_solver|done].
  - intros [->|Hin]%elem_of_cons; [left; set_solver|].
    destruct (IH Hin) as [H|(l0 & H & Hx)]; [left; set_solver|].
    right. exists l0. split; [set_solver|done].
Qed.

Lemma map_assign_elem_of p l (m : price_level_map) x :
  x ∈ map_assign p l m -> x ∈ m \/ x = (p, l).
Proof.
  induction m as [|[k l'] m IH]; simpl; [set_solver|].
  destruct (p <? k); [set_solver|].
  destruct (k =? p); [set_solver|].
  intros [->|Hin]%elem_of_cons; [left; set_solver|].
  destruct (IH Hin); [left; set_solver|by right].
Qed.

(** [remove_order_from_side] takes an entry out of a level, or a level out
    of the ladder. *)
Lemma remove_order_from_side_thinned e w levels :
  thinned levels (remove_order_from_side e w levels).
Proof.
  unfold remove_order_from_side.
  destruct (map_find (Order.price w) levels) as [level|]; [|apply thinned_refl].
  destruct (PriceLevel.empty _).
  - intros p l Hin. exists p, l. split; [|done]. by eapply map_erase_elem_of.
  - intros p l Hin. apply map_modify_elem_of in Hin as [Hin|(l0 & Hin & Hl)].
    + by exists p, l.
    + simpl in *. exists p, l0. split; [done|].
      rewrite Hl. simpl. apply unlink_sublist.
Qed.

(** *** A new entry *)

Lemma added_before_snoc a b log e :
  a <> e -> b <> e -> added_before a b (log ++ [e]) -> added_before a b log.
Proof.
  intros Ha Hb (k1 & k2 & Hlog & Hnot & Hin).
  destruct (decide (k2 = [])) as [->|Hne]; [set_solver|].
  destruct (exists_last Hne) as (k2' & x & ->).
  change (k1 ++ a :: k2' ++ [x]) with (k1 ++ (a :: k2') ++ [x]) in Hlog.
  rewrite (app_assoc k1 (a :: k2') [x]) in Hlog.
  apply app_inj_tail in Hlog as [Hlog <-].
  exists k1, k2'. split; [done|]. set_solver.
Qed.

Lemma not_added_before_last b log e : ~ added_before e b (log ++ [e]).
Proof.
  intros (k1 & k2 & Hlog & Hnot & Hin).
  destruct (decide (k2 = [])) as [->|Hne]; [set_solver|].
  destruct (exists_last Hne) as (k2' & x & ->).
  change (k1 ++ e :: k2' ++ [x]) with (k1 ++ (e :: k2') ++ [x]) in Hlog.
  rewrite (app_assoc k1 (e :: k2') [x]) in Hlog.
  apply app_inj_tail in Hlog as [_ <-]. set_solver.
Qed.

Lemma level_in_order_kept log e level :
  e ∉ PriceLevel.orders level ->
  level_in_order log level -> level_in_order (log ++ [e]) level.
Proof.
  intros He Hord a b Ha Hb Hab.
  apply Hord; [done..|].
  apply (added_before_snoc a b log e); [set_solver..|done].
Qed.

Lemma level_in_order_add_order log e q level :
  e ∉ PriceLevel.orders level ->
  level_in_order log level ->
  level_in_order (log ++ [e]) (PriceLevel.add_order e q level).
Proof.
  intros He Hord a b. simpl. intros Ha Hb Hab.
  destruct (decide (a = e)) as [->|Hae];
    [by destruct (not_added_before_last b log e)|].
  assert (a ∈ PriceLevel.orders level) as Ha0 by set_solver.
  destruct (decide (b = e)) as [->|Hbe].
  - apply list_elem_of_split in Ha0 as (c1 & c2 & ->).
    exists c1, (c2 ++ [e]). rewrite <- app_assoc. split; [done|]. set_solver.
  - assert (b ∈ PriceLevel.orders level) as Hb0 by set_solver.
    destruct (Hord a b Ha0 Hb0 (added_before_snoc a b log e Hae Hbe Hab))
      as (c1 & c2 & -> & Hb2).
    exists c1, (c2 ++ [e]). rewrite <- app_assoc. split; [done|]. set_solver.
Qed.

Lemma side_entries_elem_of_level levels p level e :
  (p, level) ∈ levels -> e ∈ PriceLevel.orders level -> e ∈ side_entries levels.
Proof.
  intros Hin He. unfold side_entries. apply list_elem_of_bind.
  by exists (p, level).
Qed.

Lemma side_in_order_kept log e levels :
  e ∉ side_entries levels ->
  side_in_order log levels -> side_in_order (log ++ [e]) levels.
Proof.
  intros He Hord p level Hin.
  apply level_in_order_kept; [|by apply (Hord p)].
  intros H. apply He. by eapply side_entries_elem_of_level.
Qed.

Lemma side_in_order_add_order log e w levels :
  e ∉ side_entries levels ->
  side_in_order log levels ->
  side_in_order (log ++ [e]) (add_order_to_side e w levels).
Proof.
  intros He Hord p level Hin.
  assert (forall q l, (q, l) ∈ levels -> e ∉ PriceLevel.orders l) as Hfresh.
  { intros q l Hl H. apply He. by eapply side_entries_elem_of_level. }
  unfold add_order_to_side in Hin.
  destruct (map_find (Order.price w) levels).
  - apply map_modify_elem_of in Hin as [Hin|(l0 & Hin & Hl)].
    + apply level_in_order_kept; [by apply (Hfresh p)|by apply (Hord p)].
    + simpl in *. rewrite Hl.
      apply level_in_order_add_order; [by apply (Hfresh p)|by apply (Hord p)].
  - apply map_assign_elem_of in Hin as [Hin|[= -> ->]].
    + apply level_in_order_kept; [by apply (Hfresh p)|by apply (Hord p)].
    + apply level_in_order_add_order; [set_solver|].
      intros a b Ha. simpl in Ha. set_solver.
Qed.

Lemma added_before_grows a b log e :
  a <> e -> added_before a b log -> added_before a b (log ++ [e]).
Proof.
  intros Ha (k1 & k2 & -> & Hnot & Hin).
  exists k1, (k2 ++ [e]). rewrite <- app_assoc. split; [done|]. set_solver.
Qed.

Lemma added_before_last a log e :
  a <> e -> a ∈ log -> added_before a e (log ++ [e]).
Proof.
  intros Ha (k1 & k2 & -> & Hnot)%list_elem_of_split_r.
  exists k1, (k2 ++ [e]). rewrite <- app_assoc. split; [done|]. set_solver.
Qed.

(** Of two entries that were put in the book, one was before the other. *)
Lemma added_before_total a b log :
  a <> b -> a ∈ log -> b ∈ log -> added_before a b log \/ added_before b a log.
Proof.
  intros Hab. induction log as [|x log IH] using rev_ind; [set_solver|].
  intros Ha Hb.
  destruct (decide (a = x)) as [->|Hax].
  - right. apply added_before_last; [done|set_solver].
  - destruct (decide (b = x)) as [->|Hbx].
    + left. apply added_before_last; [done|set_solver].
    + destruct IH as [H|H]; [set_solver..| |].
      * left. by apply added_before_grows.
      * right. by apply added_before_grows.
Qed.

Lemma linked_before_lookup a b (chain : list OrderEntry) :
  linked_before a b chain ->
  exists i j, (i < j)%nat /\ chain !! i = Some a /\ chain !! j = Some b.
Proof.
  intros (c1 & c2 & -> & Hb). apply list_elem_of_lookup in Hb as [k Hk].
  exists (length c1), (length c1 + S k)%nat. split; [lia|]. split.
  - by apply list_lookup_middle.
  - rewrite lookup_app_r by lia.
    replace (length c1 + S k - length c1)%nat with (S k) by lia. done.
Qed.

Lemma linked_before_asym a b (chain : list OrderEntry) :
  NoDup chain -> linked_before a b chain -> ~ linked_before b a chain.
Proof.
  intros Hnd (i & j & Hij & Hi & Hj)%linked_before_lookup
    (j' & i' & Hji & Hj' & Hi')%linked_before_lookup.
  pose proof (NoDup_lookup _ _ _ _ Hnd Hi Hi').
  pose proof (NoDup_lookup _ _ _ _ Hnd Hj Hj'). lia.
Qed.

(** *** The book is in the order of arrival *)

Lemma wf_NoDup_sides s :
  wf s ->
  NoDup (side_entries (ask_levels s)) /\ NoDup (side_entries (bid_levels s)) /\
  forall e, e ∈ LockFreeMemoryPool.free_list (order_pool s) ->
    (e ∉ side_entries (ask_levels s)) /\ (e ∉ side_entries (bid_levels s)).
Proof.
  intros [Hinv _]. pose proof (li_NoDup _ _ _ _ _ Hinv) as Hnd.
  unfold nodes in Hnd.
  apply NoDup_app in Hnd as (Hasks & Hd1 & Hnd).
  apply NoDup_app in Hnd as (Hbids & Hd2 & _).
  split; [done|]. split; [done|]. intros e He. split.
  - intros H. apply (Hd1 e H). set_solver.
  - intros H. by apply (Hd2 e H).
Qed.

Lemma after_matching_in_order log o s :
  wf s -> book_in_order log s -> book_in_order log (after_matching o s).1.1.
Proof.
  intros Hwf [Ha Hb].
  destruct (wf_NoDup_sides s Hwf) as (Hna & Hnb & _).
  destruct (after_matching_thinned o s) as [Hta Htb].
  split.
  - by apply (side_in_order_thinned log (ask_levels s)).
  - by apply (side_in_order_thinned log (bid_levels s)).
Qed.

Lemma process_order_in_order log o s :
  wf s -> book_in_order log s ->
  book_in_order (log ++ rested (process_order o s).1) (process_order o s).2.
Proof.
  intros Hwf Hord.
  pose proof (after_matching_wf clk o s Hwf) as Hwf2.
  pose proof (after_matching_in_order log o s Hwf Hord) as Hord2.
  rewrite (process_order_unfold clk).
  destruct (after_matching o s) as [[s2 rem] ts]. simpl in Hwf2, Hord2.
  destruct (rem =? 0); [unfold rested; simpl; by rewrite app_nil_r|].
  destruct (LockFreeMemoryPool.acquire (order_pool s2)) as [[entry op]|] eqn:Hacq;
    [|unfold rested; simpl; by rewrite app_nil_r].
  unfold rested. simpl.
  destruct (wf_NoDup_sides s2 Hwf2) as (_ & _ & Hfree).
  assert (entry ∈ LockFreeMemoryPool.free_list (order_pool s2)) as Hin.
  { unfold LockFreeMemoryPool.acquire in Hacq.
    destruct (LockFreeMemoryPool.free_list (order_pool s2)); [done|].
    injection Hacq as <- _. set_solver. }
  destruct (Hfree entry Hin) as [Hfa Hfb]. destruct Hord2 as [Ha Hb].
  unfold add_order_to_book. cbv zeta.
  rewrite order_at_store_order_eq. simpl.
  destruct (Order.side o); simpl; split;
    (by apply side_in_order_add_order) || (by apply side_in_order_kept).
Qed.

Lemma cancel_order_in_order log order_id s :
  wf s -> book_in_order log s -> book_in_order log (cancel_order order_id s).2.
Proof.
  intros Hwf [Ha Hb].
  destruct (wf_NoDup_sides s Hwf) as (Hna & Hnb & _).
  destruct (order_lookup s !! order_id) as [e|] eqn:Hid.
  - pose proof (cancel_order_ladders order_id s e Hid) as Hl. cbv zeta in Hl.
    destruct (Order.side (order_at e s)); destruct Hl as [H1 H2]; split;
      rewrite ?H1, ?H2; try done;
      (eapply side_in_order_thinned;
         [|apply remove_order_from_side_thinned|]; done).
  - unfold cancel_order. by rewrite Hid.
Qed.

(** In an engine that can be, the entries of every level are linked in the
    order in which the orders they hold were put in the book. *)
Lemma arrived_in_order log s : arrived log s -> book_in_order log s.
Proof.
  induction 1 as [|log s b _ IH|log s b _ IH|log s o H IH
                 |log s order_id H IH|log s _ IH]; try done.
  - split; intros p level Hin; simpl in Hin; set_solver.
  - apply process_order_in_order; [|done].
    by apply (reachable_wf clk), (arrived_reachable log).
  - apply cancel_order_in_order; [|done].
    by apply (reachable_wf clk), (arrived_reachable log).
Qed.

(** Every entry of the book is listed. *)
Lemma thinned_side_entries levels levels' e :
  thinned levels levels' -> e ∈ side_entries levels' -> e ∈ side_entries levels.
Proof.
  intros Hth ([p' level'] & He & Hin)%list_elem_of_bind. simpl in He.
  destruct (Hth p' level' Hin) as (p & level & Hin0 & Hsub).
  eapply side_entries_elem_of_level; [done|]. by eapply elem_of_sublist.
Qed.

Lemma add_order_to_side_entries e w levels x :
  x ∈ side_entries (add_order_to_side e w levels) ->
  x = e \/ x ∈ side_entries levels.
Proof.
  intros ([p level] & Hx & Hin)%list_elem_of_bind. simpl in Hx.
  unfold add_order_to_side in Hin.
  destruct (map_find (Order.price w) levels).
  - apply map_modify_elem_of in Hin as [Hin|(l0 & Hin & Hl)].
    + right. by eapply side_entries_elem_of_level.
    + simpl in *. rewrite Hl in Hx. simpl in Hx.
      apply elem_of_app in Hx as [Hx|Hx]; [|left; set_solver].
      right. by eapply side_entries_elem_of_level.
  - apply map_assign_elem_of in Hin as [Hin|[= -> ->]].
    + right. by eapply side_entries_elem_of_level.
    + simpl in Hx. left. set_solver.
Qed.

Lemma arrived_listed log s e :
  arrived log s ->
  e ∈ side_entries (ask_levels s) ++ side_entries (bid_levels s) -> e ∈ log.
Proof.
  intros H. revert e.
  induction H as [|log s b _ IH|log s b _ IH|log s o H IH
                 |log s order_id H IH|log s _ IH]; try done.
  - intros e. destruct (after_matching_thinned o s) as [Hta Htb].
    assert (forall x,
      x ∈ side_entries (ask_levels (after_matching o s).1.1) ++
          side_entries (bid_levels (after_matching o s).1.1) -> x ∈ log) as IH2.
    { intros x [Hx|Hx]%elem_of_app; apply IH, elem_of_app;
        [left|right]; by eapply thinned_side_entries. }
    revert IH2. rewrite (process_order_unfold clk).
    destruct (after_matching o s) as [[s2 rem] ts]. simpl.
    destruct (rem =? 0); [unfold rested; simpl; rewrite app_nil_r; by auto|].
    destruct (LockFreeMemoryPool.acquire (order_pool s2)) as [[entry op]|];
      [|unfold rested; simpl; rewrite app_nil_r; by auto].
    unfold rested, add_order_to_book. cbv zeta.
    rewrite order_at_store_order_eq. simpl. intros IH2.
    destruct (Order.side o); simpl;
      intros [Hx|Hx]%elem_of_app;
      try (apply add_order_to_side_entries in Hx as [->|Hx]);
      set_solver.
  - intros e He. apply IH.
    destruct (order_lookup s !! order_id) as [x|] eqn:Hid.
    + pose proof (cancel_order_ladders order_id s x Hid) as Hl. cbv zeta in Hl.
      destruct (Order.side (order_at x s)); destruct Hl as [H1 H2];
        rewrite H1, H2 in He;
        apply elem_of_app in He as [He|He]; apply elem_of_app;
        try (by left); try (by right);
        [right|left];
        (eapply thinned_side_entries;
           [apply remove_order_from_side_thinned|done]).
    + unfold cancel_order in He. by rewrite Hid in He.
Qed.

(** In an engine that can be, the chain of a level is the order of
    arrival of its entries. *)
Lemma linked_in_order_of_arrival log s p level a b :
  arrived log s -> (p, level) ∈ ask_levels s \/ (p, level) ∈ bid_levels s ->
  linked_before a b (PriceLevel.orders level) -> added_before a b log.
Proof.
  intros Harr Hin Hab.
  pose proof (arrived_in_order log s Harr) as [Hasks Hbids].
  destruct (wf_NoDup_sides s (reachable_wf clk s (arrived_reachable log s Harr)))
    as (Hna & Hnb & _).
  assert (NoDup (PriceLevel.orders level)) as Hnd.
  { destruct Hin;
      [by apply (side_entries_chain_NoDup (ask_levels s) p)
      |by apply (side_entries_chain_NoDup (bid_levels s) p)]. }
  assert (level_in_order log level) as Hord.
  { destruct Hin; [by apply (Hasks p)|by apply (Hbids p)]. }
  assert (a ∈ PriceLevel.orders level /\ b ∈ PriceLevel.orders level) as [Ha Hb].
  { destruct Hab as (c1 & c2 & -> & Hb). set_solver. }
  assert (forall x, x ∈ PriceLevel.orders level -> x ∈ log) as Hlog.
  { intros x Hx. apply (arrived_listed log s x Harr), elem_of_app.
    destruct Hin; [left|right]; by eapply side_entries_elem_of_level. }
  assert (a <> b) as Hne.
  { intros ->. by apply (linked_before_asym b b _ Hnd). }
  destruct (added_before_total a b log Hne (Hlog a Ha) (Hlog b Hb)) as [H|H];
    [done|].
  destruct (linked_before_asym a b _ Hnd Hab). by apply Hord.
Qed.

(** C6. In an engine that can be, two orders rest in one level of the side
    an incoming order is matched against, in the entries [a] and [b], and
    the order of [a] was put in the book before that of [b]: in the list of
    the entries that [add_order_to_book] has linked since the engine was
    made, the last place of [a] is before a place of [b]. Then [a] is linked
    before [b] in the chain of the level, whatever orders were matched or
    cancelled in between. When the loop of [match_buy_order] or
    [match_sell_order] is left, [b] has been traded against only if [a] has
    been filled completely (quantity 0, status [Filled]). Cancelling [a]
    instead takes [a] alone out of the chain, so that [b] keeps its place
    behind the entries that were before [a]. The chain of the level is the
    order of arrival: an entry linked before another was put in the book
    before it. And [PriceLevel::add_order] links a new entry behind the
    entries of the level. *)
Theorem fifo_within_level (log : list OrderEntry) (o : Order.t) (s : t)
    (level_price : Z) (level : PriceLevel.t) (a b : OrderEntry) :
  arrived log s ->
  (level_price, level) ∈ opposite_levels o s ->
  a ∈ PriceLevel.orders level -> b ∈ PriceLevel.orders level ->
  added_before a b log ->
  let m := (after_matching o s).1.1 in
  (order_at b m <> order_at b s -> filled_out a m) /\
  (exists l1 l2,
     PriceLevel.orders level = l1 ++ a :: l2 /\ b ∈ l2 /\
     forall order_id, order_lookup s !! order_id = Some a ->
       chain_at level_price (opposite_levels o (cancel_order order_id s).2) =
       l1 ++ l2) /\
  (forall x y, linked_before x y (PriceLevel.orders level) ->
     added_before x y log) /\
  (forall entry entry_quantity (l : PriceLevel.t),
     PriceLevel.orders (PriceLevel.add_order entry entry_quantity l) =
     PriceLevel.orders l ++ [entry]).
Proof.
  intros Harr Hin Ha Hb Hab. cbv zeta.
  pose proof (arrived_in_order log s Harr) as [Hasks Hbids].
  assert ((level_price, level) ∈ ask_levels s \/
          (level_price, level) ∈ bid_levels s) as Hside.
  { unfold opposite_levels in Hin. destruct (Order.side o); [by left|by right]. }
  assert (linked_before a b (PriceLevel.orders level)) as (l1 & l2 & Hchain & Hb2).
  { destruct Hside; [by apply (Hasks level_price)|by apply (Hbids level_price)]. }
  destruct (fifo_along_chain clk o s level_price level l1 a l2 b
              (arrived_reachable log s Harr) Hin Hchain Hb2)
    as (Hfifo & Hcancel & Hadd).
  split; [done|]. split; [by exists l1, l2|]. split; [|done].
  intros x y. by apply (linked_in_order_of_arrival log s level_price).
Qed.

End fifo.

Lemma two_sells_arrived : arrived tsc0 [0%nat; 1%nat] two_sells.
Proof.
  apply (arrived_process_order tsc0 [0%nat]
           (process_order tsc0 (Order.mk 1 1 Sell Limit Gtc 10100 50 0 Incoming 1)
              init).2
           (Order.mk 2 1 Sell Limit Gtc 10100 50 0 Incoming 2)).
  apply (arrived_process_order tsc0 [] init
           (Order.mk 1 1 Sell Limit Gtc 10100 50 0 Incoming 1)).
  apply arrived_init.
Qed.

Lemma fifo_within_level_witness :
  let m := (after_matching tsc0 buy_75 two_sells).1.1 in
  (order_at 1%nat m <> order_at 1%nat two_sells -> filled_out 0%nat m) /\
  (exists l1 l2,
     [0%nat; 1%nat] = l1 ++ 0%nat :: l2 /\ 1%nat ∈ l2 /\
     forall order_id, order_lookup two_sells !! order_id = Some 0%nat ->
       chain_at 10100 (ask_levels (cancel_order order_id two_sells).2) =
       l1 ++ l2) /\
  (forall x y, linked_before x y [0%nat; 1%nat] ->
     added_before x y [0%nat; 1%nat]) /\
  (forall entry entry_quantity (l : PriceLevel.t),
     PriceLevel.orders (PriceLevel.add_order entry entry_quantity l) =
     PriceLevel.orders l ++ [entry]).
Proof.
  apply (fifo_within_level tsc0 [0%nat; 1%nat] buy_75 two_sells 10100
           (PriceLevel.mk 10100 100 2 [0%nat; 1%nat]) 0%nat 1%nat).
  - apply two_sells_arrived.
  - vm_compute. apply list_elem_of_singleton. reflexivity.
  - simpl. apply list_elem_of_here.
  - simpl. apply list_elem_of_further, list_elem_of_here.
  - exists [], [1%nat]. split; [reflexivity|].
    split; [|apply list_elem_of_here].
    intros H. apply list_elem_of_singleton in H. discriminate.
Defined.

End MatchingEngineFifo.
(** * Properties of the memory pool *)

Module LockFreeMemoryPoolProps.
Import LockFreeMemoryPool.

Section pool_props.
Context {T : Type}.
Variable PoolSize : Z.

(** The pools a user can make from a new one, with the nodes the user
    holds: a node is held from the [acquire] that returned it to the
    [release] it is passed to. *)
Inductive reachable : LockFreeMemoryPool.t T -> list nat -> Prop :=
| reachable_init : reachable (init PoolSize) []
| reachable_acquire p held ptr p' :
    reachable p held -> acquire p = Some (ptr, p') ->
    reachable p' (ptr :: held)
| reachable_release p h1 ptr h2 :
    reachable p (h1 ++ ptr :: h2) -> reachable (release ptr p) (h1 ++ h2)
| reachable_write p held ptr v :
    reachable p held -> reachable (write ptr v p) held.

(** Every node of the array is held or on the free list, never both. *)
Definition accounted (p : LockFreeMemoryPool.t T) (held : list nat) : Prop :=
  held ++ free_list p ≡ₚ seq 0 (Z.to_nat PoolSize) /\
  allocated_count p = Z.of_nat (length held).

Lemma accounted_length p held :
  0 < PoolSize -> accounted p held ->
  Z.of_nat (length held) + Z.of_nat (length (free_list p)) = PoolSize.
Proof.
  intros HP [Hperm _]. apply Permutation_length in Hperm.
  rewrite length_app, length_seq in Hperm. lia.
Qed.

Lemma reachable_accounted p held :
  0 < PoolSize < 2 ^ 64 -> reachable p held -> accounted p held.
Proof.
  intros HP. induction 1 as [|p held ptr p' _ IH Hacq|p h1 ptr h2 _ IH|p held ptr v _ IH].
  - split; [done|done].
  - pose proof (accounted_length p held ltac:(lia) IH) as Hlen.
    destruct IH as [Hperm Hcount]. unfold acquire in Hacq.
    destruct (free_list p) as [|head next] eqn:Hfree; [done|].
    injection Hacq as <- <-. split; simpl.
    + rewrite <- Hperm. by rewrite Permutation_middle.
    + rewrite Hcount. simpl in Hlen.
      rewrite wrap64_small by (unfold is_u64; lia). lia.
  - pose proof (accounted_length p _ ltac:(lia) IH) as Hlen.
    destruct IH as [Hperm Hcount]. split; simpl.
    + rewrite <- Hperm. rewrite <- Permutation_middle.
      rewrite <- !app_assoc. simpl. by rewrite <- Permutation_middle.
    + rewrite Hcount. rewrite !length_app in *. simpl in *.
      rewrite wrap64_small by (unfold is_u64; lia). lia.
  - done.
Qed.

(** Of a pool of [PoolSize] nodes: the nodes held are distinct nodes of the
    array, none of them is on the free list, and [size()] counts them.
    [acquire] fails exactly when [full()], that is when all [PoolSize]
    nodes are held; otherwise it returns a node that is not held. [empty()]
    tells that no node is held. A node released is the next one
    acquired. *)
Theorem acquire_release_accounting (p : LockFreeMemoryPool.t T) (held : list nat) :
  0 < PoolSize < 2 ^ 64 -> reachable p held ->
  NoDup held /\
  (forall ptr, ptr ∈ held -> Z.of_nat ptr < PoolSize /\ (ptr ∉ free_list p)) /\
  size p = Z.of_nat (length held) /\
  (full PoolSize p = true <-> acquire p = None) /\
  (forall ptr p', acquire p = Some (ptr, p') ->
     (ptr ∉ held) /\ Z.of_nat ptr < PoolSize /\ size p' = size p + 1) /\
  (empty p = true <-> held = []) /\
  (forall ptr, ptr ∈ held -> acquire (release ptr p) = Some (ptr, p)).
Proof.
  intros HP Hr. pose proof (reachable_accounted p held HP Hr) as Hacc.
  pose proof (accounted_length p held ltac:(lia) Hacc) as Hlen.
  destruct Hacc as [Hperm Hcount].
  assert (NoDup (held ++ free_list p)) as Hnd.
  { rewrite Hperm. apply NoDup_seq. }
  assert (forall x, x ∈ held ++ free_list p -> Z.of_nat x < PoolSize) as Hbound.
  { intros x Hx. rewrite Hperm in Hx. apply elem_of_seq in Hx. lia. }
  apply NoDup_app in Hnd as (Hnd1 & Hdisj & Hnd2).
  split; [done|]. split.
  { intros ptr Hin. split; [apply Hbound; set_solver|by apply Hdisj]. }
  split; [done|]. split.
  { unfold full, acquire. rewrite Hcount, Z.eqb_eq.
    destruct (free_list p); simpl in *; split; intros; (done || lia). }
  split.
  { intros ptr p' Hacq. unfold acquire in Hacq.
    destruct (free_list p) as [|head next] eqn:Hfree; [done|].
    injection Hacq as <- <-. split; [|split].
    - intros Hin. apply (Hdisj _ Hin). set_solver.
    - apply Hbound. set_solver.
    - unfold size. simpl. rewrite Hcount. simpl in Hlen.
      apply wrap64_small. unfold is_u64. lia. }
  split.
  { unfold empty. rewrite Hcount, Z.eqb_eq. destruct held; simpl; split; intros; (done || lia). }
  intros ptr Hin. unfold acquire, release. simpl. do 2 f_equal.
  destruct p as [cells free count]. simpl in *. f_equal.
  assert (0 < length held)%nat by (destruct held; [set_solver|simpl; lia]).
  rewrite Hcount, (wrap64_small (_ - 1)) by (unfold is_u64; lia).
  replace (Z.of_nat (length held) - 1 + 1) with (Z.of_nat (length held)) by lia.
  apply wrap64_small. unfold is_u64. lia.
Qed.

End pool_props.

(** A pool of two nodes, one of them acquired. *)
Definition pool_of_two : LockFreeMemoryPool.t Z :=
  mk ∅ [1%nat] 1.

Lemma pool_of_two_reachable : reachable 2 pool_of_two [0%nat].
Proof.
  apply (reachable_acquire 2 (init 2) [] 0%nat); [apply reachable_init|reflexivity].
Qed.

Lemma acquire_release_accounting_witness :
  NoDup [0%nat] /\
  (forall ptr, ptr ∈ [0%nat] ->
     Z.of_nat ptr < 2 /\ (ptr ∉ free_list pool_of_two)) /\
  size pool_of_two = Z.of_nat (length [0%nat]) /\
  (full 2 pool_of_two = true <-> acquire pool_of_two = None) /\
  (forall ptr p', acquire pool_of_two = Some (ptr, p') ->
     (ptr ∉ [0%nat]) /\ Z.of_nat ptr < 2 /\ size p' = size pool_of_two + 1) /\
  (empty pool_of_two = true <-> [0%nat] = []) /\
  (forall ptr, ptr ∈ [0%nat] ->
     acquire (release ptr pool_of_two) = Some (ptr, pool_of_two)).
Proof.
  apply (acquire_release_accounting 2 pool_of_two [0%nat]).
  - lia.
  - apply pool_of_two_reachable.
Defined.

End LockFreeMemoryPoolProps.

(** * Properties of the buffers and queues *)

(** A size that is a power of two below [2 ^ 64], as the [static_assert] of
    the two classes and [size_t] have it. *)
Definition power_of_two (Size : Z) : Prop :=
  exists k, 0 <= k < 64 /\ Size = 2 ^ k.

Lemma power_of_two_pos Size : power_of_two Size -> 0 < Size < 2 ^ 64.
Proof.
  intros (k & Hk & ->). split; [apply Z.pow_pos_nonneg; lia|].
  apply Z.pow_lt_mono_r; lia.
Qed.

Lemma land_mask Size a : power_of_two Size -> Z.land a (Size - 1) = a mod Size.
Proof.
  intros (k & Hk & ->).
  replace (2 ^ k - 1) with (Z.ones k) by (rewrite Z.ones_equiv; lia).
  apply Z.land_ones. lia.
Qed.

Lemma wrap64_mod Size a : power_of_two Size -> wrap64 a mod Size = a mod Size.
Proof.
  intros (k & Hk & ->). unfold wrap64.
  assert (2 ^ 64 = 2 ^ (64 - k) * 2 ^ k) as Hp.
  { rewrite <- Z.pow_add_r by lia. f_equal. lia. }
  assert (a mod 2 ^ 64 = a + (- (a / 2 ^ 64) * 2 ^ (64 - k)) * 2 ^ k) as ->.
  { rewrite Z.mod_eq by lia. rewrite Hp at 1. ring. }
  apply Z.mod_add. apply Z.pow_nonzero; lia.
Qed.

Lemma mod_add_small S h : 0 < S -> 0 <= h < S -> (h + 0) mod S = h.
Proof. intros. rewrite Z.add_0_r. by apply Z.mod_small. Qed.

(** ** [SPSCQueue] *)

Module SPSCQueueProps.
Import SPSCQueue.

Section spsc.
Context {T : Type} `{!Inhabited T}.
Variable Size : Z.
Hypothesis Size_power : power_of_two Size.

Local Abbreviation try_push := (SPSCQueue.try_push Size).
Local Abbreviation try_pop := (SPSCQueue.try_pop Size).

(** The queue holds the items [xs], the oldest first: they are in the cells
    from [head] on, round the array, up to [tail]. *)
Definition holds (q : t T) (xs : list T) : Prop :=
  length (buffer q) = Z.to_nat Size /\
  0 <= head q < Size /\
  tail q = (head q + Z.of_nat (length xs)) mod Size /\
  Z.of_nat (length xs) < Size /\
  forall i x, xs !! i = Some x ->
    buffer q !! Z.to_nat ((head q + Z.of_nat i) mod Size) = Some x.

Lemma spsc_next_index a : Z.land (wrap64 (a + 1)) (mask Size) = (a + 1) mod Size.
Proof. unfold mask. by rewrite land_mask, wrap64_mod. Qed.

Lemma spsc_holds_tail q xs : holds q xs -> 0 <= tail q < Size.
Proof.
  intros (_ & _ & -> & _). apply Z.mod_pos_bound.
  by apply power_of_two_pos.
Qed.

Lemma spsc_holds_next_tail q xs :
  holds q xs ->
  (tail q + 1) mod Size = (head q + Z.of_nat (S (length xs))) mod Size.
Proof.
  intros (_ & _ & -> & _). rewrite Z.add_mod_idemp_l.
  - f_equal. lia.
  - pose proof (power_of_two_pos _ Size_power). lia.
Qed.

Lemma spsc_holds_init cells :
  length cells = Z.to_nat Size -> holds (init cells) [].
Proof.
  intros Hlen. pose proof (power_of_two_pos _ Size_power) as HS.
  repeat split; simpl; try lia; done.
Qed.

Lemma spsc_holds_try_push q xs item :
  holds q xs -> Z.of_nat (length xs) < capacity Size ->
  (try_push item q).1 = true /\ holds (try_push item q).2 (xs ++ [item]).
Proof.
  intros Hq Hlen. pose proof (power_of_two_pos _ Size_power) as HS.
  pose proof (spsc_holds_tail q xs Hq) as Ht.
  pose proof (spsc_holds_next_tail q xs Hq) as Hnext.
  destruct Hq as (Hbuf & Hh & Htail & Hn & Hcells).
  unfold capacity in Hlen. unfold SPSCQueue.try_push. cbv zeta.
  rewrite spsc_next_index.
  destruct (_ =? head q) eqn:Heq.
  { apply Z.eqb_eq in Heq. rewrite Hnext in Heq.
    rewrite <- (mod_add_small Size (head q)) in Heq at 2 by lia.
    apply mod_add_inj in Heq; lia. }
  simpl. split; [done|]. repeat split; simpl; try lia.
  - by rewrite length_insert.
  - rewrite Hnext, length_app. simpl. f_equal. lia.
  - rewrite length_app. simpl. lia.
  - intros i x Hi.
    destruct (decide (i = length xs)) as [->|Hne].
    + rewrite lookup_app_r in Hi by lia.
      rewrite Nat.sub_diag in Hi. injection Hi as <-.
      rewrite <- Htail. apply list_lookup_insert_eq. lia.
    + assert (i < length xs)%nat as Hlt.
      { apply lookup_lt_Some in Hi. rewrite length_app in Hi. simpl in Hi. lia. }
      rewrite lookup_app_l in Hi by done.
      rewrite list_lookup_insert_ne; [by apply Hcells|].
      rewrite Htail. intros Heq'. apply Z2Nat.inj in Heq'.
      * apply mod_add_inj in Heq'; lia.
      * apply Z.mod_pos_bound. lia.
      * apply Z.mod_pos_bound. lia.
Qed.

Lemma spsc_holds_try_push_full q xs item :
  holds q xs -> Z.of_nat (length xs) = capacity Size ->
  try_push item q = (false, q).
Proof.
  intros Hq Hlen. pose proof (power_of_two_pos _ Size_power) as HS.
  pose proof (spsc_holds_next_tail q xs Hq) as Hnext.
  destruct Hq as (Hbuf & Hh & Htail & Hn & Hcells).
  unfold capacity in Hlen. unfold SPSCQueue.try_push. cbv zeta.
  rewrite spsc_next_index, Hnext.
  replace (head q + Z.of_nat (S (length xs))) with (head q + 1 * Size) by lia.
  rewrite Z.mod_add by lia. rewrite Z.mod_small by lia.
  by rewrite Z.eqb_refl.
Qed.

Lemma spsc_holds_try_pop_empty q : holds q [] -> try_pop q = (None, q).
Proof.
  intros (Hbuf & Hh & Htail & Hn & Hcells). simpl in Htail.
  unfold SPSCQueue.try_pop. cbv zeta.
  rewrite Htail, Z.add_0_r, Z.mod_small by lia. by rewrite Z.eqb_refl.
Qed.

Lemma spsc_holds_try_pop q x xs :
  holds q (x :: xs) ->
  (try_pop q).1 = Some x /\ holds (try_pop q).2 xs.
Proof.
  intros Hq. pose proof (power_of_two_pos _ Size_power) as HS.
  destruct Hq as (Hbuf & Hh & Htail & Hn & Hcells). simpl in Htail, Hn.
  unfold SPSCQueue.try_pop. cbv zeta.
  destruct (head q =? tail q) eqn:Heq.
  { apply Z.eqb_eq in Heq. rewrite Htail in Heq.
    rewrite <- (mod_add_small Size (head q)) in Heq at 1 by lia.
    apply mod_add_inj in Heq; lia. }
  simpl. rewrite spsc_next_index. split.
  - f_equal. apply list_lookup_total_correct.
    specialize (Hcells 0%nat x eq_refl). simpl in Hcells.
    by rewrite Z.add_0_r, Z.mod_small in Hcells by lia.
  - repeat split; simpl; try lia.
    + apply Z.mod_pos_bound. lia.
    + apply Z.mod_pos_bound. lia.
    + rewrite Htail, Z.add_mod_idemp_l by lia. f_equal. lia.
    + intros i y Hi. rewrite Z.add_mod_idemp_l by lia.
      specialize (Hcells (S i) y Hi).
      by replace (head q + 1 + Z.of_nat i) with (head q + Z.of_nat (S i)) by lia.
Qed.

Lemma spsc_holds_size q xs : holds q xs -> size Size q = Z.of_nat (length xs).
Proof.
  intros (Hbuf & Hh & Htail & Hn & Hcells).
  pose proof (power_of_two_pos _ Size_power) as HS.
  unfold size, mask. rewrite land_mask, wrap64_mod by done.
  rewrite Htail, Zminus_mod_idemp_l.
  replace (head q + Z.of_nat (length xs) - head q) with (Z.of_nat (length xs)) by lia.
  apply Z.mod_small. lia.
Qed.

Lemma spsc_holds_full q xs :
  holds q xs -> full Size q = true <-> Z.of_nat (length xs) = capacity Size.
Proof.
  intros Hq. pose proof (power_of_two_pos _ Size_power) as HS.
  pose proof (spsc_holds_next_tail q xs Hq) as Hnext.
  destruct Hq as (Hbuf & Hh & Htail & Hn & Hcells).
  unfold full, capacity. cbv zeta. rewrite spsc_next_index, Hnext, Z.eqb_eq. split.
  - intros Heq. rewrite <- (mod_add_small Size (head q)) in Heq at 2 by lia.
    destruct (decide (Z.of_nat (S (length xs)) = Size)) as [|Hne]; [lia|].
    apply mod_add_inj in Heq; lia.
  - intros Hlen.
    replace (head q + Z.of_nat (S (length xs))) with (head q + 1 * Size) by lia.
    rewrite Z.mod_add by lia. apply Z.mod_small. lia.
Qed.

Lemma spsc_holds_empty q xs : holds q xs -> empty q = true <-> xs = [].
Proof.
  intros Hq. pose proof (power_of_two_pos _ Size_power) as HS.
  destruct Hq as (Hbuf & Hh & Htail & Hn & Hcells).
  unfold empty. rewrite Z.eqb_eq, Htail. split.
  - intros Heq. rewrite <- (mod_add_small Size (head q)) in Heq at 1 by lia.
    apply mod_add_inj in Heq; [|lia..]. destruct xs; [done|simpl in Heq; lia].
  - intros ->. simpl. rewrite Z.add_0_r. symmetry. apply Z.mod_small. lia.
Qed.

Lemma spsc_holds_clear q xs : holds q xs -> holds (clear q) [].
Proof.
  intros Hq. pose proof (power_of_two_pos _ Size_power) as HS.
  pose proof (spsc_holds_tail q xs Hq) as Ht.
  destruct Hq as (Hbuf & Hh & Htail & Hn & Hcells).
  repeat split; simpl; try lia; try done.
  rewrite Z.add_0_r. symmetry. apply Z.mod_small. lia.
Qed.

(** [try_push] takes an item while the queue holds fewer than
    [capacity() = Size - 1] items and puts it behind the others; at
    [Size - 1] items [full()] is true, [try_push] returns false and the
    queue is as it was. *)
Theorem try_push_appends (q : t T) (xs : list T) (item : T) :
  holds q xs ->
  (Z.of_nat (length xs) < capacity Size ->
   full Size q = false /\
   (try_push item q).1 = true /\ holds (try_push item q).2 (xs ++ [item])) /\
   (Z.of_nat (length xs) = capacity Size ->
   full Size q = true /\ try_push item q = (false, q)).
Proof.
  intros Hq. split; intros Hlen.
  - split; [|by apply spsc_holds_try_push].
    destruct (full Size q) eqn:Hf; [|done].
    apply (spsc_holds_full q xs Hq) in Hf. lia.
  - split; [by apply (spsc_holds_full q xs Hq)|by apply (spsc_holds_try_push_full q xs)].
Qed.

(** [try_pop] hands out the oldest item and leaves the others in their
    order; on a queue that holds nothing it returns false and the queue is
    as it was. [size()] is the number of items held, [empty()] tells
    whether there is none, and [clear()] leaves none. *)
Theorem try_pop_oldest_first (q : t T) (xs : list T) :
  holds q xs ->
  match xs with
  | [] => try_pop q = (None, q)
  | x :: xs' => (try_pop q).1 = Some x /\ holds (try_pop q).2 xs'
  end /\
  size Size q = Z.of_nat (length xs) /\
  (empty q = true <-> xs = []) /\
  holds (clear q) [].
Proof.
  intros Hq. split; [|split; [|split]].
  - destruct xs as [|x xs']; [by apply spsc_holds_try_pop_empty|by apply spsc_holds_try_pop].
  - by apply spsc_holds_size.
  - by apply spsc_holds_empty.
  - by apply (spsc_holds_clear q xs).
Qed.

End spsc.

(** A queue of four cells, after 7 and 8 have been pushed. *)
Definition four_cells : list Z := [0; 0; 0; 0].

Definition queue_7_8 : t Z :=
  (try_push 4 8 (try_push 4 7 (init four_cells)).2).2.

Lemma four_power_of_two : power_of_two 4.
Proof. exists 2. split; [lia|reflexivity]. Qed.

Lemma queue_7_8_holds : holds 4 queue_7_8 [7; 8].
Proof.
  apply (spsc_holds_try_push 4 four_power_of_two _ [7] 8); [|by vm_compute].
  apply (spsc_holds_try_push 4 four_power_of_two _ [] 7); [|by vm_compute].
  by apply spsc_holds_init; [apply four_power_of_two|].
Qed.

Lemma try_push_appends_witness :
  (Z.of_nat 2 < capacity 4 ->
   full 4 queue_7_8 = false /\
   (try_push 4 9 queue_7_8).1 = true /\
   holds 4 (try_push 4 9 queue_7_8).2 ([7; 8] ++ [9])) /\
  (Z.of_nat 2 = capacity 4 ->
   full 4 queue_7_8 = true /\ try_push 4 9 queue_7_8 = (false, queue_7_8)).
Proof.
  apply (try_push_appends 4 four_power_of_two queue_7_8 [7; 8] 9).
  apply queue_7_8_holds.
Defined.

Lemma try_pop_oldest_first_witness :
  ((try_pop 4 queue_7_8).1 = Some 7 /\ holds 4 (try_pop 4 queue_7_8).2 [8]) /\
  size 4 queue_7_8 = Z.of_nat 2 /\
  (empty queue_7_8 = true <-> [7; 8] = []) /\
  holds 4 (clear queue_7_8) [].
Proof.
  apply (try_pop_oldest_first 4 four_power_of_two queue_7_8 [7; 8]).
  apply queue_7_8_holds.
Defined.

End SPSCQueueProps.

(** ** [CircularBuffer] *)

Module CircularBufferProps.
Import CircularBuffer.

Section circular.
Context {T : Type} `{!Inhabited T}.
Variable Size : Z.
Hypothesis Size_power : power_of_two Size.

Local Abbreviation push := (CircularBuffer.push Size).
Local Abbreviation try_pop := (CircularBuffer.try_pop Size).
Local Abbreviation at_index := (CircularBuffer.at_index Size).

(** The buffer holds the items [xs], the oldest first: [tail] is
    [length xs] ahead of [head], and the items are in the cells from [head]
    on, round the array. *)
Definition holds (b : t T) (xs : list T) : Prop :=
  length (buffer b) = Z.to_nat Size /\
  is_u64 (head b) /\
  tail b = wrap64 (head b + Z.of_nat (length xs)) /\
  Z.of_nat (length xs) <= Size /\
  forall i x, xs !! i = Some x ->
    buffer b !! Z.to_nat ((head b + Z.of_nat i) mod Size) = Some x.

Lemma circular_cell_index a : Z.land (wrap64 a) (mask Size) = a mod Size.
Proof. unfold mask. by rewrite land_mask, wrap64_mod. Qed.

Lemma circular_cell_index_u64 a : is_u64 a -> Z.land a (mask Size) = a mod Size.
Proof. intros Ha. rewrite <- (wrap64_small a) at 1 by done. apply circular_cell_index. Qed.

Lemma circular_holds_init cells :
  length cells = Z.to_nat Size -> holds (init cells) [].
Proof.
  intros Hlen. pose proof (power_of_two_pos _ Size_power) as HS.
  repeat split; simpl; try lia; done.
Qed.

Lemma circular_holds_head_ne_tail b x xs : holds b (x :: xs) -> head b <> tail b.
Proof.
  intros (Hbuf & Hh & Htail & Hn & Hcells) Heq.
  pose proof (power_of_two_pos _ Size_power) as HS.
  simpl in *. rewrite Htail in Heq. unfold wrap64, is_u64 in *.
  rewrite <- (Z.mod_small (head b) (2 ^ 64)) in Heq at 1 by lia.
  rewrite <- (Z.add_0_r (head b)) in Heq at 1.
  apply mod_add_inj in Heq; lia.
Qed.

Lemma circular_holds_push b xs item :
  holds b xs -> Z.of_nat (length xs) < Size ->
  holds (push item b) (xs ++ [item]).
Proof.
  intros (Hbuf & Hh & Htail & Hn & Hcells) Hlen.
  pose proof (power_of_two_pos _ Size_power) as HS.
  repeat split; simpl; try (unfold is_u64 in *; lia).
  - by rewrite length_insert.
  - rewrite Htail, wrap64_add_l, length_app. simpl. f_equal. lia.
  - rewrite length_app. simpl. lia.
  - intros i x Hi. rewrite Htail, circular_cell_index.
    destruct (decide (i = length xs)) as [->|Hne].
    + rewrite lookup_app_r in Hi by lia.
      rewrite Nat.sub_diag in Hi. injection Hi as <-.
      apply list_lookup_insert_eq.
      pose proof (Z.mod_pos_bound (head b + Z.of_nat (length xs)) Size). lia.
    + assert (i < length xs)%nat as Hlt.
      { apply lookup_lt_Some in Hi. rewrite length_app in Hi. simpl in Hi. lia. }
      rewrite lookup_app_l in Hi by done.
      rewrite list_lookup_insert_ne; [by apply Hcells|].
      intros Heq'. apply Z2Nat.inj in Heq'.
      * apply mod_add_inj in Heq'; lia.
      * apply Z.mod_pos_bound. lia.
      * apply Z.mod_pos_bound. lia.
Qed.

Lemma circular_holds_try_pop b x xs :
  holds b (x :: xs) ->
  (try_pop b).1 = Some x /\ holds (try_pop b).2 xs.
Proof.
  intros Hb. pose proof (circular_holds_head_ne_tail b x xs Hb) as Hne.
  destruct Hb as (Hbuf & Hh & Htail & Hn & Hcells).
  pose proof (power_of_two_pos _ Size_power) as HS.
  unfold CircularBuffer.try_pop. cbv zeta.
  apply Z.eqb_neq in Hne. rewrite Hne. simpl. split.
  - f_equal. apply list_lookup_total_correct.
    rewrite circular_cell_index_u64 by done.
    specialize (Hcells 0%nat x eq_refl). simpl in Hcells.
    by rewrite Z.add_0_r in Hcells.
  - repeat split; simpl in *; try lia.
    + apply Z.mod_pos_bound. lia.
    + apply Z.mod_pos_bound. lia.
    + rewrite Htail, wrap64_add_l. f_equal. lia.
    + intros i y Hi. rewrite <- wrap64_mod by done.
      rewrite wrap64_add_l, wrap64_mod by done.
      specialize (Hcells (S i) y Hi).
      by replace (head b + 1 + Z.of_nat i) with (head b + Z.of_nat (S i)) by lia.
Qed.

Lemma circular_holds_try_pop_empty b : holds b [] -> try_pop b = (None, b).
Proof.
  intros (Hbuf & Hh & Htail & Hn & Hcells). simpl in Htail.
  unfold CircularBuffer.try_pop. cbv zeta.
  rewrite Htail, Z.add_0_r, wrap64_small by done. by rewrite Z.eqb_refl.
Qed.

Lemma circular_holds_size b xs : holds b xs -> size b = Z.of_nat (length xs).
Proof.
  intros (Hbuf & Hh & Htail & Hn & Hcells).
  pose proof (power_of_two_pos _ Size_power) as HS.
  unfold size. rewrite Htail. unfold wrap64.
  rewrite Zminus_mod_idemp_l.
  replace (head b + Z.of_nat (length xs) - head b) with (Z.of_nat (length xs)) by lia.
  apply Z.mod_small. lia.
Qed.

Lemma circular_holds_at_index b xs i x :
  holds b xs -> xs !! i = Some x -> at_index (Z.of_nat i) b = x.
Proof.
  intros (Hbuf & Hh & Htail & Hn & Hcells) Hi.
  unfold CircularBuffer.at_index. rewrite circular_cell_index.
  apply list_lookup_total_correct. by apply Hcells.
Qed.

(** While the buffer holds fewer than [Size] items, [push] puts an item
    behind the others and [try_pop] hands out the oldest; [size()] is the
    number of items held and [operator[]] with index [i] is the item [i]
    places behind the oldest. *)
Theorem push_try_pop_fifo (b : t T) (xs : list T) (item : T) :
  holds b xs ->
  (Z.of_nat (length xs) < Size -> holds (push item b) (xs ++ [item])) /\
  match xs with
  | [] => try_pop b = (None, b)
  | x :: xs' => (try_pop b).1 = Some x /\ holds (try_pop b).2 xs'
  end /\
  size b = Z.of_nat (length xs) /\
  (forall i x, xs !! i = Some x -> at_index (Z.of_nat i) b = x).
Proof.
  intros Hb. split; [|split; [|split]].
  - by apply circular_holds_push.
  - destruct xs as [|x xs']; [by apply circular_holds_try_pop_empty|by apply circular_holds_try_pop].
  - by apply circular_holds_size.
  - intros i x. by apply circular_holds_at_index.
Qed.

(** [push] does not look at [head]: on a buffer that holds [Size] items it
    writes over the oldest one and leaves [head] where it is. The item
    pushed is then read as the oldest, by [operator[]] and by [try_pop],
    the oldest item is lost, and [size()] is [Size + 1]. *)
Theorem push_overwrites_oldest (b : t T) (xs : list T) (item : T) :
  holds b xs -> Z.of_nat (length xs) = Size ->
  let b' := push item b in
  size b' = Size + 1 /\
  at_index 0 b' = item /\
  (try_pop b').1 = Some item /\
  (forall i x, (0 < i)%nat -> xs !! i = Some x -> at_index (Z.of_nat i) b' = x).
Proof.
  intros (Hbuf & Hh & Htail & Hn & Hcells) Hlen. cbv zeta.
  pose proof (power_of_two_pos _ Size_power) as HS.
  assert (Z.land (tail b) (mask Size) = head b mod Size) as Hcell.
  { rewrite Htail, circular_cell_index, Hlen.
    replace (head b + Size) with (head b + 1 * Size) by lia.
    apply Z.mod_add. lia. }
  assert (0 <= head b mod Size < Size) as Hm by (apply Z.mod_pos_bound; lia).
  split; [|split; [|split]].
  - unfold size. simpl. rewrite Htail, wrap64_add_l. unfold wrap64.
    rewrite Zminus_mod_idemp_l, Hlen.
    replace (head b + Size + 1 - head b) with (Size + 1) by lia.
    apply Z.mod_small. destruct Size_power as (k & Hk & HSk).
    assert (Size <= 2 ^ 63) by (rewrite HSk; apply Z.pow_le_mono_r; lia). lia.
  - unfold CircularBuffer.at_index. simpl. rewrite Hcell, circular_cell_index, Z.add_0_r.
    apply list_lookup_total_correct, list_lookup_insert_eq. lia.
  - unfold CircularBuffer.try_pop. cbv zeta. simpl.
    destruct (head b =? _) eqn:Heq.
    { apply Z.eqb_eq in Heq. rewrite Htail, wrap64_add_l in Heq.
      unfold wrap64, is_u64 in *.
      rewrite <- (Z.mod_small (head b) (2 ^ 64)) in Heq at 1 by lia.
      rewrite <- (Z.add_0_r (head b)) in Heq at 1.
      rewrite <- Z.add_assoc in Heq.
      destruct Size_power as (k & Hk & HSk).
      assert (Size <= 2 ^ 63) by (rewrite HSk; apply Z.pow_le_mono_r; lia).
      apply mod_add_inj in Heq; lia. }
    simpl. f_equal. rewrite Hcell, circular_cell_index_u64 by done.
    apply list_lookup_total_correct, list_lookup_insert_eq. lia.
  - intros i x Hpos Hi. unfold CircularBuffer.at_index. simpl.
    rewrite Hcell, circular_cell_index.
    apply list_lookup_total_correct.
    rewrite list_lookup_insert_ne; [by apply Hcells|].
    apply lookup_lt_Some in Hi.
    intros Heq'. apply Z2Nat.inj in Heq'; [|lia|apply Z.mod_pos_bound; lia].
    rewrite <- (Z.add_0_r (head b)) in Heq' at 1.
    apply mod_add_inj in Heq'; lia.
Qed.

End circular.

(** A buffer of two cells, after 7 and 8 have been pushed: it is full. *)
Definition buffer_7_8 : t Z := push 2 8 (push 2 7 (init [0; 0])).

Lemma two_power_of_two : power_of_two 2.
Proof. exists 1. split; [lia|reflexivity]. Qed.

Lemma buffer_7_8_holds : holds 2 buffer_7_8 [7; 8].
Proof.
  apply (circular_holds_push 2 two_power_of_two _ [7] 8); [|by vm_compute].
  apply (circular_holds_push 2 two_power_of_two _ [] 7); [|by vm_compute].
  by apply circular_holds_init; [apply two_power_of_two|].
Qed.

(** A buffer of four cells, after 7 and 8 have been pushed: it has room for
    two more. *)
Definition buffer_of_four : t Z := push 4 8 (push 4 7 (init [0; 0; 0; 0])).

Lemma buffer_of_four_holds : holds 4 buffer_of_four [7; 8].
Proof.
  apply (circular_holds_push 4 SPSCQueueProps.four_power_of_two _ [7] 8);
    [|by vm_compute].
  apply (circular_holds_push 4 SPSCQueueProps.four_power_of_two _ [] 7);
    [|by vm_compute].
  by apply circular_holds_init; [apply SPSCQueueProps.four_power_of_two|].
Qed.

Lemma push_try_pop_fifo_witness :
  holds 4 (push 4 9 buffer_of_four) ([7; 8] ++ [9]) /\
  ((try_pop 4 buffer_of_four).1 = Some 7 /\
   holds 4 (try_pop 4 buffer_of_four).2 [8]) /\
  size buffer_of_four = Z.of_nat 2 /\
  (forall i x, [7; 8] !! i = Some x ->
     at_index 4 (Z.of_nat i) buffer_of_four = x).
Proof.
  destruct (push_try_pop_fifo 4 SPSCQueueProps.four_power_of_two
              buffer_of_four [7; 8] 9 buffer_of_four_holds) as [Hpush Hrest].
  split; [|exact Hrest]. apply Hpush. simpl. lia.
Defined.

Lemma push_overwrites_oldest_witness :
  let b' := push 2 9 buffer_7_8 in
  size b' = 2 + 1 /\
  at_index 2 0 b' = 9 /\
  (try_pop 2 b').1 = Some 9 /\
  (forall i x, (0 < i)%nat -> [7; 8] !! i = Some x ->
     at_index 2 (Z.of_nat i) b' = x).
Proof.
  apply (push_overwrites_oldest 2 two_power_of_two buffer_7_8 [7; 8] 9).
  - apply buffer_7_8_holds.
  - reflexivity.
Defined.

End CircularBufferProps.

(** * The aggregated order book: the two sorted sides *)

Module OrderBookLaws.
Import OrderBook OrderBookProps.

(** [levels[j]] *)
Definition cell (sd : BookSide.t) (j : nat) : Level.t :=
  BookSide.at_index (Z.of_nat j) sd.

Lemma cell_lookup sd j x : BookSide.levels sd !! j = Some x -> cell sd j = x.
Proof.
  unfold cell, BookSide.at_index. rewrite Nat2Z.id. by intros ->.
Qed.

Lemma at_index_cell i sd : 0 <= i -> BookSide.at_index i sd = cell sd (Z.to_nat i).
Proof. intros. unfold cell. by rewrite Z2Nat.id. Qed.

(** *** The loop of [add_level] that makes room *)

Lemma shift_up_levels n (i : nat) sd j :
  (n <= i)%nat -> (i < length (BookSide.levels sd))%nat ->
  BookSide.levels (shift_up n (Z.of_nat i) sd) !! j =
  if decide (i - n < j <= i)%nat then BookSide.levels sd !! (j - 1)%nat
  else BookSide.levels sd !! j.
Proof.
  revert i sd. induction n as [|n IH]; intros i sd Hn Hi; simpl.
  { destruct (decide _); [lia|done]. }
  destruct i as [|i]; [lia|].
  replace (Z.of_nat (S i) - 1) with (Z.of_nat i) by lia.
  rewrite IH; simpl; [|lia|rewrite length_insert; lia].
  rewrite Nat2Z.id.
  destruct (lookup_lt_is_Some_2 (BookSide.levels sd) i ltac:(lia)) as [x Hx].
  fold (cell sd i). rewrite (cell_lookup sd i x Hx).
  destruct (decide (i - n < j <= i)%nat) as [Hj|Hj].
  - rewrite decide_True by lia. apply list_lookup_insert_ne. lia.
  - destruct (decide (j = S i)) as [->|Hne].
    + rewrite decide_True by lia. rewrite list_lookup_insert_eq by lia.
      simpl. by rewrite Nat.sub_0_r.
    + rewrite decide_False by lia. apply list_lookup_insert_ne. lia.
Qed.

Lemma shift_up_length n i sd :
  length (BookSide.levels (shift_up n i sd)) = length (BookSide.levels sd).
Proof.
  revert i sd. induction n as [|n IH]; intros i sd; simpl; [done|].
  rewrite IH. simpl. apply length_insert.
Qed.

Lemma shift_up_level_count n i sd :
  BookSide.level_count (shift_up n i sd) = BookSide.level_count sd.
Proof.
  revert i sd. induction n as [|n IH]; intros i sd; simpl; [done|].
  by rewrite IH.
Qed.

(** The prices of the cells [lo], ..., [hi - 1] are distinct. *)
Definition distinct_prices (sd : BookSide.t) (lo hi : nat) : Prop :=
  forall j j', (lo <= j < hi)%nat -> (lo <= j' < hi)%nat ->
    Level.price (cell sd j) = Level.price (cell sd j') -> j = j'.

Lemma shift_up_index n (i : nat) sd :
  (n <= i)%nat -> (i < length (BookSide.levels sd))%nat ->
  distinct_prices sd (i - n) i ->
  (forall j, (i - n < j <= i)%nat ->
     BookSide.price_to_index (shift_up n (Z.of_nat i) sd)
       !! Level.price (cell sd (j - 1)) = Some (wrap16 (Z.of_nat j))) /\
  (forall p, (forall j, (i - n < j <= i)%nat -> Level.price (cell sd (j - 1)) <> p) ->
     BookSide.price_to_index (shift_up n (Z.of_nat i) sd) !! p =
     BookSide.price_to_index sd !! p).
Proof.
  revert i sd. induction n as [|n IH]; intros i sd Hn Hi Hd; simpl.
  { split; [intros; lia|done]. }
  destruct i as [|i]; [lia|].
  replace (Z.of_nat (S i) - 1) with (Z.of_nat i) by lia.
  set (sd1 := BookSide.index (Level.price (BookSide.at_index (Z.of_nat i) sd))
                (Z.of_nat (S i))
                (BookSide.store (Z.of_nat (S i))
                   (BookSide.at_index (Z.of_nat i) sd) sd)).
  assert (forall j, (j <= i)%nat -> cell sd1 j = cell sd j) as Hcell.
  { intros j Hj. unfold cell, BookSide.at_index, sd1. simpl.
    rewrite !Nat2Z.id. by rewrite list_lookup_insert_ne by lia. }
  destruct (IH i sd1) as [IHa IHb].
  { lia. }
  { unfold sd1. simpl. rewrite length_insert. lia. }
  { intros j j' Hj Hj'. rewrite !Hcell by lia. intros Heq.
    apply (Hd j j'); [lia|lia|done]. }
  fold (cell sd i) in *. split.
  - intros j Hj. destruct (decide (j = S i)) as [->|Hne].
    + simpl. rewrite Nat.sub_0_r. rewrite IHb.
      * unfold sd1. simpl. apply lookup_insert_eq.
      * intros j' Hj'. rewrite Hcell by lia. intros Heq.
        apply (Hd (j' - 1)%nat i) in Heq; lia.
    + rewrite <- (Hcell (j - 1)%nat) by lia. apply IHa. lia.
  - intros p Hp. rewrite IHb.
    + unfold sd1. simpl. apply lookup_insert_ne.
      specialize (Hp (S i) ltac:(lia)). simpl in Hp.
      by rewrite Nat.sub_0_r in Hp.
    + intros j Hj. rewrite Hcell by lia. apply Hp. lia.
Qed.

(** *** The loop of [remove_level] that closes the gap *)

Lemma shift_down_levels n (i : nat) sd j :
  (i + n < length (BookSide.levels sd))%nat ->
  BookSide.levels (shift_down n (Z.of_nat i) sd) !! j =
  if decide (i <= j < i + n)%nat then BookSide.levels sd !! (j + 1)%nat
  else BookSide.levels sd !! j.
Proof.
  revert i sd. induction n as [|n IH]; intros i sd Hi; simpl.
  { destruct (decide _); [lia|done]. }
  replace (Z.of_nat i + 1) with (Z.of_nat (S i)) by lia.
  rewrite IH; simpl; [|rewrite length_insert; lia].
  rewrite Nat2Z.id.
  destruct (lookup_lt_is_Some_2 (BookSide.levels sd) (S i) ltac:(lia)) as [x Hx].
  fold (cell sd (S i)). rewrite (cell_lookup sd (S i) x Hx).
  destruct (decide (S i <= j < S (i + n))%nat) as [Hj|Hj].
  - rewrite decide_True by lia. apply list_lookup_insert_ne. lia.
  - destruct (decide (j = i)) as [->|Hne].
    + rewrite decide_True by lia. rewrite list_lookup_insert_eq by lia.
      by rewrite Nat.add_1_r.
    + rewrite decide_False by lia. apply list_lookup_insert_ne. lia.
Qed.

Lemma shift_down_length n i sd :
  length (BookSide.levels (shift_down n i sd)) = length (BookSide.levels sd).
Proof.
  revert i sd. induction n as [|n IH]; intros i sd; simpl; [done|].
  rewrite IH. simpl. apply length_insert.
Qed.

Lemma shift_down_level_count n i sd :
  BookSide.level_count (shift_down n i sd) = BookSide.level_count sd.
Proof.
  revert i sd. induction n as [|n IH]; intros i sd; simpl; [done|].
  by rewrite IH.
Qed.

Lemma shift_down_index n (i : nat) sd :
  (i + n < length (BookSide.levels sd))%nat ->
  distinct_prices sd (S i) (S (i + n)) ->
  (forall j, (i <= j < i + n)%nat ->
     BookSide.price_to_index (shift_down n (Z.of_nat i) sd)
       !! Level.price (cell sd (S j)) = Some (wrap16 (Z.of_nat j))) /\
  (forall p, (forall j, (i <= j < i + n)%nat -> Level.price (cell sd (S j)) <> p) ->
     BookSide.price_to_index (shift_down n (Z.of_nat i) sd) !! p =
     BookSide.price_to_index sd !! p).
Proof.
  revert i sd. induction n as [|n IH]; intros i sd Hi Hd; simpl.
  { split; [intros; lia|done]. }
  replace (Z.of_nat i + 1) with (Z.of_nat (S i)) by lia.
  set (sd1 := BookSide.index (Level.price (BookSide.at_index (Z.of_nat (S i)) sd))
                (Z.of_nat i)
                (BookSide.store (Z.of_nat i)
                   (BookSide.at_index (Z.of_nat (S i)) sd) sd)).
  assert (forall j, (i < j)%nat -> cell sd1 j = cell sd j) as Hcell.
  { intros j Hj. unfold cell, BookSide.at_index, sd1. simpl.
    rewrite !Nat2Z.id. by rewrite list_lookup_insert_ne by lia. }
  destruct (IH (S i) sd1) as [IHa IHb].
  { unfold sd1. simpl. rewrite length_insert. lia. }
  { intros j j' Hj Hj'. rewrite !Hcell by lia. intros Heq.
    apply (Hd j j'); [lia|lia|done]. }
  fold (cell sd (S i)) in *. split.
  - intros j Hj. destruct (decide (j = i)) as [->|Hne].
    + rewrite IHb.
      * unfold sd1. simpl. apply lookup_insert_eq.
      * intros j' Hj'. rewrite Hcell by lia. intros Heq.
        apply (Hd (S j') (S i)) in Heq; lia.
    + rewrite <- (Hcell (S j)) by lia. apply IHa. lia.
  - intros p Hp. rewrite IHb.
    + unfold sd1. simpl. apply lookup_insert_ne. apply Hp. lia.
    + intros j Hj. rewrite Hcell by lia. apply Hp. lia.
Qed.

(** *** A side as the list of its levels *)

(** The levels a side holds: the first [level_count] cells of the array. *)
Definition view (sd : BookSide.t) : list Level.t :=
  take (Z.to_nat (BookSide.level_count sd)) (BookSide.levels sd).

(** The order of the prices of a side: highest first for the bids, lowest
    first for the asks. *)
Definition before (is_bid_side : bool) : relation Z :=
  if is_bid_side then flip Z.lt else Z.lt.

(** The quantity of the level of price [p] in a list of levels, 0 when
    there is none. *)
Fixpoint find_quantity (p : Z) (v : list Level.t) : Z :=
  match v with
  | [] => 0
  | l :: v' => if Level.price l =? p then Level.quantity l else find_quantity p v'
  end.

Lemma before_irrefl is_bid_side p : ~ before is_bid_side p p.
Proof. destruct is_bid_side; unfold before, flip; lia. Qed.

Lemma before_trans is_bid_side p q r :
  before is_bid_side p q -> before is_bid_side q r -> before is_bid_side p r.
Proof. destruct is_bid_side; unfold before, flip; lia. Qed.

Lemma sorted_lookup_lt (R : relation Z) (ps : list Z) j j' a b :
  StronglySorted R ps -> ps !! j = Some a -> ps !! j' = Some b ->
  (j < j')%nat -> R a b.
Proof.
  intros Hs. revert j j'. induction Hs as [|x ps Hs IH Hall]; intros j j' Ha Hb Hlt.
  { done. }
  destruct j' as [|j']; [lia|]. simpl in Hb.
  destruct j as [|j]; simpl in Ha.
  - injection Ha as ->. rewrite Forall_forall in Hall.
    apply Hall. by eapply list_elem_of_lookup_2.
  - apply (IH j j'); [done|done|lia].
Qed.

Lemma sorted_lookup_inj is_bid_side (ps : list Z) j j' a :
  StronglySorted (before is_bid_side) ps ->
  ps !! j = Some a -> ps !! j' = Some a -> j = j'.
Proof.
  intros Hs Ha Hb.
  destruct (Nat.lt_trichotomy j j') as [Hlt|[->|Hlt]]; [|done|].
  - by destruct (before_irrefl is_bid_side a (sorted_lookup_lt _ _ _ _ _ _ Hs Ha Hb Hlt)).
  - by destruct (before_irrefl is_bid_side a (sorted_lookup_lt _ _ _ _ _ _ Hs Hb Ha Hlt)).
Qed.

Lemma find_quantity_absent p v :
  p ∉ Level.price <$> v -> find_quantity p v = 0.
Proof.
  induction v as [|l v IH]; simpl; [done|]. intros Hp.
  destruct (Level.price l =? p) eqn:Heq.
  - apply Z.eqb_eq in Heq. set_solver.
  - apply IH. set_solver.
Qed.

Lemma find_quantity_lookup is_bid_side v j l :
  StronglySorted (before is_bid_side) (Level.price <$> v) ->
  v !! j = Some l -> find_quantity (Level.price l) v = Level.quantity l.
Proof.
  revert j. induction v as [|x v IH]; intros j Hs Hj; [done|]. simpl.
  destruct (Level.price x =? Level.price l) eqn:Heq.
  - apply Z.eqb_eq in Heq.
    assert (0%nat = j) as <-.
    { apply (sorted_lookup_inj is_bid_side (Level.price <$> x :: v) _ _
               (Level.price l) Hs).
      - simpl. by rewrite Heq.
      - by rewrite list_lookup_fmap, Hj. }
    by injection Hj as ->.
  - destruct j as [|j]; simpl in Hj.
    + injection Hj as ->. by rewrite Z.eqb_refl in Heq.
    + simpl in Hs. apply StronglySorted_cons in Hs as [_ Hs]. by apply (IH j).
Qed.

Lemma find_quantity_insert p q k v p' :
  p ∉ Level.price <$> v ->
  find_quantity p' (take k v ++ Level.mk p q 1 :: drop k v) =
  if p' =? p then q else find_quantity p' v.
Proof.
  intros Hp. revert k. induction v as [|l v IH]; intros k.
  - rewrite take_nil, drop_nil. simpl. by rewrite (Z.eqb_sym p p').
  - destruct k as [|k]; simpl.
    + rewrite (Z.eqb_sym p p'). by destruct (p' =? p) eqn:Heq.
    + destruct (Level.price l =? p') eqn:Hl.
      * apply Z.eqb_eq in Hl. destruct (p' =? p) eqn:Heq; [|done].
        apply Z.eqb_eq in Heq. set_solver.
      * apply IH. set_solver.
Qed.

Lemma find_quantity_delete is_bid_side v j l p' :
  StronglySorted (before is_bid_side) (Level.price <$> v) ->
  v !! j = Some l ->
  find_quantity p' (delete j v) =
  if p' =? Level.price l then 0 else find_quantity p' v.
Proof.
  revert j. induction v as [|x v IH]; intros j Hs Hj; [done|].
  simpl in Hs. apply StronglySorted_cons in Hs as [Hx Hs].
  destruct j as [|j]; simpl in *.
  - injection Hj as ->. rewrite (Z.eqb_sym p').
    destruct (Level.price l =? p') eqn:Heq; [|done].
    apply Z.eqb_eq in Heq. apply find_quantity_absent. intros Hin.
    rewrite Forall_forall in Hx. specialize (Hx _ Hin).
    rewrite Heq in Hx. by apply before_irrefl in Hx.
  - destruct (Level.price x =? p') eqn:Heq; [|by apply IH].
    apply Z.eqb_eq in Heq. destruct (p' =? Level.price l) eqn:Hl; [|done].
    apply Z.eqb_eq in Hl. rewrite Forall_forall in Hx.
    assert (Level.price l ∈ Level.price <$> v) as Hin.
    { apply list_elem_of_fmap. exists l. split; [done|]. by eapply list_elem_of_lookup_2. }
    specialize (Hx _ Hin). rewrite <- Hl, <- Heq in Hx.
    by apply before_irrefl in Hx.
Qed.

Lemma find_quantity_set is_bid_side v j l q p' :
  StronglySorted (before is_bid_side) (Level.price <$> v) ->
  v !! j = Some l ->
  find_quantity p' (<[j := Level.set_quantity q l]> v) =
  if p' =? Level.price l then q else find_quantity p' v.
Proof.
  revert j. induction v as [|x v IH]; intros j Hs Hj; [done|].
  simpl in Hs. apply StronglySorted_cons in Hs as [Hx Hs].
  destruct j as [|j]; simpl in *.
  - injection Hj as ->. rewrite (Z.eqb_sym p').
    by destruct (Level.price l =? p').
  - destruct (Level.price x =? p') eqn:Heq; [|by apply IH].
    apply Z.eqb_eq in Heq. destruct (p' =? Level.price l) eqn:Hl; [|done].
    apply Z.eqb_eq in Hl. rewrite Forall_forall in Hx.
    assert (Level.price l ∈ Level.price <$> v) as Hin.
    { apply list_elem_of_fmap. exists l. split; [done|]. by eapply list_elem_of_lookup_2. }
    specialize (Hx _ Hin). rewrite <- Hl, <- Heq in Hx.
    by apply before_irrefl in Hx.
Qed.

(** The first loop of [add_level] stops at the first level the new price
    goes before. *)
Lemma find_insert_index_spec is_bid_side price cells (i : Z) :
  exists k : nat,
    find_insert_index is_bid_side price cells i = i + Z.of_nat k /\
    (k <= length cells)%nat /\
    (forall j l, (j < k)%nat -> cells !! j = Some l ->
       ~ before is_bid_side price (Level.price l)) /\
    (forall l, cells !! k = Some l -> before is_bid_side price (Level.price l)).
Proof.
  revert i. induction cells as [|x cells IH]; intros i; simpl.
  { exists 0%nat. split; [lia|]. split; [done|]. split; [intros; lia|done]. }
  destruct (if is_bid_side then _ else _) eqn:Hstop.
  - exists 0%nat. split; [lia|]. split; [simpl; lia|]. split; [intros; lia|].
    intros l [= <-]. destruct is_bid_side; unfold before, flip; lia.
  - destruct (IH (i + 1)) as (k & Hk & Hlen & Hbefore & Hat).
    exists (S k). split; [lia|]. split; [simpl; lia|]. split.
    + intros [|j] l Hj Hl; simpl in Hl.
      * injection Hl as <-. destruct is_bid_side; unfold before, flip; lia.
      * apply (Hbefore j); [lia|done].
    + done.
Qed.

Section sides.
Variable MaxLevels : Z.
(** The index of a level is kept in a [uint16_t]. *)
Hypothesis MaxLevels_index : 0 <= MaxLevels <= 2 ^ 16.

Local Abbreviation add_level := (OrderBook.add_level MaxLevels).
Local Abbreviation update_side := (OrderBook.update_side MaxLevels).
Local Abbreviation update_level := (OrderBook.update_level MaxLevels).
Local Abbreviation reachable := (OrderBook.reachable MaxLevels).

(** A side is well formed: its levels are in the order of the side,
    without two levels of one price, and [price_to_index] gives the place
    of each. *)
Record side_ok (is_bid_side : bool) (sd : BookSide.t) : Prop := mk_side_ok {
  ok_length : length (BookSide.levels sd) = Z.to_nat MaxLevels;
  ok_count : 0 <= BookSide.level_count sd <= MaxLevels;
  ok_sorted : StronglySorted (before is_bid_side) (Level.price <$> view sd);
  ok_index : forall p i, BookSide.price_to_index sd !! p = Some i <->
    exists j, i = Z.of_nat j /\ Level.price <$> view sd !! j = Some p
}.

Lemma view_length is_bid_side sd :
  side_ok is_bid_side sd ->
  length (view sd) = Z.to_nat (BookSide.level_count sd).
Proof.
  intros [Hlen Hcount _ _]. unfold view. rewrite length_take. lia.
Qed.

Lemma view_cell is_bid_side sd j :
  side_ok is_bid_side sd -> (j < Z.to_nat (BookSide.level_count sd))%nat ->
  view sd !! j = Some (cell sd j) /\ BookSide.levels sd !! j = Some (cell sd j).
Proof.
  intros [Hlen Hcount _ _] Hj. unfold view. rewrite lookup_take_lt by done.
  destruct (lookup_lt_is_Some_2 (BookSide.levels sd) j ltac:(lia)) as [x Hx].
  by rewrite (cell_lookup sd j x Hx).
Qed.

Lemma view_lookup_lt is_bid_side sd j l :
  side_ok is_bid_side sd -> view sd !! j = Some l ->
  (j < Z.to_nat (BookSide.level_count sd))%nat /\ cell sd j = l.
Proof.
  intros Hok Hj. apply lookup_take_Some in Hj as [Hj Hlt].
  split; [done|]. by apply cell_lookup.
Qed.

Lemma ok_distinct is_bid_side sd :
  side_ok is_bid_side sd ->
  distinct_prices sd 0 (Z.to_nat (BookSide.level_count sd)).
Proof.
  intros Hok j j' Hj Hj' Heq.
  destruct (view_cell _ sd j Hok ltac:(lia)) as [Hv _].
  destruct (view_cell _ sd j' Hok ltac:(lia)) as [Hv' _].
  apply (sorted_lookup_inj is_bid_side (Level.price <$> view sd) j j'
           (Level.price (cell sd j)) (ok_sorted _ _ Hok)).
  - by rewrite list_lookup_fmap, Hv.
  - by rewrite list_lookup_fmap, Hv', Heq.
Qed.

(** What [get_bid_quantity] and [get_ask_quantity] compute on a side. *)
Definition side_quantity (price : Z) (sd : BookSide.t) : Z :=
  match BookSide.price_to_index sd !! price with
  | Some i => Level.quantity (BookSide.at_index i sd)
  | None => 0
  end.

Lemma side_quantity_find is_bid_side sd p :
  side_ok is_bid_side sd -> side_quantity p sd = find_quantity p (view sd).
Proof.
  intros Hok. unfold side_quantity.
  destruct (BookSide.price_to_index sd !! p) as [i|] eqn:Hi.
  - apply (ok_index _ _ Hok) in Hi as (j & -> & Hj).
    destruct (view sd !! j) as [l|] eqn:Hl; [|done]. injection Hj as <-.
    rewrite (find_quantity_lookup is_bid_side (view sd) j l (ok_sorted _ _ Hok) Hl).
    destruct (view_lookup_lt _ _ _ _ Hok Hl) as [_ <-]. done.
  - symmetry. apply find_quantity_absent. intros Hin.
    apply list_elem_of_fmap in Hin as (l & -> & Hl).
    apply list_elem_of_lookup_1 in Hl as [j Hj].
    assert (BookSide.price_to_index sd !! Level.price l = Some (Z.of_nat j)) as Hsome.
    { apply (ok_index _ _ Hok). exists j. by rewrite Hj. }
    congruence.
Qed.

Lemma wrap16_small z : 0 <= z < 2 ^ 16 -> wrap16 z = z.
Proof. intros. unfold wrap16. by apply Z.mod_small. Qed.

(** A price that [price_to_index] does not hold is the price of no
    level. *)
Lemma ok_absent is_bid_side sd p j :
  side_ok is_bid_side sd -> BookSide.price_to_index sd !! p = None ->
  (j < Z.to_nat (BookSide.level_count sd))%nat -> Level.price (cell sd j) <> p.
Proof.
  intros Hok Hnone Hj Heq.
  assert (BookSide.price_to_index sd !! p = Some (Z.of_nat j)) as Hsome.
  { apply (ok_index _ _ Hok). exists j. split; [done|].
    destruct (view_cell _ sd j Hok Hj) as [-> _]. simpl. by rewrite Heq. }
  congruence.
Qed.

(** [add_level] on a side that has room, for a price it does not hold: the
    new level is put at its place among the others. *)
Lemma add_level_view is_bid_side sd price quantity :
  side_ok is_bid_side sd ->
  BookSide.price_to_index sd !! price = None ->
  BookSide.level_count sd < MaxLevels ->
  let sd' := add_level is_bid_side sd price quantity in
  side_ok is_bid_side sd' /\
  exists k,
    view sd' = take k (view sd) ++ Level.mk price quantity 1 :: drop k (view sd).
Proof.
  intros Hok Hnone Hroom. cbv zeta.
  pose proof (ok_length _ _ Hok) as Hlen. pose proof (ok_count _ _ Hok) as Hcount.
  pose proof (view_length _ _ Hok) as Hvlen.
  set (c := Z.to_nat (BookSide.level_count sd)) in *.
  assert (BookSide.level_count sd = Z.of_nat c) as Hc by lia.
  unfold OrderBook.add_level.
  destruct (MaxLevels <=? BookSide.level_count sd) eqn:Hfull;
    [apply Z.leb_le in Hfull; lia|]. clear Hfull.
  change (take (Z.to_nat (BookSide.level_count sd)) (BookSide.levels sd))
    with (view sd).
  destruct (find_insert_index_spec is_bid_side price (view sd) 0)
    as (k & -> & Hkc & Hbefore & Hat).
  rewrite Z.add_0_l, Hc.
  replace (Z.to_nat (Z.of_nat c - Z.of_nat k)) with (c - k)%nat by lia.
  rewrite (wrap32_small (Z.of_nat c + 1)) by (unfold is_u32; lia).
  set (shifted := shift_up (c - k) (Z.of_nat c) sd).
  set (new := Level.mk price quantity 1).
  set (sd' := BookSide.set_level_count (Z.of_nat c + 1)
                (BookSide.index price (Z.of_nat k)
                   (BookSide.store (Z.of_nat k) new shifted))).
  assert (forall j, BookSide.levels sd' !! j =
            if decide (j = k) then Some new
            else if decide (k < j <= c)%nat then BookSide.levels sd !! (j - 1)%nat
            else BookSide.levels sd !! j) as Hlevels.
  { intros j. unfold sd'. simpl. rewrite Nat2Z.id.
    destruct (decide (j = k)) as [->|Hne].
    - apply list_lookup_insert_eq. unfold shifted. rewrite shift_up_length. lia.
    - rewrite list_lookup_insert_ne by done. unfold shifted.
      rewrite shift_up_levels by lia.
      replace (c - (c - k))%nat with k by lia. done. }
  assert (view sd' = take k (view sd) ++ new :: drop k (view sd)) as Hview.
  { apply list_eq. intros j. unfold view at 1. unfold sd' at 1. simpl.
    replace (Z.to_nat (Z.of_nat c + 1)) with (S c) by lia.
    rewrite lookup_take, Hlevels.
    destruct (decide (j = k)) as [->|Hne].
    - rewrite decide_True by lia.
      rewrite lookup_app_r by (rewrite length_take; lia).
      rewrite length_take. replace (k - k `min` length (view sd))%nat with 0%nat by lia.
      done.
    - destruct (decide (j < k)%nat) as [Hlt|Hge].
      + rewrite decide_True by lia. rewrite decide_False by lia.
        rewrite lookup_app_l by (rewrite length_take; lia).
        rewrite lookup_take_lt by done. unfold view.
        by rewrite lookup_take_lt by lia.
      + rewrite lookup_app_r by (rewrite length_take; lia).
        rewrite length_take.
        replace (j - k `min` length (view sd))%nat with (S (j - k - 1)) by lia.
        simpl. rewrite lookup_drop.
        replace (k + (j - k - 1))%nat with (j - 1)%nat by lia.
        unfold view. rewrite lookup_take.
        destruct (decide (j < S c)%nat).
        * rewrite decide_True by lia. by rewrite decide_True by lia.
        * by rewrite decide_False by lia. }
  assert (price ∉ Level.price <$> view sd) as Hfresh.
  { intros Hin. apply list_elem_of_fmap in Hin as (l & Hl & Hin).
    apply list_elem_of_lookup_1 in Hin as [j Hj].
    destruct (view_lookup_lt _ _ _ _ Hok Hj) as [Hjc <-].
    by apply (ok_absent _ _ _ _ Hok Hnone Hjc). }
  assert (StronglySorted (before is_bid_side) (Level.price <$> view sd')) as Hsorted.
  { rewrite Hview, fmap_app, fmap_cons, fmap_take, fmap_drop.
    pose proof (ok_sorted _ _ Hok) as Hs.
    set (ps := Level.price <$> view sd) in *.
    rewrite <- (take_drop k ps) in Hs.
    apply StronglySorted_app in Hs as (Hcross & Hs1 & Hs2).
    assert (forall x, x ∈ take k ps -> before is_bid_side x price) as Hbefore'.
    { intros x Hx. apply list_elem_of_lookup_1 in Hx as [j Hj].
      apply lookup_take_Some in Hj as [Hj Hjk].
      unfold ps in Hj. rewrite list_lookup_fmap in Hj.
      destruct (view sd !! j) as [l|] eqn:Hl; [|done]. injection Hj as <-.
      specialize (Hbefore j l Hjk Hl).
      assert (Level.price l <> price).
      { intros Heq. apply Hfresh. apply list_elem_of_fmap. exists l.
        split; [done|]. by eapply list_elem_of_lookup_2. }
      destruct is_bid_side; unfold before, flip in *; lia. }
    assert (Forall (before is_bid_side price) (drop k ps)) as Hafter.
    { apply Forall_forall. intros x Hx.
      apply list_elem_of_lookup_1 in Hx as [m Hm].
      destruct (drop k ps !! 0%nat) as [x0|] eqn:Hx0.
      2:{ apply lookup_ge_None in Hx0. apply lookup_lt_Some in Hm. lia. }
      assert (before is_bid_side price x0) as Hpx0.
      { rewrite lookup_drop, Nat.add_0_r in Hx0. unfold ps in Hx0.
        rewrite list_lookup_fmap in Hx0.
        destruct (view sd !! k) as [l|] eqn:Hl; [|done]. injection Hx0 as <-.
        by apply Hat. }
      destruct m as [|m]; [congruence|].
      eapply before_trans; [done|].
      by apply (sorted_lookup_lt _ (drop k ps) 0 (S m) x0 x Hs2 Hx0 Hm ltac:(lia)). }
    apply StronglySorted_app. split; [|split; [done|]].
    - intros x1 x2 Hx1 [->|Hx2]%elem_of_cons; [by apply Hbefore'|by apply Hcross].
    - by apply StronglySorted_cons. }
  split; [|by exists k].
  split.
  - unfold sd'. simpl. rewrite length_insert. unfold shifted.
    by rewrite shift_up_length.
  - unfold sd'. simpl. lia.
  - done.
  - (* the index *)
    assert (forall j, view sd' !! j =
              if decide (j = k) then Some new
              else if decide (j < k)%nat then Some (cell sd j)
              else if decide (j <= c)%nat then Some (cell sd (j - 1))
              else None) as Hview'.
    { intros j. unfold view at 1. unfold sd' at 1. simpl.
      replace (Z.to_nat (Z.of_nat c + 1)) with (S c) by lia.
      rewrite lookup_take, Hlevels.
      destruct (decide (j = k)) as [->|Hne]; [by rewrite decide_True by lia|].
      destruct (decide (j < k)%nat) as [Hlt|Hge].
      - rewrite decide_True by lia. rewrite decide_False by lia.
        by destruct (view_cell _ sd j Hok ltac:(lia)) as [_ ->].
      - destruct (decide (j <= c)%nat) as [Hle|Hgt].
        + rewrite decide_True by lia. rewrite decide_True by lia.
          by destruct (view_cell _ sd (j - 1) Hok ltac:(lia)) as [_ ->].
        + by rewrite decide_False by lia. }
    destruct (shift_up_index (c - k) c sd ltac:(lia) ltac:(lia)) as [Hsa Hsb].
    { intros j j' Hj Hj'. apply (ok_distinct _ _ Hok); lia. }
    fold shifted in Hsa, Hsb. replace (c - (c - k))%nat with k in * by lia.
    assert (BookSide.price_to_index sd' =
            <[price := Z.of_nat k]> (BookSide.price_to_index shifted)) as Hidx.
    { unfold sd'. simpl. by rewrite wrap16_small by lia. }
    intros p i. rewrite Hidx.
    destruct (decide (p = price)) as [->|Hp].
    { rewrite lookup_insert_eq. split.
      - intros [= <-]. exists k. split; [done|]. rewrite Hview'.
        by rewrite decide_True by done.
      - intros (j & -> & Hj). rewrite Hview' in Hj.
        destruct (decide (j = k)) as [->|Hne]; [done|]. exfalso.
        destruct (decide (j < k)%nat).
        + injection Hj as Hj. by apply (ok_absent _ _ _ j Hok Hnone ltac:(lia)).
        + destruct (decide (j <= c)%nat); [|done]. injection Hj as Hj.
          by apply (ok_absent _ _ _ (j - 1) Hok Hnone ltac:(lia)). }
    rewrite lookup_insert_ne by done.
    assert ((exists j0, (k < j0 <= c)%nat /\ Level.price (cell sd (j0 - 1)) = p) \/
            (forall j, (k < j <= c)%nat -> Level.price (cell sd (j - 1)) <> p))
      as [(j0 & Hj0 & Hj0p)|Hnot].
    { destruct (BookSide.price_to_index sd !! p) as [i0|] eqn:Hi0.
      - apply (ok_index _ _ Hok) in Hi0 as (j1 & -> & Hj1).
        destruct (view sd !! j1) as [l|] eqn:Hl; [|done]. injection Hj1 as Hj1.
        destruct (view_lookup_lt _ _ _ _ Hok Hl) as [Hj1c <-].
        destruct (decide (k <= j1)%nat).
        + left. exists (S j1). split; [lia|]. simpl. by rewrite Nat.sub_0_r.
        + right. intros j Hj Heq.
          assert ((j - 1)%nat = j1); [|lia].
          apply (ok_distinct _ _ Hok); [lia|lia|congruence].
      - right. intros j Hj. apply (ok_absent _ _ _ _ Hok Hi0). lia. }
    + rewrite <- Hj0p, Hsa by done. rewrite wrap16_small by lia. split.
      * intros [= <-]. exists j0. split; [done|]. rewrite Hview'.
        rewrite decide_False by lia. rewrite decide_False by lia.
        by rewrite decide_True by lia.
      * intros (j & -> & Hj). do 2 f_equal.
        apply (sorted_lookup_inj is_bid_side (Level.price <$> view sd') j0 j
                 (Level.price (cell sd (j0 - 1))) Hsorted).
        -- rewrite list_lookup_fmap, Hview'.
           rewrite decide_False by lia. rewrite decide_False by lia.
           by rewrite decide_True by lia.
        -- by rewrite list_lookup_fmap.
    + rewrite Hsb by done. rewrite (ok_index _ _ Hok). split.
      * intros (j & -> & Hj). exists j. split; [done|].
        destruct (view sd !! j) as [l|] eqn:Hl; [|done]. injection Hj as Hj.
        destruct (view_lookup_lt _ _ _ _ Hok Hl) as [Hjc <-].
        assert (j < k)%nat.
        { destruct (decide (j < k)%nat); [done|]. exfalso.
          apply (Hnot (S j)); [lia|]. simpl. by rewrite Nat.sub_0_r. }
        rewrite Hview'. rewrite decide_False by lia.
        rewrite decide_True by lia. simpl. by rewrite Hj.
      * intros (j & -> & Hj). exists j. split; [done|]. rewrite Hview' in Hj.
        destruct (decide (j = k)) as [->|Hne].
        { simpl in Hj. by injection Hj as Hj. }
        destruct (decide (j < k)%nat).
        -- destruct (view_cell _ sd j Hok ltac:(lia)) as [-> _]. done.
        -- destruct (decide (j <= c)%nat); [|done]. injection Hj as Hj.
           by destruct (Hnot j ltac:(lia)).
Qed.

Lemma sorted_delete (R : relation Z) (ps : list Z) j :
  StronglySorted R ps -> StronglySorted R (delete j ps).
Proof.
  intros Hs. revert j. induction Hs as [|x ps Hs IH Hall]; intros j.
  { destruct j; constructor. }
  destruct j as [|j]; simpl; [done|].
  constructor; [apply IH|by apply Forall_delete].
Qed.

(** The level [price_to_index] gives for a price. *)
Lemma ok_present is_bid_side sd p j :
  side_ok is_bid_side sd -> BookSide.price_to_index sd !! p = Some (Z.of_nat j) ->
  (j < Z.to_nat (BookSide.level_count sd))%nat /\ Level.price (cell sd j) = p.
Proof.
  intros Hok Hi. apply (ok_index _ _ Hok) in Hi as (j' & Hj' & Hj).
  apply Nat2Z.inj in Hj' as <-.
  destruct (view sd !! j) as [l|] eqn:Hl; [|done]. injection Hj as Hj.
  by destruct (view_lookup_lt _ _ _ _ Hok Hl) as [Hjc ->].
Qed.

(** [remove_level], called as [update_level] calls it, with the index
    [price_to_index] holds for the price: the level is taken out, the others
    keep their order. *)
Lemma remove_level_view is_bid_side sd price j :
  side_ok is_bid_side sd ->
  BookSide.price_to_index sd !! price = Some (Z.of_nat j) ->
  let sd' := remove_level sd (Z.of_nat j) price in
  side_ok is_bid_side sd' /\ view sd' = delete j (view sd).
Proof.
  intros Hok Hsome. cbv zeta.
  pose proof (ok_length _ _ Hok) as Hlen. pose proof (ok_count _ _ Hok) as Hcount.
  destruct (ok_present _ _ _ _ Hok Hsome) as [Hjc Hjp].
  unfold OrderBook.remove_level.
  set (c := Z.to_nat (BookSide.level_count sd)) in *.
  assert (BookSide.level_count sd = Z.of_nat c) as Hc by lia.
  rewrite Hc.
  destruct (Z.of_nat c <=? Z.of_nat j) eqn:Hout; [apply Z.leb_le in Hout; lia|].
  clear Hout.
  rewrite (wrap32_small (Z.of_nat c - 1)) by (unfold is_u32; lia).
  replace (Z.to_nat (Z.of_nat c - 1 - Z.of_nat j)) with (c - 1 - j)%nat by lia.
  set (shifted := shift_down (c - 1 - j) (Z.of_nat j) sd).
  set (sd' := BookSide.set_level_count (Z.of_nat c - 1)
                (BookSide.set_price_to_index
                   (delete price (BookSide.price_to_index shifted)) shifted)).
  assert (forall m, view sd' !! m =
            if decide (m < j)%nat then Some (cell sd m)
            else if decide (m < c - 1)%nat then Some (cell sd (S m))
            else None) as Hview'.
  { intros m. unfold view, sd'. simpl.
    replace (Z.to_nat (Z.of_nat c - 1)) with (c - 1)%nat by lia.
    rewrite lookup_take. unfold shifted. rewrite shift_down_levels by lia.
    destruct (decide (m < j)%nat).
    - rewrite decide_True by lia. rewrite decide_False by lia.
      by destruct (view_cell _ sd m Hok ltac:(lia)) as [_ ->].
    - destruct (decide (m < c - 1)%nat); [|done].
      rewrite decide_True by lia. rewrite Nat.add_1_r.
      by destruct (view_cell _ sd (S m) Hok ltac:(lia)) as [_ ->]. }
  assert (view sd' = delete j (view sd)) as Hview.
  { apply list_eq. intros m. rewrite Hview', list_lookup_delete.
    destruct (decide (m < j)%nat).
    - by destruct (view_cell _ sd m Hok ltac:(lia)) as [-> _].
    - destruct (decide (m < c - 1)%nat).
      + by destruct (view_cell _ sd (S m) Hok ltac:(lia)) as [-> _].
      + symmetry. apply lookup_ge_None. rewrite (view_length _ _ Hok). lia. }
  assert (StronglySorted (before is_bid_side) (Level.price <$> view sd')) as Hsorted.
  { rewrite Hview, list_fmap_delete. apply sorted_delete, (ok_sorted _ _ Hok). }
  split; [|done]. split.
  - unfold sd', shifted. simpl. by rewrite shift_down_length.
  - unfold sd'. simpl. lia.
  - done.
  - destruct (shift_down_index (c - 1 - j) j sd ltac:(lia)) as [Hsa Hsb].
    { intros m m' Hm Hm'. apply (ok_distinct _ _ Hok); lia. }
    fold shifted in Hsa, Hsb.
    intros p i. unfold sd' at 1. simpl.
    destruct (decide (p = price)) as [->|Hp].
    { rewrite lookup_delete_eq. split; [done|]. intros (m & -> & Hm). exfalso.
      rewrite Hview' in Hm.
      destruct (decide (m < j)%nat).
      - injection Hm as Hm. rewrite <- Hjp in Hm.
        apply (ok_distinct _ _ Hok) in Hm; lia.
      - destruct (decide (m < c - 1)%nat); [|done]. injection Hm as Hm.
        rewrite <- Hjp in Hm. apply (ok_distinct _ _ Hok) in Hm; lia. }
    rewrite lookup_delete_ne by done.
    assert ((exists m0, (j <= m0 < c - 1)%nat /\ Level.price (cell sd (S m0)) = p) \/
            (forall m, (j <= m < j + (c - 1 - j))%nat ->
               Level.price (cell sd (S m)) <> p))
      as [(m0 & Hm0 & Hm0p)|Hnot].
    { destruct (BookSide.price_to_index sd !! p) as [i0|] eqn:Hi0.
      - assert (exists m1, i0 = Z.of_nat m1) as [m1 ->].
        { apply (ok_index _ _ Hok) in Hi0 as (m1 & -> & _). by exists m1. }
        destruct (ok_present _ _ _ _ Hok Hi0) as [Hm1c Hm1p].
        destruct (decide (j < m1)%nat).
        + left. exists (m1 - 1)%nat. split; [lia|].
          by replace (S (m1 - 1)) with m1 by lia.
        + right. intros m Hm Heq.
          assert (S m = m1); [|lia].
          apply (ok_distinct _ _ Hok); [lia|lia|congruence].
      - right. intros m Hm. apply (ok_absent _ _ _ _ Hok Hi0). lia. }
    + rewrite <- Hm0p, Hsa by lia. rewrite wrap16_small by lia. split.
      * intros [= <-]. exists m0. split; [done|]. rewrite Hview'.
        rewrite decide_False by lia. by rewrite decide_True by lia.
      * intros (m & -> & Hm). do 2 f_equal.
        apply (sorted_lookup_inj is_bid_side (Level.price <$> view sd') m0 m
                 (Level.price (cell sd (S m0))) Hsorted);
          [|by rewrite list_lookup_fmap].
        rewrite list_lookup_fmap, Hview'.
        rewrite decide_False by lia. by rewrite decide_True by lia.
    + rewrite Hsb by done. split.
      * intros Hi.
        assert (exists m1, i = Z.of_nat m1) as [m1 ->].
        { apply (ok_index _ _ Hok) in Hi as (m1 & -> & _). by exists m1. }
        destruct (ok_present _ _ _ _ Hok Hi) as [Hm1c Hm1p].
        exists m1. split; [done|].
        assert (m1 <> j) by congruence.
        assert (m1 < j)%nat.
        { destruct (decide (m1 < j)%nat); [done|]. exfalso.
          apply (Hnot (m1 - 1)%nat); [lia|].
          by replace (S (m1 - 1)) with m1 by lia. }
        rewrite Hview'. rewrite decide_True by lia.
        simpl. by rewrite Hm1p.
      * intros (m & -> & Hm). rewrite Hview' in Hm.
        destruct (decide (m < j)%nat).
        -- apply (ok_index _ _ Hok). exists m. split; [done|].
           by destruct (view_cell _ sd m Hok ltac:(lia)) as [-> _].
        -- destruct (decide (m < c - 1)%nat); [|done]. injection Hm as Hm.
           by destruct (Hnot m ltac:(lia)).
Qed.

(** The other branch of [update_level] for a price the side holds: the
    quantity of its level is replaced. *)
Lemma store_quantity_view is_bid_side sd price j quantity :
  side_ok is_bid_side sd ->
  BookSide.price_to_index sd !! price = Some (Z.of_nat j) ->
  let sd' := BookSide.store (Z.of_nat j)
               (Level.set_quantity quantity (BookSide.at_index (Z.of_nat j) sd)) sd in
  side_ok is_bid_side sd' /\
  view sd' = <[j := Level.set_quantity quantity (cell sd j)]> (view sd).
Proof.
  intros Hok Hsome. cbv zeta.
  destruct (ok_present _ _ _ _ Hok Hsome) as [Hjc Hjp].
  destruct (view_cell _ sd j Hok Hjc) as [Hvj _].
  fold (cell sd j).
  assert (view (BookSide.store (Z.of_nat j) (Level.set_quantity quantity (cell sd j)) sd)
          = <[j := Level.set_quantity quantity (cell sd j)]> (view sd)) as Hview.
  { unfold view. simpl. rewrite Nat2Z.id. by apply take_insert_lt. }
  assert (Level.price <$> <[j := Level.set_quantity quantity (cell sd j)]> (view sd)
          = Level.price <$> view sd) as Hprices.
  { rewrite list_fmap_insert. apply list_insert_id.
    by rewrite list_lookup_fmap, Hvj. }
  split; [|done]. split.
  - simpl. rewrite length_insert. apply (ok_length _ _ Hok).
  - apply (ok_count _ _ Hok).
  - rewrite Hview, Hprices. apply (ok_sorted _ _ Hok).
  - intros p i. rewrite (ok_index _ _ Hok p i).
    split; intros (m & -> & Hm); exists m; (split; [done|]);
      rewrite <- list_lookup_fmap in *; congruence.
Qed.

Lemma ok_fresh is_bid_side sd p :
  side_ok is_bid_side sd -> BookSide.price_to_index sd !! p = None ->
  p ∉ Level.price <$> view sd.
Proof.
  intros Hok Hnone Hin. apply list_elem_of_fmap in Hin as (l & Hl & Hin).
  apply list_elem_of_lookup_1 in Hin as [j Hj].
  destruct (view_lookup_lt _ _ _ _ Hok Hj) as [Hjc <-].
  by apply (ok_absent _ _ _ _ Hok Hnone Hjc).
Qed.

(** No level of the side is empty. *)
Definition stocked (sd : BookSide.t) : Prop :=
  Forall (fun l => 0 < Level.quantity l) (view sd).

(** The side has no room for a level at [price]: it holds none at this
    price and is full. *)
Definition no_room (sd : BookSide.t) (price : Z) : bool :=
  bool_decide (BookSide.price_to_index sd !! price = None) &&
  (MaxLevels <=? BookSide.level_count sd).

Lemma update_side_view is_bid_side sd price quantity :
  side_ok is_bid_side sd -> 0 <= quantity ->
  let sd' := update_side is_bid_side sd price quantity in
  side_ok is_bid_side sd' /\ (stocked sd -> stocked sd') /\
  forall p', find_quantity p' (view sd') =
    if p' =? price then (if no_room sd price then 0 else quantity)
    else find_quantity p' (view sd).
Proof.
  intros Hok Hq. cbv zeta. unfold OrderBook.update_side, no_room, stocked.
  destruct (BookSide.price_to_index sd !! price) as [index|] eqn:Hidx.
  - assert (exists j, index = Z.of_nat j) as [j ->].
    { apply (ok_index _ _ Hok) in Hidx as (j & -> & _). by exists j. }
    destruct (ok_present _ _ _ _ Hok Hidx) as [Hjc Hjp].
    destruct (view_cell _ sd j Hok Hjc) as [Hvj _].
    rewrite bool_decide_eq_false_2 by done. simpl.
    destruct (quantity =? 0) eqn:Hzero.
    + apply Z.eqb_eq in Hzero.
      destruct (remove_level_view is_bid_side sd price j Hok Hidx) as [Hok' Hview].
      split; [done|]. rewrite Hview. split; [apply Forall_delete|]. intros p'.
      rewrite (find_quantity_delete is_bid_side _ j (cell sd j) p'
                 (ok_sorted _ _ Hok) Hvj), Hjp.
      by destruct (p' =? price).
    + apply Z.eqb_neq in Hzero.
      destruct (store_quantity_view is_bid_side sd price j quantity Hok Hidx)
        as [Hok' Hview].
      split; [done|]. rewrite Hview. split.
      * intros Hst. apply Forall_insert; [done|]. simpl. lia.
      * intros p'.
        by rewrite (find_quantity_set is_bid_side _ j (cell sd j) quantity p'
                      (ok_sorted _ _ Hok) Hvj), Hjp.
  - rewrite bool_decide_eq_true_2 by done. simpl.
    pose proof (ok_fresh _ _ _ Hok Hidx) as Hfresh.
    destruct (0 <? quantity) eqn:Hpos.
    + destruct (MaxLevels <=? BookSide.level_count sd) eqn:Hfull.
      * apply Z.leb_le in Hfull. rewrite (add_level_full MaxLevels) by done.
        split; [done|]. split; [done|]. intros p'.
        destruct (p' =? price) eqn:Hp; [|done]. apply Z.eqb_eq in Hp as ->.
        by apply find_quantity_absent.
      * apply Z.leb_gt in Hfull. apply Z.ltb_lt in Hpos.
        destruct (add_level_view is_bid_side sd price quantity Hok Hidx Hfull)
          as (Hok' & k & Hview).
        split; [done|]. rewrite Hview. split.
        -- intros Hst. apply Forall_app. split; [by apply Forall_take|].
           apply Forall_cons. split; [done|by apply Forall_drop].
        -- intros p'. by apply find_quantity_insert.
    + apply Z.ltb_ge in Hpos. assert (quantity = 0) as -> by lia.
      split; [done|]. split; [done|]. intros p'.
      destruct (p' =? price) eqn:Hp; [|done]. apply Z.eqb_eq in Hp as ->.
      rewrite (find_quantity_absent _ _ Hfresh). by destruct (MaxLevels <=? _).
Qed.

(** The two sides of a book [update_level] has made are kept in order, the
    bids from the highest price down and the asks from the lowest up, with
    [price_to_index] giving the place of each price, and hold no empty
    level. *)
Lemma reachable_sides b :
  reachable b ->
  side_ok true (bids b) /\ side_ok false (asks b) /\
  stocked (bids b) /\ stocked (asks b).
Proof.
  induction 1 as [bid_cells ask_cells Hb Ha|side price quantity b Hr IH Hp Hq].
  - assert (forall cells, length cells = Z.to_nat MaxLevels ->
              side_ok true (BookSide.mk cells 0 ∅) /\
              side_ok false (BookSide.mk cells 0 ∅)) as Hnew.
    { intros cells Hlen. split; (split; simpl; [done|lia|constructor|]);
        intros p i; rewrite lookup_empty;
        (split; [done|]); intros (j & _ & Hj); by destruct j. }
    split; [apply (Hnew _ Hb)|]. split; [apply (Hnew _ Ha)|].
    split; constructor.
  - destruct IH as (Hbo & Hao & Hbs & Has).
    destruct Hq as [Hq _].
    destruct (update_side_view true (bids b) price quantity Hbo Hq) as (? & ? & _).
    destruct (update_side_view false (asks b) price quantity Hao Hq) as (? & ? & _).
    destruct side; simpl; auto.
Qed.

Lemma get_quantity_find side p b :
  reachable b ->
  get_quantity side p b =
  find_quantity p (view (book_side side b)).
Proof.
  intros Hr. destruct (reachable_sides b Hr) as (Hbo & Hao & _).
  destruct side; simpl.
  - apply (side_quantity_find true _ _ Hbo).
  - apply (side_quantity_find false _ _ Hao).
Qed.

Lemma get_quantity_side side p b :
  get_quantity side p b = side_quantity p (book_side side b).
Proof. by destruct side. Qed.

Lemma reachable_side_ok side b :
  reachable b ->
  side_ok (match side with Buy => true | Sell => false end) (book_side side b) /\
  stocked (book_side side b).
Proof.
  intros Hr. destruct (reachable_sides b Hr) as (Hbo & Hao & Hbs & Has).
  by destruct side.
Qed.

Lemma sorted_take (R : relation Z) (ps : list Z) n :
  StronglySorted R ps -> StronglySorted R (take n ps).
Proof.
  intros Hs. rewrite <- (take_drop n ps) in Hs.
  by apply StronglySorted_app in Hs as (_ & Hs & _).
Qed.

(** The levels [get_bid_levels] and [get_ask_levels] return are the first
    ones of the side. *)
Lemma get_levels_view depth side b :
  reachable b ->
  match side with
  | Buy => get_bid_levels depth b
  | Sell => get_ask_levels depth b
  end = take (Z.to_nat (wrap32 depth)) (view (book_side side b)).
Proof.
  intros Hr. destruct (reachable_side_ok side b Hr) as [Hok _].
  pose proof (ok_count _ _ Hok) as Hcount.
  assert (0 <= wrap32 depth) by (unfold wrap32; apply Z.mod_pos_bound; lia).
  unfold view. rewrite take_take.
  destruct side; unfold get_bid_levels, get_ask_levels; simpl in *; f_equal; lia.
Qed.

(** A price at which a quantity is read is the price of a level. *)
Lemma find_quantity_pos p v :
  0 < find_quantity p v -> exists j l, v !! j = Some l /\ Level.price l = p.
Proof.
  intros Hpos. destruct (decide (p ∈ Level.price <$> v)) as [Hin|Hout].
  - apply list_elem_of_fmap in Hin as (l & -> & Hin).
    apply list_elem_of_lookup_1 in Hin as [j Hj]. by exists j, l.
  - rewrite (find_quantity_absent _ _ Hout) in Hpos. lia.
Qed.

(** [update_level] then [get_bid_quantity] or [get_ask_quantity]. In a book
    of at most 65536 levels a side that [update_level] has made, after
    [update_level(side, price, quantity)] the quantity read on [side] at
    [price] is [quantity], be the level new, changed or removed
    ([quantity = 0]); only when the side is full and has no level at [price]
    the update is dropped and 0 is read. The quantity at every other price
    and on the other side is as before. *)
Theorem update_level_then_quantity (side : Side) (price quantity : Z) (b : t)
    (side' : Side) (price' : Z) :
  reachable b -> is_u64 quantity ->
  let b' := update_level side price quantity b in
  get_quantity side price b' =
    (if no_room (book_side side b) price then 0 else quantity) /\
  (price' <> price -> get_quantity side price' b' = get_quantity side price' b) /\
  (side' <> side -> get_quantity side' price' b' = get_quantity side' price' b).
Proof.
  intros Hr [Hq _]. cbv zeta.
  destruct (reachable_side_ok side b Hr) as [Hok _].
  set (is_bid_side := match side with Buy => true | Sell => false end) in *.
  destruct (update_side_view is_bid_side (book_side side b) price quantity Hok Hq)
    as (Hok' & _ & Hfind).
  assert (book_side side (update_level side price quantity b) =
          update_side is_bid_side (book_side side b) price quantity) as Hside.
  { rewrite update_level_book_side. by destruct side. }
  split; [|split].
  - rewrite get_quantity_side, Hside, (side_quantity_find _ _ _ Hok'), Hfind.
    by rewrite Z.eqb_refl.
  - intros Hne.
    rewrite !get_quantity_side, Hside, (side_quantity_find _ _ _ Hok'), Hfind.
    rewrite (side_quantity_find _ _ _ Hok).
    destruct (price' =? price) eqn:Heq; [|done]. apply Z.eqb_eq in Heq. done.
  - intros Hne. rewrite !get_quantity_side, update_level_book_side.
    by destruct side, side'.
Qed.

(** What [get_bid_levels] and [get_ask_levels] return. In a book of at most
    65536 levels a side that [update_level] has made, [get_bid_levels(depth)]
    gives [min(depth, level_count)] levels of strictly falling prices and
    [get_ask_levels(depth)] as many of strictly rising prices; each level
    returned holds a quantity above 0, which is the one [get_bid_quantity] or
    [get_ask_quantity] reads at its price. *)
Theorem get_levels_sorted (depth : Z) (b : t) :
  reachable b ->
  let bid_levels := get_bid_levels depth b in
  let ask_levels := get_ask_levels depth b in
  StronglySorted (fun p q => q < p) (Level.price <$> bid_levels) /\
  StronglySorted (fun p q => p < q) (Level.price <$> ask_levels) /\
  Z.of_nat (length bid_levels) =
    Z.min (wrap32 depth) (BookSide.level_count (bids b)) /\
  Z.of_nat (length ask_levels) =
    Z.min (wrap32 depth) (BookSide.level_count (asks b)) /\
  (forall l, l ∈ bid_levels ->
     0 < Level.quantity l /\ get_bid_quantity (Level.price l) b = Level.quantity l) /\
  (forall l, l ∈ ask_levels ->
     0 < Level.quantity l /\ get_ask_quantity (Level.price l) b = Level.quantity l).
Proof.
  intros Hr. cbv zeta.
  pose proof (get_levels_view depth Buy b Hr) as Hbv.
  pose proof (get_levels_view depth Sell b Hr) as Hav.
  destruct (reachable_sides b Hr) as (Hbo & Hao & Hbs & Has).
  simpl in Hbv, Hav. rewrite Hbv, Hav.
  assert (0 <= wrap32 depth) by (unfold wrap32; apply Z.mod_pos_bound; lia).
  pose proof (ok_count _ _ Hbo). pose proof (ok_count _ _ Hao).
  assert (forall is_bid_side sd l,
            side_ok is_bid_side sd -> stocked sd ->
            l ∈ take (Z.to_nat (wrap32 depth)) (view sd) ->
            0 < Level.quantity l /\ side_quantity (Level.price l) sd = Level.quantity l)
    as Hlevel.
  { intros is_bid_side sd l Hok Hst Hin.
    apply list_elem_of_lookup_1 in Hin as [j Hj].
    apply lookup_take_Some in Hj as [Hj _]. split.
    - unfold stocked in Hst. rewrite Forall_forall in Hst. apply Hst.
      by eapply list_elem_of_lookup_2.
    - rewrite (side_quantity_find _ _ _ Hok).
      by apply (find_quantity_lookup is_bid_side _ j), Hj; apply (ok_sorted _ _ Hok). }
  split_and!.
  - rewrite fmap_take. apply sorted_take, (ok_sorted _ _ Hbo).
  - rewrite fmap_take. apply sorted_take, (ok_sorted _ _ Hao).
  - rewrite length_take, (view_length _ _ Hbo). lia.
  - rewrite length_take, (view_length _ _ Hao). lia.
  - intros l Hl. by apply (Hlevel true (bids b)).
  - intros l Hl. by apply (Hlevel false (asks b)).
Qed.

(** The best prices. In a book of at most 65536 levels a side that
    [update_level] has made: no bid price at which a quantity is read is
    above [get_best_bid()], no such ask price is below [best_ask]; and when
    a side holds a level, the best quantity published for it is above 0 and
    is the quantity read at the best price. *)
Theorem best_prices_extremal (b : t) (p : Z) :
  reachable b ->
  (0 < get_bid_quantity p b -> p <= get_best_bid b) /\
  (0 < get_ask_quantity p b -> best_ask b <= p) /\
  (0 < BookSide.level_count (bids b) ->
     0 < best_bid_qty b /\ get_bid_quantity (get_best_bid b) b = best_bid_qty b) /\
  (0 < BookSide.level_count (asks b) ->
     0 < best_ask_qty b /\ get_ask_quantity (best_ask b) b = best_ask_qty b).
Proof.
  intros Hr.
  destruct (reachable_sides b Hr) as (Hbo & Hao & Hbs & Has).
  pose proof (reachable_published MaxLevels b Hr) as Hpub.
  unfold published, update_best_prices in Hpub.
  assert (best_bid b = if 0 <? BookSide.level_count (bids b)
                       then Level.price (cell (bids b) 0) else 0) as Hbb.
  { by rewrite <- Hpub at 1. }
  assert (best_ask b = if 0 <? BookSide.level_count (asks b)
                       then Level.price (cell (asks b) 0) else UINT64_MAX) as Hba.
  { by rewrite <- Hpub at 1. }
  assert (best_bid_qty b = if 0 <? BookSide.level_count (bids b)
                           then Level.quantity (cell (bids b) 0) else 0) as Hbq.
  { by rewrite <- Hpub at 1. }
  assert (best_ask_qty b = if 0 <? BookSide.level_count (asks b)
                           then Level.quantity (cell (asks b) 0) else 0) as Haq.
  { by rewrite <- Hpub at 1. }
  clear Hpub.
  assert (forall is_bid_side sd,
            side_ok is_bid_side sd -> 0 < find_quantity p (view sd) ->
            0 < BookSide.level_count sd /\
            (p = Level.price (cell sd 0) \/
             before is_bid_side (Level.price (cell sd 0)) p)) as Hfirst.
  { intros is_bid_side sd Hok Hpos.
    apply find_quantity_pos in Hpos as (j & l & Hj & Hl).
    destruct (view_lookup_lt _ _ _ _ Hok Hj) as [Hjc <-].
    split; [lia|]. destruct j as [|j]; [by left|right].
    destruct (view_cell _ sd 0 Hok ltac:(lia)) as [H0 _].
    apply (sorted_lookup_lt _ (Level.price <$> view sd) 0 (S j) _ _
             (ok_sorted _ _ Hok)); [|  |lia].
    - by rewrite list_lookup_fmap, H0.
    - rewrite list_lookup_fmap, Hj. simpl. by rewrite Hl. }
  assert (forall is_bid_side sd,
            side_ok is_bid_side sd -> stocked sd -> 0 < BookSide.level_count sd ->
            0 < Level.quantity (cell sd 0) /\
            side_quantity (Level.price (cell sd 0)) sd = Level.quantity (cell sd 0))
    as Hbest.
  { intros is_bid_side sd Hok Hst Hc.
    destruct (view_cell _ sd 0 Hok ltac:(lia)) as [H0 _]. split.
    - unfold stocked in Hst. rewrite Forall_forall in Hst. apply Hst.
      by eapply list_elem_of_lookup_2.
    - rewrite (side_quantity_find _ _ _ Hok).
      by apply (find_quantity_lookup is_bid_side _ 0), H0; apply (ok_sorted _ _ Hok). }
  split_and!.
  - intros Hpos. unfold get_best_bid. rewrite Hbb.
    change (get_bid_quantity p b) with (side_quantity p (bids b)) in Hpos.
    rewrite (side_quantity_find _ _ _ Hbo) in Hpos.
    destruct (Hfirst true (bids b) Hbo Hpos) as [Hc Hp].
    destruct (0 <? BookSide.level_count (bids b)) eqn:Hlt;
      [|apply Z.ltb_ge in Hlt; lia].
    destruct Hp as [->|Hp]; [lia|]. unfold before, flip in Hp. lia.
  - intros Hpos. rewrite Hba.
    change (get_ask_quantity p b) with (side_quantity p (asks b)) in Hpos.
    rewrite (side_quantity_find _ _ _ Hao) in Hpos.
    destruct (Hfirst false (asks b) Hao Hpos) as [Hc Hp].
    destruct (0 <? BookSide.level_count (asks b)) eqn:Hlt;
      [|apply Z.ltb_ge in Hlt; lia].
    destruct Hp as [->|Hp]; [lia|]. unfold before in Hp. simpl in Hp. lia.
  - intros Hc. unfold get_best_bid. rewrite Hbb, Hbq.
    destruct (0 <? BookSide.level_count (bids b)) eqn:Hlt;
      [|apply Z.ltb_ge in Hlt; lia].
    apply (Hbest true (bids b) Hbo Hbs Hc).
  - intros Hc. rewrite Hba, Haq.
    destruct (0 <? BookSide.level_count (asks b)) eqn:Hlt;
      [|apply Z.ltb_ge in Hlt; lia].
    apply (Hbest false (asks b) Hao Has Hc).
Qed.

End sides.
End OrderBookLaws.

(** *** In the book of two levels a side *)

Import OrderBook OrderBookProps.

Lemma two_levels_index : 0 <= 2 <= 2 ^ 16.
Proof. lia. Qed.

Lemma update_level_then_quantity_witness :
  let b' := update_level 2 Buy 90 3 two_bids in
  get_quantity Buy 90 b' =
    (if OrderBookLaws.no_room 2 (book_side Buy two_bids) 90 then 0 else 3) /\
  (100 <> 90 -> get_quantity Buy 100 b' = get_quantity Buy 100 two_bids) /\
  (Sell <> Buy -> get_quantity Sell 100 b' = get_quantity Sell 100 two_bids).
Proof.
  apply (OrderBookLaws.update_level_then_quantity 2 two_levels_index
           Buy 90 3 two_bids Sell 100).
  - apply two_bids_reachable.
  - unfold is_u64. lia.
Defined.

Lemma get_levels_sorted_witness :
  let bid_levels := get_bid_levels 1 two_bids in
  let ask_levels := get_ask_levels 1 two_bids in
  StronglySorted (fun p q => q < p) (Level.price <$> bid_levels) /\
  StronglySorted (fun p q => p < q) (Level.price <$> ask_levels) /\
  Z.of_nat (length bid_levels) =
    Z.min (wrap32 1) (BookSide.level_count (bids two_bids)) /\
  Z.of_nat (length ask_levels) =
    Z.min (wrap32 1) (BookSide.level_count (asks two_bids)) /\
  (forall l, l ∈ bid_levels ->
     0 < Level.quantity l /\
     get_bid_quantity (Level.price l) two_bids = Level.quantity l) /\
  (forall l, l ∈ ask_levels ->
     0 < Level.quantity l /\
     get_ask_quantity (Level.price l) two_bids = Level.quantity l).
Proof.
  apply (OrderBookLaws.get_levels_sorted 2 two_levels_index 1 two_bids).
  apply two_bids_reachable.
Defined.

Lemma best_prices_extremal_witness :
  (0 < get_bid_quantity 90 two_bids -> 90 <= get_best_bid two_bids) /\
  (0 < get_ask_quantity 90 two_bids -> best_ask two_bids <= 90) /\
  (0 < BookSide.level_count (bids two_bids) ->
     0 < best_bid_qty two_bids /\
     get_bid_quantity (get_best_bid two_bids) two_bids = best_bid_qty two_bids) /\
  (0 < BookSide.level_count (asks two_bids) ->
     0 < best_ask_qty two_bids /\
     get_ask_quantity (best_ask two_bids) two_bids = best_ask_qty two_bids).
Proof.
  apply (OrderBookLaws.best_prices_extremal 2 two_levels_index two_bids 90).
  apply two_bids_reachable.
Defined.

(** ** The books of [OrderBookManager] *)

Module OrderBookManagerProps.
Import OrderBookManager.

(** The managers [get_or_create_order_book] and [process_market_data] can make
    from a new one. *)
Inductive reachable : t -> Prop :=
| reachable_init : reachable init
| reachable_get_or_create symbol_id m :
    reachable m -> reachable (get_or_create_order_book symbol_id m).2
| reachable_process_market_data tick m :
    reachable m -> is_u64 (MarketTick.price tick) ->
    is_u64 (MarketTick.quantity tick) ->
    reachable (process_market_data tick m).

Lemma max_levels_index : 0 <= MaxLevels <= 2 ^ 16.
Proof. unfold MaxLevels. lia. Qed.

Lemma new_book_reachable : OrderBook.reachable MaxLevels new_book.
Proof. apply OrderBook.reachable_init; by rewrite length_replicate. Qed.

Lemma get_or_create_book symbol_id m :
  (forall s b, get_order_book s m = Some b -> OrderBook.reachable MaxLevels b) ->
  OrderBook.reachable MaxLevels (get_or_create_order_book symbol_id m).1 /\
  forall s b, get_order_book s (get_or_create_order_book symbol_id m).2 = Some b ->
    OrderBook.reachable MaxLevels b.
Proof.
  intros Hm. unfold get_or_create_order_book, get_order_book, t in *.
  destruct (m !! symbol_id) as [book|] eqn:Hbook; simpl.
  - split; [by apply (Hm symbol_id)|done].
  - split; [apply new_book_reachable|]. intros s b.
    destruct (decide (s = symbol_id)) as [->|Hne].
    + rewrite lookup_insert_eq. intros [= <-]. apply new_book_reachable.
    + rewrite lookup_insert_ne by done. apply Hm.
Qed.

Lemma books_reachable m :
  reachable m ->
  forall s b, get_order_book s m = Some b -> OrderBook.reachable MaxLevels b.
Proof.
  induction 1 as [|symbol_id m Hm IH|tick m Hm IH Hp Hq]; intros s b.
  - unfold get_order_book, init, t. by rewrite lookup_empty.
  - apply (get_or_create_book symbol_id m IH).
  - destruct (get_or_create_book (MarketTick.symbol_id tick) m IH) as [Hb Hm'].
    unfold process_market_data.
    destruct (get_or_create_order_book _ m) as [book m']. simpl in *.
    unfold get_order_book, t in *.
    destruct (decide (s = MarketTick.symbol_id tick)) as [->|Hne].
    + rewrite lookup_insert_eq. intros [= <-].
      by apply OrderBook.reachable_update_level.
    + rewrite lookup_insert_ne by done. apply Hm'.
Qed.

(** [process_market_data] and the tick's book. In a manager made by its own
    operations, after [process_market_data(tick)] the book of the tick's
    symbol exists, whether it was there before or not, and the quantity read
    on the tick's side at the tick's price is the tick's quantity, unless
    that side was full with no level at the price, when 0 is read. The
    books of the other symbols are as before, and [get_book_count()] has
    grown by one if the symbol had no book and not at all if it had. *)
Theorem process_market_data_book (tick : MarketTick.t) (m : t) (s : Z) :
  reachable m -> is_u64 (MarketTick.quantity tick) ->
  let symbol_id := MarketTick.symbol_id tick in
  let side := MarketTick.side tick in
  let price := MarketTick.price tick in
  let before := (get_or_create_order_book symbol_id m).1 in
  let m' := process_market_data tick m in
  (exists book,
     get_order_book symbol_id m' = Some book /\
     OrderBookProps.get_quantity side price book =
       if OrderBookLaws.no_room MaxLevels (OrderBookProps.book_side side before) price
       then 0 else MarketTick.quantity tick) /\
  (s <> symbol_id -> get_order_book s m' = get_order_book s m) /\
  get_book_count m' =
    match get_order_book symbol_id m with
    | Some _ => get_book_count m
    | None => get_book_count m + 1
    end.
Proof.
  intros Hm Hq. cbv zeta.
  pose proof (books_reachable m Hm) as Hbooks.
  destruct (get_or_create_book (MarketTick.symbol_id tick) m Hbooks) as [Hb _].
  unfold process_market_data, get_book_count, get_order_book in *.
  unfold get_or_create_order_book, t in *.
  destruct (m !! MarketTick.symbol_id tick) as [book|] eqn:Hbook; simpl in *.
  - split; [|split].
    + eexists. rewrite lookup_insert_eq. split; [done|].
      apply (OrderBookLaws.update_level_then_quantity MaxLevels max_levels_index
               _ _ _ _ Buy 0 Hb Hq).
    + intros Hne. by rewrite lookup_insert_ne.
    + f_equal. by apply map_size_insert_Some.
  - split; [|split].
    + eexists. rewrite lookup_insert_eq. split; [done|].
      apply (OrderBookLaws.update_level_then_quantity MaxLevels max_levels_index
               _ _ _ _ Buy 0 Hb Hq).
    + intros Hne. by rewrite !lookup_insert_ne.
    + rewrite insert_insert_eq, map_size_insert_None by done. lia.
Qed.

End OrderBookManagerProps.

Lemma process_market_data_book_witness :
  let tick := MarketTick.mk 7 100 5 Buy 0 0 in
  let m := OrderBookManager.init in
  let symbol_id := MarketTick.symbol_id tick in
  let side := MarketTick.side tick in
  let price := MarketTick.price tick in
  let before := (OrderBookManager.get_or_create_order_book symbol_id m).1 in
  let m' := OrderBookManager.process_market_data tick m in
  (exists book,
     OrderBookManager.get_order_book symbol_id m' = Some book /\
     OrderBookProps.get_quantity side price book =
       if OrderBookLaws.no_room OrderBookManager.MaxLevels
            (OrderBookProps.book_side side before) price
       then 0 else MarketTick.quantity tick) /\
  (8 <> symbol_id ->
   OrderBookManager.get_order_book 8 m' = OrderBookManager.get_order_book 8 m) /\
  OrderBookManager.get_book_count m' =
    match OrderBookManager.get_order_book symbol_id m with
    | Some _ => OrderBookManager.get_book_count m
    | None => OrderBookManager.get_book_count m + 1
    end.
Proof.
  apply (OrderBookManagerProps.process_market_data_book
           (MarketTick.mk 7 100 5 Buy 0 0) OrderBookManager.init 8).
  - apply OrderBookManagerProps.reachable_init.
  - unfold is_u64. simpl. lia.
Defined.
(** * The risk gate: limits, positions and the order check *)

Module RiskManagerLaws.
Import RiskManager.

(** An answer of [check_order] and the manager it leaves: the two limiters
    may have moved, and the symbol of the order has a tracker, one of zeros
    if it had none, once the checks of the position are reached.
    [rejected_loss_limit] is answered only for a realised PnL below
    [- max_loss_per_day]. *)
Lemma check_order_shape tsc_frequency now_global now_create now_symbol order s r s' :
  check_order tsc_frequency now_global now_create now_symbol order s = Some (r, s') ->
  let pos := default PositionTracker.zero (positions s !! Order.symbolID order) in
  (exists limiter limiters,
     let s1 := set_symbol_rate_limiters limiters (set_global_rate_limiter limiter s) in
     s' = s1 \/
     s' = set_positions (<[Order.symbolID order := pos]> (positions s)) s1) /\
  (r = rejected_loss_limit ->
   exists loss_limit,
     checked_i64 (- wrap_i64 (RiskLimits.max_loss_per_day (global_limits s))) =
       Some loss_limit /\
     PositionTracker.realized_pnl pos < loss_limit).
Proof.
  unfold check_order. intros H. cbv zeta.
  destruct (check_rate_limit tsc_frequency now_global (global_rate_limiter s))
    as [[passed limiter]|]; [|done].
  simpl in H. destruct passed; simpl in H.
  2:{ injection H as <- <-. split; [|done].
      exists limiter, (symbol_rate_limiters s). by left. }
  unfold get_or_create_symbol_limiter in H. simpl in H.
  assert (exists limiters0 symbol_limiter0,
    (check_rate_limit tsc_frequency now_symbol symbol_limiter0 ≫=
       λ '(passed, symbol_limiter),
         let s0 := set_symbol_rate_limiters
                     (<[Order.symbolID order := symbol_limiter]> limiters0)
                     (set_global_rate_limiter limiter s) in
         if negb passed then Some (rejected_rate_limit, s0) else
         if RiskLimits.max_order_size (global_limits s0) <? Order.quantity order
         then Some (rejected_order_size, s0) else
         if negb (check_price_deviation order s0)
         then Some (rejected_price_limit, s0) else
         let '(position, s0) := position_entry (Order.symbolID order) s0 in
         position_change ←
           signed_quantity (Order.side order) (Order.quantity order);
         new_position ←
           checked_i64 (PositionTracker.current_position position + position_change);
         abs_position ← checked_i64 (Z.abs new_position);
         if RiskLimits.max_position (global_limits s0) <? wrap64 abs_position
         then Some (rejected_position_limit, s0) else
         if ((0 <? new_position) && (0 <? position_change)
             || (new_position <? 0) && (position_change <? 0))
            && (RiskLimits.max_notional (global_limits s0)
                  <? wrap64 (PositionTracker.current_notional position
                             + calculate_notional (Order.price order)
                                 (Order.quantity order)))
         then Some (rejected_notional_limit, s0) else
         loss_limit ←
           checked_i64 (- wrap_i64 (RiskLimits.max_loss_per_day (global_limits s0)));
         if PositionTracker.realized_pnl position <? loss_limit
         then Some (rejected_loss_limit, s0)
         else Some (approved, s0)) = Some (r, s'))
    as (limiters0 & symbol_limiter0 & H').
  { destruct (symbol_rate_limiters s !! Order.symbolID order) as [l0|].
    - exists (symbol_rate_limiters s), l0. exact H.
    - exists (<[Order.symbolID order := new_symbol_limiter now_create]>
                (symbol_rate_limiters s)), (new_symbol_limiter now_create).
      exact H. }
  clear H.
  destruct (check_rate_limit tsc_frequency now_symbol symbol_limiter0)
    as [[passed symbol_limiter]|]; [|done].
  simpl in H'.
  set (limiters := <[Order.symbolID order := symbol_limiter]> limiters0) in *.
  destruct passed; simpl in H'.
  2:{ injection H' as <- <-. split; [|done]. exists limiter, limiters. by left. }
  destruct (_ <? Order.quantity order).
  { injection H' as <- <-. split; [|done]. exists limiter, limiters. by left. }
  destruct (negb _).
  { injection H' as <- <-. split; [|done]. exists limiter, limiters. by left. }
  unfold position_entry in H'. simpl in H'.
  destruct (signed_quantity _ _) as [position_change|]; simpl in H'; [|done].
  destruct (checked_i64 (_ + position_change)) as [new_position|];
    simpl in H'; [|done].
  destruct (checked_i64 (Z.abs new_position)) as [abs_position|];
    simpl in H'; [|done].
  destruct (_ <? wrap64 abs_position).
  { injection H' as <- <-. split; [|done]. exists limiter, limiters. by right. }
  destruct (_ && _).
  { injection H' as <- <-. split; [|done]. exists limiter, limiters. by right. }
  destruct (checked_i64 (- _)) as [loss_limit|] eqn:Hloss; simpl in H'; [|done].
  destruct (_ <? loss_limit) eqn:Hlt; injection H' as <- <-.
  - split; [exists limiter, limiters; by right|]. intros _.
    exists loss_limit. split; [done|]. by apply Z.ltb_lt.
  - split; [|done]. exists limiter, limiters. by right.
Qed.

(** What [check_order] leaves alone: the limits, the reference prices and
    every position; the symbol of the order gets a tracker of zeros if it
    has none. *)
Lemma check_order_frame tsc_frequency now_global now_create now_symbol order s r s' :
  check_order tsc_frequency now_global now_create now_symbol order s = Some (r, s') ->
  global_limits s' = global_limits s /\
  symbol_limits s' = symbol_limits s /\
  reference_prices s' = reference_prices s /\
  (positions s' = positions s \/
   positions s' =
     <[Order.symbolID order :=
         default PositionTracker.zero (positions s !! Order.symbolID order)]>
       (positions s)).
Proof.
  intros Hc. apply check_order_shape in Hc as [(limiter & limiters & Hs) _].
  cbv zeta in Hs. destruct Hs as [->| ->]; simpl; auto.
Qed.

Lemma wrap_i64_small z : is_i64 z -> wrap_i64 z = z.
Proof.
  unfold is_i64, wrap_i64. intros H. rewrite Z.mod_small by lia. lia.
Qed.

Lemma wrap_i64_range z : is_i64 (wrap_i64 z).
Proof.
  unfold is_i64, wrap_i64.
  pose proof (Z.mod_pos_bound (z + 2 ^ 63) (2 ^ 64) ltac:(lia)). lia.
Qed.

Lemma checked_i64_Some z v : checked_i64 z = Some v <-> is_i64 z /\ v = z.
Proof.
  unfold checked_i64, is_i64.
  destruct (- 2 ^ 63 <=? z) eqn:H1; destruct (z <? 2 ^ 63) eqn:H2; simpl;
    try apply Z.leb_le in H1; try apply Z.leb_gt in H1;
    try apply Z.ltb_lt in H2; try apply Z.ltb_ge in H2;
    split; try (intros [= <-]); try (intros [? ->]); try done; try lia.
Qed.

(** The largest value [x / PriceScale] takes on unsigned 64-bit values. *)
Definition pnl_bound : Z := 184467440737.

Lemma scaled_range x :
  0 <= wrap64 x / PriceScale <= pnl_bound.
Proof.
  unfold wrap64, PriceScale, pnl_bound.
  pose proof (Z.mod_pos_bound x (2 ^ 64) ltac:(lia)).
  split; [apply Z.div_pos; lia|].
  apply Z.lt_succ_r, Z.div_lt_upper_bound; lia.
Qed.

(** [calculate_pnl_change] divides in unsigned arithmetic before it converts
    to a signed value: what it returns is never below 0. *)
Lemma calculate_pnl_change_range position exit_price quantity :
  0 <= calculate_pnl_change position exit_price quantity <= pnl_bound.
Proof.
  unfold calculate_pnl_change.
  destruct (_ =? 0); [unfold pnl_bound; lia|].
  destruct (0 <? _).
  - pose proof (scaled_range
      (wrap64 (exit_price - PositionTracker.vwap position) * quantity)) as H.
    rewrite wrap_i64_small; [done|]. unfold is_i64, pnl_bound in *. lia.
  - pose proof (scaled_range
      (wrap64 (PositionTracker.vwap position - exit_price) * quantity)) as H.
    rewrite wrap_i64_small; [done|]. unfold is_i64, pnl_bound in *. lia.
Qed.

Lemma update_vwap_fields position price quantity position' :
  update_vwap position price quantity = Some position' ->
  PositionTracker.current_position position' =
    PositionTracker.current_position position /\
  PositionTracker.current_notional position' =
    PositionTracker.current_notional position /\
  PositionTracker.realized_pnl position' = PositionTracker.realized_pnl position /\
  PositionTracker.order_count_today position' =
    PositionTracker.order_count_today position /\
  PositionTracker.total_volume position' =
    wrap64 (PositionTracker.total_volume position + quantity) /\
  wrap64 (PositionTracker.total_volume position + quantity) <> 0 /\
  PositionTracker.vwap position' =
    wrap64
      (wrap64
         (wrap64 (PositionTracker.vwap position
                  * PositionTracker.total_volume position) / PriceScale
          + wrap64 (price * quantity) / PriceScale) * PriceScale)
    / wrap64 (PositionTracker.total_volume position + quantity).
Proof.
  unfold update_vwap, div_u64. intros H.
  destruct (wrap64 (_ + quantity) =? 0) eqn:Hz; simplify_option_eq.
  apply Z.eqb_neq in Hz. done.
Qed.

(** What [update_position] does to the manager: it writes the tracker of the
    trade's symbol, where the position moves by the signed quantity of the
    trade and the realised PnL stays or grows by at most [pnl_bound]. *)
Lemma update_position_tracker trade s s' :
  update_position trade s = Some s' ->
  let pos := default PositionTracker.zero (positions s !! Trade.symbol_id trade) in
  exists pos' change,
    positions s' = <[Trade.symbol_id trade := pos']> (positions s) /\
    global_limits s' = global_limits s /\
    symbol_limits s' = symbol_limits s /\
    reference_prices s' = reference_prices s /\
    global_rate_limiter s' = global_rate_limiter s /\
    symbol_rate_limiters s' = symbol_rate_limiters s /\
    signed_quantity (Trade.aggressor_side trade) (Trade.quantity trade) = Some change /\
    PositionTracker.current_position pos' =
      wrap_i64 (PositionTracker.current_position pos + change) /\
    PositionTracker.order_count_today pos' = PositionTracker.order_count_today pos /\
    (PositionTracker.realized_pnl pos' = PositionTracker.realized_pnl pos \/
     exists c, 0 <= c <= pnl_bound /\
       PositionTracker.realized_pnl pos' =
         wrap_i64 (PositionTracker.realized_pnl pos + c)) /\
    wrap64 (PositionTracker.total_volume pos + Trade.quantity trade) <> 0 /\
    PositionTracker.vwap pos' =
      wrap64
        (wrap64
           (wrap64 (PositionTracker.vwap pos * PositionTracker.total_volume pos)
              / PriceScale
            + wrap64 (Trade.price trade * Trade.quantity trade) / PriceScale)
         * PriceScale)
      / wrap64 (PositionTracker.total_volume pos + Trade.quantity trade).
Proof.
  unfold update_position, position_entry. intros H. cbv zeta.
  set (pos := default PositionTracker.zero (positions s !! Trade.symbol_id trade)) in *.
  destruct (signed_quantity _ _) as [change|] eqn:Hchange; [|done]. simpl in H.
  destruct (update_vwap _ _ _) as [pos1|] eqn:Hvwap; [|done]. simpl in H.
  apply update_vwap_fields in Hvwap as (Hp1 & Hn1 & Hl1 & Hc1 & _ & Hv0 & Hv1).
  simpl in *.
  match type of H with
  | (?pnl_step ≫= _) = _ => destruct pnl_step as [pos2|] eqn:Hpnl; [|done]
  end. simpl in H.
  match type of H with
  | (?notional_step ≫= _) = _ => destruct notional_step as [pos3|] eqn:Hnot; [|done]
  end. simpl in H. injection H as <-. simpl.
  assert (PositionTracker.vwap pos2 = PositionTracker.vwap pos1 /\
          PositionTracker.current_position pos2 = PositionTracker.current_position pos1 /\
          PositionTracker.order_count_today pos2 = PositionTracker.order_count_today pos1 /\
          (PositionTracker.realized_pnl pos2 = PositionTracker.realized_pnl pos1 \/
           exists c, 0 <= c <= pnl_bound /\
             PositionTracker.realized_pnl pos2 =
               wrap_i64 (PositionTracker.realized_pnl pos1 + c)))
    as (Hv2 & Hp2 & Hc2 & Hl2).
  { destruct (_ || _) in Hpnl; [|injection Hpnl as <-; auto].
    destruct (checked_i64 _) as [abs_change|] in Hpnl; simpl in Hpnl; [|done].
    injection Hpnl as <-. simpl. do 3 (split; [done|]). right.
    eexists. split; [apply calculate_pnl_change_range|done]. }
  assert (PositionTracker.vwap pos3 = PositionTracker.vwap pos2 /\
          PositionTracker.current_position pos3 = PositionTracker.current_position pos2 /\
          PositionTracker.order_count_today pos3 = PositionTracker.order_count_today pos2 /\
          PositionTracker.realized_pnl pos3 = PositionTracker.realized_pnl pos2)
    as (Hv3 & Hp3 & Hc3 & Hl3).
  { destruct (_ || _) in Hnot; [by injection Hnot as <-|].
    destruct (0 <? _) in Hnot; [|by injection Hnot as <-].
    destruct (checked_i64 _) as [abs_position|] in Hnot; simpl in Hnot; [|done].
    destruct (div_u64 _ _) as [notional_reduction|] in Hnot; simpl in Hnot; [|done].
    by injection Hnot as <-. }
  exists pos3, change. split_and!; try done.
  - apply insert_insert_eq.
  - congruence.
  - congruence.
  - rewrite Hl3, <- Hl1. destruct Hl2 as [->|(c & Hc & ->)]; [by left|right].
    exists c. by rewrite Hl1.
  - congruence.
Qed.

(** The managers the public operations can make from a new one; the index
    counts the calls of [update_position]. *)
Inductive reachable : nat -> t -> Prop :=
| reachable_init now : reachable 0 (init now)
| reachable_initialize n s : reachable n s -> reachable n (initialize s)
| reachable_check_order n tsc_frequency now_global now_create now_symbol order s r s' :
    reachable n s ->
    check_order tsc_frequency now_global now_create now_symbol order s = Some (r, s') ->
    reachable n s'
| reachable_update_position n trade s s' :
    reachable n s -> update_position trade s = Some s' -> reachable (S n) s'
| reachable_update_reference_price n symbol_id price s :
    reachable n s -> reachable n (update_reference_price symbol_id price s)
| reachable_set_global_limits n limits s :
    reachable n s -> reachable n (set_global_limits limits s)
| reachable_set_symbol_limits n symbol_id limits s :
    reachable n s -> reachable n (set_symbol_limits symbol_id limits s).

(** After [n] calls of [update_position] no tracker has counted an order,
    and, as long as [n * pnl_bound] is a signed 64-bit value, none holds a
    loss. *)
Definition tracked (n : nat) (s : t) : Prop :=
  forall symbol_id pos, positions s !! symbol_id = Some pos ->
    PositionTracker.order_count_today pos = 0 /\
    (Z.of_nat n * pnl_bound < 2 ^ 63 ->
     0 <= PositionTracker.realized_pnl pos <= Z.of_nat n * pnl_bound).

Lemma tracked_default n s symbol_id :
  tracked n s ->
  let pos := default PositionTracker.zero (positions s !! symbol_id) in
  PositionTracker.order_count_today pos = 0 /\
  (Z.of_nat n * pnl_bound < 2 ^ 63 ->
   0 <= PositionTracker.realized_pnl pos <= Z.of_nat n * pnl_bound).
Proof.
  intros Ht. cbv zeta. destruct (positions s !! symbol_id) as [pos|] eqn:Hpos.
  - apply (Ht symbol_id pos Hpos).
  - simpl. unfold pnl_bound. lia.
Qed.

Lemma reachable_tracked n s : reachable n s -> tracked n s.
Proof.
  induction 1 as [now|n s Hr IH|n f t1 t2 t3 order s r s' Hr IH Hc
                 |n trade s s' Hr IH Hu|n symbol_id price s Hr IH
                 |n limits s Hr IH|n symbol_id limits s Hr IH]; try done.
  - apply check_order_frame in Hc as (_ & _ & _ & [Hp|Hp]);
      intros symbol_id pos; rewrite Hp; [apply IH|].
    destruct (decide (symbol_id = Order.symbolID order)) as [->|Hne].
    + rewrite lookup_insert_eq. intros [= <-]. by apply tracked_default.
    + rewrite lookup_insert_ne by done. apply IH.
  - apply update_position_tracker in Hu
      as (pos' & change & Hp & _ & _ & _ & _ & _ & _ & _ & Hc & Hl & _).
    pose proof (tracked_default n s (Trade.symbol_id trade) IH) as [Hc0 Hl0].
    cbv zeta in *. intros symbol_id pos. rewrite Hp.
    destruct (decide (symbol_id = Trade.symbol_id trade)) as [->|Hne].
    + rewrite lookup_insert_eq. intros [= <-]. split; [congruence|].
      intros Hn. unfold pnl_bound in *.
      specialize (Hl0 ltac:(lia)).
      destruct Hl as [->|(c & Hc' & ->)]; [lia|].
      rewrite wrap_i64_small by (unfold is_i64; lia). lia.
    + rewrite lookup_insert_ne by done. intros Hpos.
      destruct (IH symbol_id pos Hpos) as [? Hl1]. split; [done|].
      intros Hn. unfold pnl_bound in *. specialize (Hl1 ltac:(lia)). lia.
Qed.

(** The loss limit. [calculate_pnl_change] never returns a value below 0,
    so in a manager made by the public operations with at most 50 000 000
    calls of [update_position] the realised PnL [get_position_info] reports
    is never below 0, for any symbol, and [check_order] never answers
    [rejected_loss_limit], whatever [max_loss_per_day] below [2^63] is
    set. *)
Theorem loss_limit_never_rejects (n : nat) (s : t)
    (tsc_frequency now_global now_create now_symbol : Z) (order : Order.t)
    (symbol_id : Z) :
  reachable n s -> Z.of_nat n <= 50000000 ->
  0 <= RiskLimits.max_loss_per_day (global_limits s) < 2 ^ 63 ->
  0 <= PositionInfo.pnl (get_position_info symbol_id s) /\
  forall r s',
    check_order tsc_frequency now_global now_create now_symbol order s = Some (r, s') ->
    r <> rejected_loss_limit.
Proof.
  intros Hr Hn Hloss. pose proof (reachable_tracked n s Hr) as Ht.
  assert (Z.of_nat n * pnl_bound < 2 ^ 63) as Hb by (unfold pnl_bound; lia).
  split.
  - unfold get_position_info.
    destruct (positions s !! symbol_id) as [pos|] eqn:Hpos; simpl; [|done].
    destruct (Ht symbol_id pos Hpos) as [_ Hl]. specialize (Hl Hb). lia.
  - intros r s' Hc ->.
    pose proof (tracked_default n s (Order.symbolID order) Ht) as [_ Hl].
    specialize (Hl Hb). cbv zeta in Hl.
    apply check_order_shape in Hc as [_ Hrej].
    destruct (Hrej eq_refl) as (loss_limit & Hlim & Hlt).
    apply checked_i64_Some in Hlim as [_ ->].
    rewrite wrap_i64_small in Hlt by (unfold is_i64; lia). lia.
Qed.

(** The per-symbol limits. [check_order] never reads [symbol_limits]: with
    limits set for a symbol by [set_symbol_limits], whatever they are, it
    answers as without them and leaves the same manager, but for
    [symbol_limits]. *)
Theorem check_order_ignores_symbol_limits
    (tsc_frequency now_global now_create now_symbol : Z) (order : Order.t)
    (symbol_id : Z) (limits : RiskLimits.t) (s : t) :
  check_order tsc_frequency now_global now_create now_symbol order
    (set_symbol_limits symbol_id limits s) =
  (fun '(r, s') => (r, set_symbol_limits symbol_id limits s')) <$>
    check_order tsc_frequency now_global now_create now_symbol order s.
Proof.
  unfold check_order. simpl.
  destruct (check_rate_limit tsc_frequency now_global (global_rate_limiter s))
    as [[passed limiter]|]; [|done].
  simpl. destruct passed; simpl; [|done].
  unfold get_or_create_symbol_limiter. simpl.
  destruct (symbol_rate_limiters s !! Order.symbolID order) as [symbol_limiter|];
    simpl.
  all: destruct (check_rate_limit tsc_frequency now_symbol _)
         as [[passed symbol_limiter']|]; [|done].
  all: simpl; destruct passed; simpl; [|done].
  all: destruct (_ <? Order.quantity order); [done|].
  all: unfold check_price_deviation; simpl.
  all: destruct (negb _); [done|].
  all: unfold position_entry; simpl.
  all: destruct (signed_quantity _ _) as [position_change|]; simpl; [|done].
  all: destruct (checked_i64 (_ + position_change)) as [new_position|]; simpl;
         [|done].
  all: destruct (checked_i64 (Z.abs new_position)) as [abs_position|]; simpl;
         [|done].
  all: destruct (_ <? wrap64 abs_position); [done|].
  all: destruct (_ && _); [done|].
  all: destruct (checked_i64 (- _)) as [loss_limit|]; simpl; [|done].
  all: by destruct (_ <? loss_limit).
Qed.

(** A symbol without a tracker is reported as one whose tracker holds
    zeros. *)
Lemma get_position_info_default symbol_id s :
  get_position_info symbol_id s =
  let pos := default PositionTracker.zero (positions s !! symbol_id) in
  PositionInfo.mk (PositionTracker.current_position pos)
    (PositionTracker.current_notional pos) (PositionTracker.realized_pnl pos)
    (PositionTracker.vwap pos) (PositionTracker.order_count_today pos).
Proof. unfold get_position_info. by destruct (positions s !! symbol_id). Qed.

(** Orders are not counted. [check_order] changes nothing of what
    [get_position_info] reports, for any symbol, whatever it answers; and in
    a manager made by the public operations the [order_count] reported is
    0. *)
Theorem check_order_counts_nothing (n : nat) (s : t)
    (tsc_frequency now_global now_create now_symbol : Z) (order : Order.t)
    (r : RiskResult) (s' : t) (symbol_id : Z) :
  reachable n s ->
  check_order tsc_frequency now_global now_create now_symbol order s = Some (r, s') ->
  get_position_info symbol_id s' = get_position_info symbol_id s /\
  PositionInfo.order_count (get_position_info symbol_id s') = 0.
Proof.
  intros Hr Hc.
  pose proof (reachable_tracked n s' (reachable_check_order _ _ _ _ _ _ _ _ _ Hr Hc))
    as Ht.
  split.
  - apply check_order_frame in Hc as (_ & _ & _ & [Hp|Hp]);
      rewrite !get_position_info_default, Hp; [done|].
    destruct (decide (symbol_id = Order.symbolID order)) as [->|Hne].
    + by rewrite lookup_insert_eq.
    + by rewrite lookup_insert_ne.
  - rewrite get_position_info_default. apply (tracked_default n s' symbol_id Ht).
Qed.

(** Where [update_position] divides by zero. The behaviour is undefined for
    a trade that leaves [total_volume] of its symbol at 0, as a trade of
    quantity 0 in a symbol not traded before does; and for a sell that
    reduces a long position holding notional when position times trade price
    is below [PriceScale]: the proportional reduction then divides by
    [abs(old_position) * price / PriceScale = 0]. *)
Theorem update_position_divides_by_zero (trade : Trade.t) (s : t) :
  let pos := default PositionTracker.zero (positions s !! Trade.symbol_id trade) in
  (wrap64 (PositionTracker.total_volume pos + Trade.quantity trade) = 0 ->
   update_position trade s = None) /\
  (Trade.aggressor_side trade = Sell ->
   0 < Trade.quantity trade < 2 ^ 63 -> 0 < Trade.price trade ->
   0 < PositionTracker.current_position pos ->
   0 < PositionTracker.current_notional pos ->
   PositionTracker.current_position pos * Trade.price trade < PriceScale ->
   update_position trade s = None).
Proof.
  cbv zeta. split.
  - intros Hzero.
    destruct (update_position trade s) as [s'|] eqn:Hu; [|done].
    by apply update_position_tracker in Hu
      as (pos' & change & _ & _ & _ & _ & _ & _ & _ & _ & _ & _ & Hne & _).
  - intros Hside Hq Hprice Hpos Hnot Hsmall.
    unfold update_position, position_entry, signed_quantity.
    set (pos := default PositionTracker.zero (positions s !! Trade.symbol_id trade)) in *.
    rewrite Hside.
    rewrite (wrap_i64_small (Trade.quantity trade)) by (unfold is_i64; lia).
    destruct (checked_i64 (- Trade.quantity trade)) as [change|] eqn:Hchange;
      [|done].
    apply checked_i64_Some in Hchange as [_ ->]. simpl.
    destruct (update_vwap _ _ _) as [pos1|] eqn:Hvwap; [|done]. simpl.
    apply update_vwap_fields in Hvwap as (Hp1 & Hn1 & Hl1 & Hc1 & _).
    simpl in Hp1, Hn1.
    assert ((0 <? PositionTracker.current_position pos) = true) as ->
      by (apply Z.ltb_lt; lia).
    assert ((- Trade.quantity trade <? 0) = true) as -> by (apply Z.ltb_lt; lia).
    simpl.
    destruct (checked_i64 (Z.abs (- Trade.quantity trade))) as [abs_change|];
      [|done].
    simpl.
    assert ((0 <=? PositionTracker.current_position pos) = true) as ->
      by (apply Z.leb_le; lia).
    assert ((0 <? - Trade.quantity trade) = false) as -> by (apply Z.ltb_ge; lia).
    assert ((PositionTracker.current_position pos <=? 0) = false) as ->
      by (apply Z.leb_gt; lia).
    simpl. rewrite Hn1.
    assert ((0 <? PositionTracker.current_notional pos) = true) as ->
      by (apply Z.ltb_lt; lia).
    unfold PriceScale in *.
    assert (PositionTracker.current_position pos < 100000000) by nia.
    assert (checked_i64 (Z.abs (PositionTracker.current_position pos)) =
            Some (PositionTracker.current_position pos)) as ->.
    { apply checked_i64_Some. unfold is_i64. lia. }
    simpl. unfold div_u64.
    rewrite (wrap64_small (PositionTracker.current_position pos))
      by (unfold is_u64; lia).
    rewrite (wrap64_small (_ * Trade.price trade)) by (unfold is_u64; nia).
    rewrite Z.div_small by nia. done.
Qed.

(** The volume weighted average price. When the products and sums of
    [update_vwap] are unsigned 64-bit values, the [vwap] reported after
    [update_position] is at most the larger of the [vwap] reported before
    and the price of the trade. *)
Theorem update_position_vwap_bound (trade : Trade.t) (s s' : t) :
  let symbol_id := Trade.symbol_id trade in
  let pos := default PositionTracker.zero (positions s !! symbol_id) in
  let old_vwap := PositionInfo.vwap (get_position_info symbol_id s) in
  let old_volume := PositionTracker.total_volume pos in
  update_position trade s = Some s' ->
  0 <= old_vwap -> 0 <= old_volume ->
  0 <= Trade.price trade -> 0 <= Trade.quantity trade ->
  old_volume + Trade.quantity trade < 2 ^ 64 ->
  old_vwap * old_volume + Trade.price trade * Trade.quantity trade < 2 ^ 64 ->
  PositionInfo.vwap (get_position_info symbol_id s') <=
    Z.max old_vwap (Trade.price trade).
Proof.
  cbv zeta. rewrite !get_position_info_default. cbv zeta. simpl.
  intros Hu Hv HV Hp Hq Hvol Hval.
  apply update_position_tracker in Hu
    as (pos' & change & Hpos & _ & _ & _ & _ & _ & _ & _ & _ & _ & Hne & Hvwap).
  cbv zeta in *. rewrite Hpos, lookup_insert_eq. simpl. rewrite Hvwap.
  set (pos := default PositionTracker.zero (positions s !! Trade.symbol_id trade)) in *.
  set (v := PositionTracker.vwap pos) in *.
  set (V := PositionTracker.total_volume pos) in *.
  set (p := Trade.price trade) in *. set (q := Trade.quantity trade) in *.
  assert (0 <= v * V) by nia. assert (0 <= p * q) by nia.
  rewrite (wrap64_small (V + q)) in * by (unfold is_u64; lia).
  rewrite (wrap64_small (v * V)) by (unfold is_u64; lia).
  rewrite (wrap64_small (p * q)) by (unfold is_u64; lia).
  unfold PriceScale.
  pose proof (Z.mul_div_le (v * V) 100000000 ltac:(lia)).
  pose proof (Z.mul_div_le (p * q) 100000000 ltac:(lia)).
  pose proof (Z.div_pos (v * V) 100000000 ltac:(lia) ltac:(lia)).
  pose proof (Z.div_pos (p * q) 100000000 ltac:(lia) ltac:(lia)).
  set (a := v * V / 100000000) in *. set (b := p * q / 100000000) in *.
  rewrite (wrap64_small (a + b)) by (unfold is_u64; lia).
  rewrite (wrap64_small ((a + b) * 100000000)) by (unfold is_u64; lia).
  apply Z.div_le_upper_bound; [lia|]. nia.
Qed.

End RiskManagerLaws.

(** *** A long position of one unit *)

Module RiskScenario.
Import RiskManager RiskManagerLaws.

(** A buy of one unit of symbol 7 at 1.00, then a sell of it at 0.50. *)
Definition buy_one : Trade.t := Trade.mk 1 1 2 7 100000000 1 0 Buy.
Definition sell_low : Trade.t := Trade.mk 2 3 1 7 50000000 1 0 Sell.

Definition long_one : t := default (init 0) (update_position buy_one (init 0)).

(** A limit order to buy 10 units of symbol 7 at 1.00. *)
Definition order_7 : Order.t :=
  Order.mk 5 7 Buy Limit Day 100000000 10 0 Incoming 0.

Definition checked : RiskResult * t :=
  default (approved, long_one) (check_order 3000000000 0 0 0 order_7 long_one).

Lemma long_one_made : update_position buy_one (init 0) = Some long_one.
Proof. by vm_compute. Qed.

Lemma long_one_reachable : reachable 1 long_one.
Proof.
  apply (reachable_update_position 0 buy_one (init 0)); [|apply long_one_made].
  apply reachable_init.
Qed.

Lemma long_one_position :
  get_position_info 7 long_one = PositionInfo.mk 1 1 0 100000000 0.
Proof. by vm_compute. Qed.

Lemma checked_made :
  check_order 3000000000 0 0 0 order_7 long_one = Some (checked.1, checked.2).
Proof. by vm_compute. Qed.

End RiskScenario.

Lemma loss_limit_never_rejects_witness :
  0 <= RiskManager.PositionInfo.pnl
         (RiskManager.get_position_info 7 RiskScenario.long_one) /\
  forall r s',
    RiskManager.check_order 3000000000 0 0 0 RiskScenario.order_7
      RiskScenario.long_one = Some (r, s') ->
    r <> RiskManager.rejected_loss_limit.
Proof.
  apply (RiskManagerLaws.loss_limit_never_rejects 1 RiskScenario.long_one).
  - apply RiskScenario.long_one_reachable.
  - simpl. lia.
  - by vm_compute.
Defined.

Lemma check_order_counts_nothing_witness :
  RiskManager.get_position_info 7 RiskScenario.checked.2 =
    RiskManager.get_position_info 7 RiskScenario.long_one /\
  RiskManager.PositionInfo.order_count
    (RiskManager.get_position_info 7 RiskScenario.checked.2) = 0.
Proof.
  apply (RiskManagerLaws.check_order_counts_nothing 1 RiskScenario.long_one
           3000000000 0 0 0 RiskScenario.order_7 RiskScenario.checked.1).
  - apply RiskScenario.long_one_reachable.
  - apply RiskScenario.checked_made.
Defined.

Lemma update_position_divides_by_zero_witness :
  RiskManager.update_position RiskScenario.sell_low RiskScenario.long_one = None.
Proof.
  apply (proj2 (RiskManagerLaws.update_position_divides_by_zero
                  RiskScenario.sell_low RiskScenario.long_one)).
  - reflexivity.
  - simpl. lia.
  - simpl. lia.
  - by vm_compute.
  - by vm_compute.
  - by vm_compute.
Defined.

Lemma update_position_vwap_bound_witness :
  RiskManager.PositionInfo.vwap
    (RiskManager.get_position_info 7 RiskScenario.long_one) <=
  Z.max
    (RiskManager.PositionInfo.vwap
       (RiskManager.get_position_info 7 (RiskManager.init 0)))
    100000000.
Proof.
  apply (RiskManagerLaws.update_position_vwap_bound RiskScenario.buy_one
           (RiskManager.init 0) RiskScenario.long_one).
  - apply RiskScenario.long_one_made.
  - by vm_compute.
  - by vm_compute.
  - by vm_compute.
  - by vm_compute.
  - by vm_compute.
  - by vm_compute.
Defined.
